(** * A versioned virtual filesystem over a relational store

    Shallow embedding of [app/db/plugins/fs]: path validation and
    normalisation, the four tables of schema [fs], the recursive ancestry
    queries, snapshot and file resolution, merge-base discovery, three-way
    conflict detection, rebase and merge finalisation, the creation and
    look-up of repositories, branches and commits, and the convenience
    functions built from them; of the loader of the file route, which
    serves what [readFile] resolves; and of the statement builder of
    [sql.server], through which every query is issued.

    Conventions of the embedding.
    - A JavaScript string is the list of its UTF-16 code units;
      [js "/a.txt"] writes an ASCII literal.  The database stores text as
      UTF-8: the content of a file is modelled as it is stored
      ([storedText]), and [like] matches character by character.  Paths,
      names and messages are kept as they are passed, which is how the
      database stores a text without NUL and without a surrogate that
      lacks its partner ([storedAsGiven]).
    - A function that can [throw] returns a [Result]; a function that
      also issues [insert]/[update] statements is a state transformer
      [Tx] over the database, and the database it returns on [Throw] is
      the one left behind by the statements executed before the throw.
    - Tables are lists of rows in insertion order.
    - Where SQL leaves a result open (which of several rows of least key
      [limit 1] returns), the choice is a parameter, [order_by_limit_1],
      and theorems hold for every admissible choice; examples run with
      [first_least], which keeps the order in which rows are produced,
      and where rows tie also with [last_least].
    - Identifiers are taken to be well-formed UUID text, so that a
      [::UUID] cast never fails. *)

From Stdlib Require Import String Ascii.
From Stdlib Require Import List Bool Arith NArith ZArith Lia.
From Stdlib Require Import Sorting.Sorted Permutation.
Import ListNotations.

Set Implicit Arguments.

(* ================================================================= *)
(** ** Strings *)

Definition JsString := list N.

Definition js (s : string) : JsString :=
  List.map N_of_ascii (list_ascii_of_string s).

Definition SLASH : N := 47.
Definition BACKSLASH : N := 92.

Fixpoint str_eqb (a b : JsString) : bool :=
  match a, b with
  | [], [] => true
  | x :: a', y :: b' => N.eqb x y && str_eqb a' b'
  | _, _ => false
  end.

Definition opt_str_eqb (a b : option JsString) : bool :=
  match a, b with
  | None, None => true
  | Some x, Some y => str_eqb x y
  | _, _ => false
  end.

(** A JavaScript string is a sequence of UTF-16 code units; the database
    stores text as UTF-8.  A high surrogate followed by a low one is one
    character; a surrogate without its partner has no UTF-8 form and is
    encoded as U+FFFD, the replacement character, as
    [String.prototype.toWellFormed] does. *)
Definition REPLACEMENT : N := 65533.

Definition isHighSurrogate (c : N) : bool := N.leb 55296 c && N.leb c 56319.
Definition isLowSurrogate (c : N) : bool := N.leb 56320 c && N.leb c 57343.

Fixpoint toWellFormed (s : JsString) : JsString :=
  match s with
  | [] => []
  | c :: t =>
      if isHighSurrogate c
      then match t with
           | d :: t' =>
               if isLowSurrogate d then c :: d :: toWellFormed t'
               else REPLACEMENT :: toWellFormed t
           | [] => [REPLACEMENT]
           end
      else if isLowSurrogate c then REPLACEMENT :: toWellFormed t
      else c :: toWellFormed t
  end.

Definition isSurrogate (c : N) : bool :=
  isHighSurrogate c || isLowSurrogate c.

(** What the encoding does to one code unit: it is kept, or it is a
    surrogate and replaced. *)
Definition encodedUnit (a b : N) : Prop :=
  b = a \/ (isSurrogate a = true /\ b = REPLACEMENT).

(** [String.prototype.isWellFormed] *)
Definition isWellFormed (s : JsString) : bool := str_eqb (toWellFormed s) s.

(** The character a surrogate pair stands for. *)
Definition codePoint (high low : N) : N :=
  (65536 + (high - 55296) * 1024 + (low - 56320))%N.

Arguments codePoint : simpl never.

(** The characters of a text as the database sees them: the code points
    of its UTF-8 form.  A surrogate pair is one character. *)
Fixpoint characters (s : JsString) : list N :=
  match s with
  | [] => []
  | c :: t =>
      if isHighSurrogate c
      then match t with
           | d :: t' =>
               if isLowSurrogate d
               then codePoint c d :: characters t'
               else REPLACEMENT :: characters t
           | [] => [REPLACEMENT]
           end
      else if isLowSurrogate c then REPLACEMENT :: characters t
      else c :: characters t
  end.

(** [String.prototype.trim] strips the ECMAScript white space and line
    terminator code units from both ends. *)
Definition is_js_whitespace (c : N) : bool :=
  existsb (N.eqb c)
    [9; 10; 11; 12; 13; 32; 160; 5760; 8232; 8233; 8239; 8287; 12288; 65279]%N
  || (N.leb 8192 c && N.leb c 8202).

Fixpoint trimStart (s : JsString) : JsString :=
  match s with
  | [] => []
  | c :: t => if is_js_whitespace c then trimStart t else s
  end.

Definition trim (s : JsString) : JsString :=
  rev (trimStart (rev (trimStart s))).

Definition startsWithSlash (s : JsString) : bool :=
  match s with
  | c :: _ => N.eqb c SLASH
  | [] => false
  end.

Fixpoint endsWithChar (c : N) (s : JsString) : bool :=
  match s with
  | [] => false
  | [d] => N.eqb d c
  | _ :: t => endsWithChar c t
  end.

(** [s.includes("//")] *)
Fixpoint includesDoubleSlash (s : JsString) : bool :=
  match s with
  | c :: (d :: _) as t =>
      (N.eqb c SLASH && N.eqb d SLASH) || includesDoubleSlash t
  | _ => false
  end.

(** [s.replace(/\/\//g, "/")]: one left-to-right pass over the
    non-overlapping occurrences. *)
Fixpoint replaceDoubleSlash (s : JsString) : JsString :=
  match s with
  | c :: (d :: t') as t =>
      if N.eqb c SLASH && N.eqb d SLASH
      then SLASH :: replaceDoubleSlash t'
      else c :: replaceDoubleSlash t
  | _ => s
  end.

(** [s.replace(/\\/g, "/")] *)
Definition replaceBackslashes (s : JsString) : JsString :=
  List.map (fun c => if N.eqb c BACKSLASH then SLASH else c) s.

(** [while (s.includes("//")) s = s.replace(/\/\//g, "/")].  Every turn of
    the loop shortens the string, so [length s] turns are enough
    (lemma [collapseLoop_clean]). *)
Fixpoint collapseLoop (fuel : nat) (s : JsString) : JsString :=
  match fuel with
  | 0 => s
  | S fuel' =>
      if includesDoubleSlash s
      then collapseLoop fuel' (replaceDoubleSlash s)
      else s
  end.

Definition collapseSlashes (s : JsString) : JsString :=
  collapseLoop (length s) s.

(* ================================================================= *)
(** ** Errors and results *)

(** One constructor for each [throw new Error(...)] of the module, with
    the values its message interpolates, one for each constraint of the
    schema that a statement can violate, and one for the text the
    database refuses (SQLSTATE 22021). *)
Inductive Error : Type :=
| PathNullOrEmpty
| PathTooLong
| PathControlCharacters (charCode : N)
| PathInvalidOnWindows
| RootIsNotAFilePath
| ContentMustBeSpecified
| CommitIdMustBeSpecified
| CommitDoesNotExist
| LeftCommitDoesNotExist
| RightCommitDoesNotExist
| CommitsInDifferentRepositories
| NoCommonAncestor
| HeadMustBeSpecified
| BranchIdMustBeSpecified
| BranchDoesNotExist
| OntoBranchDoesNotExist
| BranchesInDifferentRepositories
| BothBranchesMustHaveCommits
| RebaseBlocked (conflictCount : nat) (branchHead ontoHead : JsString)
| ParentMustBeSpecified
| InvalidParentCommit
| MergeCommitIdMustBeSpecified
| MergeCommitDoesNotExist
| TargetBranchDoesNotExist
| BranchAndCommitInDifferentRepositories
| RootCommitNeedsEmptyBranch
| ParentMustMatchBranchHead
| MergeRequiresResolutions (missingCount : nat) (commitId : JsString)
| UniqueViolation (constraint : string)
| ForeignKeyViolation (constraint : string)
| CharacterNotInRepertoire
| QueryDoesNotTerminate.

Inductive Result (A : Type) : Type :=
| Ok (a : A)
| Throw (e : Error).

Arguments Ok {A} a.
Arguments Throw {A} e.

Definition rbind {A B} (r : Result A) (k : A -> Result B) : Result B :=
  match r with
  | Ok a => k a
  | Throw e => Throw e
  end.

Declare Scope result_scope.
Delimit Scope result_scope with result.
Notation "'do' x <- r ; k" := (rbind r (fun x => k))
  (at level 10, x name, r at level 100, k at level 200) : result_scope.
Notation "'check' r ; k" := (rbind r (fun _ => k))
  (at level 10, r at level 100, k at level 200) : result_scope.
Open Scope result_scope.

(* ================================================================= *)
(** ** Path validation and normalisation *)

Definition MAX_PATH : nat := 4096.

Definition isForbiddenControl (c : N) : bool :=
  N.ltb c 32 && negb (N.eqb c 9) && negb (N.eqb c 10) && negb (N.eqb c 13).

(** The characters that are invalid on Windows: less-than, greater-than,
    double quote, vertical bar, question mark, asterisk and colon. *)
Definition isInvalidOnWindows (c : N) : bool :=
  existsb (N.eqb c) [60; 62; 34; 124; 63; 42; 58]%N.

(** A character is acceptable to [validatePath]. *)
Definition okChar (c : N) : bool :=
  negb (isForbiddenControl c) && negb (isInvalidOnWindows c).

Definition validatePath (path : JsString) : Result unit :=
  if Nat.eqb (length (trim path)) 0 then Throw PathNullOrEmpty
  else if Nat.ltb MAX_PATH (length path) then Throw PathTooLong
  else match find isForbiddenControl path with
       | Some c => Throw (PathControlCharacters c)
       | None =>
           if existsb isInvalidOnWindows path then Throw PathInvalidOnWindows
           else Ok tt
       end.

(** The value of [normalized] when [normalizePath] reaches its final
    length check. *)
Definition canonicalForm (path : JsString) : JsString :=
  let normalized := replaceBackslashes path in
  let normalized :=
    if startsWithSlash normalized then normalized else SLASH :: normalized in
  let normalized := collapseSlashes normalized in
  if Nat.ltb 1 (length normalized) && endsWithChar SLASH normalized
  then removelast normalized
  else normalized.

(** The shape of a normalised path: it starts with a slash, holds neither
    a doubled slash nor a backslash, and ends with a slash only when it is
    the root. *)
Record Canonical (q : JsString) : Prop := mkCanonical {
  canon_starts : startsWithSlash q = true;
  canon_clean : includesDoubleSlash q = false;
  canon_no_backslash :
    forallb (fun c => negb (N.eqb c BACKSLASH)) q = true;
  canon_no_trailing : 1 < length q -> endsWithChar SLASH q = false
}.

Definition normalizePath (path : JsString) : Result JsString :=
  check validatePath path;
  let normalized := canonicalForm path in
  if Nat.ltb MAX_PATH (length normalized) then Throw PathTooLong
  else Ok normalized.

Definition normalizeFilePath (path : JsString) : Result JsString :=
  do normalized <- normalizePath path;
  if str_eqb normalized [SLASH] then Throw RootIsNotAFilePath
  else Ok normalized.

Definition normalizePathPrefix (pathPrefix : JsString) : Result JsString :=
  check validatePath pathPrefix;
  let hasTrailingSlash :=
    endsWithChar SLASH pathPrefix || endsWithChar BACKSLASH pathPrefix in
  let normalized := replaceBackslashes pathPrefix in
  let normalized :=
    if startsWithSlash normalized then normalized else SLASH :: normalized in
  let normalized := collapseSlashes normalized in
  let normalized :=
    if hasTrailingSlash && negb (str_eqb normalized [SLASH])
       && negb (endsWithChar SLASH normalized)
    then normalized ++ [SLASH] else normalized in
  if Nat.ltb MAX_PATH (length normalized) then Throw PathTooLong
  else Ok normalized.

(* ================================================================= *)
(** ** Schema [fs]

    The columns that no operation reads ([created_at], and the surrogate
    key of [fs.files]) are left out. *)

Definition Uuid := JsString.

Record Repository : Type := mkRepository {
  repo_id : Uuid;
  repo_name : JsString;
  default_branch_id : option Uuid
}.

Record Commit : Type := mkCommit {
  commit_id : Uuid;
  commit_repository_id : Uuid;
  parent_commit_id : option Uuid;
  merged_from_commit_id : option Uuid;
  commit_message : JsString
}.

Record Branch : Type := mkBranch {
  branch_id : Uuid;
  branch_repository_id : Uuid;
  branch_name : JsString;
  head_commit_id : option Uuid
}.

Record FileRow : Type := mkFileRow {
  file_commit_id : Uuid;
  path : JsString;
  previous_path : option JsString;
  content : JsString;
  is_deleted : bool;
  is_symlink : bool
}.

(** [uuid_seq] counts the identifiers drawn so far from [uuidv7()]. *)
Record DB : Type := mkDB {
  repositories : list Repository;
  commits : list Commit;
  branches : list Branch;
  files : list FileRow;
  uuid_seq : nat
}.

(** Transactions: statements executed in sequence over the database. *)
Definition Tx (A : Type) : Type := DB -> Result A * DB.

Definition tx_ret {A} (a : A) : Tx A := fun db => (Ok a, db).
Definition tx_throw {A} (e : Error) : Tx A := fun db => (Throw e, db).
Definition tx_query {A} (q : DB -> Result A) : Tx A := fun db => (q db, db).
Definition tx_bind {A B} (m : Tx A) (k : A -> Tx B) : Tx B :=
  fun db =>
    match m db with
    | (Ok a, db') => k a db'
    | (Throw e, db') => (Throw e, db')
    end.

Declare Scope tx_scope.
Delimit Scope tx_scope with tx.
Notation "'run' x <- m ; k" := (tx_bind m (fun x => k))
  (at level 10, x name, m at level 100, k at level 200) : tx_scope.
Notation "'exec' m ; k" := (tx_bind m (fun _ => k))
  (at level 10, m at level 100, k at level 200) : tx_scope.

(* ================================================================= *)
(** ** Relational operators *)

(** [with recursive t as (anchor union all step)]: the working table
    starts as the anchor rows and is replaced by the rows the recursive
    term derives from it until it is empty; the result accumulates every
    working table.  The query has no bound of its own, so the model runs
    it for [fuel] rounds and answers [None] when rows are still being
    produced after that. *)
Fixpoint recursive_cte {R : Type} (step : list R -> list R)
    (fuel : nat) (work : list R) : option (list R) :=
  match work with
  | [] => Some []
  | _ :: _ =>
      match fuel with
      | 0 => None
      | S fuel' => option_map (app work) (recursive_cte step fuel' (step work))
      end
  end.

(** [order by key asc limit 1], and [row_number() over (... order by
    key asc) = 1] within one partition.  SQL leaves open which of several
    rows of least key is returned, so the operator is a parameter of
    everything that queries: any function that answers nothing for no
    rows and otherwise a row of least key is admissible. *)
Definition Limit1 : Type := forall R : Type, (R -> nat) -> list R -> option R.

Definition admissible (limit_1 : Limit1) : Prop :=
  forall (R : Type) (key : R -> nat) (rows : list R),
    match limit_1 R key rows with
    | Some r => In r rows /\ forall r', In r' rows -> key r <= key r'
    | None => rows = []
    end.

(** One admissible operator, with which the examples are run: it keeps
    the order in which the rows were produced and returns the first row
    of least key.  Nothing is proved for it alone: where rows tie, the
    database is free to return another. *)
Fixpoint first_least (R : Type) (key : R -> nat) (rows : list R)
    : option R :=
  match rows with
  | [] => None
  | r :: rest =>
      match @first_least R key rest with
      | Some r' => if Nat.ltb (key r') (key r) then Some r' else Some r
      | None => Some r
      end
  end.

Arguments first_least : clear implicits.

(** Another admissible operator: the last row of least key. *)
Definition last_least (R : Type) (key : R -> nat) (rows : list R)
    : option R :=
  first_least R key (rev rows).

Arguments last_least : clear implicits.

(** The distinct strings of a list, in order of first occurrence: the keys
    of [group by], and the elements of a JavaScript [Set]. *)
Fixpoint distinct (l : list JsString) : list JsString :=
  match l with
  | [] => []
  | x :: t => x :: filter (fun y => negb (str_eqb y x)) (distinct t)
  end.

(** [min(...)] over the rows of a group (a group is never empty). *)
Definition list_min (l : list nat) : nat :=
  match l with
  | [] => 0
  | x :: t => fold_right Nat.min x t
  end.

(** A stable sort by insertion, for [order by] on a text column and for
    [Array.prototype.sort]. *)
Fixpoint insert_by {A : Type} (leb : A -> A -> bool) (x : A) (l : list A)
    : list A :=
  match l with
  | [] => [x]
  | y :: t => if leb x y then x :: l else y :: insert_by leb x t
  end.

Definition sort_by {A : Type} (leb : A -> A -> bool) (l : list A) : list A :=
  fold_right (insert_by leb) [] l.

(** [s like pattern], for patterns without the escape character (the
    backslash, which no normalised path holds): [%] (37) matches any run
    of characters and [_] (95) any single one.  The database matches
    character by character, not code unit by code unit. *)
Fixpoint likeCharacters (pattern s : list N) {struct pattern} : bool :=
  match pattern with
  | [] => match s with [] => true | _ :: _ => false end
  | p :: pattern' =>
      if N.eqb p 37
      then (fix any (s : list N) : bool :=
              likeCharacters pattern' s
              || match s with [] => false | _ :: s' => any s' end) s
      else match s with
           | [] => false
           | c :: s' =>
               (N.eqb p 95 || N.eqb p c) && likeCharacters pattern' s'
           end
  end.

Definition like (pattern s : JsString) : bool :=
  likeCharacters (characters pattern) (characters s).

Definition jsFalsy (s : JsString) : bool :=
  match s with [] => true | _ :: _ => false end.

Definition commitExists (db : DB) (id : Uuid) : bool :=
  existsb (fun c => str_eqb (commit_id c) id) (commits db).

(** The longest chain of distinct commits has [length (commits db)]
    members, so an ancestry query over an acyclic history has an empty
    working table after that many rounds. *)
Definition ancestry_fuel (db : DB) : nat := S (length (commits db)).

(* ================================================================= *)
(** ** Ancestry along parent links *)

Record CommitTreeRow : Type := mkCommitTreeRow {
  ct_id : Uuid;
  ct_parent_commit_id : option Uuid;
  ct_depth : nat
}.

Definition commit_tree_anchor (db : DB) (commitId : Uuid)
    : list CommitTreeRow :=
  List.map (fun c => mkCommitTreeRow (commit_id c) (parent_commit_id c) 0)
    (filter (fun c => str_eqb (commit_id c) commitId) (commits db)).

Definition commit_tree_step (db : DB) (work : list CommitTreeRow)
    : list CommitTreeRow :=
  flat_map (fun ct =>
    List.map
      (fun c => mkCommitTreeRow (commit_id c) (parent_commit_id c)
                  (S (ct_depth ct)))
      (filter (fun c => opt_str_eqb (Some (commit_id c))
                          (ct_parent_commit_id ct))
         (commits db)))
    work.

(** Rows of [commit_tree] are copies of rows of [fs.commits]. *)
Definition treeRowOf (db : DB) (r : CommitTreeRow) : Prop :=
  exists c, In c (commits db) /\ ct_id r = commit_id c
            /\ ct_parent_commit_id r = parent_commit_id c.

Definition commit_tree (db : DB) (commitId : Uuid)
    : Result (list CommitTreeRow) :=
  match recursive_cte (commit_tree_step db) (ancestry_fuel db)
          (commit_tree_anchor db commitId) with
  | Some rows => Ok rows
  | None => Throw QueryDoesNotTerminate
  end.

(* ================================================================= *)
(** ** File operations *)

Record WriteOptions : Type := mkWriteOptions {
  opt_isSymlink : option bool;
  opt_isDeleted : option bool;
  opt_previousPath : option JsString
}.

Definition noOptions : WriteOptions := mkWriteOptions None None None.

(** The text of a file as the [content] column takes it.  Content is
    whatever the caller passes: the database refuses a text that holds
    the character NUL, and every other text is stored in its UTF-8
    form. *)
Definition storedText (text : JsString) : Result JsString :=
  if existsb (N.eqb 0) text then Throw CharacterNotInRepertoire
  else Ok (toWellFormed text).

(** A text the database stores as it is given: it holds no NUL and no
    surrogate without its partner.  Paths, names and messages are kept
    here as they are passed, which is how such text is stored. *)
Definition storedAsGiven (text : JsString) : bool :=
  negb (existsb (N.eqb 0) text) && isWellFormed text.

(** The constraints of [fs.files], and the row added. *)
Definition appendFile (row : FileRow) : Tx FileRow :=
  fun db =>
    if negb (commitExists db (file_commit_id row))
    then (Throw (ForeignKeyViolation "files_commit_id_fkey"), db)
    else if existsb (fun f => str_eqb (file_commit_id f) (file_commit_id row)
                              && str_eqb (path f) (path row)) (files db)
    then (Throw (UniqueViolation "files_commit_id_path_key"), db)
    else (Ok row,
          mkDB (repositories db) (commits db) (branches db)
               (files db ++ [row]) (uuid_seq db)).

(** [insert into fs.files ... returning ...]: the values are converted
    before any constraint is looked at, and the row returned is the row
    as stored. *)
Definition insertFile (row : FileRow) : Tx FileRow :=
  fun db =>
    match storedText (content row) with
    | Throw e => (Throw e, db)
    | Ok text =>
        appendFile
          (mkFileRow (file_commit_id row) (path row) (previous_path row)
             text (is_deleted row) (is_symlink row)) db
    end.

Definition writeFile (commitId : Uuid) (path : JsString)
    (content : option JsString) (options : WriteOptions) : Tx FileRow :=
  (run normalizedPath <- tx_query (fun _ => normalizeFilePath path);
   run normalizedPreviousPath <-
     tx_query (fun _ =>
       match opt_previousPath options with
       | Some prev =>
           if jsFalsy prev then Ok None
           else do p <- normalizeFilePath prev; Ok (Some p)
       | None => Ok None
       end);
   let isDeleted :=
     match opt_isDeleted options with Some b => b | None => false end in
   let isSymlink :=
     match opt_isSymlink options with Some b => b | None => false end in
   run state <-
     tx_query (fun _ =>
       if isDeleted then Ok (false, [])
       else match content with
            | None => Throw ContentMustBeSpecified
            | Some text =>
                if isSymlink
                then do target <- normalizeFilePath text; Ok (true, target)
                else Ok (false, text)
            end);
   insertFile (mkFileRow commitId normalizedPath normalizedPreviousPath
                 (snd state) isDeleted (fst state)))%tx.

Definition moveFile (commitId : Uuid) (fromPath toPath : JsString)
    (content : option JsString) (isSymlink : option bool) : Tx FileRow :=
  writeFile commitId toPath content
    (mkWriteOptions isSymlink None (Some fromPath)).

Record FileInput : Type := mkFileInput {
  in_path : JsString;
  in_content : option JsString;
  in_isSymlink : option bool;
  in_isDeleted : option bool;
  in_previousPath : option JsString
}.

Fixpoint writeFiles (commitId : Uuid) (inputs : list FileInput)
    : Tx (list FileRow) :=
  match inputs with
  | [] => tx_ret []
  | file :: rest =>
      (run entry <- writeFile commitId (in_path file) (in_content file)
                      (mkWriteOptions (in_isSymlink file) (in_isDeleted file)
                         (in_previousPath file));
       run entries <- writeFiles commitId rest;
       tx_ret (entry :: entries))%tx
  end.

Definition deleteFile (commitId : Uuid) (path : JsString) : Tx FileRow :=
  writeFile commitId path (Some []) (mkWriteOptions None (Some true) None).

(* ================================================================= *)
(** ** The engine

    Four things come from outside the module: the way the database
    breaks ties under [limit 1]; the collation of the database, which
    decides [order by path]; the collation of the JavaScript runtime,
    which decides [localeCompare]; and the identifier source
    [uuidv7()]. *)

Section Engine.

Variable order_by_limit_1 : Limit1.
Variable sql_text_leb : JsString -> JsString -> bool.
Variable localeCompare : JsString -> JsString -> Z.
Variable uuidv7 : nat -> Uuid.

(* ----------------------------------------------------------------- *)
(** *** Reading a file *)

(** Whether a delta concerns a path: it is written there, or it moves a
    file away from there. *)
Definition touches (normalizedPath : JsString) (f : FileRow) : bool :=
  str_eqb (path f) normalizedPath
  || opt_str_eqb (previous_path f) (Some normalizedPath).

(** The rows of [file_entries]: the deltas of the ancestors that concern
    the path, each with the depth of its commit. *)
Definition file_entries (db : DB) (tree : list CommitTreeRow)
    (normalizedPath : JsString) : list (nat * FileRow) :=
  flat_map (fun ct =>
    List.map (fun f => (ct_depth ct, f))
      (filter (fun f =>
                 str_eqb (file_commit_id f) (ct_id ct)
                 && touches normalizedPath f)
         (files db)))
    tree.

Definition readFile (db : DB) (commitId : Uuid) (path_ : JsString)
    : Result (option JsString) :=
  if jsFalsy commitId then Throw CommitIdMustBeSpecified
  else if negb (commitExists db commitId) then Throw CommitDoesNotExist
  else
    do normalizedPath <- normalizePath path_;
    do tree <- commit_tree db commitId;
    match order_by_limit_1 fst (file_entries db tree normalizedPath) with
    | None => Ok None
    | Some (_, row) =>
        if is_deleted row then Ok None
        else if opt_str_eqb (previous_path row) (Some normalizedPath)
                && negb (str_eqb (path row) normalizedPath)
        then Ok None
        else Ok (Some (content row))
    end.

(* ----------------------------------------------------------------- *)
(** *** Snapshots *)

Record SnapshotEntry : Type := mkSnapshotEntry {
  se_repositoryId : Uuid;
  se_repositoryName : JsString;
  se_commitId : Uuid;
  se_path : JsString;
  se_isSymlink : bool;
  se_commitMessage : JsString
}.

Record SnapshotEntryWithContent : Type := mkSnapshotEntryWithContent {
  sc_entry : SnapshotEntry;
  sc_content : JsString
}.

Definition sc_path (e : SnapshotEntryWithContent) : JsString :=
  se_path (sc_entry e).
Definition sc_isSymlink (e : SnapshotEntryWithContent) : bool :=
  se_isSymlink (sc_entry e).

Record Operation : Type := mkOperation {
  affected_path : JsString;
  op_is_deleted : bool;
  op_is_symlink : bool;
  is_move_away : bool;
  op_depth : nat
}.

Definition filesOfCommit (db : DB) (id : Uuid) : list FileRow :=
  filter (fun f => str_eqb (file_commit_id f) id) (files db).

(** [all_operations]: the writes of the ancestors, followed by the
    implicit deletions at the paths files were moved away from. *)
Definition all_operations (db : DB) (tree : list CommitTreeRow)
    : list Operation :=
  flat_map (fun ct =>
    List.map (fun f => mkOperation (path f) (is_deleted f) (is_symlink f)
                         false (ct_depth ct))
      (filesOfCommit db (ct_id ct))) tree
  ++
  flat_map (fun ct =>
    flat_map (fun f =>
      match previous_path f with
      | Some previous => [mkOperation previous true false true (ct_depth ct)]
      | None => []
      end)
      (filesOfCommit db (ct_id ct))) tree.

(** The rows with [rn = 1]: for each affected path, the operation of
    least depth of its partition. *)
Definition most_recent_operations (ops : list Operation) : list Operation :=
  flat_map (fun p =>
    match order_by_limit_1 op_depth
            (filter (fun o => str_eqb (affected_path o) p) ops) with
    | Some o => [o]
    | None => []
    end)
    (distinct (List.map affected_path ops)).

Definition commitWithRepository (db : DB) (commitId : Uuid)
    : option (Commit * Repository) :=
  match find (fun c => str_eqb (commit_id c) commitId) (commits db) with
  | Some c =>
      match find (fun r => str_eqb (repo_id r) (commit_repository_id c))
              (repositories db) with
      | Some r => Some (c, r)
      | None => None
      end
  | None => None
  end.

Definition getCommitSnapshot (db : DB) (commitId : Uuid)
    (pathPrefix : option JsString) : Result (list SnapshotEntry) :=
  if jsFalsy commitId then Throw CommitIdMustBeSpecified
  else match commitWithRepository db commitId with
  | None => Throw CommitDoesNotExist
  | Some (commitRow, repositoryRow) =>
      do normalizedPrefix <-
        match pathPrefix with
        | Some prefix =>
            if jsFalsy prefix then Ok None
            else do p <- normalizePathPrefix prefix; Ok (Some p)
        | None => Ok None
        end;
      do tree <- commit_tree db commitId;
      let ranked :=
        most_recent_operations
          (filter (fun o =>
                     match normalizedPrefix with
                     | None => true
                     | Some prefix => like (prefix ++ [37%N]) (affected_path o)
                     end)
             (all_operations db tree)) in
      let rows :=
        sort_by (fun a b => sql_text_leb (affected_path a) (affected_path b))
          (filter (fun o => negb (op_is_deleted o)) ranked) in
      Ok (List.map (fun row =>
            mkSnapshotEntry (repo_id repositoryRow) (repo_name repositoryRow)
              (commit_id commitRow) (affected_path row) (op_is_symlink row)
              (commit_message commitRow))
            rows)
  end.

Fixpoint withContent (db : DB) (commitId : Uuid)
    (snapshot : list SnapshotEntry) : Result (list SnapshotEntryWithContent) :=
  match snapshot with
  | [] => Ok []
  | entry :: rest =>
      do content <- readFile db commitId (se_path entry);
      do results <- withContent db commitId rest;
      Ok (mkSnapshotEntryWithContent entry
            (match content with Some text => text | None => [] end)
          :: results)
  end.

Definition getCommitSnapshotWithContent (db : DB) (commitId : Uuid)
    (pathPrefix : option JsString) : Result (list SnapshotEntryWithContent) :=
  do snapshot <- getCommitSnapshot db commitId pathPrefix;
  withContent db commitId snapshot.

(* ----------------------------------------------------------------- *)
(** *** Merge base *)

Record AncestorRow : Type := mkAncestorRow {
  an_id : Uuid;
  an_parent_commit_id : option Uuid;
  an_merged_from_commit_id : option Uuid;
  an_depth : nat
}.

Definition ancestors_anchor (db : DB) (commitId : Uuid) : list AncestorRow :=
  List.map (fun c => mkAncestorRow (commit_id c) (parent_commit_id c)
                       (merged_from_commit_id c) 0)
    (filter (fun c => str_eqb (commit_id c) commitId) (commits db)).

Definition ancestors_step (db : DB) (work : list AncestorRow)
    : list AncestorRow :=
  flat_map (fun a =>
    List.map
      (fun c => mkAncestorRow (commit_id c) (parent_commit_id c)
                  (merged_from_commit_id c) (S (an_depth a)))
      (filter (fun c =>
                 opt_str_eqb (Some (commit_id c)) (an_parent_commit_id a)
                 || opt_str_eqb (Some (commit_id c))
                      (an_merged_from_commit_id a))
         (commits db)))
    work.

Definition ancestors (db : DB) (commitId : Uuid) : option (list AncestorRow) :=
  recursive_cte (ancestors_step db) (ancestry_fuel db)
    (ancestors_anchor db commitId).

(** [left_ancestors l join right_ancestors r using (id)], with the
    combined depth of each pair. *)
Definition joined_depths (lefts rights : list AncestorRow)
    : list (Uuid * nat) :=
  flat_map (fun l =>
    List.map (fun r => (an_id l, an_depth l + an_depth r))
      (filter (fun r => str_eqb (an_id l) (an_id r)) rights))
    lefts.

(** [common]: one row for each shared commit, with its least combined
    depth. *)
Definition common (lefts rights : list AncestorRow) : list (Uuid * nat) :=
  let joined := joined_depths lefts rights in
  List.map (fun id =>
    (id, list_min (List.map snd
                     (filter (fun row => str_eqb (fst row) id) joined))))
    (distinct (List.map fst joined)).

(** A commit found among the ancestors of both sides, and the sum of the
    two depths at which it was found. *)
Definition sharedAt (lefts rights : list AncestorRow) (c : Uuid) (t : nat)
    : Prop :=
  exists l r, In l lefts /\ In r rights /\ an_id l = c /\ an_id r = c
              /\ t = an_depth l + an_depth r.

Definition commitRepository (db : DB) (id : Uuid) : option Uuid :=
  option_map commit_repository_id
    (find (fun c => str_eqb (commit_id c) id) (commits db)).

Definition getMergeBase (db : DB) (leftCommitId rightCommitId : Uuid)
    : Result Uuid :=
  if jsFalsy leftCommitId || jsFalsy rightCommitId
  then Throw CommitIdMustBeSpecified
  else match commitRepository db leftCommitId with
  | None => Throw LeftCommitDoesNotExist
  | Some leftRepositoryId =>
    match commitRepository db rightCommitId with
    | None => Throw RightCommitDoesNotExist
    | Some rightRepositoryId =>
        if negb (str_eqb leftRepositoryId rightRepositoryId)
        then Throw CommitsInDifferentRepositories
        else
          match ancestors db leftCommitId, ancestors db rightCommitId with
          | Some lefts, Some rights =>
              match order_by_limit_1 snd (common lefts rights) with
              | Some baseRow => Ok (fst baseRow)
              | None => Throw NoCommonAncestor
              end
          | _, _ => Throw QueryDoesNotTerminate
          end
    end
  end.

(* ----------------------------------------------------------------- *)
(** *** Conflicts *)

Inductive ConflictKind : Type := DeleteModify | AddAdd | ModifyModify.

Record ConflictEntry : Type := mkConflictEntry {
  ce_mergeBaseCommitId : Uuid;
  ce_path : JsString;
  ce_baseExists : bool;
  ce_baseIsSymlink : bool;
  ce_baseContent : option JsString;
  ce_leftExists : bool;
  ce_leftIsSymlink : bool;
  ce_leftContent : option JsString;
  ce_rightExists : bool;
  ce_rightIsSymlink : bool;
  ce_rightContent : option JsString;
  ce_conflictKind : ConflictKind
}.

(** [new Map(snapshot.map((e) => [e.path, e])).get(path)]: a later pair
    with the same key replaces the value of an earlier one. *)
Definition mapGet (entries : list SnapshotEntryWithContent) (p : JsString)
    : option SnapshotEntryWithContent :=
  find (fun e => str_eqb (sc_path e) p) (rev entries).

Definition isSome {A} (o : option A) : bool :=
  match o with Some _ => true | None => false end.

Definition orFalse (o : option bool) : bool :=
  match o with Some b => b | None => false end.

Definition orEmpty (o : option JsString) : JsString :=
  match o with Some s => s | None => [] end.

Definition opt_bool_eqb (a b : option bool) : bool :=
  match a, b with
  | None, None => true
  | Some x, Some y => Bool.eqb x y
  | _, _ => false
  end.

Definition conflictAt (mergeBaseCommitId : Uuid)
    (baseSnapshot leftSnapshot rightSnapshot : list SnapshotEntryWithContent)
    (p : JsString) : option ConflictEntry :=
  let base := mapGet baseSnapshot p in
  let left := mapGet leftSnapshot p in
  let right := mapGet rightSnapshot p in
  let baseExists := isSome base in
  let leftExists := isSome left in
  let rightExists := isSome right in
  let baseIsSymlink := orFalse (option_map sc_isSymlink base) in
  let leftIsSymlink := orFalse (option_map sc_isSymlink left) in
  let rightIsSymlink := orFalse (option_map sc_isSymlink right) in
  let baseContent := option_map sc_content base in
  let leftContent := option_map sc_content left in
  let rightContent := option_map sc_content right in
  let leftChanged :=
    negb (Bool.eqb leftExists baseExists)
    || negb (Bool.eqb leftIsSymlink baseIsSymlink)
    || negb (opt_str_eqb leftContent baseContent) in
  let rightChanged :=
    negb (Bool.eqb rightExists baseExists)
    || negb (Bool.eqb rightIsSymlink baseIsSymlink)
    || negb (opt_str_eqb rightContent baseContent) in
  let sidesDiffer :=
    negb (Bool.eqb leftExists rightExists)
    || negb (Bool.eqb leftIsSymlink rightIsSymlink)
    || negb (opt_str_eqb leftContent rightContent) in
  if leftChanged && rightChanged && sidesDiffer
  then
    let conflictKind :=
      if baseExists && (negb leftExists || negb rightExists) then DeleteModify
      else if negb baseExists && leftExists && rightExists then AddAdd
      else ModifyModify in
    Some (mkConflictEntry mergeBaseCommitId p baseExists baseIsSymlink
            baseContent leftExists leftIsSymlink leftContent rightExists
            rightIsSymlink rightContent conflictKind)
  else None.

Definition allPathsOf (snapshots : list (list SnapshotEntryWithContent))
    : list JsString :=
  distinct (flat_map (List.map sc_path) snapshots).

Definition conflict_leb (a b : ConflictEntry) : bool :=
  Z.leb (localeCompare (ce_path a) (ce_path b)) 0.

Definition getConflicts (db : DB) (leftCommitId rightCommitId : Uuid)
    : Result (list ConflictEntry) :=
  do mergeBaseCommitId <- getMergeBase db leftCommitId rightCommitId;
  do baseSnapshot <- getCommitSnapshotWithContent db mergeBaseCommitId None;
  do leftSnapshot <- getCommitSnapshotWithContent db leftCommitId None;
  do rightSnapshot <- getCommitSnapshotWithContent db rightCommitId None;
  let allPaths := allPathsOf [baseSnapshot; leftSnapshot; rightSnapshot] in
  let conflicts :=
    flat_map (fun p =>
      match conflictAt mergeBaseCommitId baseSnapshot leftSnapshot
              rightSnapshot p with
      | Some c => [c]
      | None => []
      end) allPaths in
  Ok (sort_by conflict_leb conflicts).

(* ----------------------------------------------------------------- *)
(** *** Branch heads and commits *)

Definition branchById (db : DB) (id : Uuid) : option Branch :=
  find (fun b => str_eqb (branch_id b) id) (branches db).

Definition commitInRepository (db : DB) (id repositoryId : Uuid) : bool :=
  existsb (fun c => str_eqb (commit_id c) id
                    && str_eqb (commit_repository_id c) repositoryId)
    (commits db).

Definition setHead (branchId headCommitId : Uuid) (b : Branch) : Branch :=
  if str_eqb (branch_id b) branchId
  then mkBranch (branch_id b) (branch_repository_id b) (branch_name b)
         (Some headCommitId)
  else b.

Definition updateBranchHead (branchId headCommitId : Uuid) : Tx unit :=
  fun db =>
    if existsb (fun b => str_eqb (branch_id b) branchId
                         && negb (commitInRepository db headCommitId
                                    (branch_repository_id b)))
         (branches db)
    then (Throw (ForeignKeyViolation "branches_head_commit_same_repo_fk"), db)
    else (Ok tt,
          mkDB (repositories db) (commits db)
               (List.map (setHead branchId headCommitId) (branches db))
               (files db) (uuid_seq db)).

(** The head of the default branch of a repository, when the join of
    [fs.repositories] with [fs.branches] has a row and its head is set. *)
Definition defaultBranchHead (db : DB) (repositoryId : Uuid) : option Uuid :=
  match find (fun r => str_eqb (repo_id r) repositoryId) (repositories db) with
  | Some r =>
      match default_branch_id r with
      | Some defaultBranchId =>
          match branchById db defaultBranchId with
          | Some b =>
              match head_commit_id b with
              | Some h => if jsFalsy h then None else Some h
              | None => None
              end
          | None => None
          end
      | None => None
      end
  | None => None
  end.

Definition optCommitInRepository (db : DB) (id : option Uuid)
    (repositoryId : Uuid) : bool :=
  match id with
  | Some i => commitInRepository db i repositoryId
  | None => true
  end.

(** [insert into fs.commits], with the constraints of the table checked
    in turn: primary key, owning repository, parent and merged-from commit
    in the same repository, and at most one root for each repository. *)
Definition insertCommit (repositoryId : Uuid) (message : JsString)
    (parentCommitId mergedFromCommitId : option Uuid) : Tx Commit :=
  fun db =>
    let row := mkCommit (uuidv7 (uuid_seq db)) repositoryId parentCommitId
                 mergedFromCommitId message in
    let db1 := mkDB (repositories db) (commits db) (branches db) (files db)
                 (S (uuid_seq db)) in
    if commitExists db (commit_id row)
    then (Throw (UniqueViolation "commits_pkey"), db1)
    else if negb (existsb (fun r => str_eqb (repo_id r) repositoryId)
                    (repositories db))
    then (Throw (ForeignKeyViolation "commits_repository_id_fkey"), db1)
    else if negb (optCommitInRepository db parentCommitId repositoryId)
    then (Throw (ForeignKeyViolation "commits_parent_same_repo_fk"), db1)
    else if negb (optCommitInRepository db mergedFromCommitId repositoryId)
    then (Throw (ForeignKeyViolation "commits_merged_from_same_repo_fk"), db1)
    else if negb (isSome parentCommitId)
            && existsb (fun c => str_eqb (commit_repository_id c) repositoryId
                                 && negb (isSome (parent_commit_id c)))
                 (commits db)
    then (Throw (UniqueViolation "commits_one_root_per_repo_idx"), db1)
    else (Ok row,
          mkDB (repositories db) (commits db ++ [row]) (branches db)
               (files db) (S (uuid_seq db))).

(** [parentCommitId] is [None] when the argument is omitted,
    [Some None] for an explicit [null]. *)
Definition createCommit (repositoryId : Uuid) (message : JsString)
    (parentCommitId : option (option Uuid))
    (mergedFromCommitId : option Uuid) : Tx Commit :=
  (run resolvedParentCommitId <-
     tx_query (fun db =>
       match parentCommitId with
       | Some given => Ok given
       | None =>
           match defaultBranchHead db repositoryId with
           | Some h => Ok (Some h)
           | None =>
               if existsb (fun c => str_eqb (commit_repository_id c)
                                      repositoryId) (commits db)
               then Throw ParentMustBeSpecified
               else Ok None
           end
       end);
   exec tx_query (fun db =>
       match resolvedParentCommitId with
       | Some p =>
           if commitInRepository db p repositoryId then Ok tt
           else Throw InvalidParentCommit
       | None => Ok tt
       end);
   insertCommit repositoryId message resolvedParentCommitId
     mergedFromCommitId)%tx.

(** [headCommitId] is [None] when the argument is omitted or [null]. *)
Definition createBranch (repositoryId : Uuid) (name : JsString)
    (headCommitId : option Uuid) : Tx Branch :=
  (run resolvedHeadCommitId <-
     tx_query (fun db =>
       match headCommitId with
       | Some given => Ok (Some given)
       | None =>
           match defaultBranchHead db repositoryId with
           | Some h => Ok (Some h)
           | None =>
               if existsb (fun c => str_eqb (commit_repository_id c)
                                      repositoryId) (commits db)
               then Throw HeadMustBeSpecified
               else Ok None
           end
       end);
   fun db =>
     let row := mkBranch (uuidv7 (uuid_seq db)) repositoryId name
                  resolvedHeadCommitId in
     let db1 := mkDB (repositories db) (commits db) (branches db) (files db)
                  (S (uuid_seq db)) in
     if existsb (fun b => str_eqb (branch_id b) (branch_id row)) (branches db)
     then (Throw (UniqueViolation "branches_pkey"), db1)
     else if negb (existsb (fun r => str_eqb (repo_id r) repositoryId)
                     (repositories db))
     then (Throw (ForeignKeyViolation "branches_repository_id_fkey"), db1)
     else if existsb (fun b => str_eqb (branch_repository_id b) repositoryId
                               && str_eqb (branch_name b) name) (branches db)
     then (Throw (UniqueViolation "branches_repository_id_name_key"), db1)
     else if negb (optCommitInRepository db resolvedHeadCommitId repositoryId)
     then (Throw (ForeignKeyViolation "branches_head_commit_same_repo_fk"),
           db1)
     else (Ok row,
           mkDB (repositories db) (commits db) (branches db ++ [row])
                (files db) (S (uuid_seq db))))%tx.

(* ----------------------------------------------------------------- *)
(** *** Replaying net changes *)

(** Whether [side] differs from [base] in existence, symlink flag or
    content, as [rebaseBranch] and [finalizeCommit] compare them (an
    absent entry has [undefined] fields). *)
Definition changedFrom (side base : option SnapshotEntryWithContent) : bool :=
  negb (Bool.eqb (isSome side) (isSome base))
  || negb (opt_bool_eqb (option_map sc_isSymlink side)
             (option_map sc_isSymlink base))
  || negb (opt_str_eqb (option_map sc_content side)
             (option_map sc_content base)).

Inductive Change : Type :=
| Keep
| NeedDelete
| NeedWrite (desiredContent : JsString) (desiredIsSymlink : bool).

(** The change that brings [target] to the desired state: the state of
    [source] where [source] changed from [base], the state of [target]
    elsewhere. *)
Definition changeFor (base target source : option SnapshotEntryWithContent)
    : Change :=
  let sourceChanged := changedFrom source base in
  let desiredExists := if sourceChanged then isSome source else isSome target in
  let desiredIsSymlink :=
    if sourceChanged then orFalse (option_map sc_isSymlink source)
    else orFalse (option_map sc_isSymlink target) in
  let desiredContent :=
    if sourceChanged then orEmpty (option_map sc_content source)
    else orEmpty (option_map sc_content target) in
  let targetExists := isSome target in
  let targetIsSymlink := orFalse (option_map sc_isSymlink target) in
  let targetContent := orEmpty (option_map sc_content target) in
  let needDelete := negb desiredExists && targetExists in
  let needWrite :=
    desiredExists
    && (negb targetExists
        || negb (Bool.eqb targetIsSymlink desiredIsSymlink)
        || negb (str_eqb targetContent desiredContent)) in
  if needDelete then NeedDelete
  else if needWrite then NeedWrite desiredContent desiredIsSymlink
  else Keep.

(* ----------------------------------------------------------------- *)
(** *** Rebase *)

Inductive RebaseOperation : Type :=
| Noop | AlreadyUpToDate | FastForward | Rebased.

Record RebaseResult : Type := mkRebaseResult {
  rb_operation : RebaseOperation;
  rb_repositoryId : Uuid;
  rb_branchId : Uuid;
  rb_ontoBranchId : Uuid;
  rb_mergeBaseCommitId : option Uuid;
  rb_previousBranchHeadCommitId : option Uuid;
  rb_ontoHeadCommitId : option Uuid;
  rb_rebasedCommitId : option Uuid;
  rb_newBranchHeadCommitId : option Uuid;
  rb_appliedFileCount : nat
}.

Definition filesToWrite
    (baseSnapshot ontoSnapshot branchSnapshot : list SnapshotEntryWithContent)
    : list FileInput :=
  flat_map (fun p =>
    match changeFor (mapGet baseSnapshot p) (mapGet ontoSnapshot p)
            (mapGet branchSnapshot p) with
    | NeedDelete => [mkFileInput p (Some []) (Some false) (Some true) None]
    | NeedWrite desiredContent desiredIsSymlink =>
        [mkFileInput p (Some desiredContent) (Some desiredIsSymlink)
           (Some false) None]
    | Keep => []
    end)
    (allPathsOf [baseSnapshot; ontoSnapshot; branchSnapshot]).

Definition truthyId (id : option Uuid) : option Uuid :=
  match id with
  | Some i => if jsFalsy i then None else Some i
  | None => None
  end.

Definition rebaseBranch (branchId ontoBranchId : Uuid)
    (message : option JsString) : Tx RebaseResult :=
  if jsFalsy branchId || jsFalsy ontoBranchId
  then tx_throw BranchIdMustBeSpecified
  else
  (run branchRow <- tx_query (fun db =>
     match branchById db branchId with
     | Some b => Ok b
     | None => Throw BranchDoesNotExist
     end);
   run ontoRow <- tx_query (fun db =>
     match branchById db ontoBranchId with
     | Some b => Ok b
     | None => Throw OntoBranchDoesNotExist
     end);
   if negb (str_eqb (branch_repository_id branchRow)
              (branch_repository_id ontoRow))
   then tx_throw BranchesInDifferentRepositories
   else
   let repositoryId := branch_repository_id branchRow in
   if str_eqb branchId ontoBranchId
   then tx_ret (mkRebaseResult Noop repositoryId branchId ontoBranchId
                  (head_commit_id branchRow) (head_commit_id branchRow)
                  (head_commit_id ontoRow) None (head_commit_id branchRow) 0)
   else
   match truthyId (head_commit_id branchRow),
         truthyId (head_commit_id ontoRow) with
   | Some branchHeadCommitId, Some ontoHeadCommitId =>
     run mergeBaseCommitId <- tx_query (fun db =>
       getMergeBase db branchHeadCommitId ontoHeadCommitId);
     let result operation rebasedCommitId newHead count :=
       mkRebaseResult operation repositoryId branchId ontoBranchId
         (Some mergeBaseCommitId) (Some branchHeadCommitId)
         (Some ontoHeadCommitId) rebasedCommitId (Some newHead) count in
     if str_eqb mergeBaseCommitId ontoHeadCommitId
     then tx_ret (result AlreadyUpToDate None branchHeadCommitId 0)
     else if str_eqb mergeBaseCommitId branchHeadCommitId
     then exec updateBranchHead branchId ontoHeadCommitId;
          tx_ret (result FastForward None ontoHeadCommitId 0)
     else
     run conflicts <- tx_query (fun db =>
       getConflicts db branchHeadCommitId ontoHeadCommitId);
     if Nat.ltb 0 (length conflicts)
     then tx_throw (RebaseBlocked (length conflicts) branchHeadCommitId
                      ontoHeadCommitId)
     else
     run baseSnapshot <- tx_query (fun db =>
       getCommitSnapshotWithContent db mergeBaseCommitId None);
     run ontoSnapshot <- tx_query (fun db =>
       getCommitSnapshotWithContent db ontoHeadCommitId None);
     run branchSnapshot <- tx_query (fun db =>
       getCommitSnapshotWithContent db branchHeadCommitId None);
     let patch := filesToWrite baseSnapshot ontoSnapshot branchSnapshot in
     if Nat.eqb (length patch) 0
     then exec updateBranchHead branchId ontoHeadCommitId;
          tx_ret (result FastForward None ontoHeadCommitId 0)
     else
     run rebasedCommit <-
       createCommit repositoryId
         (match message with Some m => m | None => js "rebase" end)
         (Some (Some ontoHeadCommitId)) None;
     exec writeFiles (commit_id rebasedCommit) patch;
     exec updateBranchHead branchId (commit_id rebasedCommit);
     tx_ret (result Rebased (Some (commit_id rebasedCommit))
               (commit_id rebasedCommit) (length patch))
   | _, _ => tx_throw BothBranchesMustHaveCommits
   end)%tx.

(* ----------------------------------------------------------------- *)
(** *** Finalising a merge commit *)

Inductive FinalizeOperation : Type :=
| FinalizeFastForward | Merged | MergedWithConflictsResolved
| FinalizeAlreadyUpToDate.

Record FinalizeResult : Type := mkFinalizeResult {
  fin_operation : FinalizeOperation;
  fin_repositoryId : Uuid;
  fin_targetBranchId : option Uuid;
  fin_mergeBaseCommitId : option Uuid;
  fin_previousTargetHeadCommitId : option Uuid;
  fin_sourceCommitId : option Uuid;
  fin_mergeCommitId : Uuid;
  fin_newTargetHeadCommitId : option Uuid;
  fin_appliedFileCount : nat
}.

(** [select path from fs.files where commit_id = commitId] *)
Definition writtenPaths (db : DB) (commitId : Uuid) : list JsString :=
  List.map path (filesOfCommit db commitId).

Definition setHas (s : list JsString) (p : JsString) : bool :=
  existsb (str_eqb p) s.

(** The conflicts whose path has no row in the merge commit. *)
Definition missingResolutions (db : DB) (commitId : Uuid)
    (conflicts : list ConflictEntry) : list ConflictEntry :=
  filter (fun c => negb (setHas (writtenPaths db commitId) (ce_path c)))
    conflicts.

(** The loop over [allPaths]: one [writeFile] for each path the caller
    has not written and whose desired state differs from the target. *)
Fixpoint applyChanges (commitId : Uuid)
    (baseSnapshot targetSnapshot sourceSnapshot :
       list SnapshotEntryWithContent)
    (userWritePaths allPaths : list JsString) (appliedFileCount : nat)
    : Tx nat :=
  match allPaths with
  | [] => tx_ret appliedFileCount
  | p :: rest =>
      let continue count :=
        applyChanges commitId baseSnapshot targetSnapshot sourceSnapshot
          userWritePaths rest count in
      if setHas userWritePaths p then continue appliedFileCount
      else
        match changeFor (mapGet baseSnapshot p) (mapGet targetSnapshot p)
                (mapGet sourceSnapshot p) with
        | NeedDelete =>
            (exec writeFile commitId p (Some [])
                    (mkWriteOptions None (Some true) None);
             continue (S appliedFileCount))%tx
        | NeedWrite desiredContent desiredIsSymlink =>
            (exec writeFile commitId p (Some desiredContent)
                    (mkWriteOptions (Some desiredIsSymlink) None None);
             continue (S appliedFileCount))%tx
        | Keep => continue appliedFileCount
        end
  end.

(** The head the commit is finalised against: the head of the target
    branch, which must be the parent of the commit (both absent for a root
    commit), or the parent itself when no branch is given. *)
Definition targetHeadFor (db : DB) (repositoryId : Uuid)
    (parentCommitId target : option Uuid) : Result (option Uuid) :=
  match target with
  | Some branchId =>
      match branchById db branchId with
      | None => Throw TargetBranchDoesNotExist
      | Some branchRow =>
          if negb (str_eqb (branch_repository_id branchRow) repositoryId)
          then Throw BranchAndCommitInDifferentRepositories
          else
            match parentCommitId with
            | None =>
                if isSome (head_commit_id branchRow)
                then Throw RootCommitNeedsEmptyBranch
                else Ok (head_commit_id branchRow)
            | Some _ =>
                if negb (opt_str_eqb parentCommitId
                           (head_commit_id branchRow))
                then Throw ParentMustMatchBranchHead
                else Ok (head_commit_id branchRow)
            end
      end
  | None => Ok parentCommitId
  end.

(** A [null] head passed on through the non-null assertion is as falsy
    as the empty string, and the callee tests nothing else before it
    throws. *)
Definition assertNonNull (id : option Uuid) : Uuid :=
  match id with Some i => i | None => [] end.

Definition finalizeCommit (commitId : Uuid) (targetBranchId : option Uuid)
    : Tx FinalizeResult :=
  if jsFalsy commitId then tx_throw MergeCommitIdMustBeSpecified
  else
  (run mergeCommitRow <- tx_query (fun db =>
     match find (fun c => str_eqb (commit_id c) commitId) (commits db) with
     | Some c => Ok c
     | None => Throw MergeCommitDoesNotExist
     end);
   let repositoryId := commit_repository_id mergeCommitRow in
   let parentCommitId := parent_commit_id mergeCommitRow in
   let mergedFromCommitId := merged_from_commit_id mergeCommitRow in
   let target := truthyId targetBranchId in
   run branchHeadCommitId <- tx_query (fun db =>
     targetHeadFor db repositoryId parentCommitId target);
   let advance : Tx unit :=
     match target with
     | Some branchId => updateBranchHead branchId commitId
     | None => tx_ret tt
     end in
   let newTargetHead :=
     match target with Some _ => Some commitId | None => None end in
   match mergedFromCommitId with
   | None =>
       exec advance;
       tx_ret (mkFinalizeResult FinalizeFastForward repositoryId targetBranchId
                 parentCommitId branchHeadCommitId None commitId
                 newTargetHead 0)
   | Some sourceCommitId =>
       let targetHead := assertNonNull branchHeadCommitId in
       run mergeBaseCommitId <- tx_query (fun db =>
         getMergeBase db targetHead sourceCommitId);
       run conflicts <- tx_query (fun db =>
         getConflicts db targetHead sourceCommitId);
       run missing <- tx_query (fun db =>
         Ok (if Nat.ltb 0 (length conflicts)
             then missingResolutions db commitId conflicts
             else []));
       if Nat.ltb 0 (length missing)
       then tx_throw (MergeRequiresResolutions (length missing) commitId)
       else
       run baseSnapshot <- tx_query (fun db =>
         getCommitSnapshotWithContent db mergeBaseCommitId None);
       run targetSnapshot <- tx_query (fun db =>
         getCommitSnapshotWithContent db targetHead None);
       run sourceSnapshot <- tx_query (fun db =>
         getCommitSnapshotWithContent db sourceCommitId None);
       run userWritePaths <- tx_query (fun db =>
         Ok (distinct (writtenPaths db commitId)));
       let allPaths :=
         distinct (flat_map (List.map sc_path)
                     [baseSnapshot; targetSnapshot; sourceSnapshot]
                   ++ userWritePaths) in
       run appliedFileCount <-
         applyChanges commitId baseSnapshot targetSnapshot sourceSnapshot
           userWritePaths allPaths 0;
       exec advance;
       let operation :=
         if str_eqb mergeBaseCommitId sourceCommitId
         then FinalizeAlreadyUpToDate
         else if Nat.ltb 0 (length conflicts) then MergedWithConflictsResolved
         else Merged in
       tx_ret (mkFinalizeResult operation repositoryId targetBranchId
                 (Some mergeBaseCommitId) branchHeadCommitId
                 (Some sourceCommitId) commitId newTargetHead appliedFileCount)
   end)%tx.

End Engine.

(* ================================================================= *)
(** ** Concrete collations, identifiers and histories

    Used to run the engine on examples: both collations compare code
    units, and the n-th identifier is [u] followed by the code unit
    [48 + n]. *)

Fixpoint codeUnitCompare (a b : JsString) : Z :=
  match a, b with
  | [], [] => 0
  | [], _ :: _ => -1
  | _ :: _, [] => 1
  | x :: a', y :: b' =>
      match N.compare x y with
      | Lt => -1
      | Gt => 1
      | Eq => codeUnitCompare a' b'
      end
  end.

Definition codeUnitLeb (a b : JsString) : bool :=
  Z.leb (codeUnitCompare a b) 0.

Definition seqUuid (n : nat) : Uuid := js "u" ++ [(48 + N.of_nat n)%N].

(* ================================================================= *)
(** ** Constraints of the schema, as checks on a database *)

Definition optIn (id : option Uuid) (seen : list Uuid) : bool :=
  match id with
  | Some i => existsb (str_eqb i) seen
  | None => true
  end.

(** Commits are only ever inserted, and the foreign keys of [fs.commits]
    make the parent and the merged-from commit exist at that moment: in
    insertion order every commit has a fresh identifier and refers to
    earlier commits only. *)
Fixpoint history_ok_from (seen : list Uuid) (cs : list Commit) : bool :=
  match cs with
  | [] => true
  | c :: rest =>
      negb (existsb (str_eqb (commit_id c)) seen)
      && optIn (parent_commit_id c) seen
      && optIn (merged_from_commit_id c) seen
      && history_ok_from (commit_id c :: seen) rest
  end.

Definition history_ok (db : DB) : bool := history_ok_from [] (commits db).

(** [unique (commit_id, path)] on [fs.files]. *)
Fixpoint files_unique_rows (rows : list FileRow) : bool :=
  match rows with
  | [] => true
  | f :: rest =>
      negb (existsb (fun g => str_eqb (file_commit_id g) (file_commit_id f)
                              && str_eqb (path g) (path f)) rest)
      && files_unique_rows rest
  end.

Definition files_unique (db : DB) : bool := files_unique_rows (files db).

(** The position of an identifier in a list of identifiers. *)
Fixpoint position (id : Uuid) (ids : list Uuid) : nat :=
  match ids with
  | [] => 0
  | x :: rest => if str_eqb x id then 0 else S (position id rest)
  end.

(* ================================================================= *)
(** ** Example histories, built with the operations of the module *)

Definition R1 : Uuid := js "R".

Definition emptyRepository : DB :=
  mkDB [mkRepository R1 (js "repo") (Some (js "main"))] []
       [mkBranch (js "main") R1 (js "main") None] [] 0.

Definition dbAfter {A} (script : Tx A) : DB := snd (script emptyRepository).

(** [/a.txt] is written in the root commit, deleted in its child, and
    the grandchild writes an unrelated file. *)
Definition tombstoneHistory : Tx unit :=
  (exec createCommit seqUuid R1 (js "init") (Some None) None;
   exec writeFile (js "u0") (js "/a.txt") (Some (js "hello")) noOptions;
   exec createCommit seqUuid R1 (js "delete") (Some (Some (js "u0"))) None;
   exec deleteFile (js "u1") (js "/a.txt");
   exec createCommit seqUuid R1 (js "more") (Some (Some (js "u1"))) None;
   exec writeFile (js "u2") (js "/b.txt") (Some (js "new")) noOptions;
   tx_ret tt)%tx.

(** [/a.txt] is written in the root commit and moved to [/b.txt] in its
    child. *)
Definition renameHistory : Tx unit :=
  (exec createCommit seqUuid R1 (js "init") (Some None) None;
   exec writeFile (js "u0") (js "/a.txt") (Some (js "hello")) noOptions;
   exec createCommit seqUuid R1 (js "move") (Some (Some (js "u0"))) None;
   exec moveFile (js "u1") (js "/a.txt") (js "/b.txt") (Some (js "hello"))
          None;
   tx_ret tt)%tx.

(** The child commit records a deletion of [/b.txt] that carries
    [previousPath = /a.txt]. *)
Definition deletedRenameHistory : Tx unit :=
  (exec createCommit seqUuid R1 (js "init") (Some None) None;
   exec writeFile (js "u0") (js "/a.txt") (Some (js "hello")) noOptions;
   exec createCommit seqUuid R1 (js "move") (Some (Some (js "u0"))) None;
   exec writeFile (js "u1") (js "/b.txt") (Some (js "hello"))
          (mkWriteOptions None (Some true) (Some (js "/a.txt")));
   tx_ret tt)%tx.

(** The child commit writes [/a.txt] anew and also moves [/a.txt] to
    [/b.txt]. *)
Definition rewriteAndMoveHistory : Tx unit :=
  (exec createCommit seqUuid R1 (js "init") (Some None) None;
   exec writeFile (js "u0") (js "/a.txt") (Some (js "hello")) noOptions;
   exec createCommit seqUuid R1 (js "both") (Some (Some (js "u0"))) None;
   exec writeFile (js "u1") (js "/a.txt") (Some (js "again")) noOptions;
   exec moveFile (js "u1") (js "/a.txt") (js "/b.txt") (Some (js "hello"))
          None;
   tx_ret tt)%tx.

(** Two histories that cross: [u5] has parent [u1] and merges [u3], a
    child of [u2]; [u6] has parent [u2] and merges [u4], a child of
    [u1]. *)
Definition crossedHistory : Tx unit :=
  (exec createCommit seqUuid R1 (js "root") (Some None) None;
   exec createCommit seqUuid R1 (js "x") (Some (Some (js "u0"))) None;
   exec createCommit seqUuid R1 (js "y") (Some (Some (js "u0"))) None;
   exec createCommit seqUuid R1 (js "m") (Some (Some (js "u2"))) None;
   exec createCommit seqUuid R1 (js "n") (Some (Some (js "u1"))) None;
   exec createCommit seqUuid R1 (js "left") (Some (Some (js "u1")))
          (Some (js "u3"));
   exec createCommit seqUuid R1 (js "right") (Some (Some (js "u2")))
          (Some (js "u4"));
   tx_ret tt)%tx.

(** The root commit [u0] writes [/a.txt]; [u1] changes it and is the
    head of branch [u3] (feature); [u2] adds [/b.txt] and is the head of
    [main]. *)
Definition divergedHistory : Tx unit :=
  (exec createCommit seqUuid R1 (js "init") (Some None) None;
   exec writeFile (js "u0") (js "/a.txt") (Some (js "hello")) noOptions;
   exec createCommit seqUuid R1 (js "feature") (Some (Some (js "u0"))) None;
   exec writeFile (js "u1") (js "/a.txt") (Some (js "world")) noOptions;
   exec createCommit seqUuid R1 (js "main") (Some (Some (js "u0"))) None;
   exec writeFile (js "u2") (js "/b.txt") (Some (js "new")) noOptions;
   exec updateBranchHead (js "main") (js "u2");
   exec createBranch seqUuid R1 (js "feature") (Some (js "u1"));
   tx_ret tt)%tx.

(** Both [u1], the head of branch [u3] (feature), and [u2], the head of
    [main], change the file [p] of the root commit, each in its own way,
    and [u1] also adds [/c.txt]. *)
Definition conflictHistoryAt (p : JsString) : Tx unit :=
  (exec createCommit seqUuid R1 (js "init") (Some None) None;
   exec writeFile (js "u0") p (Some (js "hello")) noOptions;
   exec createCommit seqUuid R1 (js "feature") (Some (Some (js "u0"))) None;
   exec writeFile (js "u1") p (Some (js "left")) noOptions;
   exec writeFile (js "u1") (js "/c.txt") (Some (js "extra")) noOptions;
   exec createCommit seqUuid R1 (js "main") (Some (Some (js "u0"))) None;
   exec writeFile (js "u2") p (Some (js "right")) noOptions;
   exec updateBranchHead (js "main") (js "u2");
   exec createBranch seqUuid R1 (js "feature") (Some (js "u1"));
   tx_ret tt)%tx.

Definition conflictHistory : Tx unit := conflictHistoryAt (js "/a.txt").

(** The root commit [u0] holds [/a.txt] and [/d.txt].  [u1] rewrites
    [/a.txt], deletes [/d.txt] and adds [/n.txt] and [/c.txt]; [u2]
    rewrites [/a.txt] otherwise, rewrites [/d.txt] and adds [/n.txt] with
    another text. *)
Definition threeWayHistory : Tx unit :=
  (exec createCommit seqUuid R1 (js "init") (Some None) None;
   exec writeFile (js "u0") (js "/a.txt") (Some (js "hello")) noOptions;
   exec writeFile (js "u0") (js "/d.txt") (Some (js "old")) noOptions;
   exec createCommit seqUuid R1 (js "feature") (Some (Some (js "u0"))) None;
   exec writeFile (js "u1") (js "/a.txt") (Some (js "left")) noOptions;
   exec deleteFile (js "u1") (js "/d.txt");
   exec writeFile (js "u1") (js "/n.txt") (Some (js "L")) noOptions;
   exec writeFile (js "u1") (js "/c.txt") (Some (js "extra")) noOptions;
   exec createCommit seqUuid R1 (js "main") (Some (Some (js "u0"))) None;
   exec writeFile (js "u2") (js "/a.txt") (Some (js "right")) noOptions;
   exec writeFile (js "u2") (js "/d.txt") (Some (js "kept")) noOptions;
   exec writeFile (js "u2") (js "/n.txt") (Some (js "R")) noOptions;
   tx_ret tt)%tx.

(** The same, followed by the merge commit [u4] of [u1] into [main],
    with no resolution recorded. *)
Definition mergeHistoryAt (p : JsString) : Tx unit :=
  (exec conflictHistoryAt p;
   exec createCommit seqUuid R1 (js "merge") (Some (Some (js "u2")))
          (Some (js "u1"));
   tx_ret tt)%tx.

(** A branch [u1] (stale) left at the root commit while [main] moved on
    to [u2]. *)
Definition staleBranchHistory : Tx unit :=
  (exec createCommit seqUuid R1 (js "init") (Some None) None;
   exec writeFile (js "u0") (js "/a.txt") (Some (js "hello")) noOptions;
   exec updateBranchHead (js "main") (js "u0");
   exec createBranch seqUuid R1 (js "stale") None;
   exec createCommit seqUuid R1 (js "next") None None;
   exec writeFile (js "u2") (js "/b.txt") (Some (js "new")) noOptions;
   exec updateBranchHead (js "main") (js "u2");
   tx_ret tt)%tx.

(** One commit with a file in the directory [/abc], a file in a
    directory whose name has a character outside the basic plane
    (U+1F600, a surrogate pair) in place of the [b], and a file beside
    them. *)
Definition patternHistory : Tx unit :=
  (exec createCommit seqUuid R1 (js "init") (Some None) None;
   exec writeFile (js "u0") (js "/abc/y.txt") (Some (js "two")) noOptions;
   exec writeFile (js "u0") (js "/a" ++ [55357; 56832]%N ++ js "c/x.txt")
          (Some (js "one")) noOptions;
   exec writeFile (js "u0") (js "/a.txt") (Some (js "three")) noOptions;
   tx_ret tt)%tx.

Definition snapshotOf (db : DB) (commitId : Uuid)
    : list SnapshotEntryWithContent :=
  match getCommitSnapshotWithContent first_least codeUnitLeb db commitId None
    with
  | Ok snapshot => snapshot
  | Throw _ => []
  end.

Definition conflictsOf (db : DB) (leftCommitId rightCommitId : Uuid)
    : list ConflictEntry :=
  match getConflicts first_least codeUnitLeb codeUnitCompare db leftCommitId
          rightCommitId with
  | Ok conflicts => conflicts
  | Throw _ => []
  end.

(* ================================================================= *)
(** ** The three-way comparison, in the words of its description

    The state of a path in a snapshot is the triple of its existence, its
    symlink flag and its content; two states differ when the triples do.
    A path is in conflict when both sides changed from the base and the
    sides differ from each other. *)

Definition PathState : Type := (bool * bool * option JsString)%type.

Definition stateAt (snapshot : list SnapshotEntryWithContent)
    (p : JsString) : PathState :=
  match mapGet snapshot p with
  | Some e => (true, sc_isSymlink e, Some (sc_content e))
  | None => (false, false, None)
  end.

(** The same triple read off the snapshot as a listing: the entry listed
    for the path, if there is one. *)
Definition listedAt (snapshot : list SnapshotEntryWithContent)
    (p : JsString) : PathState :=
  match find (fun e => str_eqb (sc_path e) p) snapshot with
  | Some e => (true, sc_isSymlink e, Some (sc_content e))
  | None => (false, false, None)
  end.

Definition existsIn (s : PathState) : bool := fst (fst s).

Definition inConflict (base left right : PathState) : Prop :=
  left <> base /\ right <> base /\ left <> right.

Definition classify (base left right : PathState) : ConflictKind :=
  if existsIn base && (negb (existsIn left) || negb (existsIn right))
  then DeleteModify
  else if negb (existsIn base) && existsIn left && existsIn right
  then AddAdd
  else ModifyModify.

(** The states a conflict entry reports for its path. *)
Definition reportedBase (c : ConflictEntry) : PathState :=
  (ce_baseExists c, ce_baseIsSymlink c, ce_baseContent c).
Definition reportedLeft (c : ConflictEntry) : PathState :=
  (ce_leftExists c, ce_leftIsSymlink c, ce_leftContent c).
Definition reportedRight (c : ConflictEntry) : PathState :=
  (ce_rightExists c, ce_rightIsSymlink c, ce_rightContent c).

(** A comparator that orders consistently: any two strings are
    comparable, and the order is transitive. *)
Definition consistentComparator (cmp : JsString -> JsString -> Z) : Prop :=
  (forall a b, (cmp a b <= 0)%Z \/ (cmp b a <= 0)%Z)
  /\ (forall a b c, (cmp a b <= 0)%Z -> (cmp b c <= 0)%Z -> (cmp a c <= 0)%Z).

(* ================================================================= *)
(** ** The shape of a stored delta *)

(** The row the [insert] statement of [writeFile] stores when no
    constraint stands in its way, or the error thrown before the
    constraints are looked at. *)
Definition fileRowFor (commitId : Uuid) (path : JsString)
    (content : option JsString) (options : WriteOptions) : Result FileRow :=
  do normalizedPath <- normalizeFilePath path;
  do normalizedPreviousPath <-
    match opt_previousPath options with
    | Some prev =>
        if jsFalsy prev then Ok None
        else do p <- normalizeFilePath prev; Ok (Some p)
    | None => Ok None
    end;
  let isDeleted :=
    match opt_isDeleted options with Some b => b | None => false end in
  let isSymlink :=
    match opt_isSymlink options with Some b => b | None => false end in
  do state <-
    (if isDeleted then Ok (false, [])
     else match content with
          | None => Throw ContentMustBeSpecified
          | Some text =>
              if isSymlink
              then do target <- normalizeFilePath text; Ok (true, target)
              else Ok (false, text)
          end);
  do stored <- storedText (snd state);
  Ok (mkFileRow commitId normalizedPath normalizedPreviousPath
        stored isDeleted (fst state)).

(** The row [writeFiles] stores for one of its inputs. *)
Definition rowOf (commitId : Uuid) (input : FileInput) (row : FileRow)
    : Prop :=
  fileRowFor commitId (in_path input) (in_content input)
    (mkWriteOptions (in_isSymlink input) (in_isDeleted input)
       (in_previousPath input)) = Ok row.

(** The paths of an input are stored as they are given. *)
Definition pathsStoredAsGiven (input : FileInput) : bool :=
  storedAsGiven (in_path input)
  && match in_previousPath input with
     | Some previous => storedAsGiven previous
     | None => true
     end.

(** A canonical file path: [normalizeFilePath] returns it unchanged. *)
Definition isFilePath (q : JsString) : bool :=
  match normalizeFilePath q with
  | Ok q' => str_eqb q' q
  | Throw _ => false
  end.

(** What the header of the schema says of the rows of [fs.files]: paths
    are canonical file paths, a tombstone is no symlink and has empty
    content, and the content of a symlink is a canonical file path. *)
Definition row_well_formed (f : FileRow) : bool :=
  isFilePath (path f)
  && match previous_path f with
     | Some prev => isFilePath prev
     | None => true
     end
  && (if is_deleted f then negb (is_symlink f) && jsFalsy (content f)
      else true)
  && (if is_symlink f then isFilePath (content f) else true).

Definition files_well_formed (db : DB) : bool :=
  forallb row_well_formed (files db).

(** The two kinds of rows of [all_operations]: the write a delta records
    at its path, and the implicit deletion at the path it was moved away
    from. *)
Definition writeOp (ct : CommitTreeRow) (f : FileRow) : Operation :=
  mkOperation (path f) (is_deleted f) (is_symlink f) false (ct_depth ct).

Definition moveAwayOp (ct : CommitTreeRow) (previous : JsString)
    : Operation :=
  mkOperation previous true false true (ct_depth ct).

(** [s] starts with [prefix]. *)
Fixpoint startsWith (prefix s : JsString) : bool :=
  match prefix, s with
  | [], _ => true
  | p :: prefix', c :: s' => N.eqb p c && startsWith prefix' s'
  | _ :: _, [] => false
  end.

(** A string without the wildcards of [like]. *)
Definition wildcardFree (s : JsString) : bool :=
  forallb (fun c => negb (N.eqb c 37) && negb (N.eqb c 95)) s.

(** The composite foreign keys of [fs.commits]: the parent and the
    merged-from commit of every commit are commits of its repository. *)
Definition parents_in_repository (db : DB) : bool :=
  forallb (fun c =>
    optCommitInRepository db (parent_commit_id c) (commit_repository_id c)
    && optCommitInRepository db (merged_from_commit_id c)
         (commit_repository_id c))
    (commits db).

(** [commits_one_root_per_repo_idx]: no two commits of one repository
    have a null parent. *)
Fixpoint one_root_rows (cs : list Commit) : bool :=
  match cs with
  | [] => true
  | c :: rest =>
      (isSome (parent_commit_id c)
       || negb (existsb (fun c' =>
                  str_eqb (commit_repository_id c') (commit_repository_id c)
                  && negb (isSome (parent_commit_id c'))) rest))
      && one_root_rows rest
  end.

Definition one_root_per_repository (db : DB) : bool :=
  one_root_rows (commits db).

(** [files_commit_id_fkey]: every delta is recorded against a commit. *)
Definition files_have_commits (db : DB) : bool :=
  forallb (fun f => commitExists db (file_commit_id f)) (files db).

(* ================================================================= *)
(** ** Repositories, branches and look-ups *)

(** The functions of this part throw errors of their own besides those
    of the functions they call. *)
Inductive WrapperError : Type :=
| BranchNotFound (branchId : Uuid)
| DefaultBranchNotFound
| CommitIdAndPathRequired
| FileNotFound
| InvalidNumberOfValues
| Raised (e : Error).

Inductive Outcome (A : Type) : Type :=
| Done (a : A)
| Failed (e : WrapperError).

Arguments Done {A} a.
Arguments Failed {A} e.

Definition Script (A : Type) : Type := DB -> Outcome A * DB.

Definition call {A} (m : Tx A) : Script A :=
  fun db =>
    match m db with
    | (Ok a, db') => (Done a, db')
    | (Throw e, db') => (Failed (Raised e), db')
    end.

Definition script_ret {A} (a : A) : Script A := fun db => (Done a, db).

Definition script_bind {A B} (m : Script A) (k : A -> Script B) : Script B :=
  fun db =>
    match m db with
    | (Done a, db') => k a db'
    | (Failed e, db') => (Failed e, db')
    end.

Section Registry.

Variable sql_text_leb : JsString -> JsString -> bool.
Variable uuidv7 : nat -> Uuid.

(** [insert into fs.repositories (name)], with the primary key and the
    unique name checked in turn. *)
Definition insertRepository (name : JsString) : Tx Repository :=
  fun db =>
    let row := mkRepository (uuidv7 (uuid_seq db)) name None in
    let db1 := mkDB (repositories db) (commits db) (branches db) (files db)
                 (S (uuid_seq db)) in
    if existsb (fun r => str_eqb (repo_id r) (repo_id row)) (repositories db)
    then (Throw (UniqueViolation "repositories_pkey"), db1)
    else if existsb (fun r => str_eqb (repo_name r) name) (repositories db)
    then (Throw (UniqueViolation "repositories_name_key"), db1)
    else (Ok row,
          mkDB (repositories db ++ [row]) (commits db) (branches db)
               (files db) (S (uuid_seq db))).

(** [insert into fs.branches (repository_id, name, head_commit_id)], as
    [createBranch] and [createRepository] issue it. *)
Definition insertBranch (repositoryId : Uuid) (name : JsString)
    (headCommitId : option Uuid) : Tx Branch :=
  fun db =>
    let row := mkBranch (uuidv7 (uuid_seq db)) repositoryId name
                 headCommitId in
    let db1 := mkDB (repositories db) (commits db) (branches db) (files db)
                 (S (uuid_seq db)) in
    if existsb (fun b => str_eqb (branch_id b) (branch_id row)) (branches db)
    then (Throw (UniqueViolation "branches_pkey"), db1)
    else if negb (existsb (fun r => str_eqb (repo_id r) repositoryId)
                    (repositories db))
    then (Throw (ForeignKeyViolation "branches_repository_id_fkey"), db1)
    else if existsb (fun b => str_eqb (branch_repository_id b) repositoryId
                              && str_eqb (branch_name b) name) (branches db)
    then (Throw (UniqueViolation "branches_repository_id_name_key"), db1)
    else if negb (optCommitInRepository db headCommitId repositoryId)
    then (Throw (ForeignKeyViolation "branches_head_commit_same_repo_fk"),
          db1)
    else (Ok row,
          mkDB (repositories db) (commits db) (branches db ++ [row])
               (files db) (S (uuid_seq db))).

Definition setDefault (repositoryId branchId : Uuid) (r : Repository)
    : Repository :=
  if str_eqb (repo_id r) repositoryId
  then mkRepository (repo_id r) (repo_name r) (Some branchId)
  else r.

(** [update fs.repositories set default_branch_id = ... where id = ...];
    the default branch must be a branch of the repository. *)
Definition setDefaultBranch (repositoryId branchId : Uuid) : Tx unit :=
  fun db =>
    if existsb (fun r => str_eqb (repo_id r) repositoryId) (repositories db)
       && negb (existsb (fun b => str_eqb (branch_id b) branchId
                                 && str_eqb (branch_repository_id b)
                                      repositoryId)
                  (branches db))
    then (Throw (ForeignKeyViolation
                   "repositories_default_branch_same_repo_fk"), db)
    else (Ok tt,
          mkDB (List.map (setDefault repositoryId branchId) (repositories db))
               (commits db) (branches db) (files db) (uuid_seq db)).

Definition createRepository (name : JsString) : Tx Repository :=
  (run repoRow <- insertRepository name;
   let repositoryId := repo_id repoRow in
   run branchRow <- insertBranch repositoryId (js "main") None;
   exec setDefaultBranch repositoryId (branch_id branchRow);
   tx_ret (mkRepository repositoryId (repo_name repoRow)
             (Some (branch_id branchRow))))%tx.

Definition getRepository (db : DB) (name : JsString) : option Repository :=
  find (fun r => str_eqb (repo_name r) name) (repositories db).

Definition getRepositoryById (db : DB) (id : Uuid) : option Repository :=
  find (fun r => str_eqb (repo_id r) id) (repositories db).


Definition getBranch (db : DB) (repositoryId : Uuid) (name : JsString)
    : option Branch :=
  find (fun b => str_eqb (branch_repository_id b) repositoryId
                 && str_eqb (branch_name b) name)
    (branches db).

Definition getBranchById (db : DB) (id : Uuid) : option Branch :=
  branchById db id.



(* ----------------------------------------------------------------- *)
(** *** The history of a path *)



(* ----------------------------------------------------------------- *)
(** *** Convenience functions *)

Definition foundBranch (branchId : Uuid) (e : WrapperError) : Script Branch :=
  fun db =>
    match getBranchById db branchId with
    | Some b => (Done b, db)
    | None => (Failed e, db)
    end.

(** The branch returned is the row read back after the update, which the
    code asserts to be present. *)
Definition commitToBranch (branchId : Uuid) (message : JsString)
    (files_ : list FileInput) : Script (Commit * option Branch) :=
  script_bind (foundBranch branchId (BranchNotFound branchId)) (fun branch =>
  script_bind (call (createCommit uuidv7 (branch_repository_id branch) message
                       (Some (head_commit_id branch)) None)) (fun commit =>
  script_bind (call (writeFiles (commit_id commit) files_)) (fun _ =>
  script_bind (call (updateBranchHead branchId (commit_id commit))) (fun _ =>
  fun db => (Done (commit, getBranchById db branchId), db))))).

(** [commitMessage] is [None] when the argument is omitted. *)
Definition initRepository (repoName : JsString) (files_ : list FileInput)
    (commitMessage : option JsString)
    : Script (option Repository * option Branch * Commit) :=
  script_bind (call (createRepository repoName)) (fun repository =>
  script_bind (foundBranch (assertNonNull (default_branch_id repository))
                 DefaultBranchNotFound) (fun branch =>
  script_bind (call (createCommit uuidv7 (repo_id repository)
                       (match commitMessage with
                        | Some m => m
                        | None => js "Initial commit"
                        end)
                       (Some None) None)) (fun commit =>
  script_bind (call (writeFiles (commit_id commit)
                       (List.map (fun f =>
                          mkFileInput (in_path f) (in_content f) (Some false)
                            (Some false) (in_previousPath f))
                          files_))) (fun _ =>
  script_bind (call (updateBranchHead (branch_id branch) (commit_id commit)))
    (fun _ =>
  fun db =>
    (Done (getRepositoryById db (repo_id repository),
           getBranchById db (branch_id branch), commit), db)))))).

End Registry.

(* ================================================================= *)
(** ** Serving a file ([routes/files/$commitId.$.tsx]) *)

(** [n.toString()] for a non-negative integer. *)
Fixpoint digits (d : Decimal.uint) : JsString :=
  match d with
  | Decimal.Nil => []
  | Decimal.D0 d' => 48%N :: digits d'
  | Decimal.D1 d' => 49%N :: digits d'
  | Decimal.D2 d' => 50%N :: digits d'
  | Decimal.D3 d' => 51%N :: digits d'
  | Decimal.D4 d' => 52%N :: digits d'
  | Decimal.D5 d' => 53%N :: digits d'
  | Decimal.D6 d' => 54%N :: digits d'
  | Decimal.D7 d' => 55%N :: digits d'
  | Decimal.D8 d' => 56%N :: digits d'
  | Decimal.D9 d' => 57%N :: digits d'
  end.

Definition toString (n : nat) : JsString := digits (Nat.to_uint n).

Record Response : Type := mkResponse {
  res_body : JsString;
  res_contentLength : JsString;
  res_cacheControl : JsString;
  res_contentType : JsString
}.

(** The loader of the route.  The media type comes from the runtime
    ([bun.file(path).type]); the rewritten HTML it computes is not what it
    puts in the response, so it is left out.  A route parameter that is
    absent is [None]. *)
Definition loader (order_by_limit_1 : Limit1)
    (mediaType : JsString -> JsString) (db : DB)
    (commitId path_ : option JsString) : Outcome Response :=
  match commitId, path_ with
  | Some commitId, Some path_ =>
      if jsFalsy commitId || jsFalsy path_
      then Failed CommitIdAndPathRequired
      else
        match readFile order_by_limit_1 db commitId path_ with
        | Throw e => Failed (Raised e)
        | Ok None => Failed FileNotFound
        | Ok (Some text) =>
            if jsFalsy text then Failed FileNotFound
            else Done (mkResponse text (toString (length text))
                         (js "public, max-age=31536000, immutable")
                         (mediaType path_))
        end
  | _, _ => Failed CommitIdAndPathRequired
  end.

(* ================================================================= *)
(** ** Building statements ([sql.server]) *)

Section SqlBuilder.

(** The values that are bound as parameters: numbers, strings, booleans
    and [null]. *)
Variable JsValue : Type.

(** An element of [strings]: a piece of SQL text, or the placeholder
    symbol. *)
Inductive Piece : Type :=
| Text (s : JsString)
| Placeholder.

Record Statement : Type := mkStatement {
  strings : list Piece;
  values : list JsValue
}.

Inductive Interpolable : Type :=
| Nested (s : Statement)
| Plain (v : JsValue).

(** What the loop of the constructor pushes for one given value. *)
Definition pushed (value : Interpolable) : list Piece * list JsValue :=
  match value with
  | Nested s => (strings s, values s)
  | Plain v => ([Placeholder], [v])
  end.

Fixpoint drain (givenValues : list Interpolable)
    : list Piece * list JsValue :=
  match givenValues with
  | [] => ([], [])
  | value :: rest =>
      (fst (pushed value) ++ fst (drain rest),
       snd (pushed value) ++ snd (drain rest))
  end.

(** The loop of the constructor: while either list has elements, shift a
    string if there is one, then a value if there is one. *)
Fixpoint weave (givenStrings : list JsString)
    (givenValues : list Interpolable) : list Piece * list JsValue :=
  match givenStrings with
  | [] => drain givenValues
  | s :: strings' =>
      match givenValues with
      | [] => (Text s :: fst (weave strings' []), snd (weave strings' []))
      | value :: values' =>
          (Text s :: fst (pushed value) ++ fst (weave strings' values'),
           snd (pushed value) ++ snd (weave strings' values'))
      end
  end.

Definition newStatement (strings_ : list JsString)
    (values_ : list Interpolable) : Outcome Statement :=
  if negb (Nat.eqb (length strings_) (S (length values_)))
  then Failed InvalidNumberOfValues
  else Done (mkStatement (fst (weave strings_ values_))
               (snd (weave strings_ values_))).

(** [parameterize(index)] *)
Definition parameterize (index : nat) : JsString := 36%N :: toString index.

Fixpoint compileFrom (index : nat) (pieces : list Piece) : JsString :=
  match pieces with
  | [] => []
  | Text s :: rest => s ++ compileFrom index rest
  | Placeholder :: rest => parameterize index ++ compileFrom (S index) rest
  end.

Definition compile (statement : Statement) : JsString :=
  compileFrom 1 (strings statement).

(** The number of placeholders among the pieces. *)
Fixpoint placeholders (pieces : list Piece) : nat :=
  match pieces with
  | [] => 0
  | Text _ :: rest => placeholders rest
  | Placeholder :: rest => S (placeholders rest)
  end.

(** Two given values are alike when they are both plain values, or
    nested statements with the same pieces. *)
Definition alike (a b : Interpolable) : Prop :=
  match a, b with
  | Plain _, Plain _ => True
  | Nested s, Nested t => strings s = strings t
  | _, _ => False
  end.

End SqlBuilder.

(* ================================================================= *)
(** * Properties of path normalisation *)

Lemma str_eqb_eq (a b : JsString) : str_eqb a b = true <-> a = b.
Proof.
  revert b; induction a as [|x a IH]; intros [|y b]; simpl;
    try (split; [discriminate | congruence]); try tauto.
  rewrite andb_true_iff, N.eqb_eq, IH.
  split; [intros [-> ->]; reflexivity | intros [= -> ->]; auto].
Qed.

Lemma str_eqb_refl (a : JsString) : str_eqb a a = true.
Proof. apply str_eqb_eq; reflexivity. Qed.

Lemma str_eqb_neq (a b : JsString) : str_eqb a b = false <-> a <> b.
Proof.
  rewrite <- str_eqb_eq. destruct (str_eqb a b); split; congruence.
Qed.

Lemma str_eqb_sym (a b : JsString) : str_eqb a b = str_eqb b a.
Proof.
  destruct (str_eqb a b) eqn:E.
  - apply str_eqb_eq in E; subst; symmetry; apply str_eqb_refl.
  - symmetry; apply str_eqb_neq; apply str_eqb_neq in E; congruence.
Qed.

Lemma opt_str_eqb_eq (a b : option JsString) :
  opt_str_eqb a b = true <-> a = b.
Proof.
  destruct a, b; simpl; try (split; [discriminate | congruence]);
    try tauto.
  rewrite str_eqb_eq; split; congruence.
Qed.

Lemma trimStart_nil_all (s : JsString) :
  trimStart s = [] -> forallb is_js_whitespace s = true.
Proof.
  induction s as [|c s IH]; simpl; auto.
  destruct (is_js_whitespace c); simpl; auto; discriminate.
Qed.

Lemma trim_leading_slash (s : JsString) :
  Nat.eqb (length (trim (SLASH :: s))) 0 = false.
Proof.
  unfold trim.
  replace (trimStart (SLASH :: s)) with (SLASH :: s) by reflexivity.
  rewrite length_rev.
  destruct (trimStart (rev (SLASH :: s))) eqn:E; [|reflexivity].
  apply trimStart_nil_all in E.
  rewrite forallb_forall in E.
  specialize (E SLASH). rewrite <- in_rev in E.
  specialize (E (or_introl eq_refl)). discriminate.
Qed.

Lemma validatePath_ok (p : JsString) :
  validatePath p = Ok tt ->
  length p <= MAX_PATH /\ forallb okChar p = true.
Proof.
  unfold validatePath.
  destruct (Nat.eqb (length (trim p)) 0); [discriminate|].
  destruct (Nat.ltb MAX_PATH (length p)) eqn:L; [discriminate|].
  destruct (find isForbiddenControl p) eqn:F; [discriminate|].
  destruct (existsb isInvalidOnWindows p) eqn:X; [discriminate|].
  intros _. split.
  - apply Nat.ltb_ge in L; exact L.
  - apply forallb_forall; intros c Hc. unfold okChar.
    rewrite (find_none _ _ F c Hc).
    destruct (isInvalidOnWindows c) eqn:W; [|reflexivity].
    assert (existsb isInvalidOnWindows p = true)
      by (apply existsb_exists; eauto).
    congruence.
Qed.

Lemma validatePath_intro (p : JsString) :
  startsWithSlash p = true ->
  length p <= MAX_PATH ->
  forallb okChar p = true ->
  validatePath p = Ok tt.
Proof.
  intros Hs Hl Hc. unfold validatePath.
  destruct p as [|c p]; [discriminate|].
  simpl in Hs. apply N.eqb_eq in Hs; subst c.
  rewrite trim_leading_slash.
  apply Nat.ltb_ge in Hl. rewrite Hl.
  rewrite forallb_forall in Hc.
  destruct (find isForbiddenControl (SLASH :: p)) eqn:F.
  - destruct (find_some _ _ F) as [Hin Hbad].
    specialize (Hc _ Hin). unfold okChar in Hc.
    rewrite Hbad in Hc; discriminate.
  - destruct (existsb isInvalidOnWindows (SLASH :: p)) eqn:X; [|reflexivity].
    apply existsb_exists in X. destruct X as [c [Hin Hbad]].
    specialize (Hc _ Hin). unfold okChar in Hc.
    rewrite Hbad, andb_false_r in Hc; discriminate.
Qed.

(** *** The pass that halves runs of slashes *)

Lemma replaceDoubleSlash_shorter (s : JsString) :
  length (replaceDoubleSlash s) <= length s
  /\ (includesDoubleSlash s = true ->
      length (replaceDoubleSlash s) < length s).
Proof.
  remember (length s) as n eqn:Hn.
  revert s Hn. induction n as [n IH] using lt_wf_ind. intros s Hn.
  destruct s as [|c [|d t]]; simpl in *; subst n.
  - split; [lia | discriminate].
  - split; [lia | discriminate].
  - destruct (N.eqb c SLASH && N.eqb d SLASH) eqn:E; simpl.
    + destruct (IH (length t) ltac:(simpl; lia) t eq_refl) as [H1 _].
      split; intros; lia.
    + destruct (IH (S (length t)) ltac:(simpl; lia) (d :: t) eq_refl)
        as [H1 H2].
      simpl in H1, H2. split; [lia|]. intros H. specialize (H2 H). lia.
Qed.

Lemma collapseLoop_clean (fuel : nat) (s : JsString) :
  length s <= fuel -> includesDoubleSlash (collapseLoop fuel s) = false.
Proof.
  revert s; induction fuel as [|fuel IH]; intros s Hl; simpl.
  - destruct s; [reflexivity | simpl in Hl; lia].
  - destruct (includesDoubleSlash s) eqn:E; [|exact E].
    apply IH. destruct (replaceDoubleSlash_shorter s) as [_ H].
    specialize (H E). lia.
Qed.

Lemma collapseLoop_fixed (fuel : nat) (s : JsString) :
  includesDoubleSlash s = false -> collapseLoop fuel s = s.
Proof. intros E; destruct fuel; simpl; [|rewrite E]; reflexivity. Qed.

Lemma replaceDoubleSlash_chars (P : N -> bool) (s : JsString) :
  forallb P s = true -> forallb P (replaceDoubleSlash s) = true.
Proof.
  remember (length s) as n eqn:Hn.
  revert s Hn. induction n as [n IH] using lt_wf_ind. intros s Hn Hs.
  destruct s as [|c [|d t]]; simpl in *; auto.
  apply andb_true_iff in Hs; destruct Hs as [Hc Hs].
  apply andb_true_iff in Hs; destruct Hs as [Hd Ht].
  destruct (N.eqb c SLASH && N.eqb d SLASH) eqn:E; simpl.
  - apply andb_true_iff in E; destruct E as [E _].
    apply N.eqb_eq in E; subst c. rewrite Hc; simpl.
    apply (IH (length t)); subst; simpl; auto.
  - rewrite Hc; simpl.
    apply (IH (S (length t)) ltac:(subst; lia) (d :: t) eq_refl).
    simpl; rewrite Hd, Ht; reflexivity.
Qed.

Lemma replaceDoubleSlash_starts (s : JsString) :
  startsWithSlash s = true -> startsWithSlash (replaceDoubleSlash s) = true.
Proof.
  destruct s as [|c [|d t]]; simpl; auto.
  intros E; rewrite E; simpl.
  destruct (N.eqb d SLASH); simpl; auto.
Qed.

Lemma collapseLoop_chars (P : N -> bool) (fuel : nat) (s : JsString) :
  forallb P s = true -> forallb P (collapseLoop fuel s) = true.
Proof.
  revert s; induction fuel as [|fuel IH]; intros s Hs; simpl; auto.
  destruct (includesDoubleSlash s); auto.
  apply IH, replaceDoubleSlash_chars, Hs.
Qed.

Lemma collapseLoop_starts (fuel : nat) (s : JsString) :
  startsWithSlash s = true -> startsWithSlash (collapseLoop fuel s) = true.
Proof.
  revert s; induction fuel as [|fuel IH]; intros s Hs; simpl; auto.
  destruct (includesDoubleSlash s); auto.
  apply IH, replaceDoubleSlash_starts, Hs.
Qed.

(** *** Dropping the trailing slash *)

Lemma removelast_chars (P : N -> bool) (s : JsString) :
  forallb P s = true -> forallb P (removelast s) = true.
Proof.
  induction s as [|c [|d t] IH]; simpl in *; auto.
  intros H. apply andb_true_iff in H; destruct H as [Hc H].
  rewrite Hc; simpl. apply IH, H.
Qed.

Lemma removelast_clean (s : JsString) :
  includesDoubleSlash s = false -> includesDoubleSlash (removelast s) = false.
Proof.
  induction s as [|c [|d [|e t]] IH]; simpl in *; auto.
  intros H. apply orb_false_iff in H; destruct H as [H1 H2].
  rewrite H1; simpl. apply IH, H2.
Qed.

Lemma removelast_not_slash (s : JsString) :
  includesDoubleSlash s = false ->
  endsWithChar SLASH s = true ->
  endsWithChar SLASH (removelast s) = false.
Proof.
  induction s as [|c [|d [|e t]] IH]; simpl in *; auto.
  - intros H E. rewrite orb_false_r in H. rewrite E, andb_true_r in H.
    exact H.
  - intros H E. apply orb_false_iff in H; destruct H as [_ H].
    apply IH; auto.
Qed.

Lemma removelast_starts (s : JsString) :
  1 < length s ->
  startsWithSlash s = true -> startsWithSlash (removelast s) = true.
Proof. destruct s as [|c [|d t]]; simpl; auto; lia. Qed.

Lemma removelast_shorter (s : JsString) : length (removelast s) <= length s.
Proof. induction s as [|c [|d t] IH]; simpl in *; lia. Qed.

Lemma replaceBackslashes_none (s : JsString) :
  forallb (fun c => negb (N.eqb c BACKSLASH)) (replaceBackslashes s) = true.
Proof.
  induction s as [|c s IH]; simpl; auto.
  rewrite IH, andb_true_r.
  destruct (N.eqb c BACKSLASH) eqn:E; [reflexivity | rewrite E; reflexivity].
Qed.

Lemma replaceBackslashes_fixed (s : JsString) :
  forallb (fun c => negb (N.eqb c BACKSLASH)) s = true ->
  replaceBackslashes s = s.
Proof.
  induction s as [|c s IH]; simpl; auto.
  intros H. apply andb_true_iff in H; destruct H as [Hc H].
  rewrite (IH H). destruct (N.eqb c BACKSLASH); [discriminate | reflexivity].
Qed.

Lemma replaceBackslashes_chars (s : JsString) :
  forallb okChar s = true -> forallb okChar (replaceBackslashes s) = true.
Proof.
  induction s as [|c s IH]; simpl; auto.
  intros H. apply andb_true_iff in H; destruct H as [Hc H].
  rewrite (IH H), andb_true_r.
  destruct (N.eqb c BACKSLASH); [reflexivity | exact Hc].
Qed.

(** *** The canonical form *)

Lemma canonicalForm_canonical (p : JsString) : Canonical (canonicalForm p).
Proof.
  unfold canonicalForm.
  set (n0 := replaceBackslashes p).
  set (n1 := if startsWithSlash n0 then n0 else SLASH :: n0).
  set (n2 := collapseSlashes n1).
  assert (B1 : forallb (fun c => negb (N.eqb c BACKSLASH)) n1 = true).
  { subst n1. pose proof (replaceBackslashes_none p) as H.
    destruct (startsWithSlash n0); simpl; auto. }
  assert (S1 : startsWithSlash n1 = true).
  { subst n1. destruct (startsWithSlash n0) eqn:E; auto. }
  assert (S2 : startsWithSlash n2 = true)
    by (apply collapseLoop_starts, S1).
  assert (C2 : includesDoubleSlash n2 = false)
    by (apply collapseLoop_clean; lia).
  assert (B2 : forallb (fun c => negb (N.eqb c BACKSLASH)) n2 = true)
    by (apply collapseLoop_chars, B1).
  destruct (Nat.ltb 1 (length n2)) eqn:L; simpl.
  - apply Nat.ltb_lt in L.
    destruct (endsWithChar SLASH n2) eqn:E.
    + constructor.
      * apply removelast_starts; auto.
      * apply removelast_clean; auto.
      * apply removelast_chars; auto.
      * intros _. apply removelast_not_slash; auto.
    + constructor; auto.
  - apply Nat.ltb_ge in L. constructor; auto. intros; lia.
Qed.

Lemma canonicalForm_chars (p : JsString) :
  forallb okChar p = true -> forallb okChar (canonicalForm p) = true.
Proof.
  intros H. unfold canonicalForm.
  set (n0 := replaceBackslashes p).
  set (n1 := if startsWithSlash n0 then n0 else SLASH :: n0).
  assert (H1 : forallb okChar n1 = true).
  { subst n1. pose proof (replaceBackslashes_chars p H) as H0.
    destruct (startsWithSlash n0); simpl; auto. }
  assert (H2 : forallb okChar (collapseSlashes n1) = true)
    by (apply collapseLoop_chars, H1).
  destruct (_ && _); auto. apply removelast_chars, H2.
Qed.

Lemma canonicalForm_fixed (q : JsString) :
  Canonical q -> canonicalForm q = q.
Proof.
  intros [Hs Hc Hb Ht]. unfold canonicalForm.
  rewrite (replaceBackslashes_fixed q Hb), Hs.
  unfold collapseSlashes. rewrite (collapseLoop_fixed _ q Hc).
  destruct (Nat.ltb 1 (length q)) eqn:L; simpl; auto.
  apply Nat.ltb_lt in L. rewrite (Ht L). reflexivity.
Qed.

Lemma normalizePath_ok (p q : JsString) :
  normalizePath p = Ok q ->
  validatePath p = Ok tt /\ q = canonicalForm p /\ length q <= MAX_PATH.
Proof.
  unfold normalizePath.
  destruct (validatePath p) as [[]|e] eqn:V; simpl; [|discriminate].
  destruct (Nat.ltb MAX_PATH (length (canonicalForm p))) eqn:L;
    [discriminate|].
  intros [= <-]. apply Nat.ltb_ge in L. auto.
Qed.

Lemma normalizePath_canonical (q : JsString) :
  Canonical q -> length q <= MAX_PATH -> forallb okChar q = true ->
  normalizePath q = Ok q.
Proof.
  intros Hq Hl Hc. unfold normalizePath.
  rewrite (validatePath_intro q (canon_starts Hq) Hl Hc); simpl.
  rewrite (canonicalForm_fixed Hq).
  apply Nat.ltb_ge in Hl. rewrite Hl. reflexivity.
Qed.

Lemma normalizePath_fixed_point (p q : JsString) :
  normalizePath p = Ok q -> normalizePath q = Ok q.
Proof.
  intros H. apply normalizePath_ok in H. destruct H as [V [-> L]].
  apply normalizePath_canonical; auto.
  - apply canonicalForm_canonical.
  - apply canonicalForm_chars. apply validatePath_ok in V. tauto.
Qed.

(** C9.  Normalisation is idempotent: normalising the result of
    [normalizePath] gives that result again, for every path (a path that
    is rejected is rejected with the same error either way). *)
Theorem normalizePath_idempotent (p : JsString) :
  (do q <- normalizePath p; normalizePath q) = normalizePath p.
Proof.
  destruct (normalizePath p) as [q|e] eqn:E; simpl; [|reflexivity].
  exact (normalizePath_fixed_point p E).
Qed.

Example normalizePath_twice :
  normalizePath (js "docs\\notes//a.txt/") = Ok (js "/docs/notes/a.txt")
  /\ normalizePath (js "/docs/notes/a.txt") = Ok (js "/docs/notes/a.txt").
Proof. split; reflexivity. Qed.

Lemma canonicalForm_gains_slash (p : JsString) :
  let n := replaceBackslashes p in
  n <> [] ->
  startsWithSlash n = false ->
  includesDoubleSlash n = false ->
  endsWithChar SLASH n = false ->
  canonicalForm p = SLASH :: n.
Proof.
  intros n Hne Hs Hc He. unfold canonicalForm. fold n. rewrite Hs.
  assert (C : includesDoubleSlash (SLASH :: n) = false).
  { destruct n as [|c t]; [congruence|]. simpl in Hs.
    change (includesDoubleSlash (SLASH :: c :: t))
      with ((N.eqb SLASH SLASH && N.eqb c SLASH)
            || includesDoubleSlash (c :: t)).
    rewrite Hs, Hc. reflexivity. }
  unfold collapseSlashes. rewrite (collapseLoop_fixed _ _ C).
  assert (E : endsWithChar SLASH (SLASH :: n) = false).
  { destruct n as [|c t]; [congruence | exact He]. }
  rewrite E, andb_false_r. reflexivity.
Qed.

(** C10.  [normalizePath] checks the length of what it returns: no result
    is longer than 4096 code units, and a valid path of exactly 4096 code
    units whose only change is the leading slash it gains (it starts with
    no separator, has no doubled separator and ends with none) is rejected
    as too long. *)
Theorem normalizePath_output_bounded :
  (forall p q : JsString, normalizePath p = Ok q -> length q <= 4096)
  /\ (forall p : JsString,
        validatePath p = Ok tt ->
        length p = 4096 ->
        startsWithSlash (replaceBackslashes p) = false ->
        includesDoubleSlash (replaceBackslashes p) = false ->
        endsWithChar SLASH (replaceBackslashes p) = false ->
        normalizePath p = Throw PathTooLong).
Proof.
  split.
  - intros p q H. apply normalizePath_ok in H. exact (proj2 (proj2 H)).
  - intros p V L Hs Hc He. unfold normalizePath. rewrite V; simpl.
    rewrite canonicalForm_gains_slash; auto.
    + assert (Hl : Nat.ltb MAX_PATH (length (SLASH :: replaceBackslashes p))
                   = true).
      { apply Nat.ltb_lt. simpl. unfold replaceBackslashes.
        rewrite length_map, L. unfold MAX_PATH. lia. }
      rewrite Hl. reflexivity.
    + intros E. apply (f_equal (@length N)) in E.
      unfold replaceBackslashes in E. rewrite length_map, L in E.
      discriminate E.
Qed.

Lemma normalizePath_output_bounded_witness :
  length (js "/docs/notes/a.txt") <= 4096
  /\ normalizePath (repeat 97%N 4096) = Throw PathTooLong.
Proof.
  split.
  - apply (proj1 normalizePath_output_bounded (js "docs\\notes//a.txt/")).
    vm_compute; reflexivity.
  - apply (proj2 normalizePath_output_bounded); vm_compute; reflexivity.
Defined.

(* ================================================================= *)
(** * Termination of the ancestry queries *)

Lemma existsb_str_In (x : JsString) (l : list JsString) :
  existsb (str_eqb x) l = true <-> In x l.
Proof.
  rewrite existsb_exists. split.
  - intros [y [Hin E]]. apply str_eqb_eq in E; subst; auto.
  - intros Hin. exists x. split; auto. apply str_eqb_refl.
Qed.

(** A recursive query ends within [fuel] rounds when every derived row
    ranks below a row of the working table it was derived from. *)
Lemma recursive_cte_terminates {R : Type} (step : list R -> list R)
    (rank : R -> nat) (Inv : R -> Prop) :
  (forall work r',
      (forall r, In r work -> Inv r) -> In r' (step work) ->
      Inv r' /\ exists r, In r work /\ rank r' < rank r) ->
  forall fuel work,
    (forall r, In r work -> Inv r /\ rank r < fuel) ->
    exists rows, recursive_cte step fuel work = Some rows.
Proof.
  intros Hstep fuel. induction fuel as [|fuel IH]; intros work Hw.
  - destruct work as [|r w]; [exists []; reflexivity|].
    destruct (Hw r (or_introl eq_refl)) as [_ H]; lia.
  - destruct work as [|r0 w]; [exists []; reflexivity|].
    destruct (IH (step (r0 :: w))) as [rows Hrows].
    + intros r' Hr'.
      destruct (Hstep (r0 :: w) r' (fun r H => proj1 (Hw r H)) Hr')
        as [Hi [r [Hin Hlt]]].
      split; auto. destruct (Hw r Hin) as [_ H]. lia.
    + exists ((r0 :: w) ++ rows). simpl. rewrite Hrows. reflexivity.
Qed.

Lemma history_fresh (seen : list Uuid) (cs : list Commit) (c : Commit) :
  history_ok_from seen cs = true -> In c cs -> ~ In (commit_id c) seen.
Proof.
  revert seen; induction cs as [|c0 rest IH]; intros seen H Hin;
    [contradiction|].
  simpl in H. repeat (apply andb_true_iff in H; destruct H as [H ?]).
  destruct Hin as [<-|Hin].
  - intros Hs. apply existsb_str_In in Hs. rewrite Hs in H. discriminate.
  - intros Hs. apply (IH (commit_id c0 :: seen)); auto. right; exact Hs.
Qed.

Lemma optIn_In (p : Uuid) (o : option Uuid) (seen : list Uuid) :
  optIn o seen = true -> o = Some p -> In p seen.
Proof. intros H ->. apply existsb_str_In, H. Qed.

Lemma history_refers_back (seen : list Uuid) (cs : list Commit)
    (c : Commit) (p : Uuid) :
  history_ok_from seen cs = true -> In c cs ->
  parent_commit_id c = Some p \/ merged_from_commit_id c = Some p ->
  In p seen
  \/ position p (List.map commit_id cs)
     < position (commit_id c) (List.map commit_id cs).
Proof.
  revert seen; induction cs as [|c0 rest IH]; intros seen H Hin Hp;
    [contradiction|].
  simpl in H.
  apply andb_true_iff in H; destruct H as [H H0].
  apply andb_true_iff in H; destruct H as [H Hm].
  apply andb_true_iff in H; destruct H as [_ Hpar].
  destruct Hin as [<-|Hin].
  - left. destruct Hp as [Hp|Hp];
      [exact (optIn_In _ Hpar Hp) | exact (optIn_In _ Hm Hp)].
  - assert (Hf : ~ In (commit_id c) (commit_id c0 :: seen))
      by (eapply history_fresh; eauto).
    assert (Hne : str_eqb (commit_id c0) (commit_id c) = false).
    { apply str_eqb_neq. intros E. apply Hf. left; exact E. }
    simpl. rewrite Hne.
    destruct (IH (commit_id c0 :: seen) H0 Hin Hp) as [[E|Hs]|Hlt].
    + right. rewrite E, str_eqb_refl. lia.
    + left; exact Hs.
    + right. destruct (str_eqb (commit_id c0) p); lia.
Qed.

Lemma position_bound (c : Commit) (cs : list Commit) :
  In c cs -> position (commit_id c) (List.map commit_id cs) < length cs.
Proof.
  induction cs as [|c0 rest IH]; [contradiction|].
  intros [<-|Hin]; simpl.
  - rewrite str_eqb_refl. lia.
  - destruct (str_eqb _ _); [lia|]. specialize (IH Hin). lia.
Qed.

Lemma history_nodup (seen : list Uuid) (cs : list Commit) :
  history_ok_from seen cs = true -> NoDup (List.map commit_id cs).
Proof.
  revert seen; induction cs as [|c0 rest IH]; intros seen H; simpl.
  - constructor.
  - pose proof H as H'. simpl in H.
    apply andb_true_iff in H; destruct H as [_ H0].
    constructor; [|eapply IH; eauto].
    intros Hin. apply in_map_iff in Hin. destruct Hin as [c [E Hc]].
    apply (history_fresh _ _ _ H0 Hc). left. symmetry; exact E.
Qed.

Lemma filter_unique_id (P : Commit -> bool) (x : Uuid) (cs : list Commit) :
  NoDup (List.map commit_id cs) ->
  (forall c, P c = true -> commit_id c = x) ->
  length (filter P cs) <= 1.
Proof.
  intros Hnd HP. induction cs as [|c0 rest IH]; simpl; [lia|].
  inversion Hnd as [|? ? Hnot Hnd']; subst.
  destruct (P c0) eqn:E; [|auto].
  assert (Hnone : filter P rest = []).
  { destruct (filter P rest) as [|c t] eqn:F; [reflexivity|].
    assert (Hc : In c (filter P rest)) by (rewrite F; left; reflexivity).
    apply filter_In in Hc. destruct Hc as [Hc Pc].
    exfalso. apply Hnot. apply in_map_iff. exists c. split; auto.
    rewrite (HP _ Pc), (HP _ E). reflexivity. }
  rewrite Hnone. simpl. lia.
Qed.

Section Ancestry.

Variable db : DB.
Hypothesis Hhistory : history_ok db = true.

Lemma commits_nodup : NoDup (List.map commit_id (commits db)).
Proof. exact (history_nodup _ _ Hhistory). Qed.

Lemma commit_refers_back (c : Commit) (p : Uuid) :
  In c (commits db) ->
  parent_commit_id c = Some p \/ merged_from_commit_id c = Some p ->
  position p (List.map commit_id (commits db))
  < position (commit_id c) (List.map commit_id (commits db)).
Proof.
  intros Hc Hp.
  destruct (history_refers_back _ _ _ Hhistory Hc Hp) as [[]|H]; exact H.
Qed.

Lemma commit_tree_step_In (work : list CommitTreeRow) (r' : CommitTreeRow) :
  In r' (commit_tree_step db work) <->
  exists r c, In r work /\ In c (commits db)
              /\ ct_parent_commit_id r = Some (commit_id c)
              /\ r' = mkCommitTreeRow (commit_id c) (parent_commit_id c)
                        (S (ct_depth r)).
Proof.
  unfold commit_tree_step. rewrite in_flat_map. split.
  - intros [r [Hr H]]. apply in_map_iff in H. destruct H as [c [E Hc]].
    apply filter_In in Hc. destruct Hc as [Hc Hp].
    apply opt_str_eqb_eq in Hp. exists r, c. auto.
  - intros [r [c [Hr [Hc [Hp E]]]]]. exists r. split; auto.
    apply in_map_iff. exists c. split; auto.
    apply filter_In. split; auto. apply opt_str_eqb_eq. auto.
Qed.

Lemma commit_tree_terminates (commitId : Uuid) :
  exists tree, commit_tree db commitId = Ok tree.
Proof.
  unfold commit_tree.
  destruct (@recursive_cte_terminates _ (commit_tree_step db)
              (fun r => position (ct_id r) (List.map commit_id (commits db)))
              (treeRowOf db)) with (fuel := ancestry_fuel db)
              (work := commit_tree_anchor db commitId) as [rows Hrows].
  - intros work r' Hw Hr'. apply commit_tree_step_In in Hr'.
    destruct Hr' as [r [c [Hr [Hc [Hp ->]]]]]. split.
    + exists c. simpl. auto.
    + exists r. split; auto. simpl.
      destruct (Hw r Hr) as [c0 [Hc0 [E0 P0]]].
      rewrite E0. apply commit_refers_back; auto.
      left. rewrite <- P0. exact Hp.
  - intros r Hr. unfold commit_tree_anchor in Hr.
    apply in_map_iff in Hr. destruct Hr as [c [<- Hc]].
    apply filter_In in Hc. destruct Hc as [Hc _]. split.
    + exists c. simpl. auto.
    + simpl. pose proof (position_bound c (commits db) Hc).
      unfold ancestry_fuel. lia.
  - exists rows. rewrite Hrows. reflexivity.
Qed.

(** Each round of [commit_tree] holds at most one commit, one level
    deeper than the round before. *)
Lemma commit_tree_levels (fuel : nat) :
  forall (work : list CommitTreeRow) (k : nat) (rows : list CommitTreeRow),
    (forall r, In r work -> ct_depth r = k) ->
    length work <= 1 ->
    recursive_cte (commit_tree_step db) fuel work = Some rows ->
    (forall r, In r rows -> k <= ct_depth r)
    /\ (forall r, In r rows -> ct_depth r = k -> In r work)
    /\ (forall r1 r2, In r1 rows -> In r2 rows ->
                      ct_depth r1 = ct_depth r2 -> r1 = r2).
Proof.
  induction fuel as [|fuel IH]; intros work k rows Hk Hlen Hrun.
  - destruct work; [|discriminate].
    simpl in Hrun. injection Hrun as <-.
    repeat split; intros; contradiction.
  - destruct work as [|r0 [|r1 w]]; [| |simpl in Hlen; lia].
    + simpl in Hrun. injection Hrun as <-.
      repeat split; intros; contradiction.
    + cbn [recursive_cte] in Hrun.
      destruct (recursive_cte (commit_tree_step db) fuel
                  (commit_tree_step db [r0])) as [rows'|] eqn:Hrec;
        [|discriminate].
      cbn [option_map app] in Hrun. injection Hrun as <-.
      assert (D0 : ct_depth r0 = k) by (apply Hk; left; reflexivity).
      destruct (IH (commit_tree_step db [r0]) (S k) rows') as [A [B C]];
        auto.
      * intros r Hr. apply commit_tree_step_In in Hr.
        destruct Hr as [r' [c [[<-|[]] [_ [_ ->]]]]]. simpl. lia.
      * unfold commit_tree_step. simpl. rewrite app_nil_r, length_map.
        destruct (ct_parent_commit_id r0) as [p|] eqn:P.
        -- apply (@filter_unique_id _ p); [exact commits_nodup|].
           intros c Hc. apply str_eqb_eq in Hc. exact Hc.
        -- apply (@filter_unique_id _ []); [exact commits_nodup|].
           intros c Hc. discriminate Hc.
      * repeat split.
        -- intros r [<-|Hr]; [lia|]. specialize (A r Hr). lia.
        -- intros r [<-|Hr] E; [left; reflexivity|].
           specialize (A r Hr). lia.
        -- intros x y [<-|Hx] [<-|Hy] E; auto.
           ++ specialize (A y Hy). lia.
           ++ specialize (A x Hx). lia.
Qed.

Lemma ancestors_step_In (work : list AncestorRow) (r' : AncestorRow) :
  In r' (ancestors_step db work) <->
  exists r c, In r work /\ In c (commits db)
              /\ (an_parent_commit_id r = Some (commit_id c)
                  \/ an_merged_from_commit_id r = Some (commit_id c))
              /\ r' = mkAncestorRow (commit_id c) (parent_commit_id c)
                        (merged_from_commit_id c) (S (an_depth r)).
Proof.
  unfold ancestors_step. rewrite in_flat_map. split.
  - intros [r [Hr H]]. apply in_map_iff in H. destruct H as [c [E Hc]].
    apply filter_In in Hc. destruct Hc as [Hc Hp].
    apply orb_true_iff in Hp. rewrite !opt_str_eqb_eq in Hp.
    exists r, c. repeat split; auto. destruct Hp; auto.
  - intros [r [c [Hr [Hc [Hp E]]]]]. exists r. split; auto.
    apply in_map_iff. exists c. split; auto.
    apply filter_In. split; auto. apply orb_true_iff.
    rewrite !opt_str_eqb_eq. destruct Hp; auto.
Qed.

(** The ancestry query of [getMergeBase], which also follows merged-from
    links, ends as well. *)
Lemma ancestors_terminates (commitId : Uuid) :
  exists rows, ancestors db commitId = Some rows.
Proof.
  unfold ancestors.
  apply (@recursive_cte_terminates _ (ancestors_step db)
           (fun r => position (an_id r) (List.map commit_id (commits db)))
           (fun r => exists c, In c (commits db) /\ an_id r = commit_id c
                               /\ an_parent_commit_id r = parent_commit_id c
                               /\ an_merged_from_commit_id r
                                  = merged_from_commit_id c)).
  - intros work r' Hw Hr'. apply ancestors_step_In in Hr'.
    destruct Hr' as [r [c [Hr [Hc [Hp ->]]]]]. split.
    + exists c. simpl. auto.
    + exists r. split; auto. simpl.
      destruct (Hw r Hr) as [c0 [Hc0 [E0 [P0 M0]]]].
      rewrite E0. apply commit_refers_back; auto.
      rewrite <- P0, <- M0. exact Hp.
  - intros r Hr. unfold ancestors_anchor in Hr.
    apply in_map_iff in Hr. destruct Hr as [c [<- Hc]].
    apply filter_In in Hc. destruct Hc as [Hc _]. split.
    + exists c. simpl. auto.
    + simpl. pose proof (position_bound c (commits db) Hc).
      unfold ancestry_fuel. lia.
Qed.

End Ancestry.

(* ================================================================= *)
(** * Resolution of a path along the ancestry *)

Lemma first_least_admissible : admissible first_least.
Proof.
  intros R key rows. induction rows as [|r0 rest IH]; simpl; auto.
  destruct (first_least R key rest) as [m|].
  - destruct IH as [Hin Hle].
    destruct (Nat.ltb (key m) (key r0)) eqn:L.
    + apply Nat.ltb_lt in L. split; [right; exact Hin|].
      intros r' [<-|Hr']; [lia | auto].
    + apply Nat.ltb_ge in L. split; [left; reflexivity|].
      intros r' [<-|Hr']; [lia|]. specialize (Hle r' Hr'). lia.
  - subst rest. split; [left; reflexivity|].
    intros r' [<-|[]]. lia.
Qed.

Lemma limit_1_least (limit_1 : Limit1) (R : Type) (key : R -> nat)
    (rows : list R) (r : R) :
  admissible limit_1 ->
  limit_1 R key rows = Some r ->
  In r rows /\ forall r', In r' rows -> key r <= key r'.
Proof. intros H E. specialize (H R key rows). rewrite E in H. exact H. Qed.

Lemma limit_1_some (limit_1 : Limit1) (R : Type) (key : R -> nat)
    (rows : list R) :
  admissible limit_1 ->
  rows <> [] -> exists r, limit_1 R key rows = Some r.
Proof.
  intros H Hne. specialize (H R key rows).
  destruct (limit_1 R key rows) as [r|]; [eauto | contradiction].
Qed.

Lemma file_entries_In (db : DB) (tree : list CommitTreeRow)
    (np : JsString) (d : nat) (f : FileRow) :
  In (d, f) (file_entries db tree np) <->
  exists ct, In ct tree /\ ct_depth ct = d /\ In f (files db)
             /\ file_commit_id f = ct_id ct /\ touches np f = true.
Proof.
  unfold file_entries. rewrite in_flat_map. split.
  - intros [ct [Hct H]]. apply in_map_iff in H.
    destruct H as [g [[= <- <-] Hg]]. apply filter_In in Hg.
    destruct Hg as [Hg Hc]. apply andb_true_iff in Hc.
    destruct Hc as [Hc Ht]. apply str_eqb_eq in Hc. exists ct. auto.
  - intros [ct [Hct [<- [Hf [Hc Ht]]]]]. exists ct. split; auto.
    apply in_map_iff. exists f. split; auto. apply filter_In.
    split; auto. rewrite Ht, Hc, str_eqb_refl. reflexivity.
Qed.

Lemma files_unique_rows_eq (rows : list FileRow) (f g : FileRow) :
  files_unique_rows rows = true -> In f rows -> In g rows ->
  file_commit_id f = file_commit_id g -> path f = path g -> f = g.
Proof.
  induction rows as [|r rest IH]; [contradiction|].
  simpl. intros H Hf Hg Ec Ep.
  apply andb_true_iff in H. destruct H as [Hfresh H].
  assert (Hclash : forall x, In x rest ->
            file_commit_id x = file_commit_id r -> path x = path r -> False).
  { intros x Hx E1 E2. apply negb_true_iff in Hfresh.
    assert (existsb (fun g0 => str_eqb (file_commit_id g0) (file_commit_id r)
                               && str_eqb (path g0) (path r)) rest = true).
    { apply existsb_exists. exists x. split; auto.
      rewrite E1, E2, !str_eqb_refl. reflexivity. }
    congruence. }
  destruct Hf as [<-|Hf], Hg as [<-|Hg]; auto.
  - exfalso. apply (Hclash g Hg); congruence.
  - exfalso. apply (Hclash f Hf); congruence.
Qed.

Lemma recursive_cte_incl {R : Type} (step : list R -> list R) (fuel : nat)
    (work rows : list R) :
  recursive_cte step fuel work = Some rows -> incl work rows.
Proof.
  destruct work as [|r w]; [intros _ x []|].
  destruct fuel as [|fuel]; simpl; [discriminate|].
  destruct (recursive_cte step fuel (step (r :: w))); [|discriminate].
  simpl. intros [= <-] x Hx. destruct Hx as [<-|Hx]; [left; auto|].
  right. apply in_or_app. left; exact Hx.
Qed.

Section Resolution.

Variable order_by_limit_1 : Limit1.
Hypothesis Hlimit : admissible order_by_limit_1.

Variable db : DB.
Hypothesis Hhistory : history_ok db = true.
Hypothesis Hunique : files_unique db = true.

Variable commitId : Uuid.
Variable tree : list CommitTreeRow.
Hypothesis Htree : commit_tree db commitId = Ok tree.

Lemma tree_run :
  recursive_cte (commit_tree_step db) (ancestry_fuel db)
    (commit_tree_anchor db commitId) = Some tree.
Proof.
  unfold commit_tree in Htree.
  destruct (recursive_cte _ _ _); [congruence | discriminate].
Qed.

Lemma anchor_facts :
  (forall r, In r (commit_tree_anchor db commitId) ->
             ct_depth r = 0 /\ ct_id r = commitId)
  /\ length (commit_tree_anchor db commitId) <= 1.
Proof.
  unfold commit_tree_anchor. split.
  - intros r Hr. apply in_map_iff in Hr. destruct Hr as [c [<- Hc]].
    apply filter_In in Hc. destruct Hc as [_ E]. apply str_eqb_eq in E.
    auto.
  - rewrite length_map. apply (@filter_unique_id _ commitId).
    + apply commits_nodup, Hhistory.
    + intros c E. apply str_eqb_eq, E.
Qed.

Lemma tree_levels :
  (forall r, In r tree -> ct_depth r = 0 -> ct_id r = commitId)
  /\ (forall r1 r2, In r1 tree -> In r2 tree ->
                    ct_depth r1 = ct_depth r2 -> r1 = r2).
Proof.
  destruct anchor_facts as [Ha Hl].
  destruct (@commit_tree_levels db Hhistory (ancestry_fuel db)
              (commit_tree_anchor db commitId) 0 tree) as [_ [B C]].
  - intros r Hr. apply (Ha r Hr).
  - exact Hl.
  - exact tree_run.
  - split; [|exact C]. intros r Hr Hd. apply (Ha r (B r Hr Hd)).
Qed.

Lemma tree_has_commit :
  commitExists db commitId = true ->
  exists ct, In ct tree /\ ct_depth ct = 0 /\ ct_id ct = commitId.
Proof.
  intros He. unfold commitExists in He. apply existsb_exists in He.
  destruct He as [c [Hc E]].
  set (r := mkCommitTreeRow (commit_id c) (parent_commit_id c) 0).
  assert (Hr : In r (commit_tree_anchor db commitId)).
  { unfold commit_tree_anchor. apply in_map_iff. exists c. split; auto.
    apply filter_In. auto. }
  exists r. split.
  - apply (recursive_cte_incl _ _ _ tree_run), Hr.
  - apply (proj1 anchor_facts), Hr.
Qed.

(** What [readFile] answers once its guards have passed. *)
Lemma readFile_resolved (p np : JsString) :
  jsFalsy commitId = false ->
  commitExists db commitId = true ->
  normalizePath p = Ok np ->
  readFile order_by_limit_1 db commitId p =
  match order_by_limit_1 fst (file_entries db tree np) with
  | None => Ok None
  | Some (_, row) =>
      if is_deleted row then Ok None
      else if opt_str_eqb (previous_path row) (Some np)
              && negb (str_eqb (path row) np)
      then Ok None
      else Ok (Some (content row))
  end.
Proof.
  intros Hf He Hn. unfold readFile. rewrite Hf, He, Hn. simpl.
  rewrite Htree. reflexivity.
Qed.

(** The delta [readFile] selects lies at the least depth at which any
    delta concerns the path. *)
Lemma selected_entry (np : JsString) (ct : CommitTreeRow) (f : FileRow) :
  In ct tree -> In f (files db) -> file_commit_id f = ct_id ct ->
  touches np f = true ->
  exists d row ct',
    order_by_limit_1 fst (file_entries db tree np) = Some (d, row)
    /\ In ct' tree /\ ct_depth ct' = d /\ d <= ct_depth ct
    /\ In row (files db) /\ file_commit_id row = ct_id ct'
    /\ touches np row = true.
Proof.
  intros Hct Hf Hc Ht.
  assert (Hin : In (ct_depth ct, f) (file_entries db tree np)).
  { apply file_entries_In. exists ct. auto. }
  destruct (@limit_1_some order_by_limit_1 _ fst
              (file_entries db tree np) Hlimit) as [[d row] Hsel].
  { intros E. rewrite E in Hin. exact Hin. }
  destruct (limit_1_least _ _ Hlimit Hsel) as [Hrow Hleast].
  apply file_entries_In in Hrow.
  destruct Hrow as [ct' [Hct' [Hd [Hrow [Hc' Ht']]]]].
  exists d, row, ct'. specialize (Hleast _ Hin). simpl in Hleast.
  repeat split; auto.
Qed.

End Resolution.

Section ReadFile.

Variable order_by_limit_1 : Limit1.
Hypothesis Hlimit : admissible order_by_limit_1.

(** C8.  A tombstone shadows everything older.  When the delta that
    [readFile] selects for a path, the one of least depth, is a tombstone,
    the answer is absent; and under the constraints of the schema this is
    the case whenever the closest ancestor in which any delta concerns the
    path holds a tombstone for it, whatever the deeper ancestors wrote. *)
Theorem readFile_tombstone_shadows (db : DB) (commitId : Uuid)
    (p np : JsString) (tree : list CommitTreeRow) :
  jsFalsy commitId = false ->
  commitExists db commitId = true ->
  normalizePath p = Ok np ->
  commit_tree db commitId = Ok tree ->
  (forall d row,
      order_by_limit_1 fst (file_entries db tree np) = Some (d, row) ->
      is_deleted row = true ->
      readFile order_by_limit_1 db commitId p = Ok None)
  /\ (history_ok db = true ->
      files_unique db = true ->
      forall ct tombstone,
        In ct tree ->
        In tombstone (files db) ->
        file_commit_id tombstone = ct_id ct ->
        path tombstone = np ->
        is_deleted tombstone = true ->
        (forall ct' f, In ct' tree -> In f (files db) ->
                       file_commit_id f = ct_id ct' -> touches np f = true ->
                       ct_depth ct <= ct_depth ct') ->
        readFile order_by_limit_1 db commitId p = Ok None).
Proof.
  intros Hf He Hn Ht. split.
  - intros d row Hsel Hdel.
    rewrite (readFile_resolved order_by_limit_1 db commitId Ht p Hf He Hn),
      Hsel, Hdel.
    reflexivity.
  - intros Hh Hu ct tombstone Hct Hin Hc Hp Hd Hclosest.
    rewrite (readFile_resolved order_by_limit_1 db commitId Ht p Hf He Hn).
    destruct (selected_entry Hlimit db tree np ct tombstone)
      as [d [row [ct' [Hsel [Hct' [Hd' [Hle [Hrow [Hc' Ht']]]]]]]]]; auto.
    { unfold touches. rewrite Hp, str_eqb_refl. reflexivity. }
    rewrite Hsel.
    assert (E : ct' = ct).
    { apply (proj2 (tree_levels db Hh commitId Ht)); auto.
      specialize (Hclosest ct' row Hct' Hrow Hc' Ht'). lia. }
    subst ct'.
    destruct (is_deleted row) eqn:Del; [reflexivity|].
    destruct (str_eqb (path row) np) eqn:P.
    + apply str_eqb_eq in P.
      assert (row = tombstone).
      { apply (files_unique_rows_eq (files db)); auto; congruence. }
      subst row. congruence.
    + unfold touches in Ht'. rewrite P in Ht'. simpl in Ht'.
      rewrite Ht'. reflexivity.
Qed.

(** C6, amended.  Let commit [C] hold a delta [r] that is not a deletion,
    at path [B] with [previousPath = A].  If [C] holds no live delta at
    [A] itself and moves nothing away from [B], then in [C] the path [A]
    is absent and the path [B] reads as the content of [r]. *)
Theorem readFile_after_rename (db : DB) (C : Uuid) (r : FileRow)
    (A B : JsString) :
  history_ok db = true ->
  files_unique db = true ->
  jsFalsy C = false ->
  commitExists db C = true ->
  normalizePath A = Ok A ->
  normalizePath B = Ok B ->
  A <> B ->
  In r (files db) ->
  file_commit_id r = C ->
  path r = B ->
  previous_path r = Some A ->
  is_deleted r = false ->
  (forall f, In f (files db) -> file_commit_id f = C -> path f = A ->
             is_deleted f = true) ->
  (forall f, In f (files db) -> file_commit_id f = C ->
             previous_path f <> Some B) ->
  readFile order_by_limit_1 db C A = Ok None
  /\ readFile order_by_limit_1 db C B = Ok (Some (content r)).
Proof.
  intros Hh Hu Hf He HA HB Hne Hr Hc Hp Hprev Hlive HnoA HnoB.
  destruct (commit_tree_terminates db Hh C) as [tree Ht].
  destruct (tree_has_commit db Hh C Ht He) as [ct0 [Hct0 [Hd0 Hid0]]].
  assert (Hsame : forall ct', In ct' tree -> ct_depth ct' <= ct_depth ct0 ->
                              ct_id ct' = C).
  { intros ct' Hct' Hle.
    apply (proj1 (tree_levels db Hh C Ht)); auto. lia. }
  split.
  - rewrite (readFile_resolved order_by_limit_1 db C Ht A Hf He HA).
    destruct (selected_entry Hlimit db tree A ct0 r)
      as [d [row [ct' [Hsel [Hct' [Hd' [Hle [Hrow [Hc' Ht']]]]]]]]]; auto.
    { congruence. }
    { unfold touches. rewrite Hprev. simpl.
      rewrite str_eqb_refl, orb_true_r. reflexivity. }
    rewrite Hsel.
    assert (Hc'' : file_commit_id row = C)
      by (rewrite Hc'; apply Hsame; auto; lia).
    destruct (is_deleted row) eqn:Del; [reflexivity|].
    destruct (str_eqb (path row) A) eqn:P.
    + apply str_eqb_eq in P. rewrite (HnoA row Hrow Hc'' P) in Del.
      discriminate.
    + unfold touches in Ht'. rewrite P in Ht'. simpl in Ht'.
      rewrite Ht'. reflexivity.
  - rewrite (readFile_resolved order_by_limit_1 db C Ht B Hf He HB).
    destruct (selected_entry Hlimit db tree B ct0 r)
      as [d [row [ct' [Hsel [Hct' [Hd' [Hle [Hrow [Hc' Ht']]]]]]]]]; auto.
    { congruence. }
    { unfold touches. rewrite Hp, str_eqb_refl. reflexivity. }
    rewrite Hsel.
    assert (Hc'' : file_commit_id row = C)
      by (rewrite Hc'; apply Hsame; auto; lia).
    assert (P : path row = B).
    { unfold touches in Ht'. apply orb_true_iff in Ht'.
      destruct Ht' as [E|E]; [apply str_eqb_eq, E|].
      apply opt_str_eqb_eq in E. destruct (HnoB row Hrow Hc'' E). }
    assert (row = r)
      by (apply (files_unique_rows_eq (files db)); auto; congruence).
    subst row. rewrite Hlive, Hprev. simpl.
    assert (Hab : str_eqb A B = false) by (apply str_eqb_neq, Hne).
    rewrite Hab. reflexivity.
Qed.

End ReadFile.

Lemma readFile_tombstone_shadows_witness :
  readFile first_least (dbAfter tombstoneHistory) (js "u2") (js "a.txt")
  = Ok None.
Proof.
  refine (proj2 (@readFile_tombstone_shadows first_least
                   first_least_admissible (dbAfter tombstoneHistory)
                   (js "u2") (js "a.txt") (js "/a.txt")
                   [mkCommitTreeRow (js "u2") (Some (js "u1")) 0;
                    mkCommitTreeRow (js "u1") (Some (js "u0")) 1;
                    mkCommitTreeRow (js "u0") None 2]
                   eq_refl eq_refl eq_refl eq_refl)
            eq_refl eq_refl
            (mkCommitTreeRow (js "u1") (Some (js "u0")) 1)
            (mkFileRow (js "u1") (js "/a.txt") None [] true false)
            _ _ eq_refl eq_refl eq_refl _).
  - vm_compute. auto.
  - vm_compute. auto.
  - intros ct' f Hct' Hf Hc Ht.
    vm_compute in Hf.
    destruct Hct' as [<-|[<-|[<-|[]]]];
      destruct Hf as [<-|[<-|[<-|[]]]];
      vm_compute in Hc, Ht; try discriminate;
      vm_compute; lia.
Defined.

(** C6, as stated, fails: a delta at [/b.txt] with
    [previousPath = /a.txt] can be a deletion, which [writeFile] accepts,
    and then [readFile] answers absent for [/b.txt], not the content of
    the delta. *)
Lemma rename_claim_fails_for_deleted_delta :
  ~ (forall (order_by_limit_1 : Limit1) (db : DB) (C : Uuid) (r : FileRow)
            (A B : JsString),
        admissible order_by_limit_1 ->
        history_ok db = true -> files_unique db = true ->
        jsFalsy C = false -> commitExists db C = true ->
        normalizePath A = Ok A -> normalizePath B = Ok B -> A <> B ->
        In r (files db) -> file_commit_id r = C ->
        path r = B -> previous_path r = Some A ->
        readFile order_by_limit_1 db C A = Ok None
        /\ readFile order_by_limit_1 db C B = Ok (Some (content r))).
Proof.
  intros H.
  destruct (H first_least (dbAfter deletedRenameHistory) (js "u1")
              (mkFileRow (js "u1") (js "/b.txt") (Some (js "/a.txt")) []
                 true false)
              (js "/a.txt") (js "/b.txt") first_least_admissible)
    as [_ HB]; try reflexivity.
  - intros E. discriminate E.
  - vm_compute. auto.
  - vm_compute in HB. discriminate HB.
Qed.

(** A commit that writes [/a.txt] anew and also moves [/a.txt] away holds
    two deltas that concern [/a.txt] at the same depth, and the query
    leaves open which of them [readFile] answers with: the content of the
    write when the first row of least depth is taken, nothing when the
    last one is. *)
Example readFile_rewritten_and_moved :
  readFile first_least (dbAfter rewriteAndMoveHistory) (js "u1") (js "/a.txt")
  = Ok (Some (js "again"))
  /\ readFile last_least (dbAfter rewriteAndMoveHistory) (js "u1")
       (js "/a.txt")
     = Ok None.
Proof. split; reflexivity. Qed.

Lemma readFile_after_rename_witness :
  readFile first_least (dbAfter renameHistory) (js "u1") (js "/a.txt") = Ok None
  /\ readFile first_least (dbAfter renameHistory) (js "u1") (js "/b.txt")
     = Ok (Some (js "hello")).
Proof.
  apply (@readFile_after_rename first_least first_least_admissible
           (dbAfter renameHistory) (js "u1")
           (mkFileRow (js "u1") (js "/b.txt") (Some (js "/a.txt"))
              (js "hello") false false)
           (js "/a.txt") (js "/b.txt")); try reflexivity.
  - intros E. discriminate E.
  - vm_compute. auto.
  - intros f Hf. vm_compute in Hf.
    destruct Hf as [<-|[<-|[]]]; intros Hc Hp; vm_compute in Hc, Hp;
      discriminate.
  - intros f Hf. vm_compute in Hf.
    destruct Hf as [<-|[<-|[]]]; intros Hc Hp; vm_compute in Hc, Hp;
      discriminate.
Defined.

(* ================================================================= *)
(** * How many operations one depth can hold *)

Lemma filter_none {A : Type} (P : A -> bool) (l : list A) :
  (forall x, In x l -> P x = false) -> filter P l = [].
Proof.
  induction l as [|a t IH]; intros H; simpl; auto.
  rewrite (H a (or_introl eq_refl)). apply IH. intros x Hx. apply H.
  right; exact Hx.
Qed.

Lemma filter_nil_none {A : Type} (P : A -> bool) (l : list A) :
  filter P l = [] -> forall x, In x l -> P x = false.
Proof.
  intros E x Hx. destruct (P x) eqn:Px; auto.
  assert (In x (filter P l)) by (apply filter_In; auto).
  rewrite E in H. contradiction.
Qed.

Lemma filter_flat_map_swap {A B : Type} (P : B -> bool) (g : A -> list B)
    (l : list A) :
  filter P (flat_map g l) = flat_map (fun x => filter P (g x)) l.
Proof.
  induction l as [|a t IH]; simpl; auto.
  rewrite filter_app, IH. reflexivity.
Qed.

Lemma filter_twice {A : Type} (P Q : A -> bool) (l : list A) :
  filter P (filter Q l) = filter (fun x => Q x && P x) l.
Proof.
  induction l as [|a t IH]; simpl; auto.
  destruct (Q a); simpl; [destruct (P a)|]; rewrite IH; reflexivity.
Qed.

(** When at most one element of [l] passes [Q] and the others contribute
    nothing, [flat_map g l] is the contribution of that element. *)
Lemma flat_map_single_source {A B : Type} (g : A -> list B) (Q : A -> bool)
    (l : list A) :
  (forall x, Q x = false -> g x = []) ->
  length (filter Q l) <= 1 ->
  flat_map g l = [] \/ exists x, In x l /\ flat_map g l = g x.
Proof.
  intros Hg. induction l as [|a t IH]; intros Hl; simpl; auto.
  simpl in Hl. destruct (Q a) eqn:Qa.
  - right. exists a. split; [left; reflexivity|].
    assert (E : filter Q t = []).
    { destruct (filter Q t); [reflexivity | simpl in Hl; lia]. }
    assert (F : flat_map g t = []).
    { clear IH Hl. induction t as [|b t' IHt]; simpl; auto.
      rewrite (Hg b); [|apply (filter_nil_none _ _ E); left; reflexivity].
      apply IHt. simpl in E. destruct (Q b); [discriminate | exact E]. }
    rewrite F, app_nil_r. reflexivity.
  - rewrite (Hg a Qa). simpl. destruct (IH Hl) as [E|[x [Hx E]]]; auto.
    right. exists x. split; [right; exact Hx | exact E].
Qed.

Lemma filter_unique_file (P : FileRow -> bool) (c : Uuid) (p : JsString)
    (rows : list FileRow) :
  files_unique_rows rows = true ->
  (forall f, P f = true -> file_commit_id f = c /\ path f = p) ->
  length (filter P rows) <= 1.
Proof.
  intros Hu HP. induction rows as [|r rest IH]; simpl; [lia|].
  simpl in Hu. apply andb_true_iff in Hu. destruct Hu as [Hfresh Hu].
  destruct (P r) eqn:Pr; [|auto].
  rewrite (filter_none P rest); [simpl; lia|].
  intros x Hx. destruct (P x) eqn:Px; [|reflexivity].
  apply negb_true_iff in Hfresh.
  assert (existsb (fun g => str_eqb (file_commit_id g) (file_commit_id r)
                            && str_eqb (path g) (path r)) rest = true).
  { apply existsb_exists. exists x. split; auto.
    destruct (HP _ Pr) as [-> ->], (HP _ Px) as [-> ->].
    rewrite !str_eqb_refl. reflexivity. }
  congruence.
Qed.

Lemma commit_tree_level_count (db : DB) :
  history_ok db = true ->
  forall (fuel : nat) (work : list CommitTreeRow) (k : nat)
         (rows : list CommitTreeRow),
    (forall r, In r work -> ct_depth r = k) ->
    length work <= 1 ->
    recursive_cte (commit_tree_step db) fuel work = Some rows ->
    forall d, length (filter (fun r => Nat.eqb (ct_depth r) d) rows) <= 1.
Proof.
  intros Hh fuel. induction fuel as [|fuel IH]; intros work k rows Hk Hl Hrun d.
  - destruct work; [|discriminate]. simpl in Hrun. injection Hrun as <-.
    simpl; lia.
  - destruct work as [|r0 [|r1 w]]; [| |simpl in Hl; lia].
    + simpl in Hrun. injection Hrun as <-. simpl; lia.
    + cbn [recursive_cte] in Hrun.
      destruct (recursive_cte (commit_tree_step db) fuel
                  (commit_tree_step db [r0])) as [rows'|] eqn:Hrec;
        [|discriminate].
      cbn [option_map app] in Hrun. injection Hrun as <-.
      assert (D0 : ct_depth r0 = k) by (apply Hk; left; reflexivity).
      assert (Hk' : forall r, In r (commit_tree_step db [r0]) ->
                              ct_depth r = S k).
      { intros r Hr. apply commit_tree_step_In in Hr.
        destruct Hr as [r' [c [[<-|[]] [_ [_ ->]]]]]. simpl. lia. }
      assert (Hl' : length (commit_tree_step db [r0]) <= 1).
      { unfold commit_tree_step. simpl. rewrite app_nil_r, length_map.
        destruct (ct_parent_commit_id r0) as [p|].
        - apply (@filter_unique_id _ p); [exact (commits_nodup db Hh)|].
          intros c Hc. apply str_eqb_eq in Hc. exact Hc.
        - apply (@filter_unique_id _ []); [exact (commits_nodup db Hh)|].
          intros c Hc. discriminate Hc. }
      simpl. destruct (Nat.eqb (ct_depth r0) d) eqn:E.
      * apply Nat.eqb_eq in E.
        destruct (commit_tree_levels db Hh fuel _ Hk' Hl' Hrec) as [A _].
        rewrite filter_none; [simpl; lia|].
        intros r Hr. apply Nat.eqb_neq. specialize (A r Hr). lia.
      * apply (IH _ (S k) rows' Hk' Hl' Hrec).
Qed.

(** C3, as stated, fails: the constraints of the schema allow a commit
    to write a path anew and to move a file away from that same path, and
    then two operations concern the path at one depth, both in the rows
    [readFile] selects from and in [all_operations]. *)
Lemma two_operations_at_one_depth :
  ~ (forall (db : DB) (commitId : Uuid) (tree : list CommitTreeRow)
            (np : JsString) (d : nat),
        history_ok db = true -> files_unique db = true ->
        commit_tree db commitId = Ok tree ->
        length (filter (fun e => Nat.eqb (fst e) d)
                  (file_entries db tree np)) <= 1
        /\ length (filter (fun o => Nat.eqb (op_depth o) d
                                    && str_eqb (affected_path o) np)
                     (all_operations db tree)) <= 1).
Proof.
  intros H.
  destruct (H (dbAfter rewriteAndMoveHistory) (js "u1")
              [mkCommitTreeRow (js "u1") (Some (js "u0")) 0;
               mkCommitTreeRow (js "u0") None 1]
              (js "/a.txt") 0) as [H1 _]; try reflexivity.
  vm_compute in H1. lia.
Qed.

Ltac split_andb :=
  repeat match goal with
         | H : _ && _ = true |- _ =>
             apply andb_true_iff in H; destruct H
         end.

Lemma writes_per_commit (db : DB) (P : FileRow -> bool) (c : Uuid)
    (p : JsString) :
  files_unique db = true ->
  (forall f, P f = true -> file_commit_id f = c /\ path f = p) ->
  length (filter P (files db)) <= 1.
Proof. intros Hu HP. exact (filter_unique_file P (files db) Hu HP). Qed.

(** C3, amended.  Under the constraints of the schema, each depth of an
    ancestor chain holds at most one commit, at most one of the deltas
    [readFile] selects from is written at the queried path at that depth,
    and at most one operation of [all_operations] that is not a move-away
    affects a given path at that depth.  Move-away records are not
    limited. *)
Theorem one_write_per_depth (db : DB) (commitId : Uuid)
    (tree : list CommitTreeRow) (np : JsString) (d : nat) :
  history_ok db = true ->
  files_unique db = true ->
  commit_tree db commitId = Ok tree ->
  length (filter (fun ct => Nat.eqb (ct_depth ct) d) tree) <= 1
  /\ length (filter (fun e => Nat.eqb (fst e) d
                              && str_eqb (path (snd e)) np)
               (file_entries db tree np)) <= 1
  /\ length (filter (fun o => Nat.eqb (op_depth o) d
                              && str_eqb (affected_path o) np
                              && negb (is_move_away o))
               (all_operations db tree)) <= 1.
Proof.
  intros Hh Hu Ht.
  assert (Hcount : length (filter (fun ct => Nat.eqb (ct_depth ct) d) tree)
                   <= 1).
  { destruct (anchor_facts db Hh commitId) as [Ha Hl].
    apply (@commit_tree_level_count db Hh (ancestry_fuel db)
             (commit_tree_anchor db commitId) 0 tree); auto.
    - intros r Hr. apply (Ha r Hr).
    - exact (tree_run db commitId Ht). }
  split; [exact Hcount|]. split.
  - unfold file_entries. rewrite filter_flat_map_swap.
    destruct (flat_map_single_source
                (fun ct => filter (fun e => Nat.eqb (fst e) d
                                            && str_eqb (path (snd e)) np)
                   (List.map (fun f => (ct_depth ct, f))
                      (filter (fun f => str_eqb (file_commit_id f) (ct_id ct)
                                        && touches np f) (files db))))
                (fun ct => Nat.eqb (ct_depth ct) d) tree) as [E|[ct [_ E]]].
    + intros ct Hd. apply filter_none. intros e He.
      apply in_map_iff in He. destruct He as [f [<- _]]. simpl.
      rewrite Hd. reflexivity.
    + exact Hcount.
    + rewrite E. simpl; lia.
    + rewrite E, filter_map_swap, length_map, filter_twice.
      apply (@writes_per_commit db _ (ct_id ct) np Hu).
      intros f Hf. simpl in Hf. split_andb.
      split; apply str_eqb_eq; assumption.
  - unfold all_operations. rewrite filter_app.
    rewrite (filter_none _ (flat_map (fun ct => flat_map _ _) tree)).
    + rewrite app_nil_r, filter_flat_map_swap.
      destruct (flat_map_single_source
                  (fun ct => filter (fun o => Nat.eqb (op_depth o) d
                                       && str_eqb (affected_path o) np
                                       && negb (is_move_away o))
                     (List.map (fun f => mkOperation (path f) (is_deleted f)
                                           (is_symlink f) false (ct_depth ct))
                        (filesOfCommit db (ct_id ct))))
                  (fun ct => Nat.eqb (ct_depth ct) d) tree)
        as [E|[ct [_ E]]].
      * intros ct Hd. apply filter_none. intros o Ho.
        apply in_map_iff in Ho. destruct Ho as [f [<- _]]. simpl.
        rewrite Hd. reflexivity.
      * exact Hcount.
      * rewrite E. simpl; lia.
      * rewrite E, filter_map_swap, length_map. unfold filesOfCommit.
        rewrite filter_twice.
        apply (@writes_per_commit db _ (ct_id ct) np Hu).
        intros f Hf. simpl in Hf. split_andb.
        split; apply str_eqb_eq; assumption.
    + intros o Ho. apply in_flat_map in Ho. destruct Ho as [ct [_ Ho]].
      apply in_flat_map in Ho. destruct Ho as [f [_ Ho]].
      destruct (previous_path f); [|contradiction].
      destruct Ho as [<-|[]]. simpl. apply andb_false_r.
Qed.

Lemma one_write_per_depth_witness :
  length (filter (fun ct => Nat.eqb (ct_depth ct) 0)
            [mkCommitTreeRow (js "u1") (Some (js "u0")) 0;
             mkCommitTreeRow (js "u0") None 1]) <= 1
  /\ length (filter (fun e => Nat.eqb (fst e) 0
                              && str_eqb (path (snd e)) (js "/a.txt"))
               (file_entries (dbAfter rewriteAndMoveHistory)
                  [mkCommitTreeRow (js "u1") (Some (js "u0")) 0;
                   mkCommitTreeRow (js "u0") None 1] (js "/a.txt"))) <= 1
  /\ length (filter (fun o => Nat.eqb (op_depth o) 0
                              && str_eqb (affected_path o) (js "/a.txt")
                              && negb (is_move_away o))
               (all_operations (dbAfter rewriteAndMoveHistory)
                  [mkCommitTreeRow (js "u1") (Some (js "u0")) 0;
                   mkCommitTreeRow (js "u0") None 1])) <= 1.
Proof.
  apply (@one_write_per_depth (dbAfter rewriteAndMoveHistory) (js "u1"));
    reflexivity.
Defined.

(* ================================================================= *)
(** * Merge base *)

Lemma distinct_In (x : JsString) (l : list JsString) :
  In x (distinct l) <-> In x l.
Proof.
  induction l as [|a t IH]; simpl; [tauto|].
  rewrite filter_In, IH, negb_true_iff, str_eqb_neq.
  split.
  - intros [E|[H _]]; auto.
  - intros [E|H]; auto.
    destruct (list_eq_dec N.eq_dec a x) as [E|E]; auto.
Qed.

Lemma distinct_NoDup (l : list JsString) : NoDup (distinct l).
Proof.
  induction l as [|a t IH]; simpl; constructor.
  - rewrite filter_In, negb_true_iff, str_eqb_neq. intros [_ H]. auto.
  - apply NoDup_filter, IH.
Qed.

Lemma fold_min_spec (x : nat) (t : list nat) :
  In (fold_right Nat.min x t) (x :: t)
  /\ forall y, In y (x :: t) -> fold_right Nat.min x t <= y.
Proof.
  induction t as [|a t [IH1 IH2]]; simpl.
  - split; auto. intros y [<-|[]]. lia.
  - split.
    + destruct (Nat.min_spec a (fold_right Nat.min x t)) as [[_ ->]|[_ ->]].
      * right; left; reflexivity.
      * destruct IH1 as [E|H]; [left; exact E | right; right; exact H].
    + intros y [<-|[<-|H]].
      * specialize (IH2 x (or_introl eq_refl)). lia.
      * lia.
      * specialize (IH2 y (or_intror H)). lia.
Qed.

Lemma list_min_spec (l : list nat) :
  l <> [] ->
  In (list_min l) l /\ forall y, In y l -> list_min l <= y.
Proof.
  destruct l as [|x t]; [congruence|]. intros _. apply fold_min_spec.
Qed.

Lemma list_min_ext (l1 l2 : list nat) :
  l1 <> [] -> (forall y, In y l1 <-> In y l2) -> list_min l1 = list_min l2.
Proof.
  intros Hne Hext.
  assert (Hne2 : l2 <> []).
  { destruct l1 as [|x t]; [congruence|]. intros ->.
    apply (Hext x). left; reflexivity. }
  destruct (list_min_spec Hne) as [I1 M1], (list_min_spec Hne2) as [I2 M2].
  apply Nat.le_antisymm.
  - apply M1, Hext, I2.
  - apply M2, Hext, I1.
Qed.

Lemma joined_depths_In (lefts rights : list AncestorRow) (c : Uuid)
    (s : nat) :
  In (c, s) (joined_depths lefts rights) <->
  exists l r, In l lefts /\ In r rights /\ an_id l = c /\ an_id r = c
              /\ s = an_depth l + an_depth r.
Proof.
  unfold joined_depths. rewrite in_flat_map. split.
  - intros [l [Hl H]]. apply in_map_iff in H.
    destruct H as [r [[= <- <-] Hr]]. apply filter_In in Hr.
    destruct Hr as [Hr E]. apply str_eqb_eq in E. exists l, r. auto.
  - intros [l [r [Hl [Hr [<- [E ->]]]]]]. exists l. split; auto.
    apply in_map_iff. exists r. split; auto. apply filter_In. split; auto.
    apply str_eqb_eq. auto.
Qed.

Lemma joined_depths_sym (lefts rights : list AncestorRow) (c : Uuid)
    (s : nat) :
  In (c, s) (joined_depths lefts rights) <->
  In (c, s) (joined_depths rights lefts).
Proof.
  rewrite !joined_depths_In.
  split; intros [l [r [Hl [Hr [El [Er ->]]]]]]; exists r, l;
    repeat split; auto; lia.
Qed.

Lemma group_depths_In (joined : list (Uuid * nat)) (c : Uuid) (s : nat) :
  In s (List.map snd (filter (fun row => str_eqb (fst row) c) joined)) <->
  In (c, s) joined.
Proof.
  rewrite in_map_iff. split.
  - intros [[c' s'] [E H]]. apply filter_In in H. destruct H as [H Ec].
    simpl in *. apply str_eqb_eq in Ec. subst. exact H.
  - intros H. exists (c, s). split; auto. apply filter_In. split; auto.
    apply str_eqb_refl.
Qed.

Lemma common_In (lefts rights : list AncestorRow) (c : Uuid) (t : nat) :
  In (c, t) (common lefts rights) <->
  (exists s, In (c, s) (joined_depths lefts rights))
  /\ t = list_min (List.map snd
                     (filter (fun row => str_eqb (fst row) c)
                        (joined_depths lefts rights))).
Proof.
  unfold common. rewrite in_map_iff. split.
  - intros [id [[= -> <-] H]]. apply (proj1 (distinct_In _ _)) in H.
    apply in_map_iff in H. destruct H as [[c' s] [E H]]. simpl in E; subst.
    split; eauto.
  - intros [[s H] ->]. exists c. split; auto.
    apply (proj2 (distinct_In _ _)).
    apply in_map_iff. exists (c, s). auto.
Qed.

Lemma common_sym (lefts rights : list AncestorRow) (c : Uuid) (t : nat) :
  In (c, t) (common lefts rights) <-> In (c, t) (common rights lefts).
Proof.
  assert (H : forall L R, In (c, t) (common L R) -> In (c, t) (common R L)).
  { intros L R H. apply common_In in H. destruct H as [[s Hs] ->].
    apply common_In. split.
    - exists s. apply joined_depths_sym, Hs.
    - apply list_min_ext.
      + intros E. apply group_depths_In in Hs. rewrite E in Hs. exact Hs.
      + intros y. rewrite !group_depths_In. apply joined_depths_sym. }
  split; apply H.
Qed.

Section MergeBase.

Variable order_by_limit_1 : Limit1.
Hypothesis Hlimit : admissible order_by_limit_1.

(** The two orders of the arguments select from the same rows of
    [common], up to their order. *)
Lemma getMergeBase_swap (db : DB) (x y a : Uuid) :
  getMergeBase order_by_limit_1 db x y = Ok a ->
  exists b lefts rights m,
    getMergeBase order_by_limit_1 db y x = Ok b
    /\ ancestors db x = Some lefts
    /\ ancestors db y = Some rights
    /\ In (a, m) (common lefts rights)
    /\ In (b, m) (common lefts rights)
    /\ (forall c t, In (c, t) (common lefts rights) -> m <= t)
    /\ ((forall c, In (c, m) (common lefts rights) -> c = a) -> b = a).
Proof.
  unfold getMergeBase. intros H.
  destruct (jsFalsy x || jsFalsy y) eqn:G; [discriminate|].
  rewrite orb_comm in G. rewrite G.
  destruct (commitRepository db x) as [rx|]; [|discriminate].
  destruct (commitRepository db y) as [ry|]; [|discriminate].
  destruct (str_eqb rx ry) eqn:E; [|discriminate].
  rewrite str_eqb_sym, E. simpl in *.
  destruct (ancestors db x) as [lefts|]; [|discriminate].
  destruct (ancestors db y) as [rights|]; [|discriminate].
  destruct (order_by_limit_1 snd (common lefts rights)) as [[a' m]|] eqn:S1;
    [|discriminate].
  injection H as <-. simpl.
  destruct (limit_1_least _ _ Hlimit S1) as [Ha Hmin].
  destruct (@limit_1_some order_by_limit_1 _ snd (common rights lefts)
              Hlimit) as [[b m'] S2].
  { intros N. apply common_sym in Ha. rewrite N in Ha. exact Ha. }
  destruct (limit_1_least _ _ Hlimit S2) as [Hb Hmin'].
  rewrite S2. simpl.
  assert (Em : m' = m).
  { apply Nat.le_antisymm.
    - apply (Hmin' (a', m)), common_sym, Ha.
    - apply (Hmin (b, m')), common_sym, Hb. }
  subst m'. exists b, lefts, rights, m.
  repeat split; auto.
  - apply common_sym, Hb.
  - intros c t Hc. apply (Hmin (c, t) Hc).
  - intros Hone. apply Hone, common_sym, Hb.
Qed.

(** X16.  Symmetry of the merge base, up to ties: when
    [getMergeBase x y] answers, so does [getMergeBase y x]; each answer
    is an ancestor of both commits, along parent and merged-from links,
    and the depths at which it is found on the two sides add up to the
    least sum that any shared ancestor has; so the two answers are the
    same commit whenever only one shared ancestor has that least sum. *)
Theorem getMergeBase_symmetric_unless_tied (db : DB) (x y a : Uuid) :
  getMergeBase order_by_limit_1 db x y = Ok a ->
  exists b lefts rights m,
    getMergeBase order_by_limit_1 db y x = Ok b
    /\ ancestors db x = Some lefts
    /\ ancestors db y = Some rights
    /\ sharedAt lefts rights a m
    /\ sharedAt lefts rights b m
    /\ (forall c t, sharedAt lefts rights c t -> m <= t)
    /\ ((forall c, sharedAt lefts rights c m -> c = a) -> b = a).
Proof.
  intros H.
  destruct (getMergeBase_swap _ _ _ H)
    as [b [lefts [rights [m [Hb [Hl [Hr [Ha [Hb' [Hmin _]]]]]]]]]].
  assert (Hshared : forall c t, In (c, t) (common lefts rights) ->
                                sharedAt lefts rights c t).
  { intros c t Hc. apply common_In in Hc. destruct Hc as [[s Hs] ->].
    apply joined_depths_In. apply group_depths_In.
    apply list_min_spec. intros E.
    apply group_depths_In in Hs. rewrite E in Hs. exact Hs. }
  assert (Hleast : forall c t, sharedAt lefts rights c t -> m <= t).
  { intros c t Hc. apply joined_depths_In in Hc.
    pose proof (proj2 (common_In lefts rights c _)
                  (conj (ex_intro _ t Hc) eq_refl)) as Hin.
    apply Hmin in Hin. apply group_depths_In in Hc.
    assert (Hne : List.map snd
                    (filter (fun row => str_eqb (fst row) c)
                       (joined_depths lefts rights)) <> [])
      by (intros E; rewrite E in Hc; exact Hc).
    pose proof (proj2 (list_min_spec Hne) t Hc). lia. }
  exists b, lefts, rights, m.
  split; [exact Hb|]. split; [exact Hl|]. split; [exact Hr|].
  split; [apply Hshared, Ha|]. split; [apply Hshared, Hb'|].
  split; [exact Hleast|].
  intros Hone. apply Hone, Hshared, Hb'.
Qed.

End MergeBase.

Lemma first_least_rev_admissible : admissible last_least.
Proof.
  intros R key rows. unfold last_least.
  pose proof (first_least_admissible key (rev rows)) as H.
  destruct (first_least R key (rev rows)) as [r|].
  - destruct H as [Hin Hmin]. split; [apply in_rev, Hin|].
    intros r' Hr'. apply Hmin. apply in_rev. rewrite rev_involutive.
    exact Hr'.
  - destruct rows as [|r rows]; [reflexivity|].
    apply (f_equal (@length R)) in H. rewrite length_rev in H.
    discriminate H.
Qed.

Lemma getMergeBase_symmetric_unless_tied_witness :
  let db := dbAfter crossedHistory in
  exists b lefts rights m,
    getMergeBase last_least db (js "u4") (js "u5") = Ok b
    /\ ancestors db (js "u5") = Some lefts
    /\ ancestors db (js "u4") = Some rights
    /\ sharedAt lefts rights (js "u1") m
    /\ sharedAt lefts rights b m
    /\ (forall c t, sharedAt lefts rights c t -> m <= t)
    /\ ((forall c, sharedAt lefts rights c m -> c = js "u1") -> b = js "u1").
Proof.
  intros db.
  apply (@getMergeBase_symmetric_unless_tied last_least
           first_least_rev_admissible db (js "u5") (js "u4") (js "u1")).
  reflexivity.
Defined.

(** In [crossedHistory], [u1] and [u2] are both ancestors of [u5] and of
    [u6] with depths that add up to 3, the least sum; the query orders by
    that sum alone, so which of the two it answers with is left to the
    database. *)
Example getMergeBase_tie :
  getMergeBase first_least (dbAfter crossedHistory) (js "u5") (js "u6")
  = Ok (js "u1")
  /\ getMergeBase last_least (dbAfter crossedHistory) (js "u5") (js "u6")
     = Ok (js "u2").
Proof. split; reflexivity. Qed.


Lemma NoDup_flat_map_keyed {A B : Type} (key : B -> A) (g : A -> list B)
    (l : list A) :
  NoDup l ->
  (forall a b, In b (g a) -> key b = a) ->
  (forall a, length (g a) <= 1) ->
  NoDup (List.map key (flat_map g l)).
Proof.
  intros Hnd Hkey Hone. induction Hnd as [|a l Ha Hnd IH]; simpl;
    [constructor|].
  rewrite map_app.
  specialize (Hone a). pose proof (Hkey a) as Hk.
  destruct (g a) as [|b [|b' rest]]; simpl in *; [exact IH| |lia].
  constructor; [|exact IH].
  rewrite (Hk b) by auto.
  intros Hin. apply in_map_iff in Hin. destruct Hin as [b2 [E Hb2]].
  apply in_flat_map in Hb2. destruct Hb2 as [a2 [Ha2 Hb2]].
  rewrite (Hkey a2 b2 Hb2) in E. subst a2. contradiction.
Qed.

Lemma Permutation_NoDup_map {A B : Type} (f : A -> B) (l l' : list A) :
  Permutation l l' -> NoDup (List.map f l) -> NoDup (List.map f l').
Proof.
  intros Hp. apply Permutation_NoDup. apply Permutation_map. exact Hp.
Qed.

(* ================================================================= *)
(** * Conflict detection *)

Lemma insert_by_perm {A : Type} (leb : A -> A -> bool) (x : A) (l : list A) :
  Permutation (insert_by leb x l) (x :: l).
Proof.
  induction l as [|y t IH]; simpl; auto.
  destruct (leb x y); auto.
  apply perm_trans with (y :: x :: t); [|apply perm_swap].
  apply perm_skip, IH.
Qed.

Lemma sort_by_perm {A : Type} (leb : A -> A -> bool) (l : list A) :
  Permutation (sort_by leb l) l.
Proof.
  induction l as [|x t IH]; simpl; auto.
  apply perm_trans with (x :: sort_by leb t);
    [apply insert_by_perm | apply perm_skip, IH].
Qed.

Lemma insert_by_sorted {A : Type} (leb : A -> A -> bool) (x : A)
    (l : list A) :
  (forall a b, leb a b = true \/ leb b a = true) ->
  Sorted (fun a b => leb a b = true) l ->
  Sorted (fun a b => leb a b = true) (insert_by leb x l).
Proof.
  intros Htotal. induction l as [|y t IH]; intros Hs; simpl.
  - repeat constructor.
  - destruct (leb x y) eqn:E.
    + constructor; auto.
    + inversion Hs as [|? ? Hst Hhd]; subst.
      constructor; [apply IH, Hst|].
      destruct t as [|z t']; simpl.
      * constructor. destruct (Htotal x y); congruence.
      * destruct (leb x z).
        -- constructor. destruct (Htotal x y); congruence.
        -- inversion Hhd; subst. constructor; assumption.
Qed.

Lemma sort_by_sorted {A : Type} (leb : A -> A -> bool) (l : list A) :
  (forall a b, leb a b = true \/ leb b a = true) ->
  Sorted (fun a b => leb a b = true) (sort_by leb l).
Proof.
  intros Htotal. induction l as [|x t IH]; simpl.
  - constructor.
  - apply insert_by_sorted; auto.
Qed.

Lemma triple_differs (e1 e2 s1 s2 : bool) (c1 c2 : option JsString) :
  negb (Bool.eqb e1 e2) || negb (Bool.eqb s1 s2)
  || negb (opt_str_eqb c1 c2) = true
  <-> (e1, s1, c1) <> (e2, s2, c2).
Proof.
  destruct (opt_str_eqb c1 c2) eqn:E.
  - apply opt_str_eqb_eq in E. subst c2.
    destruct e1, e2, s1, s2; simpl; split; intros H;
      try congruence; try discriminate; exfalso; apply H; reflexivity.
  - rewrite orb_true_r. split; auto. intros _ [= _ _ Hc].
    apply opt_str_eqb_eq in Hc. congruence.
Qed.

Lemma stateAt_components (snapshot : list SnapshotEntryWithContent)
    (p : JsString) :
  stateAt snapshot p
  = (isSome (mapGet snapshot p),
     orFalse (option_map sc_isSymlink (mapGet snapshot p)),
     option_map sc_content (mapGet snapshot p)).
Proof. unfold stateAt. destruct (mapGet snapshot p); reflexivity. Qed.

Lemma mapGet_path (snapshot : list SnapshotEntryWithContent) (p : JsString)
    (e : SnapshotEntryWithContent) :
  mapGet snapshot p = Some e -> In p (List.map sc_path snapshot).
Proof.
  unfold mapGet. intros H. apply find_some in H. destruct H as [Hin E].
  apply str_eqb_eq in E. subst p. apply in_map. apply in_rev. exact Hin.
Qed.

Lemma stateAt_exists (snapshot : list SnapshotEntryWithContent)
    (p : JsString) :
  stateAt snapshot p <> (false, false, None) ->
  In p (List.map sc_path snapshot).
Proof.
  unfold stateAt. destruct (mapGet snapshot p) eqn:E; [|congruence].
  intros _. eapply mapGet_path; eauto.
Qed.

(** The test of [getConflicts] on one path agrees with the description:
    an entry is produced exactly for a path in conflict, and it reports
    the three states and their classification. *)
Lemma conflictAt_spec (mergeBase : Uuid)
    (base left right : list SnapshotEntryWithContent) (p : JsString) :
  match conflictAt mergeBase base left right p with
  | Some c =>
      inConflict (stateAt base p) (stateAt left p) (stateAt right p)
      /\ ce_path c = p
      /\ ce_mergeBaseCommitId c = mergeBase
      /\ reportedBase c = stateAt base p
      /\ reportedLeft c = stateAt left p
      /\ reportedRight c = stateAt right p
      /\ ce_conflictKind c
         = classify (stateAt base p) (stateAt left p) (stateAt right p)
  | None =>
      ~ inConflict (stateAt base p) (stateAt left p) (stateAt right p)
  end.
Proof.
  unfold conflictAt, inConflict. rewrite !stateAt_components.
  set (b := mapGet base p). set (l := mapGet left p).
  set (r := mapGet right p).
  destruct (negb (Bool.eqb (isSome l) (isSome b))
            || negb (Bool.eqb (orFalse (option_map sc_isSymlink l))
                       (orFalse (option_map sc_isSymlink b)))
            || negb (opt_str_eqb (option_map sc_content l)
                       (option_map sc_content b))) eqn:L;
  destruct (negb (Bool.eqb (isSome r) (isSome b))
            || negb (Bool.eqb (orFalse (option_map sc_isSymlink r))
                       (orFalse (option_map sc_isSymlink b)))
            || negb (opt_str_eqb (option_map sc_content r)
                       (option_map sc_content b))) eqn:Rr;
  destruct (negb (Bool.eqb (isSome l) (isSome r))
            || negb (Bool.eqb (orFalse (option_map sc_isSymlink l))
                       (orFalse (option_map sc_isSymlink r)))
            || negb (opt_str_eqb (option_map sc_content l)
                       (option_map sc_content r))) eqn:D;
  cbn [andb];
  try (intros [H1 [H2 H3]];
       apply triple_differs in H1; apply triple_differs in H2;
       apply triple_differs in H3; congruence).
  apply triple_differs in L. apply triple_differs in Rr.
  apply triple_differs in D.
  repeat split; auto.
Qed.

Lemma Sorted_weaken {A : Type} (R1 R2 : A -> A -> Prop) (l : list A) :
  (forall a b, R1 a b -> R2 a b) -> Sorted R1 l -> Sorted R2 l.
Proof.
  intros Himp. induction 1 as [|x t Hs IH Hhd]; constructor; auto.
  destruct Hhd; constructor; auto.
Qed.

Lemma codeUnitCompare_consistent : consistentComparator codeUnitCompare.
Proof.
  split.
  - intros a. induction a as [|x a IH]; intros [|y b]; simpl;
      try (left; lia); try (right; lia).
    destruct (N.compare_spec x y) as [E|L|G].
    + subst. rewrite N.compare_refl. apply IH.
    + left; lia.
    + right. apply N.compare_lt_iff in G. rewrite G. lia.
  - intros a. induction a as [|x a IH]; intros [|y b] [|z c]; simpl;
      try lia.
    destruct (N.compare_spec x y) as [E1|L1|G1]; try lia;
      destruct (N.compare_spec y z) as [E2|L2|G2]; try lia; subst.
    + rewrite N.compare_refl. apply IH.
    + intros _ _. apply N.compare_lt_iff in L2. rewrite L2. lia.
    + intros _ _. apply N.compare_lt_iff in L1. rewrite L1. lia.
    + intros _ _. assert (L : (x < z)%N) by lia.
      apply N.compare_lt_iff in L. rewrite L. lia.
Qed.

Section ConflictDetection.

Variable order_by_limit_1 : Limit1.
Variable sql_text_leb : JsString -> JsString -> bool.
Variable localeCompare : JsString -> JsString -> Z.
Hypothesis Hconsistent : consistentComparator localeCompare.

Variable db : DB.
Variables leftCommitId rightCommitId mergeBase : Uuid.
Variables base left right : list SnapshotEntryWithContent.
Hypothesis Hbase : getMergeBase order_by_limit_1 db leftCommitId rightCommitId
  = Ok mergeBase.
Hypothesis Hsnap_base :
  getCommitSnapshotWithContent order_by_limit_1 sql_text_leb db mergeBase None
    = Ok base.
Hypothesis Hsnap_left :
  getCommitSnapshotWithContent order_by_limit_1 sql_text_leb db leftCommitId
    None = Ok left.
Hypothesis Hsnap_right :
  getCommitSnapshotWithContent order_by_limit_1 sql_text_leb db rightCommitId
    None = Ok right.

Lemma getConflicts_unfold :
  getConflicts order_by_limit_1 sql_text_leb localeCompare db leftCommitId
    rightCommitId
  = Ok (sort_by (conflict_leb localeCompare)
          (flat_map (fun p =>
             match conflictAt mergeBase base left right p with
             | Some c => [c]
             | None => []
             end) (allPathsOf [base; left; right]))).
Proof.
  unfold getConflicts. rewrite Hbase. simpl.
  rewrite Hsnap_base. simpl. rewrite Hsnap_left. simpl.
  rewrite Hsnap_right. reflexivity.
Qed.

Lemma allPaths_In (p : JsString) :
  In p (allPathsOf [base; left; right]) <->
  In p (List.map sc_path base) \/ In p (List.map sc_path left)
  \/ In p (List.map sc_path right).
Proof.
  unfold allPathsOf. rewrite distinct_In. simpl.
  rewrite !in_app_iff. simpl. tauto.
Qed.

Lemma conflict_path_listed (p : JsString) :
  inConflict (stateAt base p) (stateAt left p) (stateAt right p) ->
  In p (allPathsOf [base; left; right]).
Proof.
  intros [H1 [H2 H3]]. apply allPaths_In.
  destruct (mapGet left p) as [e|] eqn:L.
  - right; left. eapply mapGet_path; eauto.
  - destruct (mapGet base p) as [e|] eqn:B.
    + left. eapply mapGet_path; eauto.
    + exfalso. apply H1. unfold stateAt. rewrite L, B. reflexivity.
Qed.

(** What [getConflicts] answers, in terms of the look-ups it makes in
    its three maps. *)
Lemma getConflicts_by_lookup :
  exists conflicts,
    getConflicts order_by_limit_1 sql_text_leb localeCompare db leftCommitId
      rightCommitId
    = Ok conflicts
    /\ (forall p,
          (exists c, In c conflicts /\ ce_path c = p) <->
          inConflict (stateAt base p) (stateAt left p) (stateAt right p))
    /\ (forall c, In c conflicts ->
          ce_mergeBaseCommitId c = mergeBase
          /\ reportedBase c = stateAt base (ce_path c)
          /\ reportedLeft c = stateAt left (ce_path c)
          /\ reportedRight c = stateAt right (ce_path c)
          /\ ce_conflictKind c
             = classify (stateAt base (ce_path c)) (stateAt left (ce_path c))
                 (stateAt right (ce_path c)))
    /\ NoDup (List.map ce_path conflicts)
    /\ StronglySorted
         (fun a b => (localeCompare (ce_path a) (ce_path b) <= 0)%Z)
         conflicts.
Proof.
  eexists. split; [exact getConflicts_unfold|].
  set (found := flat_map _ (allPathsOf [base; left; right])).
  assert (Hfound : forall c, In c found <->
            exists p, In p (allPathsOf [base; left; right])
                      /\ conflictAt mergeBase base left right p = Some c).
  { intros c. unfold found. rewrite in_flat_map. split.
    - intros [p [Hp H]]. exists p. split; auto.
      destruct (conflictAt mergeBase base left right p);
        [destruct H as [<-|[]]; reflexivity | contradiction].
    - intros [p [Hp H]]. exists p. split; auto. rewrite H.
      left; reflexivity. }
  assert (Hsorted : forall c, In c (sort_by (conflict_leb localeCompare) found)
                              <-> In c found).
  { intros c. split; apply Permutation_in;
      [|apply Permutation_sym]; apply sort_by_perm. }
  split; [|split; [|split]].
  - intros p. split.
    + intros [c [Hc Hp]]. apply Hsorted, Hfound in Hc.
      destruct Hc as [p' [_ Hc]].
      pose proof (conflictAt_spec mergeBase base left right p') as S.
      rewrite Hc in S. destruct S as [S [E _]]. congruence.
    + intros Hin. pose proof (conflict_path_listed p Hin) as Hp.
      pose proof (conflictAt_spec mergeBase base left right p) as S.
      destruct (conflictAt mergeBase base left right p) as [c|] eqn:E;
        [|contradiction].
      exists c. split; [|tauto]. apply Hsorted, Hfound. eauto.
  - intros c Hc. apply Hsorted, Hfound in Hc. destruct Hc as [p [_ Hc]].
    pose proof (conflictAt_spec mergeBase base left right p) as S.
    rewrite Hc in S. destruct S as [_ [E [M [S1 [S2 [S3 S4]]]]]].
    rewrite E. auto.
  - apply (Permutation_NoDup_map ce_path
             (Permutation_sym (sort_by_perm _ _))).
    unfold found. apply NoDup_flat_map_keyed.
    + unfold allPathsOf. apply distinct_NoDup.
    + intros p c H.
      pose proof (conflictAt_spec mergeBase base left right p) as S.
      destruct (conflictAt mergeBase base left right p) as [c'|];
        [|contradiction].
      destruct H as [<-|[]]. tauto.
    + intros p. destruct (conflictAt mergeBase base left right p); simpl; lia.
  - destruct Hconsistent as [Htotal Htrans].
    apply Sorted_StronglySorted.
    + intros a b c. apply Htrans.
    + apply Sorted_weaken
        with (R1 := fun a b => conflict_leb localeCompare a b = true).
      * intros a b H. apply Z.leb_le, H.
      * apply sort_by_sorted. intros a b. unfold conflict_leb.
        rewrite !Z.leb_le. apply Htotal.
Qed.

End ConflictDetection.

(* ================================================================= *)
(** * Rebase *)

Section Rebase.

Variable order_by_limit_1 : Limit1.
Variable sql_text_leb : JsString -> JsString -> bool.
Variable localeCompare : JsString -> JsString -> Z.
Variable uuidv7 : nat -> Uuid.

Lemma updateBranchHead_effect (branchId headCommitId : Uuid) (db db' : DB)
    (r : Result unit) :
  updateBranchHead branchId headCommitId db = (r, db') ->
  match r with
  | Ok _ =>
      db' = mkDB (repositories db) (commits db)
              (List.map (setHead branchId headCommitId) (branches db))
              (files db) (uuid_seq db)
  | Throw _ => db' = db
  end.
Proof.
  unfold updateBranchHead. destruct (existsb _ _); intros [= <- <-];
    reflexivity.
Qed.

(** C1, amended.  When the heads of two distinct branches of one
    repository have a merge base that is neither of them and
    [getConflicts] finds conflicts between them, [rebaseBranch] throws an
    error that carries the number of conflicts and the two heads, and the
    database is left as it was. *)
Theorem rebaseBranch_blocked (db : DB) (branchId ontoBranchId : Uuid)
    (message : option JsString) (branchRow ontoRow : Branch)
    (branchHead ontoHead mergeBase : Uuid)
    (conflicts : list ConflictEntry) :
  jsFalsy branchId = false ->
  jsFalsy ontoBranchId = false ->
  branchById db branchId = Some branchRow ->
  branchById db ontoBranchId = Some ontoRow ->
  branch_repository_id branchRow = branch_repository_id ontoRow ->
  branchId <> ontoBranchId ->
  truthyId (head_commit_id branchRow) = Some branchHead ->
  truthyId (head_commit_id ontoRow) = Some ontoHead ->
  getMergeBase order_by_limit_1 db branchHead ontoHead = Ok mergeBase ->
  mergeBase <> ontoHead ->
  mergeBase <> branchHead ->
  getConflicts order_by_limit_1 sql_text_leb localeCompare db branchHead
    ontoHead
  = Ok conflicts ->
  conflicts <> [] ->
  rebaseBranch order_by_limit_1 sql_text_leb localeCompare uuidv7 branchId
    ontoBranchId
    message db
  = (Throw (RebaseBlocked (length conflicts) branchHead ontoHead), db).
Proof.
  intros Hb Ho Hbranch Honto Hrepo Hne Hbh Hoh Hmb Hn1 Hn2 Hc Hsome.
  unfold rebaseBranch. rewrite Hb, Ho. cbn [orb].
  unfold tx_bind, tx_query, tx_throw. cbv beta iota zeta.
  rewrite Hbranch, Honto. cbv beta iota zeta.
  rewrite Hrepo, str_eqb_refl. cbn [negb].
  apply str_eqb_neq in Hne. rewrite Hne, Hbh, Hoh, Hmb.
  cbv beta iota zeta.
  apply str_eqb_neq in Hn1. apply str_eqb_neq in Hn2. rewrite Hn1, Hn2, Hc.
  cbv beta iota zeta.
  destruct conflicts as [|c cs]; [congruence|]. reflexivity.
Qed.

(** C7.  A rebase that answers [fast_forward] creates no commit and no
    file delta: the database it leaves differs from the one it found only
    in the head of the rebased branch, which is the head of the onto
    branch. *)
Theorem rebaseBranch_fast_forward (db db' : DB)
    (branchId ontoBranchId : Uuid) (message : option JsString)
    (result : RebaseResult) :
  rebaseBranch order_by_limit_1 sql_text_leb localeCompare uuidv7 branchId
    ontoBranchId
    message db = (Ok result, db') ->
  rb_operation result = FastForward ->
  exists ontoRow ontoHead,
    branchById db ontoBranchId = Some ontoRow
    /\ head_commit_id ontoRow = Some ontoHead
    /\ repositories db' = repositories db
    /\ commits db' = commits db
    /\ files db' = files db
    /\ uuid_seq db' = uuid_seq db
    /\ branches db' = List.map (setHead branchId ontoHead) (branches db)
    /\ rb_rebasedCommitId result = None
    /\ rb_newBranchHeadCommitId result = Some ontoHead.
Proof.
  unfold rebaseBranch.
  destruct (jsFalsy branchId || jsFalsy ontoBranchId); [discriminate|].
  unfold tx_bind, tx_query, tx_throw, tx_ret. cbv beta iota zeta.
  destruct (branchById db branchId) as [branchRow|]; [|discriminate].
  destruct (branchById db ontoBranchId) as [ontoRow|]; [|discriminate].
  cbv beta iota zeta.
  destruct (negb _); [discriminate|].
  destruct (str_eqb branchId ontoBranchId);
    [intros [= <- <-]; discriminate|].
  destruct (truthyId (head_commit_id branchRow)) as [branchHead|];
    [|discriminate].
  destruct (truthyId (head_commit_id ontoRow)) as [ontoHead|] eqn:Hoh;
    [|discriminate].
  assert (Hhead : head_commit_id ontoRow = Some ontoHead).
  { unfold truthyId in Hoh. destruct (head_commit_id ontoRow) as [h|];
      [|discriminate]. destruct (jsFalsy h); congruence. }
  destruct (getMergeBase order_by_limit_1 db branchHead ontoHead) as
    [mergeBase|];
    [|discriminate].
  cbv beta iota zeta.
  destruct (str_eqb mergeBase ontoHead); [intros [= <- <-]; discriminate|].
  assert (Hff : forall res,
            (let (r, db1) := updateBranchHead branchId ontoHead db in
             match r with
             | Ok _ => (Ok res, db1)
             | Throw e => (Throw e, db1)
             end) = (Ok result, db') ->
            result = res
            /\ db' = mkDB (repositories db) (commits db)
                       (List.map (setHead branchId ontoHead) (branches db))
                       (files db) (uuid_seq db)).
  { intros res. destruct (updateBranchHead branchId ontoHead db)
      as [[u|e] db1] eqn:U; [|discriminate].
    apply updateBranchHead_effect in U. intros [= <- <-]. auto. }
  destruct (str_eqb mergeBase branchHead).
  - intros H _. apply Hff in H. destruct H as [-> ->].
    exists ontoRow, ontoHead. repeat split; auto.
  - destruct (getConflicts order_by_limit_1 sql_text_leb localeCompare db
    branchHead ontoHead)
      as [conflicts|]; [|discriminate].
    cbv beta iota zeta.
    destruct (Nat.ltb 0 (length conflicts)); [discriminate|].
    destruct (getCommitSnapshotWithContent order_by_limit_1 sql_text_leb db
      mergeBase None)
      as [baseSnapshot|]; [|discriminate].
    destruct (getCommitSnapshotWithContent order_by_limit_1 sql_text_leb db
      ontoHead None)
      as [ontoSnapshot|]; [|discriminate].
    destruct (getCommitSnapshotWithContent order_by_limit_1 sql_text_leb db
      branchHead None)
      as [branchSnapshot|]; [|discriminate].
    cbv beta iota zeta.
    destruct (Nat.eqb _ 0).
    + intros H _. apply Hff in H. destruct H as [-> ->].
      exists ontoRow, ontoHead. repeat split; auto.
    + destruct (createCommit _ _ _ _ _ db) as [[rebased|e] db1];
        [|discriminate].
      destruct (writeFiles _ _ db1) as [[written|e] db2]; [|discriminate].
      destruct (updateBranchHead _ _ db2) as [[u|e] db3]; [|discriminate].
      intros [= <- <-]. discriminate.
Qed.

End Rebase.

Lemma rebaseBranch_blocked_witness :
  rebaseBranch first_least codeUnitLeb codeUnitCompare seqUuid (js "u3") (js
    "main")
    None (dbAfter conflictHistory)
  = (Throw (RebaseBlocked 1 (js "u1") (js "u2")), dbAfter conflictHistory).
Proof.
  assert (Hc : exists c,
             getConflicts first_least codeUnitLeb codeUnitCompare
               (dbAfter conflictHistory) (js "u1") (js "u2") = Ok [c]).
  { eexists. vm_compute. reflexivity. }
  destruct Hc as [c Hc].
  apply (@rebaseBranch_blocked first_least codeUnitLeb codeUnitCompare
           seqUuid
           (dbAfter conflictHistory) (js "u3") (js "main") None
           (mkBranch (js "u3") R1 (js "feature") (Some (js "u1")))
           (mkBranch (js "main") R1 (js "main") (Some (js "u2")))
           (js "u1") (js "u2") (js "u0") [c]);
    try reflexivity; try exact Hc; intros E; discriminate E.
Defined.

Lemma rebaseBranch_fast_forward_witness :
  exists ontoRow ontoHead,
    branchById (dbAfter staleBranchHistory) (js "main") = Some ontoRow
    /\ head_commit_id ontoRow = Some ontoHead
    /\ repositories
         (snd (rebaseBranch first_least codeUnitLeb codeUnitCompare seqUuid
           (js "u1")
                 (js "main") None (dbAfter staleBranchHistory)))
       = repositories (dbAfter staleBranchHistory)
    /\ commits
         (snd (rebaseBranch first_least codeUnitLeb codeUnitCompare seqUuid
           (js "u1")
                 (js "main") None (dbAfter staleBranchHistory)))
       = commits (dbAfter staleBranchHistory)
    /\ files
         (snd (rebaseBranch first_least codeUnitLeb codeUnitCompare seqUuid
           (js "u1")
                 (js "main") None (dbAfter staleBranchHistory)))
       = files (dbAfter staleBranchHistory)
    /\ uuid_seq
         (snd (rebaseBranch first_least codeUnitLeb codeUnitCompare seqUuid
           (js "u1")
                 (js "main") None (dbAfter staleBranchHistory)))
       = uuid_seq (dbAfter staleBranchHistory)
    /\ branches
         (snd (rebaseBranch first_least codeUnitLeb codeUnitCompare seqUuid
           (js "u1")
                 (js "main") None (dbAfter staleBranchHistory)))
       = List.map (setHead (js "u1") ontoHead)
           (branches (dbAfter staleBranchHistory))
    /\ rb_rebasedCommitId
         (mkRebaseResult FastForward R1 (js "u1") (js "main")
            (Some (js "u0")) (Some (js "u0")) (Some (js "u2")) None
            (Some (js "u2")) 0) = None
    /\ rb_newBranchHeadCommitId
         (mkRebaseResult FastForward R1 (js "u1") (js "main")
            (Some (js "u0")) (Some (js "u0")) (Some (js "u2")) None
            (Some (js "u2")) 0) = Some ontoHead.
Proof.
  apply (@rebaseBranch_fast_forward first_least codeUnitLeb codeUnitCompare
           seqUuid
           (dbAfter staleBranchHistory) _ (js "u1") (js "main") None);
    reflexivity.
Defined.

(** Closes a goal about a concrete history by evaluation. *)
Ltac evaluate :=
  vm_compute; first [reflexivity | intros E; discriminate E].

(** C1, as stated, fails: the error of a blocked rebase does not carry
    the conflicts.  Two histories whose conflicts are at different paths
    make [rebaseBranch] throw the same error, so no reading of the error
    gives the list back. *)
Lemma rebase_error_omits_conflict_list :
  ~ (exists decode : Error -> list ConflictEntry,
       forall (db : DB) (branchId ontoBranchId : Uuid)
              (branchRow ontoRow : Branch)
              (branchHead ontoHead mergeBase : Uuid)
              (conflicts : list ConflictEntry),
         branchById db branchId = Some branchRow ->
         branchById db ontoBranchId = Some ontoRow ->
         branch_repository_id branchRow = branch_repository_id ontoRow ->
         branchId <> ontoBranchId ->
         head_commit_id branchRow = Some branchHead ->
         head_commit_id ontoRow = Some ontoHead ->
         getMergeBase first_least db branchHead ontoHead = Ok mergeBase ->
         mergeBase <> ontoHead ->
         mergeBase <> branchHead ->
         getConflicts first_least codeUnitLeb codeUnitCompare db branchHead
           ontoHead = Ok conflicts ->
         conflicts <> [] ->
         exists e,
           rebaseBranch first_least codeUnitLeb codeUnitCompare seqUuid
             branchId ontoBranchId None db = (Throw e, db)
           /\ decode e = conflicts).
Proof.
  intros [decode H].
  pose (dbA := dbAfter (conflictHistoryAt (js "/a.txt"))).
  pose (dbB := dbAfter (conflictHistoryAt (js "/b.txt"))).
  assert (HA : exists e,
             rebaseBranch first_least codeUnitLeb codeUnitCompare seqUuid
               (js "u3") (js "main") None dbA = (Throw e, dbA)
             /\ decode e = conflictsOf dbA (js "u1") (js "u2")).
  { apply (H dbA (js "u3") (js "main")
             (mkBranch (js "u3") R1 (js "feature") (Some (js "u1")))
             (mkBranch (js "main") R1 (js "main") (Some (js "u2")))
             (js "u1") (js "u2") (js "u0"));
      evaluate. }
  assert (HB : exists e,
             rebaseBranch first_least codeUnitLeb codeUnitCompare seqUuid
               (js "u3") (js "main") None dbB = (Throw e, dbB)
             /\ decode e = conflictsOf dbB (js "u1") (js "u2")).
  { apply (H dbB (js "u3") (js "main")
             (mkBranch (js "u3") R1 (js "feature") (Some (js "u1")))
             (mkBranch (js "main") R1 (js "main") (Some (js "u2")))
             (js "u1") (js "u2") (js "u0"));
      evaluate. }
  destruct HA as [eA [RA DA]], HB as [eB [RB DB]].
  assert (EA : eA = RebaseBlocked 1 (js "u1") (js "u2"))
    by (vm_compute in RA; inversion RA; reflexivity).
  assert (EB : eB = RebaseBlocked 1 (js "u1") (js "u2"))
    by (vm_compute in RB; inversion RB; reflexivity).
  rewrite EA in DA. rewrite EB, DA in DB. vm_compute in DB.
  discriminate DB.
Qed.

(* ================================================================= *)
(** * Finalising a merge *)

Section Finalize.

Variable order_by_limit_1 : Limit1.
Variable sql_text_leb : JsString -> JsString -> bool.
Variable localeCompare : JsString -> JsString -> Z.

(** C2, amended.  When a merge commit is finalised and some conflict
    between the target head and the merged-from commit has no row in the
    commit, [finalizeCommit] throws an error that carries the number of
    conflicts without a resolution and the identifier of the commit, and
    the database is left as it was. *)
Theorem finalizeCommit_unresolved (db : DB) (commitId : Uuid)
    (targetBranchId : option Uuid) (mergeCommitRow : Commit)
    (sourceCommitId : Uuid) (branchHead : option Uuid) (mergeBase : Uuid)
    (conflicts : list ConflictEntry) :
  jsFalsy commitId = false ->
  find (fun c => str_eqb (commit_id c) commitId) (commits db)
  = Some mergeCommitRow ->
  merged_from_commit_id mergeCommitRow = Some sourceCommitId ->
  targetHeadFor db (commit_repository_id mergeCommitRow)
    (parent_commit_id mergeCommitRow) (truthyId targetBranchId)
  = Ok branchHead ->
  getMergeBase order_by_limit_1 db (assertNonNull branchHead) sourceCommitId =
    Ok mergeBase ->
  getConflicts order_by_limit_1 sql_text_leb localeCompare db (assertNonNull
    branchHead)
    sourceCommitId = Ok conflicts ->
  missingResolutions db commitId conflicts <> [] ->
  finalizeCommit order_by_limit_1 sql_text_leb localeCompare commitId
    targetBranchId db
  = (Throw (MergeRequiresResolutions
              (length (missingResolutions db commitId conflicts)) commitId),
     db).
Proof.
  intros Hf Hrow Hsrc Hhead Hmb Hc Hmiss.
  unfold finalizeCommit. rewrite Hf.
  unfold tx_bind, tx_query, tx_throw. cbv beta iota zeta.
  rewrite Hrow. cbv beta iota zeta. rewrite Hhead, Hsrc.
  cbv beta iota zeta. rewrite Hmb, Hc. cbv beta iota zeta.
  assert (Hsome : Nat.ltb 0 (length conflicts) = true).
  { destruct conflicts as [|c cs]; [|reflexivity].
    exfalso. apply Hmiss. reflexivity. }
  rewrite Hsome.
  destruct (missingResolutions db commitId conflicts) as [|m ms];
    [congruence|].
  reflexivity.
Qed.

End Finalize.

Lemma finalizeCommit_unresolved_witness :
  finalizeCommit first_least codeUnitLeb codeUnitCompare (js "u4") (Some (js
    "main"))
    (dbAfter (mergeHistoryAt (js "/a.txt")))
  = (Throw (MergeRequiresResolutions
              (length (missingResolutions
                         (dbAfter (mergeHistoryAt (js "/a.txt"))) (js "u4")
                         (conflictsOf (dbAfter (mergeHistoryAt (js "/a.txt")))
                            (js "u2") (js "u1"))))
              (js "u4")),
     dbAfter (mergeHistoryAt (js "/a.txt"))).
Proof.
  apply (@finalizeCommit_unresolved first_least codeUnitLeb codeUnitCompare
           (dbAfter (mergeHistoryAt (js "/a.txt"))) (js "u4")
           (Some (js "main"))
           (mkCommit (js "u4") R1 (Some (js "u2")) (Some (js "u1"))
              (js "merge"))
           (js "u1") (Some (js "u2")) (js "u0"));
    vm_compute; first [reflexivity | intros E; discriminate E].
Defined.

(** C2, as stated, fails: the error of an unresolved merge does not list
    the paths.  Two merges whose conflicts are at different paths make
    [finalizeCommit] throw the same error. *)
Lemma finalize_error_omits_paths :
  ~ (exists decode : Error -> list JsString,
       forall (db : DB) (commitId : Uuid) (targetBranchId : option Uuid)
              (mergeCommitRow : Commit) (sourceCommitId : Uuid)
              (branchHead : option Uuid)
              (conflicts : list ConflictEntry),
         find (fun c => str_eqb (commit_id c) commitId) (commits db)
         = Some mergeCommitRow ->
         merged_from_commit_id mergeCommitRow = Some sourceCommitId ->
         targetHeadFor db (commit_repository_id mergeCommitRow)
           (parent_commit_id mergeCommitRow) (truthyId targetBranchId)
         = Ok branchHead ->
         getConflicts first_least codeUnitLeb codeUnitCompare db
           (assertNonNull branchHead) sourceCommitId = Ok conflicts ->
         missingResolutions db commitId conflicts <> [] ->
         exists e,
           finalizeCommit first_least codeUnitLeb codeUnitCompare commitId
             targetBranchId db = (Throw e, db)
           /\ decode e
              = List.map ce_path (missingResolutions db commitId conflicts)).
Proof.
  intros [decode H].
  pose (dbA := dbAfter (mergeHistoryAt (js "/a.txt"))).
  pose (dbB := dbAfter (mergeHistoryAt (js "/b.txt"))).
  assert (HA : exists e,
             finalizeCommit first_least codeUnitLeb codeUnitCompare (js "u4")
               (Some (js "main")) dbA = (Throw e, dbA)
             /\ decode e
                = List.map ce_path
                    (missingResolutions dbA (js "u4")
                       (conflictsOf dbA (js "u2") (js "u1")))).
  { apply (H dbA (js "u4") (Some (js "main"))
             (mkCommit (js "u4") R1 (Some (js "u2")) (Some (js "u1"))
                (js "merge"))
             (js "u1") (Some (js "u2")));
      evaluate. }
  assert (HB : exists e,
             finalizeCommit first_least codeUnitLeb codeUnitCompare (js "u4")
               (Some (js "main")) dbB = (Throw e, dbB)
             /\ decode e
                = List.map ce_path
                    (missingResolutions dbB (js "u4")
                       (conflictsOf dbB (js "u2") (js "u1")))).
  { apply (H dbB (js "u4") (Some (js "main"))
             (mkCommit (js "u4") R1 (Some (js "u2")) (Some (js "u1"))
                (js "merge"))
             (js "u1") (Some (js "u2")));
      evaluate. }
  destruct HA as [eA [RA DA]], HB as [eB [RB DB]].
  assert (EA : eA = MergeRequiresResolutions 1 (js "u4"))
    by (vm_compute in RA; inversion RA; reflexivity).
  assert (EB : eB = MergeRequiresResolutions 1 (js "u4"))
    by (vm_compute in RB; inversion RB; reflexivity).
  rewrite EA in DA. rewrite EB, DA in DB. vm_compute in DB.
  discriminate DB.
Qed.

(* ================================================================= *)
(** * The constraints are kept by the operations

    The theorems above assume [history_ok] and [files_unique].  Both hold
    of the empty repository and are kept by every operation that inserts
    commits or file deltas. *)

Lemma history_ok_snoc (seen : list Uuid) (cs : list Commit) (c : Commit) :
  history_ok_from seen cs = true ->
  ~ In (commit_id c) (seen ++ List.map commit_id cs) ->
  (forall p, parent_commit_id c = Some p ->
             In p (seen ++ List.map commit_id cs)) ->
  (forall p, merged_from_commit_id c = Some p ->
             In p (seen ++ List.map commit_id cs)) ->
  history_ok_from seen (cs ++ [c]) = true.
Proof.
  revert seen. induction cs as [|c0 rest IH]; intros seen H Hfresh Hp Hm.
  - simpl in *. rewrite app_nil_r in *.
    assert (F : existsb (str_eqb (commit_id c)) seen = false).
    { destruct (existsb (str_eqb (commit_id c)) seen) eqn:E; auto.
      apply existsb_str_In in E. contradiction. }
    rewrite F. simpl.
    assert (P : optIn (parent_commit_id c) seen = true).
    { destruct (parent_commit_id c) as [p|]; simpl; auto.
      apply existsb_str_In. auto. }
    assert (M : optIn (merged_from_commit_id c) seen = true).
    { destruct (merged_from_commit_id c) as [p|]; simpl; auto.
      apply existsb_str_In. auto. }
    rewrite P, M. reflexivity.
  - simpl in H. simpl.
    apply andb_true_iff in H. destruct H as [H H0]. rewrite H. simpl.
    apply IH; auto.
    + intros Hin. apply Hfresh. simpl in Hin. apply in_app_iff.
      simpl. destruct Hin as [E|Hin]; auto.
      apply in_app_iff in Hin. tauto.
    + intros p E. specialize (Hp p E). apply in_app_iff in Hp. simpl in Hp.
      simpl. rewrite in_app_iff. tauto.
    + intros p E. specialize (Hm p E). apply in_app_iff in Hm. simpl in Hm.
      simpl. rewrite in_app_iff. tauto.
Qed.

Lemma commitInRepository_In (db : DB) (id repositoryId : Uuid) :
  commitInRepository db id repositoryId = true ->
  In id (List.map commit_id (commits db)).
Proof.
  unfold commitInRepository. intros H. apply existsb_exists in H.
  destruct H as [c [Hc E]]. apply andb_true_iff in E. destruct E as [E _].
  apply str_eqb_eq in E. subst id. apply in_map, Hc.
Qed.

Lemma insertCommit_keeps_history (uuidv7 : nat -> Uuid)
    (repositoryId : Uuid) (message : JsString)
    (parentCommitId mergedFromCommitId : option Uuid) (db db' : DB)
    (r : Result Commit) :
  history_ok db = true ->
  insertCommit uuidv7 repositoryId message parentCommitId mergedFromCommitId
    db = (r, db') ->
  history_ok db' = true.
Proof.
  intros Hh. unfold insertCommit.
  destruct (commitExists db _) eqn:Ex; [intros [= <- <-]; exact Hh|].
  destruct (negb (existsb _ (repositories db)));
    [intros [= <- <-]; exact Hh|].
  destruct (optCommitInRepository db parentCommitId repositoryId) eqn:P;
    [|intros [= <- <-]; exact Hh].
  destruct (optCommitInRepository db mergedFromCommitId repositoryId) eqn:M;
    [|intros [= <- <-]; exact Hh].
  cbn [negb].
  destruct (negb (isSome parentCommitId) && _);
    intros [= <- <-]; [exact Hh|].
  unfold history_ok. simpl. apply history_ok_snoc; auto; simpl.
  - intros Hin. unfold commitExists in Ex.
    apply in_map_iff in Hin. destruct Hin as [c [E Hc]].
    assert (existsb (fun c0 => str_eqb (commit_id c0)
                                 (uuidv7 (uuid_seq db))) (commits db) = true).
    { apply existsb_exists. exists c. split; auto. apply str_eqb_eq, E. }
    simpl in Ex. congruence.
  - intros p ->. simpl in P. eapply commitInRepository_In; eauto.
  - intros p ->. simpl in M. eapply commitInRepository_In; eauto.
Qed.

Lemma createCommit_keeps_history (uuidv7 : nat -> Uuid)
    (repositoryId : Uuid) (message : JsString)
    (parentCommitId : option (option Uuid))
    (mergedFromCommitId : option Uuid) (db db' : DB) (r : Result Commit) :
  history_ok db = true ->
  createCommit uuidv7 repositoryId message parentCommitId mergedFromCommitId
    db = (r, db') ->
  history_ok db' = true.
Proof.
  intros Hh. unfold createCommit, tx_bind, tx_query. cbv beta iota zeta.
  match goal with
  | |- context [match ?q with Ok _ => _ | Throw _ => _ end] =>
      destruct q as [resolved|e]; [|intros [= <- <-]; exact Hh]
  end.
  match goal with
  | |- context [match ?q with Ok _ => _ | Throw _ => _ end] =>
      destruct q as [[]|e]; [|intros [= <- <-]; exact Hh]
  end.
  apply insertCommit_keeps_history, Hh.
Qed.

Lemma files_unique_snoc (rows : list FileRow) (row : FileRow) :
  files_unique_rows rows = true ->
  existsb (fun f => str_eqb (file_commit_id f) (file_commit_id row)
                    && str_eqb (path f) (path row)) rows = false ->
  files_unique_rows (rows ++ [row]) = true.
Proof.
  induction rows as [|f rest IH]; intros Hu Hfresh; simpl; auto.
  simpl in Hu, Hfresh.
  apply andb_true_iff in Hu. destruct Hu as [Hf Hu].
  apply orb_false_iff in Hfresh. destruct Hfresh as [Hne Hfresh].
  rewrite IH, andb_true_r; auto.
  rewrite existsb_app. simpl.
  apply negb_true_iff in Hf. rewrite Hf. simpl.
  rewrite (str_eqb_sym (file_commit_id row)), (str_eqb_sym (path row)), Hne.
  reflexivity.
Qed.

Lemma insertFile_keeps_unique (row : FileRow) (db db' : DB)
    (r : Result FileRow) :
  files_unique db = true ->
  insertFile row db = (r, db') ->
  files_unique db' = true.
Proof.
  intros Hu. unfold insertFile.
  destruct (storedText (content row)) as [text|e];
    [|intros [= <- <-]; exact Hu].
  unfold appendFile. cbn [file_commit_id path].
  destruct (negb (commitExists db (file_commit_id row)));
    [intros [= <- <-]; exact Hu|].
  destruct (existsb _ (files db)) eqn:E; intros [= <- <-]; [exact Hu|].
  unfold files_unique. simpl. apply files_unique_snoc; auto.
Qed.

Lemma writeFile_keeps_unique (commitId : Uuid) (p : JsString)
    (text : option JsString) (options : WriteOptions) (db db' : DB)
    (r : Result FileRow) :
  files_unique db = true ->
  writeFile commitId p text options db = (r, db') ->
  files_unique db' = true.
Proof.
  intros Hu. unfold writeFile, tx_bind, tx_query. cbv beta iota zeta.
  destruct (normalizeFilePath p) as [np|e]; [|intros [= <- <-]; exact Hu].
  match goal with
  | |- context [match ?q with Ok _ => _ | Throw _ => _ end] =>
      destruct q as [prev|e]; [|intros [= <- <-]; exact Hu]
  end.
  match goal with
  | |- context [match ?q with Ok _ => _ | Throw _ => _ end] =>
      destruct q as [state|e]; [|intros [= <- <-]; exact Hu]
  end.
  apply insertFile_keeps_unique, Hu.
Qed.

Lemma writeFile_keeps_commits (commitId : Uuid) (p : JsString)
    (text : option JsString) (options : WriteOptions) (db db' : DB)
    (r : Result FileRow) :
  writeFile commitId p text options db = (r, db') ->
  commits db' = commits db.
Proof.
  unfold writeFile, tx_bind, tx_query. cbv beta iota zeta.
  destruct (normalizeFilePath p) as [np|e]; [|intros [= <- <-]; reflexivity].
  match goal with
  | |- context [match ?q with Ok _ => _ | Throw _ => _ end] =>
      destruct q as [prev|e]; [|intros [= <- <-]; reflexivity]
  end.
  match goal with
  | |- context [match ?q with Ok _ => _ | Throw _ => _ end] =>
      destruct q as [state|e]; [|intros [= <- <-]; reflexivity]
  end.
  unfold insertFile.
  destruct (storedText _) as [stored|e]; [|intros [= <- <-]; reflexivity].
  unfold appendFile.
  destruct (negb _); [intros [= <- <-]; reflexivity|].
  destruct (existsb _ _); intros [= <- <-]; reflexivity.
Qed.

(* ================================================================= *)
(** * Which paths are accepted, and the shape of what is stored *)

Lemma trimStart_keeps (c : N) (s : JsString) :
  In c s -> is_js_whitespace c = false -> In c (trimStart s).
Proof.
  induction s as [|x s IH]; simpl; [tauto|].
  intros [->|Hin] Hc.
  - rewrite Hc. left; reflexivity.
  - destruct (is_js_whitespace x); [auto | right; exact Hin].
Qed.

Lemma trimStart_all (s : JsString) :
  forallb is_js_whitespace s = true -> trimStart s = [].
Proof.
  induction s as [|x s IH]; simpl; [reflexivity|].
  intros H. apply andb_true_iff in H. destruct H as [Hx Hs].
  rewrite Hx. auto.
Qed.

Lemma trim_blank (s : JsString) :
  length (trim s) = 0 <-> forallb is_js_whitespace s = true.
Proof.
  unfold trim. rewrite length_rev. split.
  - intros H. apply length_zero_iff_nil in H.
    apply trimStart_nil_all in H.
    destruct (forallb is_js_whitespace s) eqn:E; [reflexivity|].
    exfalso.
    assert (Hex : exists c, In c s /\ is_js_whitespace c = false).
    { clear H. induction s as [|x s IH]; simpl in E; [discriminate|].
      destruct (is_js_whitespace x) eqn:Ex.
      - destruct (IH E) as [c [Hc Hw]]. exists c. split; [right|]; assumption.
      - exists x. split; [left; reflexivity | exact Ex]. }
    destruct Hex as [c [Hc Hw]].
    apply trimStart_keeps in Hc; [|exact Hw].
    rewrite forallb_forall in H.
    rewrite (H c) in Hw; [discriminate|].
    apply in_rev. rewrite rev_involutive. exact Hc.
  - intros H. rewrite (trimStart_all _ H). reflexivity.
Qed.

Lemma okChar_scan (p : JsString) :
  forallb okChar p = true <->
  find isForbiddenControl p = None /\ existsb isInvalidOnWindows p = false.
Proof.
  induction p as [|c p IH]; simpl; [tauto|].
  unfold okChar at 1.
  destruct (isForbiddenControl c), (isInvalidOnWindows c); simpl;
    try (split; [discriminate | intros [? ?]; discriminate]).
  exact IH.
Qed.

(** X1.  [validatePath] accepts a path exactly when it holds a character
    that is not white space, is at most 4096 code units long, and holds
    neither a forbidden control character nor a character that is invalid
    on Windows. *)
Theorem validatePath_accepts_iff (p : JsString) :
  validatePath p = Ok tt <->
  (exists c, In c p /\ is_js_whitespace c = false)
  /\ length p <= MAX_PATH
  /\ forallb okChar p = true.
Proof.
  assert (Hblank : Nat.eqb (length (trim p)) 0 = false <->
                   exists c, In c p /\ is_js_whitespace c = false).
  { rewrite Nat.eqb_neq, trim_blank. split.
    - intros H. destruct (forallb is_js_whitespace p) eqn:E; [congruence|].
      clear H. induction p as [|x p IH]; simpl in E; [discriminate|].
      destruct (is_js_whitespace x) eqn:Ex.
      + destruct (IH E) as [c [Hc Hw]]. exists c. split; [right|]; assumption.
      + exists x. split; [left; reflexivity | exact Ex].
    - intros [c [Hc Hw]] H. rewrite forallb_forall in H.
      rewrite (H c Hc) in Hw. discriminate. }
  unfold validatePath. split.
  - destruct (Nat.eqb (length (trim p)) 0) eqn:E1; [discriminate|].
    destruct (Nat.ltb MAX_PATH (length p)) eqn:E2; [discriminate|].
    destruct (find isForbiddenControl p) eqn:E3; [discriminate|].
    destruct (existsb isInvalidOnWindows p) eqn:E4; [discriminate|].
    intros _. split; [apply Hblank; reflexivity|].
    split; [apply Nat.ltb_ge in E2; exact E2|].
    apply okChar_scan. split; assumption.
  - intros [Hc [Hlen Hok]].
    apply Hblank in Hc. rewrite Hc.
    apply Nat.ltb_ge in Hlen. rewrite Hlen.
    apply okChar_scan in Hok. destruct Hok as [-> ->]. reflexivity.
Qed.

(** X2.  Whatever [normalizePath] returns starts with a slash, holds no
    doubled slash and no backslash, ends with a slash only when it is the
    root, and is itself a path that [validatePath] accepts. *)
Theorem normalizePath_output_canonical (p q : JsString) :
  normalizePath p = Ok q ->
  startsWithSlash q = true
  /\ includesDoubleSlash q = false
  /\ forallb (fun c => negb (N.eqb c BACKSLASH)) q = true
  /\ (endsWithChar SLASH q = true -> q = [SLASH])
  /\ validatePath q = Ok tt.
Proof.
  intros H. destruct (normalizePath_ok _ H) as [Hv [-> Hlen]].
  destruct (canonicalForm_canonical p) as [Hs Hc Hb Ht].
  repeat split; try assumption.
  - intros He.
    destruct (canonicalForm p) as [|c [|d t]] eqn:E; simpl in Hs;
      [discriminate| |].
    + apply N.eqb_eq in Hs. subst c. reflexivity.
    + rewrite Ht in He; [discriminate | simpl; lia].
  - apply validatePath_intro; [exact Hs | exact Hlen|].
    apply canonicalForm_chars. apply (validatePath_ok _ Hv).
Qed.

Lemma normalizePath_output_canonical_witness :
  startsWithSlash (js "/docs/a.txt") = true
  /\ includesDoubleSlash (js "/docs/a.txt") = false
  /\ forallb (fun c => negb (N.eqb c BACKSLASH)) (js "/docs/a.txt") = true
  /\ (endsWithChar SLASH (js "/docs/a.txt") = true ->
      js "/docs/a.txt" = [SLASH])
  /\ validatePath (js "/docs/a.txt") = Ok tt.
Proof.
  apply (normalizePath_output_canonical (js "docs\\a.txt/")).
  reflexivity.
Defined.

Lemma replaceDoubleSlash_nil (s : JsString) :
  replaceDoubleSlash s = [] -> s = [].
Proof.
  destruct s as [|c [|d t]]; simpl; try discriminate; [reflexivity|].
  destruct (N.eqb c SLASH && N.eqb d SLASH); discriminate.
Qed.

Lemma endsWithChar_cons (c x : N) (s : JsString) :
  s <> [] -> endsWithChar c (x :: s) = endsWithChar c s.
Proof. destruct s; [congruence | reflexivity]. Qed.

Lemma replaceDoubleSlash_ends (s : JsString) :
  endsWithChar SLASH (replaceDoubleSlash s) = endsWithChar SLASH s.
Proof.
  remember (length s) as n eqn:Hn. revert s Hn.
  induction n as [n IH] using lt_wf_ind. intros s Hn.
  destruct s as [|c [|d t]]; try reflexivity.
  change (replaceDoubleSlash (c :: d :: t))
    with (if N.eqb c SLASH && N.eqb d SLASH
          then SLASH :: replaceDoubleSlash t
          else c :: replaceDoubleSlash (d :: t)).
  destruct (N.eqb c SLASH && N.eqb d SLASH) eqn:E.
  - apply andb_true_iff in E. destruct E as [Ec Ed].
    apply N.eqb_eq in Ec, Ed. subst c d.
    destruct t as [|e t]; [reflexivity|].
    rewrite endsWithChar_cons.
    + rewrite (IH (length (e :: t))); [reflexivity | simpl in *; lia |
        reflexivity].
    + intros H. apply replaceDoubleSlash_nil in H. discriminate.
  - rewrite endsWithChar_cons.
    + rewrite (IH (length (d :: t))); [reflexivity | simpl in *; lia |
        reflexivity].
    + intros H. apply replaceDoubleSlash_nil in H. discriminate.
Qed.

Lemma collapseLoop_ends (fuel : nat) (s : JsString) :
  endsWithChar SLASH (collapseLoop fuel s) = endsWithChar SLASH s.
Proof.
  revert s; induction fuel as [|fuel IH]; intros s; simpl; [reflexivity|].
  destruct (includesDoubleSlash s); [|reflexivity].
  rewrite IH. apply replaceDoubleSlash_ends.
Qed.

Lemma replaceBackslashes_ends (s : JsString) :
  endsWithChar SLASH (replaceBackslashes s)
  = endsWithChar SLASH s || endsWithChar BACKSLASH s.
Proof.
  induction s as [|c [|d t] IH]; [reflexivity| |].
  - simpl. destruct (N.eqb c BACKSLASH) eqn:E; [|rewrite orb_false_r; auto].
    apply N.eqb_eq in E. subst c. reflexivity.
  - exact IH.
Qed.

Lemma validatePath_nonempty (p : JsString) :
  validatePath p = Ok tt -> p <> [].
Proof. intros H ->. discriminate H. Qed.

(** The string both [normalizePath] and [normalizePathPrefix] hold after
    the doubled slashes are collapsed. *)
Lemma collapsed_ends (p : JsString) :
  p <> [] ->
  endsWithChar SLASH
    (collapseSlashes
       (if startsWithSlash (replaceBackslashes p) then replaceBackslashes p
        else SLASH :: replaceBackslashes p))
  = endsWithChar SLASH p || endsWithChar BACKSLASH p.
Proof.
  intros Hp. unfold collapseSlashes. rewrite collapseLoop_ends.
  rewrite <- replaceBackslashes_ends.
  destruct (startsWithSlash (replaceBackslashes p)); [reflexivity|].
  apply endsWithChar_cons.
  destruct p; [congruence | discriminate].
Qed.

(** X3.  [normalizePathPrefix] keeps a trailing separator and never adds
    one: its result ends with a slash exactly when the prefix given ends
    with a slash or a backslash, and removing that slash (unless the
    result is the root) gives what [normalizePath] returns for the same
    input. *)
Theorem normalizePathPrefix_trailing_slash (p q : JsString) :
  normalizePathPrefix p = Ok q ->
  endsWithChar SLASH q = endsWithChar SLASH p || endsWithChar BACKSLASH p
  /\ normalizePath p
     = Ok (if Nat.ltb 1 (length q) && endsWithChar SLASH q
           then removelast q else q).
Proof.
  unfold normalizePathPrefix, normalizePath, rbind.
  destruct (validatePath p) as [[]|e] eqn:Hv; [|discriminate].
  pose proof (collapsed_ends (validatePath_nonempty Hv)) as Hends.
  unfold canonicalForm. cbv zeta.
  set (n := collapseSlashes _) in *.
  assert (Hsame :
    (if (endsWithChar SLASH p || endsWithChar BACKSLASH p)
        && negb (str_eqb n [SLASH]) && negb (endsWithChar SLASH n)
     then n ++ [SLASH] else n) = n).
  { rewrite <- Hends.
    destruct (endsWithChar SLASH n); simpl;
      [rewrite andb_false_r|]; reflexivity. }
  rewrite Hsame.
  destruct (Nat.ltb MAX_PATH (length n)) eqn:Hlen; [discriminate|].
  intros [= <-]. split; [exact Hends|].
  apply Nat.ltb_ge in Hlen.
  pose proof (removelast_shorter n) as Hr.
  destruct (Nat.ltb 1 (length n) && endsWithChar SLASH n).
  - assert (E : Nat.ltb MAX_PATH (length (removelast n)) = false)
      by (apply Nat.ltb_ge; lia).
    rewrite E. reflexivity.
  - apply Nat.ltb_ge in Hlen. rewrite Hlen. reflexivity.
Qed.

Lemma normalizePathPrefix_trailing_slash_witness :
  endsWithChar SLASH (js "/src/")
  = endsWithChar SLASH (js "src\\") || endsWithChar BACKSLASH (js "src\\")
  /\ normalizePath (js "src\\")
     = Ok (if Nat.ltb 1 (length (js "/src/")) && endsWithChar SLASH (js "/src/")
           then removelast (js "/src/") else js "/src/").
Proof.
  apply (normalizePathPrefix_trailing_slash (js "src\\")).
  reflexivity.
Defined.

Lemma all_slashes_clean (s : JsString) :
  forallb (fun c => N.eqb c SLASH) s = true ->
  includesDoubleSlash s = false ->
  length s <= 1.
Proof.
  destruct s as [|c [|d t]]; simpl; try lia.
  intros H. apply andb_true_iff in H. destruct H as [Hc H].
  apply andb_true_iff in H. destruct H as [Hd _].
  rewrite Hc, Hd. discriminate.
Qed.

(** X4.  A path made only of slashes and backslashes normalises to the
    root, so the functions that write or read a file reject it as not
    being a file path. *)
Theorem separators_only_is_root (p : JsString) :
  validatePath p = Ok tt ->
  forallb (fun c => N.eqb c SLASH || N.eqb c BACKSLASH) p = true ->
  normalizePath p = Ok [SLASH]
  /\ normalizeFilePath p = Throw RootIsNotAFilePath
  /\ normalizePathPrefix p = Ok [SLASH].
Proof.
  intros Hv Hsep.
  pose proof (validatePath_nonempty Hv) as Hne.
  assert (Hall : forallb (fun c => N.eqb c SLASH) (replaceBackslashes p)
                 = true).
  { clear Hv Hne. induction p as [|c p IH]; [reflexivity|].
    simpl in *. apply andb_true_iff in Hsep. destruct Hsep as [Hc Hp].
    rewrite (IH Hp), andb_true_r.
    destruct (N.eqb c BACKSLASH) eqn:E; [reflexivity|].
    rewrite orb_false_r in Hc. exact Hc. }
  assert (Hst : startsWithSlash (replaceBackslashes p) = true).
  { destruct p as [|c p]; [congruence|]. simpl in *.
    apply andb_true_iff in Hall. tauto. }
  assert (Hcol : collapseSlashes (replaceBackslashes p) = [SLASH]).
  { unfold collapseSlashes.
    pose proof (collapseLoop_clean (replaceBackslashes p) (le_n _)) as Hc.
    pose proof (collapseLoop_chars (fun c => N.eqb c SLASH)
                  (length (replaceBackslashes p)) _ Hall) as Ha.
    pose proof (collapseLoop_starts (length (replaceBackslashes p)) _ Hst)
      as Hs.
    pose proof (all_slashes_clean _ Ha Hc) as Hl.
    destruct (collapseLoop _ _) as [|c [|d t]]; simpl in *;
      [discriminate| |lia].
    apply N.eqb_eq in Hs. subst c. reflexivity. }
  assert (Hnorm : normalizePath p = Ok [SLASH]).
  { unfold normalizePath, rbind. rewrite Hv.
    unfold canonicalForm. cbv zeta. rewrite Hst, Hcol. reflexivity. }
  split; [exact Hnorm|]. split.
  - unfold normalizeFilePath, rbind. rewrite Hnorm. reflexivity.
  - unfold normalizePathPrefix, rbind. rewrite Hv. cbv zeta.
    rewrite Hst, Hcol. simpl. rewrite andb_false_r. reflexivity.
Qed.

Lemma separators_only_is_root_witness :
  normalizePath (js "\\//") = Ok [SLASH]
  /\ normalizeFilePath (js "\\//") = Throw RootIsNotAFilePath
  /\ normalizePathPrefix (js "\\//") = Ok [SLASH].
Proof.
  apply (separators_only_is_root (js "\\//")); reflexivity.
Defined.

(* ================================================================= *)
(** * Text as the database stores it *)

Lemma toWellFormed_units (s : JsString) :
  Forall2 encodedUnit s (toWellFormed s).
Proof.
  assert (H : forall n s, length s <= n ->
                          Forall2 encodedUnit s (toWellFormed s)).
  { induction n as [|n IH]; intros [|c t] Hn; simpl in *;
      try constructor; try lia.
    - destruct (isHighSurrogate c) eqn:Hc.
      + destruct t as [|d t'].
        * constructor; [|constructor].
          right. unfold isSurrogate. rewrite Hc. auto.
        * destruct (isLowSurrogate d).
          -- constructor; [left; reflexivity|].
             constructor; [left; reflexivity|].
             apply IH. simpl in Hn. lia.
          -- constructor; [|apply IH; lia].
             right. unfold isSurrogate. rewrite Hc. auto.
      + destruct (isLowSurrogate c) eqn:Hl.
        * constructor; [|apply IH; lia].
          right. unfold isSurrogate. rewrite Hl, orb_true_r. auto.
        * constructor; [left; reflexivity | apply IH; lia]. }
  apply (H (length s)). lia.
Qed.

Lemma toWellFormed_length (s : JsString) :
  length (toWellFormed s) = length s.
Proof. symmetry. apply (Forall2_length (toWellFormed_units s)). Qed.

Lemma toWellFormed_fixed (s : JsString) :
  isWellFormed s = true -> toWellFormed s = s.
Proof. apply str_eqb_eq. Qed.

Lemma isSurrogate_bounds (c : N) :
  isSurrogate c = true -> (55296 <= c <= 57343)%N.
Proof.
  unfold isSurrogate, isHighSurrogate, isLowSurrogate.
  rewrite orb_true_iff, !andb_true_iff, !N.leb_le. lia.
Qed.

(** A test on code units that no surrogate passes, nor U+FFFD, gives the
    same answer before and after encoding. *)
Lemma encodedUnit_test (P : N -> bool) (a b : N) :
  (forall c, (55296 <= c)%N -> P c = false) ->
  encodedUnit a b -> P b = P a.
Proof.
  intros HP [->|[Ha ->]]; [reflexivity|].
  apply isSurrogate_bounds in Ha.
  rewrite (HP REPLACEMENT), (HP a); unfold REPLACEMENT; auto; lia.
Qed.

Lemma high_not_slash (c : N) : (55296 <= c)%N -> N.eqb c SLASH = false.
Proof. intros H. apply N.eqb_neq. unfold SLASH. lia. Qed.

Lemma high_not_backslash (c : N) :
  (55296 <= c)%N -> N.eqb c BACKSLASH = false.
Proof. intros H. apply N.eqb_neq. unfold BACKSLASH. lia. Qed.

Lemma high_okChar (c : N) : (55296 <= c)%N -> negb (okChar c) = false.
Proof.
  intros H. unfold okChar, isForbiddenControl, isInvalidOnWindows.
  assert (L : N.ltb c 32 = false) by (apply N.ltb_ge; lia).
  rewrite L. simpl.
  repeat match goal with
         | |- context [N.eqb c ?k] =>
             replace (N.eqb c k) with false by (symmetry; apply N.eqb_neq; lia)
         end.
  reflexivity.
Qed.

Lemma encoded_startsWithSlash (s t : JsString) :
  Forall2 encodedUnit s t -> startsWithSlash t = startsWithSlash s.
Proof.
  intros [|a b s' t' Hab _]; [reflexivity|]. simpl.
  apply (encodedUnit_test (fun c => N.eqb c SLASH) high_not_slash Hab).
Qed.

Lemma encoded_includesDoubleSlash (s t : JsString) :
  Forall2 encodedUnit s t -> includesDoubleSlash t = includesDoubleSlash s.
Proof.
  induction 1 as [|a b s' t' Hab Hrest IH]; [reflexivity|].
  destruct Hrest as [|a' b' s'' t'' Hab' Hrest']; [reflexivity|].
  change (includesDoubleSlash (b :: b' :: t''))
    with ((N.eqb b SLASH && N.eqb b' SLASH)
          || includesDoubleSlash (b' :: t'')).
  change (includesDoubleSlash (a :: a' :: s''))
    with ((N.eqb a SLASH && N.eqb a' SLASH)
          || includesDoubleSlash (a' :: s'')).
  rewrite IH,
    (encodedUnit_test (fun c => N.eqb c SLASH) high_not_slash Hab),
    (encodedUnit_test (fun c => N.eqb c SLASH) high_not_slash Hab').
  reflexivity.
Qed.

Lemma encoded_endsWithChar (s t : JsString) :
  Forall2 encodedUnit s t -> endsWithChar SLASH t = endsWithChar SLASH s.
Proof.
  induction 1 as [|a b s' t' Hab Hrest IH]; [reflexivity|].
  destruct Hrest as [|a' b' s'' t'' Hab' Hrest'].
  - simpl.
    apply (encodedUnit_test (fun c => N.eqb c SLASH) high_not_slash Hab).
  - exact IH.
Qed.

Lemma encoded_forallb (P : N -> bool) (s t : JsString) :
  (forall c, (55296 <= c)%N -> negb (P c) = false) ->
  Forall2 encodedUnit s t -> forallb P t = forallb P s.
Proof.
  intros HP. induction 1 as [|a b s' t' Hab _ IH]; [reflexivity|].
  simpl. rewrite IH. f_equal.
  pose proof (encodedUnit_test (fun c => negb (P c)) HP Hab) as E.
  simpl in E. destruct (P a), (P b); simpl in E; congruence.
Qed.

(** A canonical file path stays one when it is encoded. *)
Lemma toWellFormed_isFilePath (q : JsString) :
  isFilePath q = true -> isFilePath (toWellFormed q) = true.
Proof.
  unfold isFilePath. intros H.
  destruct (normalizeFilePath q) as [q'|e] eqn:Hq; [|discriminate].
  apply str_eqb_eq in H. subst q'.
  unfold normalizeFilePath, rbind in Hq.
  destruct (normalizePath q) as [n|e] eqn:Hn; [|discriminate].
  destruct (str_eqb n [SLASH]) eqn:Hroot; [discriminate|].
  injection Hq as ->.
  destruct (normalizePath_ok _ Hn) as [Hv [Hc Hlen]].
  destruct (validatePath_ok _ Hv) as [_ Hok].
  pose proof (canonicalForm_canonical q) as C. rewrite <- Hc in C.
  pose proof (toWellFormed_units q) as U.
  assert (Hw : normalizePath (toWellFormed q) = Ok (toWellFormed q)).
  { apply normalizePath_canonical.
    - destruct C as [C1 C2 C3 C4]. split.
      + rewrite (encoded_startsWithSlash U). exact C1.
      + rewrite (encoded_includesDoubleSlash U). exact C2.
      + rewrite (encoded_forallb (fun c => negb (N.eqb c BACKSLASH))
                   (s := q)); auto.
        intros c Hc'. rewrite (high_not_backslash Hc'). reflexivity.
      + rewrite toWellFormed_length, (encoded_endsWithChar U). exact C4.
    - rewrite toWellFormed_length. exact Hlen.
    - rewrite (encoded_forallb okChar (s := q)); auto.
      apply high_okChar. }
  unfold normalizeFilePath, rbind. rewrite Hw.
  assert (Hroot' : str_eqb (toWellFormed q) [SLASH] = false).
  { apply str_eqb_neq in Hroot. apply str_eqb_neq. intros E.
    rewrite E in U. inversion U as [|a b s' t' Hab Hnil]; subst.
    inversion Hnil; subst. apply Hroot.
    destruct Hab as [<-|[_ Hab]]; [reflexivity|discriminate Hab]. }
  rewrite Hroot'. apply str_eqb_refl.
Qed.

(* ================================================================= *)
(** * Writing deltas *)

Lemma writeFile_unfold (commitId : Uuid) (p : JsString)
    (text : option JsString) (options : WriteOptions) (db : DB) :
  writeFile commitId p text options db =
  match fileRowFor commitId p text options with
  | Ok row => appendFile row db
  | Throw e => (Throw e, db)
  end.
Proof.
  unfold writeFile, fileRowFor, insertFile, tx_bind, tx_query, rbind.
  cbv beta iota zeta.
  destruct (normalizeFilePath p) as [np|e]; [|reflexivity].
  match goal with
  | |- context [match ?q with Ok _ => _ | Throw _ => _ end] =>
      destruct q as [prev|e]; [|reflexivity]
  end.
  match goal with
  | |- context [match ?q with Ok _ => _ | Throw _ => _ end] =>
      destruct q as [state|e]; [|reflexivity]
  end.
  cbn [content file_commit_id path previous_path is_deleted is_symlink].
  destruct (storedText (snd state)); reflexivity.
Qed.

Lemma normalizeFilePath_ok (p q : JsString) :
  normalizeFilePath p = Ok q ->
  normalizePath p = Ok q /\ q <> [SLASH].
Proof.
  unfold normalizeFilePath, rbind.
  destruct (normalizePath p) as [n|e]; [|discriminate].
  destruct (str_eqb n [SLASH]) eqn:E; [discriminate|].
  intros [= <-]. split; [reflexivity|]. apply str_eqb_neq, E.
Qed.

Lemma normalizeFilePath_isFilePath (p q : JsString) :
  normalizeFilePath p = Ok q -> isFilePath q = true.
Proof.
  intros H. destruct (normalizeFilePath_ok _ H) as [Hn Hr].
  unfold isFilePath, normalizeFilePath, rbind.
  rewrite (normalizePath_fixed_point _ Hn).
  apply str_eqb_neq in Hr. rewrite Hr. apply str_eqb_refl.
Qed.

Lemma storedText_ok (text stored : JsString) :
  storedText text = Ok stored ->
  existsb (N.eqb 0) text = false /\ stored = toWellFormed text.
Proof.
  unfold storedText. destruct (existsb _ text); [discriminate|].
  intros [= <-]. auto.
Qed.

Lemma fileRowFor_ok (commitId : Uuid) (p : JsString)
    (text : option JsString) (options : WriteOptions) (row : FileRow) :
  fileRowFor commitId p text options = Ok row ->
  file_commit_id row = commitId
  /\ normalizeFilePath p = Ok (path row)
  /\ is_deleted row = orFalse (opt_isDeleted options)
  /\ row_well_formed row = true
  /\ (is_deleted row = false ->
      exists body,
        text = Some body
        /\ if orFalse (opt_isSymlink options)
           then is_symlink row = true
                /\ exists target,
                     normalizeFilePath body = Ok target
                     /\ content row = toWellFormed target
           else is_symlink row = false
                /\ storedText body = Ok (content row)).
Proof.
  unfold fileRowFor, rbind.
  destruct (normalizeFilePath p) as [np|e] eqn:Hp; [|discriminate].
  destruct (match opt_previousPath options with
            | Some prev => _
            | None => _
            end) as [prev|e] eqn:Hprev; [|discriminate].
  assert (Hprev' : match prev with
                   | Some q => isFilePath q
                   | None => true
                   end = true).
  { destruct (opt_previousPath options) as [q|]; [|inversion Hprev; auto].
    destruct (jsFalsy q); [inversion Hprev; auto|].
    destruct (normalizeFilePath q) as [q'|e] eqn:Hq; [|discriminate].
    inversion Hprev. eapply normalizeFilePath_isFilePath; eauto. }
  cbv zeta. unfold orFalse.
  pose proof (normalizeFilePath_isFilePath _ Hp) as Hnp.
  assert (Hshape : forall state stored,
            storedText (snd state) = Ok stored ->
            (fst state = true -> isFilePath stored = true) ->
            row_well_formed
              (mkFileRow commitId np prev stored false (fst state)) = true).
  { intros state stored _ Hlink. unfold row_well_formed. simpl.
    rewrite Hnp, Hprev'. simpl.
    destruct (fst state); [apply Hlink|]; reflexivity. }
  destruct (opt_isDeleted options) as [[|]|].
  - simpl. intros [= <-]. simpl. repeat split; auto.
    + unfold row_well_formed. simpl. rewrite Hnp, Hprev'. reflexivity.
    + discriminate.
  - destruct text as [body|]; [|discriminate].
    destruct (opt_isSymlink options) as [[|]|].
    + destruct (normalizeFilePath body) as [target|e] eqn:Hb; [|discriminate].
      cbn [fst snd].
      destruct (storedText target) as [stored|e] eqn:Hs; [|discriminate].
      intros [= <-]. simpl. repeat split; auto.
      * apply (Hshape (true, target) stored Hs). intros _.
        destruct (storedText_ok _ Hs) as [_ ->].
        apply toWellFormed_isFilePath.
        apply (normalizeFilePath_isFilePath _ Hb).
      * intros _. exists body. repeat split; auto. exists target.
        destruct (storedText_ok _ Hs) as [_ ->]. auto.
    + cbn [fst snd].
      destruct (storedText body) as [stored|e] eqn:Hs; [|discriminate].
      intros [= <-]. simpl. repeat split; auto.
      * apply (Hshape (false, body) stored Hs). discriminate.
      * intros _. exists body. auto.
    + cbn [fst snd].
      destruct (storedText body) as [stored|e] eqn:Hs; [|discriminate].
      intros [= <-]. simpl. repeat split; auto.
      * apply (Hshape (false, body) stored Hs). discriminate.
      * intros _. exists body. auto.
  - destruct text as [body|]; [|discriminate].
    destruct (opt_isSymlink options) as [[|]|].
    + destruct (normalizeFilePath body) as [target|e] eqn:Hb; [|discriminate].
      cbn [fst snd].
      destruct (storedText target) as [stored|e] eqn:Hs; [|discriminate].
      intros [= <-]. simpl. repeat split; auto.
      * apply (Hshape (true, target) stored Hs). intros _.
        destruct (storedText_ok _ Hs) as [_ ->].
        apply toWellFormed_isFilePath.
        apply (normalizeFilePath_isFilePath _ Hb).
      * intros _. exists body. repeat split; auto. exists target.
        destruct (storedText_ok _ Hs) as [_ ->]. auto.
    + cbn [fst snd].
      destruct (storedText body) as [stored|e] eqn:Hs; [|discriminate].
      intros [= <-]. simpl. repeat split; auto.
      * apply (Hshape (false, body) stored Hs). discriminate.
      * intros _. exists body. auto.
    + cbn [fst snd].
      destruct (storedText body) as [stored|e] eqn:Hs; [|discriminate].
      intros [= <-]. simpl. repeat split; auto.
      * apply (Hshape (false, body) stored Hs). discriminate.
      * intros _. exists body. auto.
Qed.

Lemma appendFile_inv (row : FileRow) (db db' : DB) (r : Result FileRow) :
  appendFile row db = (r, db') ->
  (exists e, r = Throw e /\ db' = db)
  \/ (r = Ok row
      /\ commitExists db (file_commit_id row) = true
      /\ (forall f, In f (files db) ->
                    file_commit_id f = file_commit_id row ->
                    path f <> path row)
      /\ db' = mkDB (repositories db) (commits db) (branches db)
                 (files db ++ [row]) (uuid_seq db)).
Proof.
  unfold appendFile.
  destruct (commitExists db (file_commit_id row)) eqn:Hc; simpl;
    [|intros [= <- <-]; left; eauto].
  destruct (existsb _ (files db)) eqn:E; intros [= <- <-]; [left; eauto|].
  right. repeat split; auto.
  intros f Hf Hid Hp.
  assert (X : existsb (fun f0 => str_eqb (file_commit_id f0)
                                   (file_commit_id row)
                                 && str_eqb (path f0) (path row))
                (files db) = true).
  { apply existsb_exists. exists f. split; [exact Hf|].
    rewrite Hid, Hp, !str_eqb_refl. reflexivity. }
  congruence.
Qed.

Lemma writeFile_inv (commitId : Uuid) (p : JsString)
    (text : option JsString) (options : WriteOptions) (db db' : DB)
    (r : Result FileRow) :
  writeFile commitId p text options db = (r, db') ->
  (exists e, r = Throw e /\ db' = db)
  \/ (exists row,
        r = Ok row
        /\ fileRowFor commitId p text options = Ok row
        /\ commitExists db commitId = true
        /\ (forall f, In f (files db) -> file_commit_id f = commitId ->
                      path f <> path row)
        /\ db' = mkDB (repositories db) (commits db) (branches db)
                   (files db ++ [row]) (uuid_seq db)).
Proof.
  rewrite writeFile_unfold.
  destruct (fileRowFor commitId p text options) as [row|e] eqn:Hrow;
    [|intros [= <- <-]; left; eauto].
  intros H. destruct (appendFile_inv _ _ H) as [?|[-> [Hc [Hu ->]]]];
    [left; assumption|].
  destruct (fileRowFor_ok _ _ _ _ Hrow) as [Hid _].
  right. exists row. rewrite Hid in *. repeat split; auto.
Qed.



(** X6.  Every row [writeFile] stores has the shape the schema
    describes: its path and its previous path are canonical file paths
    (never the root), a tombstone is no symlink and has empty content
    whatever the caller passed, and the content of a symlink is a
    canonical file path.  A table of such rows stays one. *)
Theorem writeFile_stores_well_formed_rows (commitId : Uuid) (p : JsString)
    (text : option JsString) (options : WriteOptions) (db db' : DB)
    (r : Result FileRow) :
  files_well_formed db = true ->
  writeFile commitId p text options db = (r, db') ->
  files_well_formed db' = true
  /\ forall row, r = Ok row -> row_well_formed row = true.
Proof.
  intros Hw H.
  destruct (writeFile_inv _ _ _ _ _ H)
    as [[e [-> ->]]|[row [-> [Hrow [Hc [Hu ->]]]]]].
  - split; [exact Hw | discriminate].
  - destruct (fileRowFor_ok _ _ _ _ Hrow) as [_ [_ [_ [Hok _]]]].
    split.
    + unfold files_well_formed in *. simpl.
      rewrite forallb_app, Hw. simpl. rewrite Hok. reflexivity.
    + intros row' [= <-]. exact Hok.
Qed.

Lemma writeFile_stores_well_formed_rows_witness :
  let db := dbAfter (createCommit seqUuid R1 (js "init") (Some None) None) in
  let out := writeFile (js "u0") (js "docs\\link/") (Some (js "target//a"))
               (mkWriteOptions (Some true) None (Some (js "old\\link")))
               db in
  files_well_formed (snd out) = true
  /\ forall row, fst out = Ok row -> row_well_formed row = true.
Proof.
  intros db out.
  apply (@writeFile_stores_well_formed_rows (js "u0") (js "docs\\link/")
           (Some (js "target//a"))
           (mkWriteOptions (Some true) None (Some (js "old\\link"))) db).
  - reflexivity.
  - vm_compute. reflexivity.
Defined.

(** X7.  [writeFiles] writes its inputs in order and stops at the first
    one that fails, without undoing anything: the rows of the inputs
    before the failing one stay in [fs.files].  On success it returns one
    row for each input, in order.  In both cases rows are only appended,
    all against the given commit. *)
Theorem writeFiles_stops_at_first_failure (commitId : Uuid)
    (inputs : list FileInput) (db db' : DB) (r : Result (list FileRow)) :
  writeFiles commitId inputs db = (r, db') ->
  exists rows,
    files db' = files db ++ rows
    /\ commits db' = commits db
    /\ branches db' = branches db
    /\ repositories db' = repositories db
    /\ (forall f, In f rows -> file_commit_id f = commitId)
    /\ match r with
       | Ok entries => entries = rows /\ length rows = length inputs
       | Throw e =>
           exists failing,
             nth_error inputs (length rows) = Some failing
             /\ writeFiles commitId (firstn (length rows) inputs) db
                = (Ok rows, db')
             /\ writeFile commitId (in_path failing) (in_content failing)
                  (mkWriteOptions (in_isSymlink failing)
                     (in_isDeleted failing) (in_previousPath failing)) db'
                = (Throw e, db')
       end.
Proof.
  revert db db' r. induction inputs as [|file rest IH]; intros db db' r.
  - simpl. unfold tx_ret. intros [= <- <-]. exists [].
    rewrite app_nil_r. repeat split; auto. intros f [].
  - cbn [writeFiles]. unfold tx_bind at 1.
    destruct (writeFile commitId (in_path file) (in_content file) _ db)
      as [[entry|e] db1] eqn:Hw.
    + destruct (writeFile_inv _ _ _ _ _ Hw)
        as [[e [? _]]|[row [Hr [Hrow [Hc [Hu ->]]]]]]; [discriminate|].
      injection Hr as <-.
      destruct (fileRowFor_ok _ _ _ _ Hrow) as [Hid _].
      unfold tx_bind.
      match goal with
      | |- context [writeFiles commitId rest ?d] =>
          destruct (writeFiles commitId rest d) as [[entries|e] db2] eqn:Hrest
      end.
      * unfold tx_ret. intros [= <- <-].
        destruct (IH _ _ _ Hrest)
          as [rows [Hf [Hcs [Hbs [Hrs [Hall [-> Hlen]]]]]]].
        exists (entry :: rows). simpl in *.
        rewrite Hf, <- app_assoc. simpl.
        repeat split; auto.
        intros f [<-|Hin]; auto.
      * intros [= <- <-].
        destruct (IH _ _ _ Hrest)
          as [rows [Hf [Hcs [Hbs [Hrs [Hall [failing [Hn [Hpre Hfail]]]]]]]]].
        exists (entry :: rows). simpl in *.
        rewrite Hf, <- app_assoc. simpl.
        repeat split; auto.
        { intros f [<-|Hin]; auto. }
        exists failing. split; [exact Hn|]. split; [|exact Hfail].
        unfold tx_bind. rewrite Hw, Hpre. reflexivity.
    + intros [= <- <-].
      destruct (writeFile_inv _ _ _ _ _ Hw)
        as [[e' [_ ->]]|[row [? _]]]; [|discriminate].
      exists []. rewrite app_nil_r. simpl. repeat split; auto.
      * intros f [].
      * exists file. repeat split; auto.
Qed.

Lemma writeFiles_stops_at_first_failure_witness :
  let db := dbAfter (createCommit seqUuid R1 (js "init") (Some None) None) in
  let inputs :=
    [mkFileInput (js "/a.txt") (Some (js "one")) None None None;
     mkFileInput (js "/") (Some (js "two")) None None None;
     mkFileInput (js "/c.txt") (Some (js "three")) None None None] in
  exists rows,
    files (snd (writeFiles (js "u0") inputs db)) = files db ++ rows
    /\ commits (snd (writeFiles (js "u0") inputs db)) = commits db
    /\ branches (snd (writeFiles (js "u0") inputs db)) = branches db
    /\ repositories (snd (writeFiles (js "u0") inputs db)) = repositories db
    /\ (forall f, In f rows -> file_commit_id f = js "u0")
    /\ exists failing,
         nth_error inputs (length rows) = Some failing
         /\ writeFiles (js "u0") (firstn (length rows) inputs) db
            = (Ok rows, snd (writeFiles (js "u0") inputs db))
         /\ writeFile (js "u0") (in_path failing) (in_content failing)
              (mkWriteOptions (in_isSymlink failing) (in_isDeleted failing)
                 (in_previousPath failing))
              (snd (writeFiles (js "u0") inputs db))
            = (Throw RootIsNotAFilePath, snd (writeFiles (js "u0") inputs db)).
Proof.
  intros db inputs.
  apply (@writeFiles_stops_at_first_failure (js "u0") inputs db _
           (Throw RootIsNotAFilePath)).
  vm_compute. reflexivity.
Defined.

(* ================================================================= *)
(** * Reading back what was written *)

Section ReadBack.

Variable order_by_limit_1 : Limit1.
Hypothesis Hlimit : admissible order_by_limit_1.

(** A live write in the commit that is read is what is read there, unless
    the commit also moves a file away from the path. *)
Lemma own_write_read (db : DB) (commitId : Uuid) (p np : JsString)
    (f : FileRow) :
  history_ok db = true ->
  files_unique db = true ->
  jsFalsy commitId = false ->
  commitExists db commitId = true ->
  normalizePath p = Ok np ->
  In f (files db) ->
  file_commit_id f = commitId ->
  path f = np ->
  is_deleted f = false ->
  (forall g, In g (files db) -> file_commit_id g = commitId ->
             previous_path g = Some np -> path g = np) ->
  readFile order_by_limit_1 db commitId p = Ok (Some (content f)).
Proof.
  intros Hh Hu Hf He Hn Hin Hc Hp Hd Hstay.
  destruct (commit_tree_terminates db Hh commitId) as [tree Ht].
  destruct (tree_has_commit db Hh commitId Ht He) as [ct [Hct [Hd0 Hid]]].
  rewrite (readFile_resolved order_by_limit_1 db commitId Ht p Hf He Hn).
  destruct (selected_entry Hlimit db tree np ct f)
    as [d [row [ct' [Hsel [Hct' [Hd' [Hle [Hrow [Hc' Ht']]]]]]]]]; auto.
  { congruence. }
  { unfold touches. rewrite Hp, str_eqb_refl. reflexivity. }
  rewrite Hsel.
  assert (E : ct' = ct).
  { apply (proj2 (tree_levels db Hh commitId Ht)); auto. lia. }
  subst ct'.
  assert (P : path row = np).
  { destruct (str_eqb (path row) np) eqn:P; [apply str_eqb_eq, P|].
    unfold touches in Ht'. rewrite P in Ht'. simpl in Ht'.
    apply opt_str_eqb_eq in Ht'. apply Hstay; auto. congruence. }
  assert (row = f).
  { apply (files_unique_rows_eq (files db)); auto; congruence. }
  subst row. rewrite Hd, Hp, str_eqb_refl, andb_false_r. reflexivity.
Qed.

(** A tombstone in the commit that is read hides the path, whatever
    else the commit holds for it. *)
Lemma own_tombstone_read (db : DB) (commitId : Uuid) (p np : JsString)
    (f : FileRow) :
  history_ok db = true ->
  files_unique db = true ->
  jsFalsy commitId = false ->
  commitExists db commitId = true ->
  normalizePath p = Ok np ->
  In f (files db) ->
  file_commit_id f = commitId ->
  path f = np ->
  is_deleted f = true ->
  readFile order_by_limit_1 db commitId p = Ok None.
Proof.
  intros Hh Hu Hf He Hn Hin Hc Hp Hd.
  destruct (commit_tree_terminates db Hh commitId) as [tree Ht].
  destruct (tree_has_commit db Hh commitId Ht He) as [ct [Hct [Hd0 Hid]]].
  rewrite (readFile_resolved order_by_limit_1 db commitId Ht p Hf He Hn).
  destruct (selected_entry Hlimit db tree np ct f)
    as [d [row [ct' [Hsel [Hct' [Hd' [Hle [Hrow [Hc' Ht']]]]]]]]]; auto.
  { congruence. }
  { unfold touches. rewrite Hp, str_eqb_refl. reflexivity. }
  rewrite Hsel.
  assert (E : ct' = ct).
  { apply (proj2 (tree_levels db Hh commitId Ht)); auto. lia. }
  subst ct'.
  destruct (is_deleted row) eqn:Del; [reflexivity|].
  destruct (str_eqb (path row) np) eqn:P.
  - apply str_eqb_eq in P.
    assert (row = f).
    { apply (files_unique_rows_eq (files db)); auto; congruence. }
    subst row. congruence.
  - unfold touches in Ht'. rewrite P in Ht'. simpl in Ht'.
    rewrite Ht'. reflexivity.
Qed.

(** X8.  Resolution along the ancestry: when the closest ancestor (by
    parent links) holding a delta for the path holds a live write there,
    and no delta of that commit moves a file away from the path,
    [readFile] returns the content of that write, whatever deeper
    ancestors hold and however rows of equal depth are ordered. *)
Theorem readFile_closest_write (db : DB) (commitId : Uuid) (p np : JsString)
    (tree : list CommitTreeRow) (ct : CommitTreeRow) (f : FileRow) :
  history_ok db = true ->
  files_unique db = true ->
  jsFalsy commitId = false ->
  commitExists db commitId = true ->
  normalizePath p = Ok np ->
  commit_tree db commitId = Ok tree ->
  In ct tree ->
  In f (files db) ->
  file_commit_id f = ct_id ct ->
  path f = np ->
  is_deleted f = false ->
  (forall ct' g, In ct' tree -> In g (files db) ->
                 file_commit_id g = ct_id ct' -> touches np g = true ->
                 ct_depth ct <= ct_depth ct') ->
  (forall g, In g (files db) -> file_commit_id g = ct_id ct ->
             previous_path g = Some np -> path g = np) ->
  readFile order_by_limit_1 db commitId p = Ok (Some (content f)).
Proof.
  intros Hh Hu Hf He Hn Ht Hct Hin Hc Hp Hd Hclosest Hstay.
  rewrite (readFile_resolved order_by_limit_1 db commitId Ht p Hf He Hn).
  destruct (selected_entry Hlimit db tree np ct f)
    as [d [row [ct' [Hsel [Hct' [Hd' [Hle [Hrow [Hc' Ht']]]]]]]]]; auto.
  { unfold touches. rewrite Hp, str_eqb_refl. reflexivity. }
  rewrite Hsel.
  assert (E : ct' = ct).
  { apply (proj2 (tree_levels db Hh commitId Ht)); auto.
    specialize (Hclosest ct' row Hct' Hrow Hc' Ht'). lia. }
  subst ct'.
  assert (P : path row = np).
  { destruct (str_eqb (path row) np) eqn:P; [apply str_eqb_eq, P|].
    unfold touches in Ht'. rewrite P in Ht'. simpl in Ht'.
    apply opt_str_eqb_eq in Ht'. auto. }
  assert (row = f).
  { apply (files_unique_rows_eq (files db)); auto; congruence. }
  subst row. rewrite Hd, Hp, str_eqb_refl, andb_false_r. reflexivity.
Qed.

Lemma written_db_invariants (commitId : Uuid) (p : JsString)
    (text : option JsString) (options : WriteOptions) (db db' : DB)
    (row : FileRow) :
  history_ok db = true ->
  files_unique db = true ->
  writeFile commitId p text options db = (Ok row, db') ->
  history_ok db' = true
  /\ files_unique db' = true
  /\ commitExists db' commitId = true
  /\ normalizePath p = Ok (path row)
  /\ file_commit_id row = commitId
  /\ files db' = files db ++ [row]
  /\ (forall f, In f (files db) -> file_commit_id f = commitId ->
                path f <> path row).
Proof.
  intros Hh Hu H.
  pose proof (writeFile_keeps_unique _ _ _ _ _ Hu H) as Hu'.
  destruct (writeFile_inv _ _ _ _ _ H)
    as [[e [? _]]|[row' [Hr [Hrow [Hc [Hnew ->]]]]]]; [discriminate|].
  injection Hr as <-.
  destruct (fileRowFor_ok _ _ _ _ Hrow) as [Hid [Hp _]].
  destruct (normalizeFilePath_ok _ Hp) as [Hn _].
  repeat split; auto.
Qed.

(** X9.  Reading back a write: after [writeFile] has stored a live
    delta in a commit, [readFile] at that commit and path returns the
    stored content, provided the commit did not already record a move
    away from that path.  For a plain file the stored content is the text
    that was passed as the database encodes it, every surrogate without
    its partner replaced by U+FFFD; the text held no NUL, or the write
    would have failed; and a well-formed text is read back as it was
    passed. *)
Theorem writeFile_then_readFile (commitId : Uuid) (p : JsString)
    (text : option JsString) (options : WriteOptions) (db db' : DB)
    (row : FileRow) :
  history_ok db = true ->
  files_unique db = true ->
  jsFalsy commitId = false ->
  writeFile commitId p text options db = (Ok row, db') ->
  is_deleted row = false ->
  (forall g, In g (files db) -> file_commit_id g = commitId ->
             previous_path g <> Some (path row)) ->
  readFile order_by_limit_1 db' commitId p = Ok (Some (content row))
  /\ (orFalse (opt_isSymlink options) = false ->
      exists body,
        text = Some body
        /\ existsb (N.eqb 0) body = false
        /\ content row = toWellFormed body
        /\ (isWellFormed body = true ->
            readFile order_by_limit_1 db' commitId p = Ok (Some body))).
Proof.
  intros Hh Hu Hf H Hlive Hmoved.
  destruct (written_db_invariants _ _ _ _ _ Hh Hu H)
    as [Hh' [Hu' [He [Hn [Hid [Hfiles Hnew]]]]]].
  assert (Hread : readFile order_by_limit_1 db' commitId p
                  = Ok (Some (content row))).
  { apply (@own_write_read db' commitId p (path row) row); auto.
    + rewrite Hfiles. apply in_or_app. right. left. reflexivity.
    + intros g Hg Hgc Hprev. rewrite Hfiles in Hg.
      apply in_app_or in Hg. destruct Hg as [Hg|[<-|[]]]; [|reflexivity].
      exfalso. apply (Hmoved g Hg); congruence. }
  split; [exact Hread|].
  intros Hsym.
  destruct (writeFile_inv _ _ _ _ _ H)
    as [[e [? _]]|[row' [Hr [Hrow _]]]]; [discriminate|].
  injection Hr as <-.
  destruct (fileRowFor_ok _ _ _ _ Hrow) as [_ [_ [_ [_ Hbody]]]].
  destruct (Hbody Hlive) as [body [-> Hb]].
  rewrite Hsym in Hb. destruct Hb as [_ Hs].
  destruct (storedText_ok _ Hs) as [Hnul Hstored].
  exists body. repeat split; auto.
  intros Hwf. rewrite Hread, Hstored, (toWellFormed_fixed _ Hwf).
  reflexivity.
Qed.


End ReadBack.

Lemma readFile_closest_write_witness :
  readFile first_least (dbAfter divergedHistory) (js "u2") (js "a.txt")
  = Ok (Some (js "hello")).
Proof.
  apply (@readFile_closest_write first_least first_least_admissible
           (dbAfter divergedHistory) (js "u2") (js "a.txt") (js "/a.txt")
           [mkCommitTreeRow (js "u2") (Some (js "u0")) 0;
            mkCommitTreeRow (js "u0") None 1]
           (mkCommitTreeRow (js "u0") None 1)
           (mkFileRow (js "u0") (js "/a.txt") None (js "hello") false false));
    try reflexivity.
  - vm_compute. auto.
  - vm_compute. auto.
  - intros ct' g Hct' Hg Hc Ht.
    vm_compute in Hg.
    destruct Hct' as [<-|[<-|[]]];
      destruct Hg as [<-|[<-|[<-|[]]]];
      vm_compute in Hc, Ht; try discriminate;
      vm_compute; lia.
  - intros g Hg. vm_compute in Hg.
    destruct Hg as [<-|[<-|[<-|[]]]]; intros Hc Hp; vm_compute in Hc, Hp;
      discriminate.
Defined.

Lemma writeFile_then_readFile_witness :
  let db := dbAfter (createCommit seqUuid R1 (js "init") (Some None) None) in
  let text := js "hi" ++ [55357%N] in
  let row :=
    mkFileRow (js "u0") (js "/a.txt") None (js "hi" ++ [REPLACEMENT]) false
      false in
  let db' := snd (writeFile (js "u0") (js "a.txt") (Some text) noOptions db) in
  readFile first_least db' (js "u0") (js "a.txt") = Ok (Some (content row))
  /\ (orFalse (opt_isSymlink noOptions) = false ->
      exists body,
        Some text = Some body
        /\ existsb (N.eqb 0) body = false
        /\ content row = toWellFormed body
        /\ (isWellFormed body = true ->
            readFile first_least db' (js "u0") (js "a.txt")
            = Ok (Some body))).
Proof.
  intros db text row db'.
  apply (@writeFile_then_readFile first_least first_least_admissible
           (js "u0") (js "a.txt") (Some text) noOptions db);
    try reflexivity.
  intros g Hg. vm_compute in Hg. destruct Hg.
Defined.


(* ================================================================= *)
(** * History is not rewritten by later writes *)

Lemma flat_map_ext_In {A B : Type} (g h : A -> list B) (l : list A) :
  (forall x, In x l -> g x = h x) -> flat_map g l = flat_map h l.
Proof.
  induction l as [|x l IH]; intros H; simpl; [reflexivity|].
  rewrite (H x), IH; auto.
  - intros y Hy. apply H. right. exact Hy.
  - left. reflexivity.
Qed.

Lemma filter_snoc_out {A : Type} (P : A -> bool) (l : list A) (x : A) :
  P x = false -> filter P (l ++ [x]) = filter P l.
Proof.
  intros H. rewrite filter_app. simpl. rewrite H. apply app_nil_r.
Qed.

(** X11.  Writing into one commit changes nothing that is read at a
    commit which does not have it among its ancestors (itself included):
    [readFile] and [getCommitSnapshot] return there what they returned
    before, for every path and every prefix. *)
Theorem writeFile_unseen_outside_descendants
    (order_by_limit_1 : Limit1) (sql_text_leb : JsString -> JsString -> bool)
    (commitId : Uuid) (p : JsString) (text : option JsString)
    (options : WriteOptions) (db db' : DB) (r : Result FileRow)
    (other : Uuid) (tree : list CommitTreeRow) :
  writeFile commitId p text options db = (r, db') ->
  commit_tree db other = Ok tree ->
  (forall ct, In ct tree -> ct_id ct <> commitId) ->
  (forall q, readFile order_by_limit_1 db' other q
             = readFile order_by_limit_1 db other q)
  /\ (forall prefix,
        getCommitSnapshot order_by_limit_1 sql_text_leb db' other prefix
        = getCommitSnapshot order_by_limit_1 sql_text_leb db other prefix).
Proof.
  intros H Ht Hout.
  destruct (writeFile_inv _ _ _ _ _ H)
    as [[e [-> ->]]|[row [-> [Hrow [Hc [Hu ->]]]]]]; [split; reflexivity|].
  destruct (fileRowFor_ok _ _ _ _ Hrow) as [Hid _].
  set (db' := mkDB (repositories db) (commits db) (branches db)
                (files db ++ [row]) (uuid_seq db)).
  assert (Htree' : commit_tree db' other = commit_tree db other)
    by reflexivity.
  assert (Hfilter : forall (Q : FileRow -> bool) ct,
             In ct tree ->
             filter (fun f => str_eqb (file_commit_id f) (ct_id ct) && Q f)
               (files db')
             = filter (fun f => str_eqb (file_commit_id f) (ct_id ct) && Q f)
                 (files db)).
  { intros Q ct Hct. unfold db'. simpl. apply filter_snoc_out.
    rewrite Hid.
    assert (E : str_eqb commitId (ct_id ct) = false).
    { apply str_eqb_neq. intros E. apply (Hout ct Hct). auto. }
    rewrite E. reflexivity. }
  split.
  - intros q. unfold readFile.
    change (commitExists db' other) with (commitExists db other).
    rewrite Htree', Ht.
    destruct (jsFalsy other); [reflexivity|].
    destruct (negb (commitExists db other)); [reflexivity|].
    destruct (normalizePath q) as [np|e]; [|reflexivity].
    simpl.
    replace (file_entries db' tree np) with (file_entries db tree np);
      [reflexivity|].
    unfold file_entries. apply flat_map_ext_In. intros ct Hct.
    rewrite (Hfilter (touches np) ct Hct). reflexivity.
  - intros prefix. unfold getCommitSnapshot.
    change (commitWithRepository db' other)
      with (commitWithRepository db other).
    rewrite Htree', Ht.
    destruct (jsFalsy other); [reflexivity|].
    destruct (commitWithRepository db other) as [[commitRow repositoryRow]|];
      [|reflexivity].
    match goal with
    | |- rbind ?q _ = _ => destruct q as [normalizedPrefix|e]; [|reflexivity]
    end.
    cbn [rbind].
    replace (all_operations db' tree) with (all_operations db tree);
      [reflexivity|].
    assert (Hfiles : forall ct, In ct tree ->
               filesOfCommit db (ct_id ct) = filesOfCommit db' (ct_id ct)).
    { intros ct Hct. unfold filesOfCommit.
      pose proof (Hfilter (fun _ => true) ct Hct) as E.
      erewrite filter_ext in E; [erewrite E; apply filter_ext|];
        intros f; simpl; rewrite andb_true_r; reflexivity. }
    unfold all_operations. f_equal; apply flat_map_ext_In;
      intros ct Hct; rewrite (Hfiles ct Hct); reflexivity.
Qed.

Lemma writeFile_unseen_outside_descendants_witness :
  let db := dbAfter divergedHistory in
  let db' := snd (writeFile (js "u1") (js "/late.txt") (Some (js "x"))
                    noOptions db) in
  (forall q, readFile first_least db' (js "u2") q
             = readFile first_least db (js "u2") q)
  /\ (forall prefix,
        getCommitSnapshot first_least codeUnitLeb db' (js "u2") prefix
        = getCommitSnapshot first_least codeUnitLeb db (js "u2") prefix).
Proof.
  intros db db'.
  apply (@writeFile_unseen_outside_descendants first_least codeUnitLeb
           (js "u1") (js "/late.txt") (Some (js "x")) noOptions db db'
           (fst (writeFile (js "u1") (js "/late.txt") (Some (js "x"))
                   noOptions db))
           (js "u2")
           [mkCommitTreeRow (js "u2") (Some (js "u0")) 0;
            mkCommitTreeRow (js "u0") None 1]).
  - reflexivity.
  - reflexivity.
  - intros ct [<-|[<-|[]]]; intros E; discriminate E.
Defined.

(* ================================================================= *)
(** * Patterns *)

Lemma characters_pair (a d : N) (t : JsString) :
  isHighSurrogate a = true -> isLowSurrogate d = true ->
  characters (a :: d :: t) = codePoint a d :: characters t.
Proof.
  intros Ha Hd.
  transitivity (if isHighSurrogate a
                then if isLowSurrogate d then codePoint a d :: characters t
                     else REPLACEMENT :: characters (d :: t)
                else if isLowSurrogate a
                     then REPLACEMENT :: characters (d :: t)
                     else a :: characters (d :: t)); [reflexivity|].
  rewrite Ha, Hd. reflexivity.
Qed.

Lemma characters_high (a d : N) (t : JsString) :
  isHighSurrogate a = true -> isLowSurrogate d = false ->
  characters (a :: d :: t) = REPLACEMENT :: characters (d :: t).
Proof.
  intros Ha Hd.
  transitivity (if isHighSurrogate a
                then if isLowSurrogate d then codePoint a d :: characters t
                     else REPLACEMENT :: characters (d :: t)
                else if isLowSurrogate a
                     then REPLACEMENT :: characters (d :: t)
                     else a :: characters (d :: t)); [reflexivity|].
  rewrite Ha, Hd. reflexivity.
Qed.

Lemma characters_last (a : N) :
  characters [a] = [if isSurrogate a then REPLACEMENT else a].
Proof.
  unfold isSurrogate. cbn [characters].
  destruct (isHighSurrogate a), (isLowSurrogate a); reflexivity.
Qed.

Lemma characters_other (a : N) (t : JsString) :
  isHighSurrogate a = false ->
  characters (a :: t)
  = (if isLowSurrogate a then REPLACEMENT else a) :: characters t.
Proof.
  intros Ha.
  transitivity (if isHighSurrogate a
                then match t with
                     | d :: t' =>
                         if isLowSurrogate d
                         then codePoint a d :: characters t'
                         else REPLACEMENT :: characters t
                     | [] => [REPLACEMENT]
                     end
                else if isLowSurrogate a
                     then REPLACEMENT :: characters t
                     else a :: characters t); [reflexivity|].
  rewrite Ha. destruct (isLowSurrogate a); reflexivity.
Qed.

(** The four shapes of a text, seen from its start. *)
Lemma characters_cases (s : JsString) :
  s = []
  \/ (exists a d t, s = a :: d :: t /\ isHighSurrogate a = true
                    /\ isLowSurrogate d = true)
  \/ (exists a d t, s = a :: d :: t /\ isHighSurrogate a = true
                    /\ isLowSurrogate d = false)
  \/ (exists a, s = [a] /\ isHighSurrogate a = true)
  \/ (exists a t, s = a :: t /\ isHighSurrogate a = false).
Proof.
  destruct s as [|a t]; [auto|].
  destruct (isHighSurrogate a) eqn:Ha; [|right; right; right; right; eauto].
  destruct t as [|d t]; [right; right; right; left; eauto|].
  destruct (isLowSurrogate d) eqn:Hd;
    [right; left | right; right; left]; eauto 6.
Qed.

Lemma characters_snoc (s : JsString) (c : N) :
  isSurrogate c = false -> characters (s ++ [c]) = characters s ++ [c].
Proof.
  intros Hc.
  assert (Hl : isLowSurrogate c = false).
  { unfold isSurrogate in Hc. apply orb_false_iff in Hc. tauto. }
  assert (H : forall n s, length s <= n ->
                          characters (s ++ [c]) = characters s ++ [c]).
  { induction n as [|n IH]; intros s0 Hn.
    - destruct s0; [|simpl in Hn; lia].
      cbn [app]. rewrite characters_last, Hc. reflexivity.
    - destruct (characters_cases s0)
        as [->|[[a [d [t [-> [Ha Hd]]]]]|[[a [d [t [-> [Ha Hd]]]]]
           |[[a [-> Ha]]|[a [t [-> Ha]]]]]]]; cbn [app].
      + rewrite characters_last, Hc. reflexivity.
      + rewrite !characters_pair by assumption.
        rewrite IH by (simpl in Hn; lia). reflexivity.
      + rewrite !characters_high by assumption.
        change (d :: t ++ [c]) with ((d :: t) ++ [c]).
        rewrite IH by (simpl in *; lia). reflexivity.
      + rewrite (@characters_high a c [] Ha Hl), !characters_last, Hc.
        unfold isSurrogate. rewrite Ha. reflexivity.
      + rewrite !characters_other by assumption.
        rewrite IH by (simpl in Hn; lia). reflexivity. }
  apply (H (length s)). lia.
Qed.

Lemma codePoint_high (c d : N) :
  isHighSurrogate c = true -> (55296 <= codePoint c d)%N.
Proof. intros _. unfold codePoint. lia. Qed.

Lemma characters_forallb (P : N -> bool) (s : JsString) :
  (forall c, (55296 <= c)%N -> P c = true) ->
  forallb P s = true -> forallb P (characters s) = true.
Proof.
  intros HP.
  assert (Hr : P REPLACEMENT = true) by (apply HP; unfold REPLACEMENT; lia).
  assert (H : forall n s, length s <= n -> forallb P s = true ->
                          forallb P (characters s) = true).
  { induction n as [|n IH]; intros s0 Hn Hs.
    - destruct s0; [reflexivity|simpl in Hn; lia].
    - destruct (characters_cases s0)
        as [->|[[a [d [t [-> [Ha Hd]]]]]|[[a [d [t [-> [Ha Hd]]]]]
           |[[a [-> Ha]]|[a [t [-> Ha]]]]]]]; [reflexivity| | | |].
      + rewrite characters_pair by assumption. cbn [forallb] in *.
        apply andb_true_iff in Hs. destruct Hs as [_ Hs].
        apply andb_true_iff in Hs. destruct Hs as [_ Hs].
        rewrite (HP _ (@codePoint_high a d Ha)).
        apply IH; [simpl in Hn; lia | exact Hs].
      + rewrite characters_high by assumption. cbn [forallb] in *.
        apply andb_true_iff in Hs. destruct Hs as [_ Hs].
        rewrite Hr. apply IH; [simpl in *; lia | exact Hs].
      + rewrite characters_last. unfold isSurrogate. rewrite Ha.
        cbn [orb forallb]. rewrite Hr. reflexivity.
      + rewrite characters_other by assumption. cbn [forallb] in *.
        apply andb_true_iff in Hs. destruct Hs as [Hp Hs].
        rewrite IH by (auto; simpl in Hn; lia).
        destruct (isLowSurrogate a); [rewrite Hr | rewrite Hp];
          reflexivity. }
  apply (H (length s)). lia.
Qed.

Lemma characters_wildcardFree (s : JsString) :
  wildcardFree s = true -> wildcardFree (characters s) = true.
Proof.
  apply characters_forallb. intros c Hc.
  apply andb_true_iff. split; apply negb_true_iff, N.eqb_neq; lia.
Qed.

Lemma likeCharacters_any (s : list N) : likeCharacters [37%N] s = true.
Proof.
  induction s as [|c s IH]; [reflexivity|].
  simpl in *. exact IH.
Qed.

Lemma likeCharacters_step (p : N) (pattern s : list N) :
  N.eqb p 37 = false ->
  likeCharacters (p :: pattern) s
  = match s with
    | [] => false
    | c :: s' => (N.eqb p 95 || N.eqb p c) && likeCharacters pattern s'
    end.
Proof. intros H. simpl. rewrite H. reflexivity. Qed.

(** A pattern without wildcards, followed by [%], selects what starts
    with it. *)
Lemma likeCharacters_literal (np s : list N) :
  wildcardFree np = true ->
  likeCharacters (np ++ [37%N]) s = startsWith np s.
Proof.
  revert s. induction np as [|p np IH]; intros s Hw.
  - simpl app. rewrite likeCharacters_any. destruct s; reflexivity.
  - simpl in Hw. apply andb_true_iff in Hw. destruct Hw as [Hp Hw].
    apply andb_true_iff in Hp. destruct Hp as [H37 H95].
    apply negb_true_iff in H37, H95.
    change ((p :: np) ++ [37%N]) with (p :: (np ++ [37%N])).
    rewrite (@likeCharacters_step p _ _ H37).
    destruct s as [|c s]; [reflexivity|].
    rewrite H95, IH by exact Hw. reflexivity.
Qed.

(** An underscore in the pattern stands for any one character. *)
Lemma likeCharacters_underscore (a b rest : list N) (k : N) :
  wildcardFree a = true ->
  wildcardFree b = true ->
  likeCharacters ((a ++ 95%N :: b) ++ [37%N]) (a ++ k :: b ++ rest) = true.
Proof.
  intros Ha Hb. induction a as [|p a IH].
  - change (([] ++ 95%N :: b) ++ [37%N]) with (95%N :: (b ++ [37%N])).
    rewrite likeCharacters_step by reflexivity. simpl.
    rewrite likeCharacters_literal by exact Hb.
    clear. induction b as [|x b IH]; simpl; [reflexivity|].
    rewrite N.eqb_refl. exact IH.
  - simpl in Ha. apply andb_true_iff in Ha. destruct Ha as [Hp Ha].
    apply andb_true_iff in Hp. destruct Hp as [H37 _].
    apply negb_true_iff in H37.
    change (((p :: a) ++ 95%N :: b) ++ [37%N])
      with (p :: ((a ++ 95%N :: b) ++ [37%N])).
    rewrite (@likeCharacters_step p _ _ H37). simpl.
    rewrite N.eqb_refl, orb_true_r. simpl. apply IH, Ha.
Qed.

Lemma like_pattern (np s : JsString) :
  like (np ++ [37%N]) s
  = likeCharacters (characters np ++ [37%N]) (characters s).
Proof. unfold like. rewrite characters_snoc by reflexivity. reflexivity. Qed.

Lemma normalizePathPrefix_no_backslash (p np : JsString) :
  normalizePathPrefix p = Ok np -> existsb (N.eqb BACKSLASH) np = false.
Proof.
  unfold normalizePathPrefix, rbind.
  destruct (validatePath p) as [[]|e]; [|discriminate]. cbv zeta.
  set (n := collapseSlashes _).
  assert (Hn : forallb (fun c => negb (N.eqb c BACKSLASH)) n = true).
  { unfold n, collapseSlashes. apply collapseLoop_chars.
    destruct (startsWithSlash (replaceBackslashes p)); simpl;
      apply replaceBackslashes_none. }
  assert (Hall : forall q, forallb (fun c => negb (N.eqb c BACKSLASH)) q = true
                           -> existsb (N.eqb BACKSLASH) q = false).
  { induction q as [|c q IH]; cbn [forallb existsb]; [reflexivity|].
    intros H. apply andb_true_iff in H. destruct H as [Hc Hq].
    apply negb_true_iff in Hc. rewrite N.eqb_sym, Hc. apply IH, Hq. }
  match goal with
  | |- context [Nat.ltb MAX_PATH (length ?q)] =>
      destruct (Nat.ltb MAX_PATH (length q)); [discriminate|];
      intros [= <-]
  end.
  apply Hall.
  destruct (_ && _); [|exact Hn].
  rewrite forallb_app, Hn. reflexivity.
Qed.

(* ================================================================= *)
(** * Snapshots *)

Lemma all_operations_In (db : DB) (tree : list CommitTreeRow)
    (o : Operation) :
  In o (all_operations db tree) <->
  exists ct f,
    In ct tree /\ In f (files db) /\ file_commit_id f = ct_id ct
    /\ (o = writeOp ct f
        \/ exists previous,
             previous_path f = Some previous /\ o = moveAwayOp ct previous).
Proof.
  unfold all_operations, filesOfCommit. rewrite in_app_iff. split.
  - intros [H|H]; apply in_flat_map in H; destruct H as [ct [Hct H]].
    + apply in_map_iff in H. destruct H as [f [<- Hf]].
      apply filter_In in Hf. destruct Hf as [Hf E]. apply str_eqb_eq in E.
      exists ct, f. repeat split; auto.
    + apply in_flat_map in H. destruct H as [f [Hf H]].
      apply filter_In in Hf. destruct Hf as [Hf E]. apply str_eqb_eq in E.
      destruct (previous_path f) as [previous|] eqn:P; [|destruct H].
      destruct H as [<-|[]].
      exists ct, f. repeat split; auto. right. exists previous. auto.
  - intros [ct [f [Hct [Hf [E [->|[previous [P ->]]]]]]]].
    + left. apply in_flat_map. exists ct. split; [exact Hct|].
      apply in_map_iff. exists f. split; [reflexivity|].
      apply filter_In. split; [exact Hf|]. apply str_eqb_eq, E.
    + right. apply in_flat_map. exists ct. split; [exact Hct|].
      apply in_flat_map. exists f. split.
      * apply filter_In. split; [exact Hf|]. apply str_eqb_eq, E.
      * rewrite P. left. reflexivity.
Qed.

Lemma touching_operation (db : DB) (tree : list CommitTreeRow)
    (np : JsString) (ct : CommitTreeRow) (g : FileRow) :
  In ct tree -> In g (files db) -> file_commit_id g = ct_id ct ->
  touches np g = true ->
  exists o, In o (all_operations db tree) /\ affected_path o = np
            /\ op_depth o = ct_depth ct.
Proof.
  intros Hct Hg Hc Ht. unfold touches in Ht.
  destruct (str_eqb (path g) np) eqn:P.
  - apply str_eqb_eq in P. exists (writeOp ct g). split; [|auto].
    apply all_operations_In. exists ct, g. auto.
  - simpl in Ht. apply opt_str_eqb_eq in Ht.
    exists (moveAwayOp ct np). split; [|auto].
    apply all_operations_In. exists ct, g. repeat split; auto.
    right. exists np. auto.
Qed.

Lemma NoDup_map_filter {A B : Type} (f : A -> B) (P : A -> bool)
    (l : list A) :
  NoDup (List.map f l) -> NoDup (List.map f (filter P l)).
Proof.
  induction l as [|x l IH]; simpl; [auto|].
  intros H. inversion H as [|? ? Hx Hl]; subst.
  destruct (P x); simpl; [|auto].
  constructor; [|auto].
  intros Hin. apply Hx. apply in_map_iff in Hin.
  destruct Hin as [y [E Hy]]. apply filter_In in Hy.
  apply in_map_iff. exists y. tauto.
Qed.

Section Snapshots.

Variable order_by_limit_1 : Limit1.
Hypothesis Hlimit : admissible order_by_limit_1.
Variable sql_text_leb : JsString -> JsString -> bool.

Lemma most_recent_In (ops : list Operation) (o : Operation) :
  In o (most_recent_operations order_by_limit_1 ops) <->
  In (affected_path o) (List.map affected_path ops)
  /\ order_by_limit_1 op_depth
       (filter (fun o' => str_eqb (affected_path o') (affected_path o)) ops)
     = Some o.
Proof.
  unfold most_recent_operations. rewrite in_flat_map. split.
  - intros [p [Hp H]].
    destruct (order_by_limit_1 op_depth _) as [o'|] eqn:E; [|destruct H].
    destruct H as [<-|[]].
    destruct (limit_1_least _ _ Hlimit E) as [Hin _].
    apply filter_In in Hin. destruct Hin as [_ Hq]. apply str_eqb_eq in Hq.
    rewrite Hq. split; [|exact E].
    apply (proj1 (distinct_In _ _)) in Hp. exact Hp.
  - intros [Hp E]. exists (affected_path o). split.
    + apply (proj2 (distinct_In _ _)). exact Hp.
    + rewrite E. left. reflexivity.
Qed.

Lemma most_recent_least (ops : list Operation) (o : Operation) :
  In o (most_recent_operations order_by_limit_1 ops) ->
  In o ops
  /\ forall o', In o' ops -> affected_path o' = affected_path o ->
                op_depth o <= op_depth o'.
Proof.
  intros H. apply most_recent_In in H. destruct H as [_ E].
  destruct (limit_1_least _ _ Hlimit E) as [Hin Hmin].
  apply filter_In in Hin. split; [tauto|].
  intros o' Ho' Hp. apply Hmin. apply filter_In. split; [exact Ho'|].
  apply str_eqb_eq, Hp.
Qed.

Lemma most_recent_NoDup (ops : list Operation) :
  NoDup (List.map affected_path
           (most_recent_operations order_by_limit_1 ops)).
Proof.
  unfold most_recent_operations. apply NoDup_flat_map_keyed.
  - apply distinct_NoDup.
  - intros p o H.
    destruct (order_by_limit_1 op_depth _) as [o'|] eqn:E; [|destruct H].
    destruct H as [<-|[]].
    destruct (limit_1_least _ _ Hlimit E) as [Hin _].
    apply filter_In in Hin. destruct Hin as [_ Hq]. apply str_eqb_eq, Hq.
  - intros p. destruct (order_by_limit_1 op_depth _); simpl; lia.
Qed.

(** The partition of a path is not changed by a filter on paths that
    lets the path through. *)
Lemma most_recent_filtered (Q : JsString -> bool) (ops : list Operation)
    (o : Operation) :
  In o (most_recent_operations order_by_limit_1
          (filter (fun o' => Q (affected_path o')) ops)) <->
  In o (most_recent_operations order_by_limit_1 ops)
  /\ Q (affected_path o) = true.
Proof.
  assert (Hpart : Q (affected_path o) = true ->
            filter (fun o' => str_eqb (affected_path o') (affected_path o))
              (filter (fun o' => Q (affected_path o')) ops)
            = filter (fun o' => str_eqb (affected_path o') (affected_path o))
                ops).
  { intros HQ. rewrite filter_twice. apply filter_ext. intros o'.
    destruct (str_eqb (affected_path o') (affected_path o)) eqn:E;
      [|apply andb_false_r].
    apply str_eqb_eq in E. rewrite E, HQ. reflexivity. }
  rewrite !most_recent_In. split.
  - intros [Hp E].
    apply in_map_iff in Hp. destruct Hp as [o' [Ep Ho']].
    apply filter_In in Ho'. destruct Ho' as [Ho' HQ]. rewrite Ep in HQ.
    rewrite (Hpart HQ) in E. repeat split; auto.
    apply in_map_iff. exists o'. auto.
  - intros [[Hp E] HQ]. rewrite (Hpart HQ). split; [|exact E].
    apply in_map_iff in Hp. destruct Hp as [o' [Ep Ho']].
    apply in_map_iff. exists o'. split; [exact Ep|].
    apply filter_In. split; [exact Ho'|]. rewrite Ep. exact HQ.
Qed.

Lemma getCommitSnapshot_inv (db : DB) (commitId : Uuid)
    (pathPrefix : option JsString) (entries : list SnapshotEntry) :
  getCommitSnapshot order_by_limit_1 sql_text_leb db commitId pathPrefix
  = Ok entries ->
  exists commitRow repositoryRow normalizedPrefix tree,
    commitWithRepository db commitId = Some (commitRow, repositoryRow)
    /\ commit_id commitRow = commitId
    /\ match pathPrefix with
       | Some prefix =>
           if jsFalsy prefix then normalizedPrefix = None
           else exists np, normalizePathPrefix prefix = Ok np
                           /\ normalizedPrefix = Some np
       | None => normalizedPrefix = None
       end
    /\ commit_tree db commitId = Ok tree
    /\ entries
       = List.map (fun row =>
           mkSnapshotEntry (repo_id repositoryRow) (repo_name repositoryRow)
             (commit_id commitRow) (affected_path row) (op_is_symlink row)
             (commit_message commitRow))
           (sort_by
              (fun a b => sql_text_leb (affected_path a) (affected_path b))
              (filter (fun o => negb (op_is_deleted o))
                 (most_recent_operations order_by_limit_1
                    (filter (fun o =>
                       match normalizedPrefix with
                       | None => true
                       | Some prefix =>
                           like (prefix ++ [37%N]) (affected_path o)
                       end)
                       (all_operations db tree))))).
Proof.
  unfold getCommitSnapshot.
  destruct (jsFalsy commitId); [discriminate|].
  destruct (commitWithRepository db commitId) as [[commitRow repositoryRow]|]
    eqn:Hc; [|discriminate].
  match goal with
  | |- rbind ?q _ = _ -> _ =>
      destruct q as [normalizedPrefix|e] eqn:Hp; [|discriminate]
  end.
  cbn [rbind].
  destruct (commit_tree db commitId) as [tree|e] eqn:Ht; [|discriminate].
  cbn [rbind]. intros [= <-].
  exists commitRow, repositoryRow, normalizedPrefix, tree.
  repeat split; auto.
  - unfold commitWithRepository in Hc.
    destruct (find _ (commits db)) as [c|] eqn:Hfind; [|discriminate].
    destruct (find _ (repositories db)); [|discriminate].
    injection Hc as <- _.
    apply find_some in Hfind. apply str_eqb_eq. tauto.
  - destruct pathPrefix as [prefix|]; [|congruence].
    destruct (jsFalsy prefix); [congruence|].
    destruct (normalizePathPrefix prefix) as [np|e]; [|discriminate].
    exists np. split; [reflexivity|]. simpl in Hp. congruence.
Qed.

Lemma Sorted_map {A B : Type} (f : A -> B) (R : B -> B -> Prop)
    (l : list A) :
  Sorted (fun a b => R (f a) (f b)) l -> Sorted R (List.map f l).
Proof.
  induction 1 as [|x l Hs IH Hd]; simpl; constructor; auto.
  destruct Hd; simpl; constructor; auto.
Qed.

Lemma snapshot_entry_In (db : DB) (commitId : Uuid)
    (pathPrefix : option JsString) (entries : list SnapshotEntry)
    (e : SnapshotEntry) :
  getCommitSnapshot order_by_limit_1 sql_text_leb db commitId pathPrefix
  = Ok entries ->
  exists commitRow repositoryRow normalizedPrefix tree,
    commitWithRepository db commitId = Some (commitRow, repositoryRow)
    /\ commit_id commitRow = commitId
    /\ match pathPrefix with
       | Some prefix =>
           if jsFalsy prefix then normalizedPrefix = None
           else exists np, normalizePathPrefix prefix = Ok np
                           /\ normalizedPrefix = Some np
       | None => normalizedPrefix = None
       end
    /\ commit_tree db commitId = Ok tree
    /\ (In e entries <->
        exists o,
          In o (most_recent_operations order_by_limit_1
                  (all_operations db tree))
          /\ match normalizedPrefix with
             | None => true
             | Some prefix => like (prefix ++ [37%N]) (affected_path o)
             end = true
          /\ op_is_deleted o = false
          /\ e = mkSnapshotEntry (repo_id repositoryRow)
                   (repo_name repositoryRow) commitId (affected_path o)
                   (op_is_symlink o) (commit_message commitRow)).
Proof.
  intros H.
  destruct (getCommitSnapshot_inv _ _ _ H)
    as [commitRow [repositoryRow [normalizedPrefix [tree
         [Hc [Hid [Hp [Ht ->]]]]]]]].
  exists commitRow, repositoryRow, normalizedPrefix, tree.
  repeat split; auto.
  - intros Hin. apply in_map_iff in Hin. destruct Hin as [o [<- Ho]].
    apply (Permutation_in _ (sort_by_perm _ _)) in Ho.
    apply filter_In in Ho. destruct Ho as [Ho Hd].
    apply (most_recent_filtered
             (fun q => match normalizedPrefix with
                       | None => true
                       | Some prefix => like (prefix ++ [37%N]) q
                       end)) in Ho.
    destruct Ho as [Ho HQ]. apply negb_true_iff in Hd.
    exists o. rewrite Hid. auto.
  - intros [o [Ho [HQ [Hd ->]]]]. rewrite <- Hid.
    apply in_map_iff. exists o. split; [reflexivity|].
    apply (Permutation_in _ (Permutation_sym (sort_by_perm _ _))).
    apply filter_In. split; [|rewrite Hd; reflexivity].
    apply (most_recent_filtered
             (fun q => match normalizedPrefix with
                       | None => true
                       | Some prefix => like (prefix ++ [37%N]) q
                       end)).
    auto.
Qed.

Lemma snapshot_paths_NoDup (db : DB) (commitId : Uuid)
    (pathPrefix : option JsString) (entries : list SnapshotEntry) :
  getCommitSnapshot order_by_limit_1 sql_text_leb db commitId pathPrefix
  = Ok entries ->
  NoDup (List.map se_path entries).
Proof.
  intros H.
  destruct (getCommitSnapshot_inv _ _ _ H)
    as [commitRow [repositoryRow [normalizedPrefix [tree
         [Hc [Hid [Hp [Ht ->]]]]]]]].
  rewrite map_map. simpl.
  apply (Permutation_NoDup_map affected_path
           (Permutation_sym (sort_by_perm _ _))).
  apply NoDup_map_filter. apply most_recent_NoDup.
Qed.

(** X12.  A snapshot lists every path at most once, and in the order of
    the collation of the database when that collation compares any two
    strings. *)
Theorem getCommitSnapshot_paths_distinct_sorted (db : DB) (commitId : Uuid)
    (pathPrefix : option JsString) (entries : list SnapshotEntry) :
  getCommitSnapshot order_by_limit_1 sql_text_leb db commitId pathPrefix
  = Ok entries ->
  NoDup (List.map se_path entries)
  /\ ((forall a b, sql_text_leb a b = true \/ sql_text_leb b a = true) ->
      Sorted (fun a b => sql_text_leb (se_path a) (se_path b) = true)
        entries).
Proof.
  intros H.
  destruct (getCommitSnapshot_inv _ _ _ H)
    as [commitRow [repositoryRow [normalizedPrefix [tree
         [Hc [Hid [Hp [Ht ->]]]]]]]].
  split.
  - rewrite map_map. simpl.
    apply (Permutation_NoDup_map affected_path
             (Permutation_sym (sort_by_perm _ _))).
    apply NoDup_map_filter. apply most_recent_NoDup.
  - intros Htotal. apply Sorted_map. simpl.
    apply (sort_by_sorted
             (fun a b => sql_text_leb (affected_path a) (affected_path b))).
    intros a b. apply Htotal.
Qed.

(** X13.  Every entry of a snapshot is backed by a live write: some
    ancestor of the commit (by parent links) holds a delta at the listed
    path that is not a tombstone and has the listed symlink flag, and no
    closer ancestor holds any delta for that path. *)
Theorem getCommitSnapshot_entry_is_closest_write (db : DB) (commitId : Uuid)
    (pathPrefix : option JsString) (entries : list SnapshotEntry) :
  getCommitSnapshot order_by_limit_1 sql_text_leb db commitId pathPrefix
  = Ok entries ->
  exists tree,
    commit_tree db commitId = Ok tree
    /\ forall e, In e entries ->
         se_commitId e = commitId
         /\ exists ct f,
              In ct tree /\ In f (files db)
              /\ file_commit_id f = ct_id ct
              /\ path f = se_path e
              /\ is_deleted f = false
              /\ is_symlink f = se_isSymlink e
              /\ forall ct' g,
                   In ct' tree -> In g (files db) ->
                   file_commit_id g = ct_id ct' ->
                   touches (se_path e) g = true ->
                   ct_depth ct <= ct_depth ct'.
Proof.
  intros H.
  destruct (snapshot_entry_In _ _ _ (mkSnapshotEntry [] [] [] [] false []) H)
    as [commitRow [repositoryRow [normalizedPrefix [tree
         [Hc [Hid [Hp [Ht _]]]]]]]].
  exists tree. split; [exact Ht|]. intros e He.
  destruct (snapshot_entry_In _ _ _ e H)
    as [commitRow' [repositoryRow' [normalizedPrefix' [tree'
         [Hc' [Hid' [Hp' [Ht' Hiff]]]]]]]].
  assert (tree' = tree) by congruence. subst tree'.
  apply Hiff in He. destruct He as [o [Ho [HQ [Hd ->]]]]. simpl.
  split; [reflexivity|].
  destruct (most_recent_least _ _ Ho) as [Hin Hmin].
  apply all_operations_In in Hin.
  destruct Hin as [ct [f [Hct [Hf [Hcf [->|[previous [_ ->]]]]]]]];
    [|discriminate Hd].
  exists ct, f. simpl in *. repeat split; auto.
  intros ct' g Hct' Hg Hcg Htouch.
  destruct (touching_operation db tree _ _ _ Hct' Hg Hcg Htouch)
    as [o' [Ho' [Hp'' Hd']]].
  rewrite <- Hd'. apply (Hmin o' Ho' Hp'').
Qed.

(** X14.  A prefix selects from the full snapshot: for a non-empty
    prefix, [getCommitSnapshot] returns exactly those entries of the
    unfiltered snapshot whose path matches the pattern made of the
    normalised prefix followed by a percent sign, character by character.
    The pattern holds no backslash, the escape character of [like].  The
    prefix is a pattern, not a literal: when it holds neither a percent
    sign nor an underscore it selects the paths that start with it, and
    an underscore in it stands for any one character. *)
Theorem getCommitSnapshot_prefix_selects (db : DB) (commitId : Uuid)
    (prefix : JsString) (entries : list SnapshotEntry) :
  jsFalsy prefix = false ->
  getCommitSnapshot order_by_limit_1 sql_text_leb db commitId (Some prefix)
  = Ok entries ->
  exists np full,
    normalizePathPrefix prefix = Ok np
    /\ getCommitSnapshot order_by_limit_1 sql_text_leb db commitId None
       = Ok full
    /\ existsb (N.eqb BACKSLASH) np = false
    /\ (forall e, In e entries <->
                  In e full /\ like (np ++ [37%N]) (se_path e) = true)
    /\ (wildcardFree np = true ->
        forall e, In e entries <->
                  In e full
                  /\ startsWith (characters np) (characters (se_path e))
                     = true)
    /\ (forall a b rest k e,
          characters np = a ++ 95%N :: b ->
          wildcardFree a = true ->
          wildcardFree b = true ->
          In e full ->
          characters (se_path e) = a ++ k :: b ++ rest ->
          In e entries).
Proof.
  intros Hne H.
  destruct (snapshot_entry_In _ _ _ (mkSnapshotEntry [] [] [] [] false []) H)
    as [commitRow [repositoryRow [normalizedPrefix [tree
         [Hc [Hid [Hp [Ht _]]]]]]]].
  rewrite Hne in Hp. destruct Hp as [np [Hnp ->]].
  assert (Hfull : exists full,
             getCommitSnapshot order_by_limit_1 sql_text_leb db commitId None
             = Ok full).
  { unfold getCommitSnapshot in *.
    destruct (jsFalsy commitId); [discriminate|].
    rewrite Hc, Ht. cbn [rbind]. eexists. reflexivity. }
  destruct Hfull as [full Hfull].
  assert (Hiff : forall e, In e entries <->
                   In e full /\ like (np ++ [37%N]) (se_path e) = true).
  { intros e. repeat split.
    + destruct (snapshot_entry_In _ _ _ e H)
        as [c1 [r1 [n1 [t1 [Hc1 [_ [Hp1 [Ht1 Hiff1]]]]]]]].
      destruct (snapshot_entry_In _ _ _ e Hfull)
        as [c2 [r2 [n2 [t2 [Hc2 [_ [Hp2 [Ht2 Hiff2]]]]]]]].
      rewrite Hne in Hp1. destruct Hp1 as [np1 [Hnp1 ->]].
      subst n2.
      assert (t1 = tree) by congruence. assert (t2 = tree) by congruence.
      assert (np1 = np) by congruence.
      assert (E : (c1, r1) = (c2, r2)) by congruence.
      injection E as <- <-. subst.
      apply Hiff1 in H0. destruct H0 as [o [Ho [HQ [Hd ->]]]].
      apply Hiff2. exists o. auto.
    + destruct (snapshot_entry_In _ _ _ e H)
        as [c1 [r1 [n1 [t1 [Hc1 [_ [Hp1 [Ht1 Hiff1]]]]]]]].
      destruct (snapshot_entry_In _ _ _ e Hfull)
        as [c2 [r2 [n2 [t2 [Hc2 [_ [Hp2 [Ht2 Hiff2]]]]]]]].
      rewrite Hne in Hp1. destruct Hp1 as [np1 [Hnp1 ->]].
      subst n2.
      assert (t1 = tree) by congruence. assert (t2 = tree) by congruence.
      assert (np1 = np) by congruence.
      assert (E : (c1, r1) = (c2, r2)) by congruence.
      injection E as <- <-. subst.
      apply Hiff1 in H0. destruct H0 as [o [Ho [HQ [Hd ->]]]]. exact HQ.
    + intros [Hin Hlike].
      destruct (snapshot_entry_In _ _ _ e H)
        as [c1 [r1 [n1 [t1 [Hc1 [_ [Hp1 [Ht1 Hiff1]]]]]]]].
      destruct (snapshot_entry_In _ _ _ e Hfull)
        as [c2 [r2 [n2 [t2 [Hc2 [_ [Hp2 [Ht2 Hiff2]]]]]]]].
      rewrite Hne in Hp1. destruct Hp1 as [np1 [Hnp1 ->]].
      subst n2.
      assert (t1 = tree) by congruence. assert (t2 = tree) by congruence.
      assert (np1 = np) by congruence.
      assert (E : (c1, r1) = (c2, r2)) by congruence.
      injection E as <- <-. subst.
      apply Hiff2 in Hin. destruct Hin as [o [Ho [_ [Hd ->]]]].
      apply Hiff1. exists o. auto. }
  exists np, full.
  split; [exact Hnp|]. split; [exact Hfull|].
  split; [exact (normalizePathPrefix_no_backslash _ Hnp)|].
  split; [exact Hiff|]. split.
  - intros Hw e. rewrite Hiff, like_pattern.
    rewrite likeCharacters_literal by (apply characters_wildcardFree, Hw).
    reflexivity.
  - intros a b rest k e Hnp' Ha Hb Hin Hpath. apply Hiff.
    split; [exact Hin|].
    rewrite like_pattern, Hnp', Hpath.
    apply likeCharacters_underscore; assumption.
Qed.

(** X15.  When the closest ancestor holding a delta for a path holds a
    live write there and none of its deltas moves a file away from that
    path, the unfiltered snapshot lists the path, with the symlink flag of
    that write: the listing agrees with what [readFile] resolves. *)
Theorem getCommitSnapshot_lists_closest_write (db : DB) (commitId : Uuid)
    (entries : list SnapshotEntry) (tree : list CommitTreeRow)
    (ct : CommitTreeRow) (f : FileRow) :
  history_ok db = true ->
  files_unique db = true ->
  getCommitSnapshot order_by_limit_1 sql_text_leb db commitId None
  = Ok entries ->
  commit_tree db commitId = Ok tree ->
  In ct tree ->
  In f (files db) ->
  file_commit_id f = ct_id ct ->
  is_deleted f = false ->
  (forall ct' g, In ct' tree -> In g (files db) ->
                 file_commit_id g = ct_id ct' -> touches (path f) g = true ->
                 ct_depth ct <= ct_depth ct') ->
  (forall g, In g (files db) -> file_commit_id g = ct_id ct ->
             previous_path g <> Some (path f)) ->
  exists e, In e entries /\ se_path e = path f
            /\ se_isSymlink e = is_symlink f.
Proof.
  intros Hh Hu H Ht Hct Hf Hcf Hlive Hclosest Hstay.
  set (w := writeOp ct f).
  assert (Hw : In w (all_operations db tree)).
  { apply all_operations_In. exists ct, f. auto. }
  destruct (limit_1_some op_depth
              (rows := filter (fun o' => str_eqb (affected_path o')
                                           (affected_path w))
                         (all_operations db tree)) Hlimit) as [o Ho].
  { intros E. apply (filter_nil_none _ _ E) in Hw.
    rewrite str_eqb_refl in Hw. discriminate. }
  destruct (limit_1_least _ _ Hlimit Ho) as [Hin Hmin].
  apply filter_In in Hin. destruct Hin as [Hin Hpath].
  apply str_eqb_eq in Hpath. simpl in Hpath.
  assert (Hdepth : op_depth o <= ct_depth ct).
  { apply (Hmin w). apply filter_In. split; [exact Hw|].
    apply str_eqb_refl. }
  assert (Ho_is : o = w).
  { apply all_operations_In in Hin.
    destruct Hin as [ct' [g [Hct' [Hg [Hcg Hkind]]]]].
    assert (Htouch : touches (path f) g = true).
    { unfold touches. destruct Hkind as [->|[previous [Hprev ->]]];
        simpl in Hpath.
      - rewrite Hpath, str_eqb_refl. reflexivity.
      - rewrite Hprev, Hpath. simpl. rewrite str_eqb_refl.
        apply orb_true_r. }
    assert (Hsame : ct' = ct).
    { apply (proj2 (tree_levels db Hh commitId Ht)); auto.
      specialize (Hclosest ct' g Hct' Hg Hcg Htouch).
      destruct Hkind as [->|[previous [Hprev ->]]]; simpl in Hdepth; lia. }
    subst ct'.
    destruct Hkind as [->|[previous [Hprev ->]]]; simpl in Hpath.
    - assert (g = f).
      { apply (files_unique_rows_eq (files db)); auto; congruence. }
      subst g. reflexivity.
    - exfalso. apply (Hstay g Hg Hcg). congruence. }
  subst o.
  destruct (snapshot_entry_In _ _ _
              (mkSnapshotEntry [] [] [] [] false []) H)
    as [commitRow [repositoryRow [normalizedPrefix [tree'
         [Hc [Hid [Hp [Ht' _]]]]]]]].
  set (e := mkSnapshotEntry (repo_id repositoryRow) (repo_name repositoryRow)
              commitId (path f) (is_symlink f) (commit_message commitRow)).
  exists e. repeat split; auto.
  destruct (snapshot_entry_In _ _ _ e H)
    as [c1 [r1 [n1 [t1 [Hc1 [_ [Hp1 [Ht1 Hiff]]]]]]]].
  assert (t1 = tree) by congruence.
  assert (E : (c1, r1) = (commitRow, repositoryRow)) by congruence.
  injection E as -> ->. subst.
  apply Hiff. exists w. repeat split; auto.
  apply most_recent_In. split; [|exact Ho].
  apply in_map_iff. exists w. auto.
Qed.

End Snapshots.

Lemma getCommitSnapshot_paths_distinct_sorted_witness :
  let entries :=
    [mkSnapshotEntry R1 (js "repo") (js "u1") (js "/a.txt") false
       (js "feature");
     mkSnapshotEntry R1 (js "repo") (js "u1") (js "/c.txt") false
       (js "feature")] in
  NoDup (List.map se_path entries)
  /\ ((forall a b, codeUnitLeb a b = true \/ codeUnitLeb b a = true) ->
      Sorted (fun a b => codeUnitLeb (se_path a) (se_path b) = true) entries).
Proof.
  intros entries.
  apply (@getCommitSnapshot_paths_distinct_sorted first_least
           first_least_admissible codeUnitLeb (dbAfter conflictHistory)
           (js "u1") None entries).
  vm_compute. reflexivity.
Defined.

Lemma getCommitSnapshot_entry_is_closest_write_witness :
  let db := dbAfter conflictHistory in
  let entries :=
    [mkSnapshotEntry R1 (js "repo") (js "u1") (js "/a.txt") false
       (js "feature");
     mkSnapshotEntry R1 (js "repo") (js "u1") (js "/c.txt") false
       (js "feature")] in
  exists tree,
    commit_tree db (js "u1") = Ok tree
    /\ forall e, In e entries ->
         se_commitId e = js "u1"
         /\ exists ct f,
              In ct tree /\ In f (files db)
              /\ file_commit_id f = ct_id ct
              /\ path f = se_path e
              /\ is_deleted f = false
              /\ is_symlink f = se_isSymlink e
              /\ forall ct' g,
                   In ct' tree -> In g (files db) ->
                   file_commit_id g = ct_id ct' ->
                   touches (se_path e) g = true ->
                   ct_depth ct <= ct_depth ct'.
Proof.
  intros db entries.
  apply (@getCommitSnapshot_entry_is_closest_write first_least
           first_least_admissible codeUnitLeb db (js "u1") None entries).
  vm_compute. reflexivity.
Defined.

Lemma getCommitSnapshot_prefix_selects_witness :
  let db := dbAfter patternHistory in
  let entries :=
    [mkSnapshotEntry R1 (js "repo") (js "u0") (js "/abc/y.txt") false
       (js "init");
     mkSnapshotEntry R1 (js "repo") (js "u0")
       (js "/a" ++ [55357; 56832]%N ++ js "c/x.txt") false (js "init")] in
  exists np full,
    normalizePathPrefix (js "/a_c/") = Ok np
    /\ getCommitSnapshot first_least codeUnitLeb db (js "u0") None = Ok full
    /\ existsb (N.eqb BACKSLASH) np = false
    /\ (forall e, In e entries <->
                  In e full /\ like (np ++ [37%N]) (se_path e) = true)
    /\ (wildcardFree np = true ->
        forall e, In e entries <->
                  In e full
                  /\ startsWith (characters np) (characters (se_path e))
                     = true)
    /\ (forall a b rest k e,
          characters np = a ++ 95%N :: b ->
          wildcardFree a = true ->
          wildcardFree b = true ->
          In e full ->
          characters (se_path e) = a ++ k :: b ++ rest ->
          In e entries).
Proof.
  intros db entries.
  apply (@getCommitSnapshot_prefix_selects first_least
           first_least_admissible codeUnitLeb db (js "u0") (js "/a_c/")
           entries).
  - reflexivity.
  - vm_compute. reflexivity.
Defined.

Lemma getCommitSnapshot_lists_closest_write_witness :
  let entries :=
    [mkSnapshotEntry R1 (js "repo") (js "u2") (js "/a.txt") false
       (js "main");
     mkSnapshotEntry R1 (js "repo") (js "u2") (js "/b.txt") false
       (js "main")] in
  let f := mkFileRow (js "u0") (js "/a.txt") None (js "hello") false false in
  exists e, In e entries /\ se_path e = path f
            /\ se_isSymlink e = is_symlink f.
Proof.
  intros entries f.
  apply (@getCommitSnapshot_lists_closest_write first_least
           first_least_admissible codeUnitLeb (dbAfter divergedHistory)
           (js "u2") entries
           [mkCommitTreeRow (js "u2") (Some (js "u0")) 0;
            mkCommitTreeRow (js "u0") None 1]
           (mkCommitTreeRow (js "u0") None 1) f);
    try (vm_compute; reflexivity).
  - vm_compute. auto.
  - vm_compute. auto.
  - intros ct' g Hct' Hg Hc Ht.
    vm_compute in Hg.
    destruct Hct' as [<-|[<-|[]]];
      destruct Hg as [<-|[<-|[<-|[]]]];
      vm_compute in Hc, Ht; try discriminate;
      vm_compute; lia.
  - intros g Hg. vm_compute in Hg.
    destruct Hg as [<-|[<-|[<-|[]]]]; intros Hc Hp; vm_compute in Hc, Hp;
      discriminate.
Defined.

(* ================================================================= *)
(** * The three-way comparison *)

Lemma NoDup_map_In_eq {A B : Type} (f : A -> B) (l : list A) (x y : A) :
  NoDup (List.map f l) -> In x l -> In y l -> f x = f y -> x = y.
Proof.
  induction l as [|a l IH]; simpl; [tauto|].
  intros H. inversion H as [|? ? Ha Hl]; subst.
  intros [->|Hx] [->|Hy] E; auto.
  - exfalso. apply Ha. rewrite E. apply in_map, Hy.
  - exfalso. apply Ha. rewrite <- E. apply in_map, Hx.
Qed.

Lemma find_unique {A : Type} (f : A -> bool) (l l' : list A) :
  Permutation l l' ->
  (forall x y, In x l -> In y l -> f x = true -> f y = true -> x = y) ->
  find f l = find f l'.
Proof.
  intros Hperm Hone.
  destruct (find f l) as [x|] eqn:Hx, (find f l') as [y|] eqn:Hy; auto.
  - apply find_some in Hx, Hy. destruct Hx as [Hx Fx], Hy as [Hy Fy].
    f_equal. apply Hone; auto.
    apply (Permutation_in _ (Permutation_sym Hperm)), Hy.
  - apply find_some in Hx. destruct Hx as [Hx Fx].
    rewrite (find_none _ _ Hy x (Permutation_in _ Hperm Hx)) in Fx.
    discriminate.
  - apply find_some in Hy. destruct Hy as [Hy Fy].
    rewrite (find_none _ _ Hx y
               (Permutation_in _ (Permutation_sym Hperm) Hy)) in Fy.
    discriminate.
Qed.

(** In a listing without repeated paths, the look-up in the map built
    from it finds the entry listed for the path. *)
Lemma listedAt_stateAt (snapshot : list SnapshotEntryWithContent)
    (p : JsString) :
  NoDup (List.map sc_path snapshot) ->
  stateAt snapshot p = listedAt snapshot p.
Proof.
  intros Hnd. unfold stateAt, listedAt, mapGet.
  rewrite <- (find_unique (fun e => str_eqb (sc_path e) p)
                (Permutation_rev snapshot)); [reflexivity|].
  intros x y Hx Hy Fx Fy. apply str_eqb_eq in Fx, Fy.
  apply (NoDup_map_In_eq sc_path snapshot); congruence.
Qed.

Section ThreeWay.

Variable order_by_limit_1 : Limit1.
Hypothesis Hlimit : admissible order_by_limit_1.
Variable sql_text_leb : JsString -> JsString -> bool.
Variable localeCompare : JsString -> JsString -> Z.
Hypothesis Hconsistent : consistentComparator localeCompare.

Lemma withContent_paths (db : DB) (commitId : Uuid)
    (snapshot : list SnapshotEntry) :
  forall entries,
    withContent order_by_limit_1 db commitId snapshot = Ok entries ->
    List.map sc_path entries = List.map se_path snapshot.
Proof.
  induction snapshot as [|entry rest IH]; intros entries; simpl.
  - intros [= <-]. reflexivity.
  - unfold rbind.
    destruct (readFile order_by_limit_1 db commitId (se_path entry));
      [|discriminate].
    destruct (withContent order_by_limit_1 db commitId rest) as [results|];
      [|discriminate].
    intros [= <-]. simpl. rewrite (IH results eq_refl). reflexivity.
Qed.

Lemma snapshotWithContent_NoDup (db : DB) (commitId : Uuid)
    (entries : list SnapshotEntryWithContent) :
  getCommitSnapshotWithContent order_by_limit_1 sql_text_leb db commitId None
  = Ok entries ->
  NoDup (List.map sc_path entries).
Proof.
  unfold getCommitSnapshotWithContent, rbind.
  destruct (getCommitSnapshot order_by_limit_1 sql_text_leb db commitId None)
    as [snapshot|] eqn:Hs; [|discriminate].
  intros H. rewrite (withContent_paths _ _ _ H).
  apply (snapshot_paths_NoDup Hlimit _ _ _ _ Hs).
Qed.

(** C5.  When the merge base of two commits and the snapshots of the
    three commits are found, [getConflicts] answers with a list in which
    a path occurs exactly when both sides changed from the base and
    differ from each other, the state of a path at a commit being the
    triple of existence, symlink flag and content that the snapshot of
    the commit lists for it; every entry reports the merge base and the
    three states of its path and is classified delete/modify when the
    path exists at the base and is missing on a side, add/add when it is
    missing at the base and exists on both sides, and modify/modify
    otherwise; no path is reported twice; and the list is sorted by
    path. *)
Theorem getConflicts_three_way (db : DB)
    (leftCommitId rightCommitId mergeBase : Uuid)
    (base left right : list SnapshotEntryWithContent) :
  getMergeBase order_by_limit_1 db leftCommitId rightCommitId
  = Ok mergeBase ->
  getCommitSnapshotWithContent order_by_limit_1 sql_text_leb db mergeBase None
  = Ok base ->
  getCommitSnapshotWithContent order_by_limit_1 sql_text_leb db leftCommitId
    None = Ok left ->
  getCommitSnapshotWithContent order_by_limit_1 sql_text_leb db rightCommitId
    None = Ok right ->
  exists conflicts,
    getConflicts order_by_limit_1 sql_text_leb localeCompare db leftCommitId
      rightCommitId
    = Ok conflicts
    /\ (forall p,
          (exists c, In c conflicts /\ ce_path c = p) <->
          inConflict (listedAt base p) (listedAt left p) (listedAt right p))
    /\ (forall c, In c conflicts ->
          ce_mergeBaseCommitId c = mergeBase
          /\ reportedBase c = listedAt base (ce_path c)
          /\ reportedLeft c = listedAt left (ce_path c)
          /\ reportedRight c = listedAt right (ce_path c)
          /\ ce_conflictKind c
             = classify (listedAt base (ce_path c))
                 (listedAt left (ce_path c)) (listedAt right (ce_path c)))
    /\ NoDup (List.map ce_path conflicts)
    /\ StronglySorted
         (fun a b => (localeCompare (ce_path a) (ce_path b) <= 0)%Z)
         conflicts.
Proof.
  intros Hm Hb Hl Hr.
  destruct (getConflicts_by_lookup _ _ Hconsistent _ _ _ Hm Hb Hl Hr)
    as [conflicts [Hget [Hiff [Hrep [Hnd Hsorted]]]]].
  assert (Eb : forall p, stateAt base p = listedAt base p)
    by (intros p; eapply listedAt_stateAt, snapshotWithContent_NoDup, Hb).
  assert (El : forall p, stateAt left p = listedAt left p)
    by (intros p; eapply listedAt_stateAt, snapshotWithContent_NoDup, Hl).
  assert (Er : forall p, stateAt right p = listedAt right p)
    by (intros p; eapply listedAt_stateAt, snapshotWithContent_NoDup, Hr).
  exists conflicts. split; [exact Hget|]. split; [|split; [|split]]; auto.
  - intros p. rewrite <- Eb, <- El, <- Er. apply Hiff.
  - intros c Hc. rewrite <- !Eb, <- !El, <- !Er. apply Hrep, Hc.
Qed.

End ThreeWay.

Lemma getConflicts_three_way_witness :
  let db := dbAfter threeWayHistory in
  let base :=
    [mkSnapshotEntryWithContent
       (mkSnapshotEntry R1 (js "repo")
          (js "u0") (js "/a.txt") false (js "init"))
       (js "hello");
     mkSnapshotEntryWithContent
       (mkSnapshotEntry R1 (js "repo")
          (js "u0") (js "/d.txt") false (js "init"))
       (js "old")] in
  let left :=
    [mkSnapshotEntryWithContent
       (mkSnapshotEntry R1 (js "repo")
          (js "u1") (js "/a.txt") false (js "feature"))
       (js "left");
     mkSnapshotEntryWithContent
       (mkSnapshotEntry R1 (js "repo")
          (js "u1") (js "/c.txt") false (js "feature"))
       (js "extra");
     mkSnapshotEntryWithContent
       (mkSnapshotEntry R1 (js "repo")
          (js "u1") (js "/n.txt") false (js "feature"))
       (js "L")] in
  let right :=
    [mkSnapshotEntryWithContent
       (mkSnapshotEntry R1 (js "repo")
          (js "u2") (js "/a.txt") false (js "main"))
       (js "right");
     mkSnapshotEntryWithContent
       (mkSnapshotEntry R1 (js "repo")
          (js "u2") (js "/d.txt") false (js "main"))
       (js "kept");
     mkSnapshotEntryWithContent
       (mkSnapshotEntry R1 (js "repo")
          (js "u2") (js "/n.txt") false (js "main"))
       (js "R")] in
  let conflicts :=
    [mkConflictEntry (js "u0") (js "/a.txt") true false (Some (js "hello"))
       true false (Some (js "left")) true false (Some (js "right"))
       ModifyModify;
     mkConflictEntry (js "u0") (js "/d.txt") true false (Some (js "old"))
       false false None true false (Some (js "kept")) DeleteModify;
     mkConflictEntry (js "u0") (js "/n.txt") false false None
       true false (Some (js "L")) true false (Some (js "R")) AddAdd] in
  getConflicts first_least codeUnitLeb codeUnitCompare db (js "u1") (js "u2")
  = Ok conflicts
  /\ (forall p,
        (exists c, In c conflicts /\ ce_path c = p) <->
        inConflict (listedAt base p) (listedAt left p) (listedAt right p))
  /\ (forall c, In c conflicts ->
        ce_mergeBaseCommitId c = js "u0"
        /\ reportedBase c = listedAt base (ce_path c)
        /\ reportedLeft c = listedAt left (ce_path c)
        /\ reportedRight c = listedAt right (ce_path c)
        /\ ce_conflictKind c
           = classify (listedAt base (ce_path c))
               (listedAt left (ce_path c)) (listedAt right (ce_path c)))
  /\ NoDup (List.map ce_path conflicts)
  /\ StronglySorted
       (fun a b => (codeUnitCompare (ce_path a) (ce_path b) <= 0)%Z)
       conflicts.
Proof.
  intros db base left right conflicts.
  destruct (@getConflicts_three_way first_least first_least_admissible
              codeUnitLeb codeUnitCompare codeUnitCompare_consistent db
              (js "u1") (js "u2") (js "u0") base left right)
    as [found [Hget H]]; try (vm_compute; reflexivity).
  assert (E : found = conflicts).
  { vm_compute in Hget. injection Hget as <-. reflexivity. }
  subst found. split; [exact Hget | exact H].
Defined.

(* ================================================================= *)
(** * Merge bases along an edge of the history *)

Lemma ancestors_levels (db : DB) (fuel : nat) :
  forall (work : list AncestorRow) (k : nat) (rows : list AncestorRow),
    (forall r, In r work -> an_depth r = k) ->
    recursive_cte (ancestors_step db) fuel work = Some rows ->
    (forall r, In r rows -> k <= an_depth r)
    /\ (forall r, In r rows -> an_depth r = k -> In r work)
    /\ (forall r, In r rows -> an_depth r = S k ->
                  In r (ancestors_step db work))
    /\ incl (ancestors_step db work) rows.
Proof.
  induction fuel as [|fuel IH]; intros work k rows Hk Hrun.
  - destruct work; [|discriminate].
    simpl in Hrun. injection Hrun as <-.
    repeat split; try (intros; contradiction). intros r [].
  - destruct work as [|r0 w].
    + simpl in Hrun. injection Hrun as <-.
      repeat split; try (intros; contradiction). intros r [].
    + cbn [recursive_cte] in Hrun.
      destruct (recursive_cte (ancestors_step db) fuel
                  (ancestors_step db (r0 :: w))) as [rows'|] eqn:Hrec;
        [|discriminate].
      cbn [option_map] in Hrun. injection Hrun as <-.
      change (r0 :: w ++ rows') with ((r0 :: w) ++ rows').
      destruct (IH (ancestors_step db (r0 :: w)) (S k) rows')
        as [A [B [_ _]]]; auto.
      { intros r Hr. apply in_flat_map in Hr. destruct Hr as [a [Ha Hr]].
        apply in_map_iff in Hr. destruct Hr as [c [<- _]]. simpl.
        rewrite (Hk a Ha). reflexivity. }
      repeat split.
      * intros r Hr. apply in_app_or in Hr. destruct Hr as [Hr|Hr].
        -- rewrite (Hk r Hr). lia.
        -- specialize (A r Hr). lia.
      * intros r Hr E. apply in_app_or in Hr. destruct Hr as [Hr|Hr]; auto.
        specialize (A r Hr). lia.
      * intros r Hr E. apply in_app_or in Hr. destruct Hr as [Hr|Hr].
        -- rewrite (Hk r Hr) in E. lia.
        -- apply B; auto.
      * intros r Hr. apply in_or_app. right.
        apply (recursive_cte_incl _ _ _ Hrec). exact Hr.
Qed.

Lemma commitRepository_of (db : DB) (c : Commit) :
  history_ok db = true ->
  In c (commits db) ->
  commitRepository db (commit_id c) = Some (commit_repository_id c)
  /\ commitExists db (commit_id c) = true.
Proof.
  intros Hh Hc. split.
  - unfold commitRepository.
    destruct (find (fun c0 => str_eqb (commit_id c0) (commit_id c))
                (commits db)) as [c'|] eqn:F.
    + apply find_some in F. destruct F as [Hc' E]. apply str_eqb_eq in E.
      pose proof (commits_nodup db Hh) as Hnd.
      assert (c' = c).
      { clear Hh. induction (commits db) as [|x l IH]; [destruct Hc|].
        simpl in Hnd. inversion Hnd as [|? ? Hx Hl]; subst.
        destruct Hc as [->|Hc], Hc' as [->|Hc']; auto.
        - exfalso. apply Hx. rewrite <- E. apply in_map, Hc'.
        - exfalso. apply Hx. rewrite E. apply in_map, Hc. }
      subst c'. reflexivity.
    + exfalso. apply (find_none _ _ F) in Hc.
      rewrite str_eqb_refl in Hc. discriminate.
  - unfold commitExists. apply existsb_exists. exists c.
    split; [exact Hc | apply str_eqb_refl].
Qed.

Section MergeBaseEdges.

Variable order_by_limit_1 : Limit1.
Hypothesis Hlimit : admissible order_by_limit_1.
Variable db : DB.
Hypothesis Hhistory : history_ok db = true.

Lemma ancestors_run (x : Uuid) (rows : list AncestorRow) :
  ancestors db x = Some rows ->
  (forall r, In r rows -> an_depth r = 0 -> an_id r = x)
  /\ (forall r, In r rows -> an_depth r = 1 ->
        exists c p, In c (commits db) /\ commit_id c = x
                    /\ In p (commits db) /\ an_id r = commit_id p
                    /\ (parent_commit_id c = Some (commit_id p)
                        \/ merged_from_commit_id c = Some (commit_id p)))
  /\ (forall c, In c (commits db) -> commit_id c = x ->
        In (mkAncestorRow (commit_id c) (parent_commit_id c)
              (merged_from_commit_id c) 0) rows)
  /\ (forall c p, In c (commits db) -> commit_id c = x ->
        In p (commits db) ->
        parent_commit_id c = Some (commit_id p)
        \/ merged_from_commit_id c = Some (commit_id p) ->
        In (mkAncestorRow (commit_id p) (parent_commit_id p)
              (merged_from_commit_id p) 1) rows).
Proof.
  unfold ancestors. intros Hrun.
  assert (Hanchor : forall r, In r (ancestors_anchor db x) ->
            an_depth r = 0 /\ exists c, In c (commits db) /\ commit_id c = x
              /\ r = mkAncestorRow (commit_id c) (parent_commit_id c)
                       (merged_from_commit_id c) 0).
  { intros r Hr. unfold ancestors_anchor in Hr. apply in_map_iff in Hr.
    destruct Hr as [c [<- Hc]]. apply filter_In in Hc.
    destruct Hc as [Hc E]. apply str_eqb_eq in E. split; [reflexivity|].
    exists c. auto. }
  assert (Hin_anchor : forall c, In c (commits db) -> commit_id c = x ->
            In (mkAncestorRow (commit_id c) (parent_commit_id c)
                  (merged_from_commit_id c) 0) (ancestors_anchor db x)).
  { intros c Hc E. unfold ancestors_anchor. apply in_map_iff. exists c.
    split; [reflexivity|]. apply filter_In. split; [exact Hc|].
    apply str_eqb_eq, E. }
  destruct (@ancestors_levels db (ancestry_fuel db) (ancestors_anchor db x) 0
              rows) as [_ [B [C D]]]; auto.
  { intros r Hr. apply (Hanchor r Hr). }
  repeat split.
  - intros r Hr E. destruct (Hanchor r (B r Hr E)) as [_ [c [_ [<- ->]]]].
    reflexivity.
  - intros r Hr E. specialize (C r Hr E).
    apply (ancestors_step_In db) in C.
    destruct C as [a [p [Ha [Hp [Hlink ->]]]]].
    destruct (Hanchor a Ha) as [_ [c [Hc [Hx ->]]]]. simpl in *.
    exists c, p. auto.
  - intros c Hc E. apply (recursive_cte_incl _ _ _ Hrun).
    apply Hin_anchor; auto.
  - intros c p Hc E Hp Hlink. apply D.
    apply (ancestors_step_In db).
    exists (mkAncestorRow (commit_id c) (parent_commit_id c)
              (merged_from_commit_id c) 0), p.
    repeat split; auto.
Qed.

Lemma commit_by_id (c c' : Commit) :
  In c (commits db) -> In c' (commits db) -> commit_id c = commit_id c' ->
  c = c'.
Proof.
  intros Hc Hc' E. pose proof (commits_nodup db Hhistory) as Hnd.
  induction (commits db) as [|x l IH]; [destruct Hc|].
  simpl in Hnd. inversion Hnd as [|? ? Hx Hl]; subst.
  destruct Hc as [->|Hc], Hc' as [->|Hc']; auto.
  - exfalso. apply Hx. rewrite E. apply in_map, Hc'.
  - exfalso. apply Hx. rewrite <- E. apply in_map, Hc.
Qed.

(** The selected row of [common], when its combined depth is known to be
    attained by some pair of ancestor rows. *)
Lemma selected_common (lefts rights : list AncestorRow) (b : Uuid) (m : nat) :
  order_by_limit_1 snd (common lefts rights) = Some (b, m) ->
  (exists l r, In l lefts /\ In r rights /\ an_id l = b /\ an_id r = b
               /\ m = an_depth l + an_depth r)
  /\ forall l r, In l lefts -> In r rights -> an_id l = an_id r ->
                 m <= an_depth l + an_depth r.
Proof.
  intros S1. destruct (limit_1_least _ _ Hlimit S1) as [Hb Hmin]. split.
  - apply common_In in Hb. destruct Hb as [[s Hs] ->].
    destruct (@list_min_spec
                (List.map snd (filter (fun row => str_eqb (fst row) b)
                                 (joined_depths lefts rights)))) as [Hin _].
    { intros E. apply (proj2 (group_depths_In _ b s)) in Hs.
      rewrite E in Hs. destruct Hs. }
    apply group_depths_In in Hin. apply joined_depths_In in Hin.
    destruct Hin as [l [r [Hl [Hr [El [Er Es]]]]]].
    exists l, r. auto.
  - intros l r Hl Hr E.
    assert (Hj : In (an_id l, an_depth l + an_depth r)
                   (joined_depths lefts rights)).
    { apply joined_depths_In. exists l, r. auto. }
    set (t := list_min (List.map snd
                          (filter (fun row => str_eqb (fst row) (an_id l))
                             (joined_depths lefts rights)))).
    assert (Hc : In (an_id l, t) (common lefts rights)).
    { apply common_In. split; [eexists; exact Hj | reflexivity]. }
    specialize (Hmin _ Hc). simpl in Hmin.
    assert (t <= an_depth l + an_depth r); [|lia].
    apply list_min_spec.
    + intros E0. apply (proj2 (group_depths_In _ _ _)) in Hj.
      rewrite E0 in Hj. destruct Hj.
    + apply (proj2 (group_depths_In _ _ _)). exact Hj.
Qed.

Lemma common_nonempty (lefts rights : list AncestorRow) (l r : AncestorRow) :
  In l lefts -> In r rights -> an_id l = an_id r ->
  exists b m, order_by_limit_1 snd (common lefts rights) = Some (b, m).
Proof.
  intros Hl Hr E.
  destruct (@limit_1_some order_by_limit_1 _ snd (common lefts rights)
              Hlimit) as [[b m] S1]; [|eauto].
  intros N.
  assert (Hc : In (an_id l,
                   list_min (List.map snd
                     (filter (fun row => str_eqb (fst row) (an_id l))
                        (joined_depths lefts rights))))
                 (common lefts rights)).
  { apply common_In. split; [|reflexivity].
    exists (an_depth l + an_depth r). apply joined_depths_In.
    exists l, r. auto. }
  rewrite N in Hc. destruct Hc.
Qed.

(** X17.  The merge base of a commit with itself is that commit, and
    the merge base of a commit and its parent, or of a commit and the
    commit it merged from, is that parent or merged-from commit, in
    whichever order the two are given and however ties among shared
    ancestors are broken. *)
Theorem getMergeBase_edge (c p : Commit) :
  In c (commits db) ->
  In p (commits db) ->
  c = p
  \/ parent_commit_id c = Some (commit_id p)
  \/ merged_from_commit_id c = Some (commit_id p) ->
  commit_repository_id c = commit_repository_id p ->
  jsFalsy (commit_id c) = false ->
  jsFalsy (commit_id p) = false ->
  getMergeBase order_by_limit_1 db (commit_id c) (commit_id p)
  = Ok (commit_id p)
  /\ getMergeBase order_by_limit_1 db (commit_id p) (commit_id c)
     = Ok (commit_id p).
Proof.
  intros Hc Hp [->|Hlink] Hrepo Hfc Hfp.
  { assert (Hself : getMergeBase order_by_limit_1 db (commit_id p)
                      (commit_id p) = Ok (commit_id p)); [|split; exact Hself].
    destruct (commitRepository_of db p Hhistory Hp) as [Hrp _].
    destruct (ancestors_terminates db Hhistory (commit_id p)) as [rows Hrows].
    destruct (@ancestors_run _ _ Hrows) as [H0 [_ [Hanchor _]]].
    unfold getMergeBase. rewrite Hfp, Hrp, str_eqb_refl, Hrows. simpl.
    set (a := mkAncestorRow (commit_id p) (parent_commit_id p)
                (merged_from_commit_id p) 0).
    assert (Ha : In a rows) by (apply Hanchor; auto).
    destruct (common_nonempty rows rows a a Ha Ha eq_refl) as [b [m S1]].
    rewrite S1. simpl.
    destruct (selected_common _ _ S1)
      as [[l [r [Hl [Hr [El [Er Em]]]]]] Hmin].
    specialize (Hmin a a Ha Ha eq_refl). simpl in Hmin.
    rewrite <- El. f_equal. apply H0; [exact Hl | lia]. }
  destruct (commitRepository_of db c Hhistory Hc) as [Hrc _].
  destruct (commitRepository_of db p Hhistory Hp) as [Hrp _].
  destruct (ancestors_terminates db Hhistory (commit_id c)) as [lefts Hl].
  destruct (ancestors_terminates db Hhistory (commit_id p)) as [rights Hr].
  destruct (@ancestors_run _ _ Hl) as [L0 [L1 [_ Lstep]]].
  destruct (@ancestors_run _ _ Hr) as [R0 [R1 [Ranchor _]]].
  pose proof (commit_refers_back db Hhistory c Hc Hlink) as Hback.
  assert (Hne : commit_id c <> commit_id p).
  { intros E. rewrite E in Hback. lia. }
  set (l1 := mkAncestorRow (commit_id p) (parent_commit_id p)
               (merged_from_commit_id p) 1).
  set (r0 := mkAncestorRow (commit_id p) (parent_commit_id p)
               (merged_from_commit_id p) 0).
  assert (Hl1 : In l1 lefts) by (apply (Lstep c p); auto).
  assert (Hr0 : In r0 rights) by (apply Ranchor; auto).
  assert (Hsel : forall l r, In l lefts -> In r rights -> an_id l = an_id r ->
            an_depth l + an_depth r <= 1 -> an_id l = commit_id p).
  { intros l r Hl' Hr' E Hsum.
    destruct (an_depth l) as [|[|dl]] eqn:Dl; [| |lia].
    - pose proof (L0 l Hl' Dl) as El.
      destruct (an_depth r) as [|[|dr]] eqn:Dr; [| |lia].
      + pose proof (R0 r Hr' Dr) as Er. congruence.
      + destruct (R1 r Hr' Dr) as [c' [p' [Hc' [Ec' [Hp' [Er Hlink']]]]]].
        assert (c' = p) by (apply commit_by_id; auto). subst c'.
        assert (p' = c) by (apply commit_by_id; auto; congruence). subst p'.
        pose proof (commit_refers_back db Hhistory p Hp Hlink'). lia.
    - destruct (an_depth r) as [|dr] eqn:Dr; [|lia].
      rewrite E. apply (R0 r Hr' Dr). }
  unfold getMergeBase.
  rewrite Hfc, Hfp, Hrc, Hrp, Hrepo, str_eqb_refl, Hl, Hr. simpl. split.
  - destruct (common_nonempty lefts rights l1 r0 Hl1 Hr0 eq_refl)
      as [b [m S1]].
    rewrite S1. simpl. f_equal.
    destruct (selected_common _ _ S1)
      as [[l [r [Hl' [Hr' [El [Er Em]]]]]] Hmin].
    specialize (Hmin l1 r0 Hl1 Hr0 eq_refl). simpl in Hmin.
    rewrite <- El. apply (Hsel l r); auto; [congruence | lia].
  - destruct (common_nonempty rights lefts r0 l1 Hr0 Hl1 eq_refl)
      as [b [m S1]].
    rewrite S1. simpl. f_equal.
    destruct (selected_common _ _ S1)
      as [[r [l [Hr' [Hl' [Er [El Em]]]]]] Hmin].
    specialize (Hmin r0 l1 Hr0 Hl1 eq_refl). simpl in Hmin.
    rewrite <- El. apply (Hsel l r); auto; [congruence | lia].
Qed.

End MergeBaseEdges.

Lemma getMergeBase_edge_witness :
  getMergeBase first_least (dbAfter crossedHistory) (js "u5") (js "u3")
  = Ok (js "u3")
  /\ getMergeBase first_least (dbAfter crossedHistory) (js "u3") (js "u5")
     = Ok (js "u3").
Proof.
  apply (@getMergeBase_edge first_least first_least_admissible
           (dbAfter crossedHistory) eq_refl
           (mkCommit (js "u5") R1 (Some (js "u1")) (Some (js "u3"))
              (js "left"))
           (mkCommit (js "u3") R1 (Some (js "u2")) None (js "m")));
    try reflexivity.
  - vm_compute. auto 10.
  - vm_compute. auto 10.
  - right. right. reflexivity.
Defined.

(* ================================================================= *)
(** * The patch a rebase replays *)






(* ================================================================= *)
(** * Creating commits *)

Lemma find_snoc_new {A : Type} (P : A -> bool) (l : list A) (x : A) :
  existsb P l = false -> P x = true -> find P (l ++ [x]) = Some x.
Proof.
  induction l as [|y l IH]; simpl; intros Hn Hx.
  - rewrite Hx. reflexivity.
  - apply orb_false_iff in Hn. destruct Hn as [Hy Hl].
    rewrite Hy. auto.
Qed.

Lemma find_none_existsb {A : Type} (P : A -> bool) (l : list A) :
  existsb P l = false -> find P l = None.
Proof.
  induction l as [|y l IH]; simpl; [reflexivity|].
  intros Hn. apply orb_false_iff in Hn. destruct Hn as [Hy Hl].
  rewrite Hy. auto.
Qed.

Lemma insertCommit_inv (uuidv7 : nat -> Uuid) (repositoryId : Uuid)
    (message : JsString) (parentCommitId mergedFromCommitId : option Uuid)
    (db db' : DB) (r : Result Commit) :
  insertCommit uuidv7 repositoryId message parentCommitId mergedFromCommitId
    db = (r, db') ->
  repositories db' = repositories db
  /\ branches db' = branches db
  /\ files db' = files db
  /\ match r with
     | Throw _ => commits db' = commits db
     | Ok row =>
         row = mkCommit (uuidv7 (uuid_seq db)) repositoryId parentCommitId
                 mergedFromCommitId message
         /\ commits db' = commits db ++ [row]
         /\ commitExists db (commit_id row) = false
         /\ optCommitInRepository db parentCommitId repositoryId = true
         /\ optCommitInRepository db mergedFromCommitId repositoryId = true
         /\ (parentCommitId = None ->
             forall c, In c (commits db) ->
                       commit_repository_id c = repositoryId ->
                       parent_commit_id c <> None)
     end.
Proof.
  unfold insertCommit.
  destruct (commitExists db _) eqn:Ex; [intros [= <- <-]; auto|].
  destruct (negb (existsb _ (repositories db)));
    [intros [= <- <-]; auto|].
  destruct (optCommitInRepository db parentCommitId repositoryId) eqn:P;
    [|intros [= <- <-]; auto].
  destruct (optCommitInRepository db mergedFromCommitId repositoryId) eqn:M;
    [|intros [= <- <-]; auto].
  cbn [negb].
  destruct (negb (isSome parentCommitId) && _) eqn:Root;
    intros [= <- <-]; [auto|].
  simpl. repeat split; auto.
  intros -> c Hc Hrepo Hroot. simpl in Root.
  assert (X : existsb (fun c0 => str_eqb (commit_repository_id c0)
                                   repositoryId
                                 && negb (isSome (parent_commit_id c0)))
                (commits db) = true); [|congruence].
  apply existsb_exists. exists c. split; [exact Hc|].
  rewrite Hrepo, str_eqb_refl, Hroot. reflexivity.
Qed.

Lemma createCommit_inv (uuidv7 : nat -> Uuid) (repositoryId : Uuid)
    (message : JsString) (parentCommitId : option (option Uuid))
    (mergedFromCommitId : option Uuid) (db db' : DB) (r : Result Commit) :
  createCommit uuidv7 repositoryId message parentCommitId mergedFromCommitId
    db = (r, db') ->
  repositories db' = repositories db
  /\ branches db' = branches db
  /\ files db' = files db
  /\ match r with
     | Throw _ => commits db' = commits db
     | Ok row =>
         row = mkCommit (uuidv7 (uuid_seq db)) repositoryId
                 (match parentCommitId with
                  | Some given => given
                  | None => defaultBranchHead db repositoryId
                  end)
                 mergedFromCommitId message
         /\ commits db' = commits db ++ [row]
         /\ commitExists db (commit_id row) = false
         /\ optCommitInRepository db (parent_commit_id row) repositoryId
            = true
         /\ optCommitInRepository db mergedFromCommitId repositoryId = true
         /\ (parent_commit_id row = None ->
             forall c, In c (commits db) ->
                       commit_repository_id c = repositoryId ->
                       parent_commit_id c <> None)
     end.
Proof.
  unfold createCommit, tx_bind, tx_query. cbv beta iota zeta.
  match goal with
  | |- context [match ?q with Ok _ => _ | Throw _ => _ end] =>
      destruct q as [resolved|e] eqn:Hres; [|intros [= <- <-]; auto]
  end.
  match goal with
  | |- context [match ?q with Ok _ => _ | Throw _ => _ end] =>
      destruct q as [[]|e] eqn:Hval; [|intros [= <- <-]; auto]
  end.
  intros H. destruct (insertCommit_inv _ _ _ _ _ _ H) as [Hr [Hb [Hf Hrow]]].
  repeat split; auto.
  destruct r as [row|e]; [|exact Hrow].
  destruct Hrow as [-> [Hcs [Hnew [Hp [Hm Hroot]]]]].
  assert (Eres : resolved = match parentCommitId with
                            | Some given => given
                            | None => defaultBranchHead db repositoryId
                            end).
  { destruct parentCommitId as [given|]; [congruence|].
    destruct (defaultBranchHead db repositoryId); [congruence|].
    destruct (existsb _ (commits db)); [discriminate | congruence]. }
  rewrite <- Eres. simpl. repeat split; auto.
Qed.



Lemma commitInRepository_mono (db db' : DB) (more : list Commit)
    (id : option Uuid) (repositoryId : Uuid) :
  commits db' = commits db ++ more ->
  optCommitInRepository db id repositoryId = true ->
  optCommitInRepository db' id repositoryId = true.
Proof.
  intros Hcs. destruct id as [i|]; simpl; [|auto].
  unfold commitInRepository. rewrite Hcs, existsb_app.
  intros ->. reflexivity.
Qed.

Lemma one_root_rows_snoc (cs : list Commit) (row : Commit) :
  one_root_rows cs = true ->
  (parent_commit_id row = None ->
   forall c, In c cs ->
             commit_repository_id c = commit_repository_id row ->
             parent_commit_id c <> None) ->
  one_root_rows (cs ++ [row]) = true.
Proof.
  induction cs as [|c cs IH]; intros Hok Hroot; simpl.
  - rewrite orb_true_r. reflexivity.
  - simpl in Hok. apply andb_true_iff in Hok. destruct Hok as [Hc Hrest].
    rewrite IH; auto.
    2:{ intros Hn c' Hc' E. apply (Hroot Hn c'); auto. right. exact Hc'. }
    rewrite andb_true_r.
    destruct (isSome (parent_commit_id c)) eqn:Pc; [reflexivity|].
    simpl in *. rewrite existsb_app. apply negb_true_iff in Hc.
    rewrite Hc. simpl. rewrite orb_false_r.
    destruct (isSome (parent_commit_id row)) eqn:Pr;
      [rewrite andb_false_r; reflexivity|].
    destruct (str_eqb (commit_repository_id row) (commit_repository_id c))
      eqn:E; [|reflexivity].
    exfalso. apply str_eqb_eq in E.
    destruct (parent_commit_id row); [discriminate|].
    apply (Hroot eq_refl c); auto.
    destruct (parent_commit_id c); [discriminate | reflexivity].
Qed.

(** X20.  [createCommit] keeps the constraints of [fs.commits]: commit
    identifiers stay distinct and every commit refers to commits created
    before it, the parent and the merged-from commit of every commit
    belong to its repository, and no repository has two commits without
    parent. *)
Theorem createCommit_keeps_constraints (uuidv7 : nat -> Uuid)
    (repositoryId : Uuid) (message : JsString)
    (parentCommitId : option (option Uuid))
    (mergedFromCommitId : option Uuid) (db db' : DB) (r : Result Commit) :
  history_ok db = true ->
  parents_in_repository db = true ->
  one_root_per_repository db = true ->
  createCommit uuidv7 repositoryId message parentCommitId mergedFromCommitId
    db = (r, db') ->
  history_ok db' = true
  /\ parents_in_repository db' = true
  /\ one_root_per_repository db' = true.
Proof.
  intros Hh Hp Ho H.
  split; [exact (createCommit_keeps_history _ _ _ _ _ _ Hh H)|].
  destruct (createCommit_inv _ _ _ _ _ _ H) as [_ [_ [_ Hrow]]].
  destruct r as [row|e].
  - destruct Hrow as [Erow [Hcs [Hnew [Hpar [Hmer Hroot]]]]].
    assert (Hrepo : commit_repository_id row = repositoryId)
      by (rewrite Erow; reflexivity).
    assert (Hmerged : merged_from_commit_id row = mergedFromCommitId)
      by (rewrite Erow; reflexivity).
    split.
    + unfold parents_in_repository in *. rewrite Hcs, forallb_app.
      apply andb_true_iff. split.
      * rewrite forallb_forall in *. intros c Hc.
        specialize (Hp c Hc). apply andb_true_iff in Hp.
        destruct Hp as [P M].
        rewrite (commitInRepository_mono db db' [row] _ _ Hcs P),
          (commitInRepository_mono db db' [row] _ _ Hcs M).
        reflexivity.
      * simpl. rewrite Hrepo, Hmerged.
        rewrite (commitInRepository_mono db db' [row] _ _ Hcs Hpar),
          (commitInRepository_mono db db' [row] _ _ Hcs Hmer).
        reflexivity.
    + unfold one_root_per_repository in *. rewrite Hcs.
      apply one_root_rows_snoc; [exact Ho|].
      intros Hn c Hc E. apply (Hroot Hn c Hc). congruence.
  - unfold parents_in_repository, one_root_per_repository,
      optCommitInRepository, commitInRepository in *.
    rewrite Hrow. auto.
Qed.

Lemma createCommit_keeps_constraints_witness :
  let db := dbAfter crossedHistory in
  history_ok (snd (createCommit seqUuid R1 (js "more")
                     (Some (Some (js "u5"))) (Some (js "u6")) db)) = true
  /\ parents_in_repository
       (snd (createCommit seqUuid R1 (js "more")
               (Some (Some (js "u5"))) (Some (js "u6")) db)) = true
  /\ one_root_per_repository
       (snd (createCommit seqUuid R1 (js "more")
               (Some (Some (js "u5"))) (Some (js "u6")) db)) = true.
Proof.
  intros db.
  apply (@createCommit_keeps_constraints seqUuid R1 (js "more")
           (Some (Some (js "u5"))) (Some (js "u6")) db _
           (fst (createCommit seqUuid R1 (js "more")
                   (Some (Some (js "u5"))) (Some (js "u6")) db)));
    reflexivity.
Defined.

(* ================================================================= *)
(** * What a rebase changes *)

Lemma writeFiles_frame (commitId : Uuid) (inputs : list FileInput)
    (db db' : DB) (r : Result (list FileRow)) :
  writeFiles commitId inputs db = (r, db') ->
  repositories db' = repositories db
  /\ commits db' = commits db
  /\ branches db' = branches db
  /\ exists rows,
       files db' = files db ++ rows
       /\ (forall f, In f rows -> file_commit_id f = commitId)
       /\ (forall entries, r = Ok entries ->
             entries = rows /\ length rows = length inputs).
Proof.
  revert db db' r. induction inputs as [|file rest IH]; intros db db' r.
  - simpl. unfold tx_ret. intros [= <- <-]. repeat split; auto.
    exists []. rewrite app_nil_r. repeat split; auto.
    + intros f [].
    + congruence.
  - cbn [writeFiles]. unfold tx_bind at 1.
    destruct (writeFile commitId (in_path file) (in_content file) _ db)
      as [[entry|e] db1] eqn:Hw.
    + destruct (writeFile_inv _ _ _ _ _ Hw)
        as [[e [? _]]|[row [Hr [Hrow [Hc [Hu ->]]]]]]; [discriminate|].
      injection Hr as <-.
      destruct (fileRowFor_ok _ _ _ _ Hrow) as [Hid _].
      unfold tx_bind.
      match goal with
      | |- context [writeFiles commitId rest ?d] =>
          destruct (writeFiles commitId rest d) as [[entries|e] db2] eqn:Hrest
      end.
      * unfold tx_ret. intros [= <- <-].
        destruct (IH _ _ _ Hrest) as [Hrs [Hcs [Hbs [rows [Hf [Hall Hok]]]]]].
        simpl in *. repeat split; auto.
        exists (entry :: rows). rewrite Hf, <- app_assoc. simpl.
        repeat split; auto.
        -- intros f [<-|Hin]; auto.
        -- injection H as <-. destruct (Hok entries eq_refl) as [-> _].
           reflexivity.
        -- destruct (Hok entries eq_refl) as [_ ->]. reflexivity.
      * intros [= <- <-].
        destruct (IH _ _ _ Hrest) as [Hrs [Hcs [Hbs [rows [Hf [Hall Hok]]]]]].
        simpl in *. repeat split; auto.
        exists (entry :: rows). rewrite Hf, <- app_assoc. simpl.
        repeat split; auto; try discriminate.
        intros f [<-|Hin]; auto.
    + intros [= <- <-].
      destruct (writeFile_inv _ _ _ _ _ Hw)
        as [[e' [_ ->]]|[row [? _]]]; [|discriminate].
      repeat split; auto.
      exists []. rewrite app_nil_r. repeat split; auto; try discriminate.
      intros f [].
Qed.

Section RebaseEffects.

Variable order_by_limit_1 : Limit1.
Variable sql_text_leb : JsString -> JsString -> bool.
Variable localeCompare : JsString -> JsString -> Z.
Variable uuidv7 : nat -> Uuid.

(** The steps of [rebaseBranch] that write, once the patch is known. *)
Lemma replay_inv (repositoryId branchId ontoHead : Uuid)
    (message : JsString) (patch : list FileInput)
    (result : Uuid -> RebaseResult)
    (db db' : DB) (r : Result RebaseResult) :
  (run rebasedCommit <-
     createCommit uuidv7 repositoryId message (Some (Some ontoHead)) None;
   exec writeFiles (commit_id rebasedCommit) patch;
   exec updateBranchHead branchId (commit_id rebasedCommit);
   tx_ret (result (commit_id rebasedCommit)))%tx db = (r, db') ->
  repositories db' = repositories db
  /\ (exists newCommits,
        commits db' = commits db ++ newCommits /\ length newCommits <= 1)
  /\ (exists rows, files db' = files db ++ rows)
  /\ match r with
     | Throw _ => branches db' = branches db
     | Ok res =>
         exists rebased rows,
           res = result (commit_id rebased)
           /\ commits db' = commits db ++ [rebased]
           /\ commitExists db (commit_id rebased) = false
           /\ commit_repository_id rebased = repositoryId
           /\ parent_commit_id rebased = Some ontoHead
           /\ merged_from_commit_id rebased = None
           /\ commit_message rebased = message
           /\ files db' = files db ++ rows
           /\ length rows = length patch
           /\ (forall f, In f rows -> file_commit_id f = commit_id rebased)
           /\ branches db'
              = List.map (setHead branchId (commit_id rebased)) (branches db)
     end.
Proof.
  unfold tx_bind at 1.
  destruct (createCommit uuidv7 repositoryId message _ None db)
    as [[rebased|e] db1] eqn:Hc.
  - destruct (createCommit_inv _ _ _ _ _ _ Hc)
      as [Hr1 [Hb1 [Hf1 [Erow [Hcs1 [Hnew _]]]]]].
    unfold tx_bind at 1.
    destruct (writeFiles (commit_id rebased) patch db1)
      as [[written|e] db2] eqn:Hw.
    + destruct (writeFiles_frame _ _ _ Hw)
        as [Hr2 [Hcs2 [Hb2 [rows [Hf2 [Hall Hok]]]]]].
      destruct (Hok written eq_refl) as [_ Hlen].
      unfold tx_bind at 1.
      destruct (updateBranchHead branchId (commit_id rebased) db2)
        as [[u|e] db3] eqn:Hu.
      * apply updateBranchHead_effect in Hu. subst db3.
        unfold tx_ret. intros [= <- <-]. simpl.
        repeat split; try congruence.
        -- exists [rebased]. split; [congruence | simpl; lia].
        -- exists rows. congruence.
        -- exists rebased, rows.
           repeat split; try congruence; try (rewrite Erow; reflexivity).
           exact Hall.
      * apply updateBranchHead_effect in Hu. subst db3.
        intros [= <- <-].
        repeat split; try congruence.
        -- exists [rebased]. split; [congruence | simpl; lia].
        -- exists rows. congruence.
    + destruct (writeFiles_frame _ _ _ Hw)
        as [Hr2 [Hcs2 [Hb2 [rows [Hf2 _]]]]].
      intros [= <- <-].
      repeat split; try congruence.
      * exists [rebased]. split; [congruence | simpl; lia].
      * exists rows. congruence.
  - destruct (createCommit_inv _ _ _ _ _ _ Hc) as [Hr1 [Hb1 [Hf1 Hcs1]]].
    intros [= <- <-].
    repeat split; try congruence.
    + exists []. rewrite app_nil_r. split; [congruence | simpl; lia].
    + exists []. rewrite app_nil_r. congruence.
Qed.

Lemma tx_query_bind {A B : Type} (q : DB -> Result A) (k : A -> Tx B)
    (db : DB) :
  tx_bind (tx_query q) k db
  = match q db with
    | Ok a => k a db
    | Throw e => (Throw e, db)
    end.
Proof. unfold tx_bind, tx_query. destruct (q db); reflexivity. Qed.

Lemma advance_inv {A : Type} (branchId head : Uuid) (res : A) (db db' : DB)
    (r : Result A) :
  (exec updateBranchHead branchId head; tx_ret res)%tx db = (r, db') ->
  match r with
  | Ok res' =>
      res' = res
      /\ db' = mkDB (repositories db) (commits db)
                 (List.map (setHead branchId head) (branches db))
                 (files db) (uuid_seq db)
  | Throw _ => db' = db
  end.
Proof.
  unfold tx_bind, tx_ret.
  destruct (updateBranchHead branchId head db) as [[u|e] db1] eqn:U;
    apply updateBranchHead_effect in U; intros [= <- <-]; auto.
Qed.

(** The conclusion of the frame theorems when nothing was written. *)
Ltac nothing_written :=
  repeat split; auto;
  try (exists []; rewrite app_nil_r; split; [reflexivity | simpl; lia]);
  try (exists []; rewrite app_nil_r; reflexivity).

(** X21.  [rebaseBranch] only ever adds: whatever its outcome, the
    repositories are unchanged, the commits and file deltas that existed
    are all still there, unchanged and in place, with at most one commit
    added.  When it throws, no branch head has moved, even if the throw
    comes after the replay commit was created; when it reports [noop] or
    [already_up_to_date], the database is exactly as before; otherwise
    the only rows of [fs.branches] that differ are those of the rebased
    branch, whose head is the reported new head. *)
Theorem rebaseBranch_append_only (branchId ontoBranchId : Uuid)
    (message : option JsString) (db db' : DB) (r : Result RebaseResult) :
  rebaseBranch order_by_limit_1 sql_text_leb localeCompare uuidv7 branchId
    ontoBranchId message db = (r, db') ->
  repositories db' = repositories db
  /\ (exists newCommits,
        commits db' = commits db ++ newCommits /\ length newCommits <= 1)
  /\ (exists newFiles, files db' = files db ++ newFiles)
  /\ match r with
     | Throw _ => branches db' = branches db
     | Ok result =>
         match rb_operation result with
         | Noop | AlreadyUpToDate => db' = db
         | FastForward | Rebased =>
             exists head,
               rb_newBranchHeadCommitId result = Some head
               /\ branches db'
                  = List.map (setHead branchId head) (branches db)
         end
     end.
Proof.
  unfold rebaseBranch.
  destruct (jsFalsy branchId || jsFalsy ontoBranchId);
    [intros [= <- <-]; nothing_written|].
  rewrite tx_query_bind.
  destruct (branchById db branchId) as [branchRow|];
    [|intros [= <- <-]; nothing_written].
  rewrite tx_query_bind.
  destruct (branchById db ontoBranchId) as [ontoRow|];
    [|intros [= <- <-]; nothing_written].
  destruct (negb _); [intros [= <- <-]; nothing_written|].
  cbv zeta.
  destruct (str_eqb branchId ontoBranchId);
    [intros [= <- <-]; nothing_written|].
  destruct (truthyId (head_commit_id branchRow)) as [branchHead|];
    [|intros [= <- <-]; nothing_written].
  destruct (truthyId (head_commit_id ontoRow)) as [ontoHead|];
    [|intros [= <- <-]; nothing_written].
  rewrite tx_query_bind.
  destruct (getMergeBase order_by_limit_1 db branchHead ontoHead)
    as [mergeBase|]; [|intros [= <- <-]; nothing_written].
  destruct (str_eqb mergeBase ontoHead);
    [intros [= <- <-]; nothing_written|].
  assert (Hff : forall res,
            rb_operation res = FastForward ->
            rb_newBranchHeadCommitId res = Some ontoHead ->
            (exec updateBranchHead branchId ontoHead; tx_ret res)%tx db
            = (r, db') ->
            repositories db' = repositories db
            /\ (exists newCommits,
                  commits db' = commits db ++ newCommits
                  /\ length newCommits <= 1)
            /\ (exists newFiles, files db' = files db ++ newFiles)
            /\ match r with
               | Throw _ => branches db' = branches db
               | Ok result =>
                   match rb_operation result with
                   | Noop | AlreadyUpToDate => db' = db
                   | FastForward | Rebased =>
                       exists head,
                         rb_newBranchHeadCommitId result = Some head
                         /\ branches db'
                            = List.map (setHead branchId head) (branches db)
                   end
               end).
  { intros res Hop Hhead H. apply advance_inv in H.
    destruct r as [res'|e]; [|subst db'; nothing_written].
    destruct H as [-> ->]. simpl. rewrite Hop. nothing_written.
    exists ontoHead. auto. }
  destruct (str_eqb mergeBase branchHead); [apply Hff; reflexivity|].
  rewrite tx_query_bind.
  destruct (getConflicts order_by_limit_1 sql_text_leb localeCompare db
              branchHead ontoHead) as [conflicts|];
    [|intros [= <- <-]; nothing_written].
  destruct (Nat.ltb 0 (length conflicts));
    [intros [= <- <-]; nothing_written|].
  rewrite tx_query_bind.
  destruct (getCommitSnapshotWithContent order_by_limit_1 sql_text_leb db
              mergeBase None) as [baseSnapshot|];
    [|intros [= <- <-]; nothing_written].
  rewrite tx_query_bind.
  destruct (getCommitSnapshotWithContent order_by_limit_1 sql_text_leb db
              ontoHead None) as [ontoSnapshot|];
    [|intros [= <- <-]; nothing_written].
  rewrite tx_query_bind.
  destruct (getCommitSnapshotWithContent order_by_limit_1 sql_text_leb db
              branchHead None) as [branchSnapshot|];
    [|intros [= <- <-]; nothing_written].
  cbv zeta.
  destruct (Nat.eqb _ 0); [apply Hff; reflexivity|].
  intros H.
  apply (replay_inv (branch_repository_id branchRow) branchId ontoHead
           (match message with Some m => m | None => js "rebase" end)
           (filesToWrite baseSnapshot ontoSnapshot branchSnapshot)
           (fun id =>
              mkRebaseResult Rebased (branch_repository_id branchRow)
                branchId ontoBranchId (Some mergeBase) (Some branchHead)
                (Some ontoHead) (Some id) (Some id)
                (length (filesToWrite baseSnapshot ontoSnapshot
                           branchSnapshot)))) in H.
  destruct H as [Hr [Hc [Hf Hres]]]. repeat split; auto.
  destruct r as [res|e]; [|exact Hres].
  destruct Hres as [rebased [rows [-> [_ [_ [_ [_ [_ [_ [_ [_ [_ Hb]]]]]]]]]]]].
  simpl. exists (commit_id rebased). auto.
Qed.



End RebaseEffects.

Lemma rebaseBranch_append_only_witness :
  let db := dbAfter conflictHistory in
  let out := rebaseBranch first_least codeUnitLeb codeUnitCompare seqUuid
               (js "u3") (js "main") None db in
  repositories (snd out) = repositories db
  /\ (exists newCommits,
        commits (snd out) = commits db ++ newCommits
        /\ length newCommits <= 1)
  /\ (exists newFiles, files (snd out) = files db ++ newFiles)
  /\ branches (snd out) = branches db.
Proof.
  intros db out.
  apply (@rebaseBranch_append_only first_least codeUnitLeb codeUnitCompare
           seqUuid (js "u3") (js "main") None db (snd out)
           (Throw (RebaseBlocked 1 (js "u1") (js "u2")))).
  vm_compute. reflexivity.
Defined.


(* ================================================================= *)
(** * What finalising a commit changes *)

Lemma applyChanges_frame (commitId : Uuid)
    (baseSnapshot targetSnapshot sourceSnapshot :
       list SnapshotEntryWithContent)
    (userWritePaths allPaths : list JsString) :
  forall (count : nat) (db db' : DB) (r : Result nat),
    applyChanges commitId baseSnapshot targetSnapshot sourceSnapshot
      userWritePaths allPaths count db = (r, db') ->
    repositories db' = repositories db
    /\ commits db' = commits db
    /\ branches db' = branches db
    /\ exists rows,
         files db' = files db ++ rows
         /\ (forall f, In f rows -> file_commit_id f = commitId)
         /\ (forall n, r = Ok n -> n = count + length rows).
Proof.
  induction allPaths as [|p rest IH]; intros count db db' r.
  - simpl. unfold tx_ret. intros [= <- <-]. repeat split; auto.
    exists []. rewrite app_nil_r. repeat split; auto.
    + intros f [].
    + intros n [= <-]. simpl. lia.
  - cbn [applyChanges]. cbv zeta.
    assert (Hwrite : forall text options,
              (exec writeFile commitId p text options;
               applyChanges commitId baseSnapshot targetSnapshot
                 sourceSnapshot userWritePaths rest (S count))%tx db
              = (r, db') ->
              repositories db' = repositories db
              /\ commits db' = commits db
              /\ branches db' = branches db
              /\ exists rows,
                   files db' = files db ++ rows
                   /\ (forall f, In f rows -> file_commit_id f = commitId)
                   /\ (forall n, r = Ok n -> n = count + length rows)).
    { intros text options. unfold tx_bind.
      destruct (writeFile commitId p text options db) as [[row|e] db1] eqn:Hw.
      - destruct (writeFile_inv _ _ _ _ _ Hw)
          as [[e [? _]]|[row' [Hr [Hrow [Hc [Hu ->]]]]]]; [discriminate|].
        injection Hr as <-.
        destruct (fileRowFor_ok _ _ _ _ Hrow) as [Hid _].
        intros H. destruct (IH _ _ _ _ H)
          as [Hrs [Hcs [Hbs [rows [Hf [Hall Hn]]]]]].
        simpl in *. repeat split; auto.
        exists (row :: rows). rewrite Hf, <- app_assoc. simpl.
        repeat split; auto.
        + intros f [<-|Hin]; auto.
        + intros n Hr. rewrite (Hn n Hr). lia.
      - destruct (writeFile_inv _ _ _ _ _ Hw)
          as [[e' [_ ->]]|[row [? _]]]; [|discriminate].
        intros [= <- <-]. repeat split; auto.
        exists []. rewrite app_nil_r. repeat split; auto.
        + intros f [].
        + discriminate. }
    destruct (setHas userWritePaths p); [apply IH|].
    destruct (changeFor _ _ _); [apply IH | apply Hwrite | apply Hwrite].
Qed.

Lemma finalize_advance_inv {A : Type} (target : option Uuid)
    (commitId : Uuid) (res : A) (db db' : DB) (r : Result A) :
  (exec match target with
        | Some branchId => updateBranchHead branchId commitId
        | None => tx_ret tt
        end;
   tx_ret res)%tx db = (r, db') ->
  repositories db' = repositories db
  /\ commits db' = commits db
  /\ files db' = files db
  /\ match r with
     | Ok res' =>
         res' = res
         /\ branches db'
            = match target with
              | Some branchId =>
                  List.map (setHead branchId commitId) (branches db)
              | None => branches db
              end
     | Throw _ => branches db' = branches db
     end.
Proof.
  destruct target as [branchId|].
  - intros H. apply advance_inv in H. destruct r as [res'|e].
    + destruct H as [-> ->]. auto.
    + subst db'. auto.
  - unfold tx_bind, tx_ret. intros [= <- <-]. auto.
Qed.

Section FinalizeEffects.

Variable order_by_limit_1 : Limit1.
Variable sql_text_leb : JsString -> JsString -> bool.
Variable localeCompare : JsString -> JsString -> Z.

Ltac no_change :=
  repeat split; auto;
  try (exists []; rewrite app_nil_r; repeat split; auto;
       intros ? []).

(** X23.  [finalizeCommit] never touches repositories or commits, and
    only adds file deltas, all recorded against the commit being
    finalised and as many as the applied-file count it reports.  When it
    throws, no branch head has moved, even if deltas were already added;
    when it succeeds, the head of the target branch, and of no other
    branch, is the finalised commit, and without a target branch no head
    changes.  A commit without merged-from commit is fast-forwarded
    without any delta being added. *)
Theorem finalizeCommit_effect (commitId : Uuid)
    (targetBranchId : option Uuid) (db db' : DB)
    (r : Result FinalizeResult) :
  finalizeCommit order_by_limit_1 sql_text_leb localeCompare commitId
    targetBranchId db = (r, db') ->
  repositories db' = repositories db
  /\ commits db' = commits db
  /\ exists rows,
       files db' = files db ++ rows
       /\ (forall f, In f rows -> file_commit_id f = commitId)
       /\ match r with
          | Throw _ => branches db' = branches db
          | Ok result =>
              fin_appliedFileCount result = length rows
              /\ fin_mergeCommitId result = commitId
              /\ (fin_operation result = FinalizeFastForward -> rows = [])
              /\ match truthyId targetBranchId with
                 | Some branchId =>
                     branches db'
                     = List.map (setHead branchId commitId) (branches db)
                     /\ fin_newTargetHeadCommitId result = Some commitId
                 | None =>
                     branches db' = branches db
                     /\ fin_newTargetHeadCommitId result = None
                 end
          end.
Proof.
  unfold finalizeCommit.
  destruct (jsFalsy commitId); [intros [= <- <-]; no_change|].
  rewrite tx_query_bind.
  destruct (find _ (commits db)) as [mergeCommitRow|];
    [|intros [= <- <-]; no_change].
  cbv zeta.
  rewrite tx_query_bind.
  destruct (targetHeadFor db _ _ (truthyId targetBranchId))
    as [branchHeadCommitId|]; [|intros [= <- <-]; no_change].
  destruct (merged_from_commit_id mergeCommitRow) as [sourceCommitId|].
  - rewrite tx_query_bind.
    destruct (getMergeBase order_by_limit_1 db _ sourceCommitId)
      as [mergeBaseCommitId|]; [|intros [= <- <-]; no_change].
    rewrite tx_query_bind.
    destruct (getConflicts order_by_limit_1 sql_text_leb localeCompare db _
                sourceCommitId) as [conflicts|];
      [|intros [= <- <-]; no_change].
    rewrite tx_query_bind.
    destruct (Nat.ltb 0 (length (if Nat.ltb 0 (length conflicts)
                                 then missingResolutions db commitId conflicts
                                 else [])));
      [intros [= <- <-]; no_change|].
    rewrite tx_query_bind.
    destruct (getCommitSnapshotWithContent order_by_limit_1 sql_text_leb db
                mergeBaseCommitId None) as [baseSnapshot|];
      [|intros [= <- <-]; no_change].
    rewrite tx_query_bind.
    destruct (getCommitSnapshotWithContent order_by_limit_1 sql_text_leb db
                _ None) as [targetSnapshot|];
      [|intros [= <- <-]; no_change].
    rewrite tx_query_bind.
    destruct (getCommitSnapshotWithContent order_by_limit_1 sql_text_leb db
                sourceCommitId None) as [sourceSnapshot|];
      [|intros [= <- <-]; no_change].
    rewrite tx_query_bind. cbv zeta.
    unfold tx_bind at 1.
    destruct (applyChanges commitId baseSnapshot targetSnapshot
                sourceSnapshot _ _ 0 db) as [[count|e] db1] eqn:Ha.
    + destruct (applyChanges_frame _ _ _ _ _ _ _ _ Ha)
        as [Hrs [Hcs [Hbs [rows [Hf [Hall Hn]]]]]].
      specialize (Hn count eq_refl). simpl in Hn. subst count.
      intros H. apply finalize_advance_inv in H.
      destruct H as [Hr2 [Hc2 [Hf2 Hres]]].
      repeat split; try congruence.
      exists rows. split; [congruence|]. split; [exact Hall|].
      destruct r as [result|e].
      * destruct Hres as [-> Hb]. simpl. repeat split; auto.
        -- destruct (str_eqb mergeBaseCommitId sourceCommitId);
             [discriminate|].
           destruct (Nat.ltb 0 (length conflicts)); discriminate.
        -- destruct (truthyId targetBranchId); split; congruence.
      * congruence.
    + destruct (applyChanges_frame _ _ _ _ _ _ _ _ Ha)
        as [Hrs [Hcs [Hbs [rows [Hf [Hall Hn]]]]]].
      intros [= <- <-]. repeat split; auto.
      exists rows. auto.
  - intros H. apply finalize_advance_inv in H.
    destruct H as [Hr2 [Hc2 [Hf2 Hres]]].
    repeat split; auto.
    exists []. rewrite app_nil_r. repeat split; auto.
    + intros f [].
    + destruct r as [result|e]; [|exact Hres].
      destruct Hres as [-> Hb]. simpl. repeat split; auto.
      destruct (truthyId targetBranchId); split; auto.
Qed.

End FinalizeEffects.

Lemma finalizeCommit_effect_witness :
  let db := dbAfter (exec divergedHistory;
                     createCommit seqUuid R1 (js "merge")
                       (Some (Some (js "u2"))) (Some (js "u1")))%tx in
  let out := finalizeCommit first_least codeUnitLeb codeUnitCompare (js "u4")
               (Some (js "main")) db in
  repositories (snd out) = repositories db
  /\ commits (snd out) = commits db
  /\ exists rows,
       files (snd out) = files db ++ rows
       /\ (forall f, In f rows -> file_commit_id f = (js "u4"))
       /\ match fst out with
          | Throw _ => branches (snd out) = branches db
          | Ok result =>
              fin_appliedFileCount result = length rows
              /\ fin_mergeCommitId result = (js "u4")
              /\ (fin_operation result = FinalizeFastForward -> rows = [])
              /\ match truthyId (Some (js "main")) with
                 | Some branchId =>
                     branches (snd out)
                     = List.map (setHead branchId (js "u4")) (branches db)
                     /\ fin_newTargetHeadCommitId result = Some (js "u4")
                 | None =>
                     branches (snd out) = branches db
                     /\ fin_newTargetHeadCommitId result = None
                 end
          end.
Proof.
  intros db out.
  apply (@finalizeCommit_effect first_least codeUnitLeb codeUnitCompare
           (js "u4") (Some (js "main")) db (snd out) (fst out)).
  vm_compute. reflexivity.
Defined.

(* ================================================================= *)
(** * Repositories and branches *)

Lemma map_id_when {A : Type} (g : A -> A) (l : list A) :
  (forall x, In x l -> g x = x) -> List.map g l = l.
Proof.
  induction l as [|x l IH]; simpl; intros H; [reflexivity|].
  rewrite (H x), IH; auto.
Qed.

Lemma insertBranch_inv (uuidv7 : nat -> Uuid) (repositoryId : Uuid)
    (name : JsString) (headCommitId : option Uuid) (db db' : DB)
    (r : Result Branch) :
  insertBranch uuidv7 repositoryId name headCommitId db = (r, db') ->
  repositories db' = repositories db
  /\ commits db' = commits db
  /\ files db' = files db
  /\ match r with
     | Throw _ => branches db' = branches db
     | Ok row =>
         row = mkBranch (uuidv7 (uuid_seq db)) repositoryId name headCommitId
         /\ uuid_seq db' = S (uuid_seq db)
         /\ branches db' = branches db ++ [row]
         /\ existsb (fun b => str_eqb (branch_id b) (branch_id row))
              (branches db) = false
         /\ existsb (fun b => str_eqb (branch_repository_id b) repositoryId
                              && str_eqb (branch_name b) name)
              (branches db) = false
         /\ optCommitInRepository db headCommitId repositoryId = true
     end.
Proof.
  unfold insertBranch.
  destruct (existsb _ (branches db)) eqn:Pk; [intros [= <- <-]; auto|].
  destruct (negb (existsb _ (repositories db)));
    [intros [= <- <-]; auto|].
  destruct (existsb (fun b => str_eqb (branch_repository_id b) repositoryId
                              && str_eqb (branch_name b) name) (branches db))
    eqn:Un; [intros [= <- <-]; auto|].
  destruct (optCommitInRepository db headCommitId repositoryId) eqn:Fk;
    intros [= <- <-]; simpl; auto 10.
Qed.




Lemma insertRepository_inv (uuidv7 : nat -> Uuid) (name : JsString)
    (db db' : DB) (r : Result Repository) :
  insertRepository uuidv7 name db = (r, db') ->
  commits db' = commits db
  /\ branches db' = branches db
  /\ files db' = files db
  /\ match r with
     | Throw _ =>
         repositories db' = repositories db
     | Ok row =>
         row = mkRepository (uuidv7 (uuid_seq db)) name None
         /\ repositories db' = repositories db ++ [row]
         /\ existsb (fun x => str_eqb (repo_id x) (repo_id row))
              (repositories db) = false
         /\ existsb (fun x => str_eqb (repo_name x) name) (repositories db)
            = false
     end.
Proof.
  unfold insertRepository.
  destruct (existsb _ (repositories db)) eqn:Pk; [intros [= <- <-]; auto|].
  destruct (existsb (fun x => str_eqb (repo_name x) name) (repositories db))
    eqn:Un; intros [= <- <-]; simpl; auto 10.
Qed.

Lemma setDefaultBranch_inv (repositoryId branchId : Uuid) (db db' : DB)
    (r : Result unit) :
  setDefaultBranch repositoryId branchId db = (r, db') ->
  match r with
  | Ok _ =>
      db' = mkDB (List.map (setDefault repositoryId branchId)
                    (repositories db))
              (commits db) (branches db) (files db) (uuid_seq db)
  | Throw _ => db' = db
  end.
Proof.
  unfold setDefaultBranch. destruct (_ && _); intros [= <- <-]; reflexivity.
Qed.

Lemma createRepository_inv (uuidv7 : nat -> Uuid) (name : JsString)
    (db db' : DB) (r : Result Repository) :
  createRepository uuidv7 name db = (r, db') ->
  commits db' = commits db
  /\ files db' = files db
  /\ (getRepository db name <> None ->
      exists e, r = Throw e
                /\ repositories db' = repositories db
                /\ branches db' = branches db)
  /\ forall repository, r = Ok repository ->
       exists branchId,
         repo_name repository = name
         /\ default_branch_id repository = Some branchId
         /\ getRepository db name = None
         /\ repositories db' = repositories db ++ [repository]
         /\ branches db'
            = branches db
              ++ [mkBranch branchId (repo_id repository) (js "main") None]
         /\ getRepository db' name = Some repository
         /\ getRepositoryById db' (repo_id repository) = Some repository
         /\ getBranch db' (repo_id repository) (js "main")
            = Some (mkBranch branchId (repo_id repository) (js "main") None)
         /\ getBranchById db' branchId
            = Some (mkBranch branchId (repo_id repository) (js "main") None).
Proof.
  unfold createRepository. unfold tx_bind at 1.
  destruct (insertRepository uuidv7 name db) as [[repoRow|e] db1] eqn:Hr.
  2:{ destruct (insertRepository_inv _ _ _ Hr) as [Hc [Hb [Hf Hrs]]].
      intros [= <- <-]. repeat split; auto; [|discriminate].
      intros _. exists e. auto. }
  destruct (insertRepository_inv _ _ _ Hr)
    as [Hc1 [Hb1 [Hf1 [Erow [Hrs1 [Hpk Hun]]]]]].
  assert (Hfree : getRepository db name = None)
    by (apply find_none_existsb; exact Hun).
  cbv zeta. unfold tx_bind at 1.
  destruct (insertBranch uuidv7 (repo_id repoRow) (js "main") None db1)
    as [[branchRow|e] db2] eqn:Hbr.
  2:{ destruct (insertBranch_inv _ _ _ _ _ Hbr) as [Hr2 [Hc2 [Hf2 Hb2]]].
      intros [= <- <-]. repeat split; try congruence. }
  destruct (insertBranch_inv _ _ _ _ _ Hbr)
    as [Hr2 [Hc2 [Hf2 [Ebranch [_ [Hb2 [Hbpk [Hbun _]]]]]]]].
  unfold tx_bind at 1.
  destruct (setDefaultBranch (repo_id repoRow) (branch_id branchRow) db2)
    as [[u|e] db3] eqn:Hd; apply setDefaultBranch_inv in Hd; subst db3.
  2:{ intros [= <- <-]. repeat split; try congruence. }
  unfold tx_ret. intros [= <- <-]. simpl.
  repeat split; try congruence.
  intros repository [= <-].
  set (repository := mkRepository (repo_id repoRow) (repo_name repoRow)
                       (Some (branch_id branchRow))).
  assert (Hrepos : List.map (setDefault (repo_id repoRow) (branch_id branchRow))
                     (repositories db2)
                   = repositories db ++ [repository]).
  { rewrite Hr2, Hrs1, map_app. simpl. f_equal.
    - apply map_id_when. intros x Hx. unfold setDefault.
      destruct (str_eqb (repo_id x) (repo_id repoRow)) eqn:E; [|reflexivity].
      exfalso.
      assert (X : existsb (fun x0 => str_eqb (repo_id x0) (repo_id repoRow))
                    (repositories db) = true); [|congruence].
      apply existsb_exists. exists x. auto.
    - unfold setDefault. rewrite str_eqb_refl. reflexivity. }
  assert (Hname : repo_name repoRow = name) by (rewrite Erow; reflexivity).
  assert (Hbranch : branchRow
                    = mkBranch (branch_id branchRow) (repo_id repoRow)
                        (js "main") None)
    by (rewrite Ebranch; reflexivity).
  exists (branch_id branchRow). simpl.
  rewrite Hrepos, Hb2, Hb1, <- Hbranch.
  repeat split; auto.
  - unfold getRepository. simpl.
    apply find_snoc_new; [exact Hun|]. simpl. rewrite Hname.
    apply str_eqb_refl.
  - unfold getRepositoryById. simpl.
    apply find_snoc_new; [exact Hpk|]. simpl. apply str_eqb_refl.
  - unfold getBranch. simpl.
    apply find_snoc_new; [rewrite <- Hb1; exact Hbun|].
    rewrite Hbranch. simpl. rewrite !str_eqb_refl. reflexivity.
  - unfold getBranchById, branchById. simpl.
    apply find_snoc_new; [rewrite <- Hb1; exact Hbpk|]. apply str_eqb_refl.
Qed.



(* ================================================================= *)
(** * Committing to a branch and reading the commit back *)

Lemma fileRowFor_previous (commitId : Uuid) (p : JsString)
    (text : option JsString) (options : WriteOptions) (row : FileRow) :
  fileRowFor commitId p text options = Ok row ->
  opt_previousPath options = None ->
  previous_path row = None.
Proof.
  unfold fileRowFor, rbind. intros H Hprev. rewrite Hprev in H.
  destruct (normalizeFilePath p) as [np|e]; [|discriminate].
  cbv zeta in H.
  match type of H with
  | match ?q with Ok _ => _ | Throw _ => _ end = _ =>
      destruct q as [state|e]; [|discriminate]
  end.
  destruct (storedText (snd state)); [|discriminate].
  injection H as <-. reflexivity.
Qed.

Lemma writeFiles_rows (commitId : Uuid) (inputs : list FileInput) :
  forall (db db' : DB) (entries : list FileRow),
    writeFiles commitId inputs db = (Ok entries, db') ->
    Forall2 (rowOf commitId) inputs entries
    /\ files db' = files db ++ entries
    /\ commits db' = commits db
    /\ (files_unique db = true -> files_unique db' = true).
Proof.
  induction inputs as [|file rest IH]; intros db db' entries.
  - simpl. unfold tx_ret. intros [= <- <-]. rewrite app_nil_r.
    repeat split; auto.
  - cbn [writeFiles]. unfold tx_bind at 1.
    destruct (writeFile commitId (in_path file) (in_content file) _ db)
      as [[entry|e] db1] eqn:Hw; [|discriminate].
    pose proof (fun Hu => writeFile_keeps_unique _ _ _ _ _ Hu Hw) as Hkeep.
    destruct (writeFile_inv _ _ _ _ _ Hw)
      as [[e [? _]]|[row [Hr [Hrow [Hc [Hu ->]]]]]]; [discriminate|].
    injection Hr as <-.
    unfold tx_bind.
    match goal with
    | |- context [writeFiles commitId rest ?d] =>
        destruct (writeFiles commitId rest d) as [[written|e] db2] eqn:Hrest;
          [|discriminate]
    end.
    unfold tx_ret. intros [= <- <-].
    destruct (IH _ _ _ Hrest) as [Hall [Hf [Hcs Hun]]].
    split; [constructor; [exact Hrow | exact Hall]|].
    split; [rewrite Hf; simpl; rewrite <- app_assoc; reflexivity|].
    split; [exact Hcs|].
    intros Hu0. apply Hun, Hkeep, Hu0.
Qed.

Lemma Forall2_In_left {A B : Type} (R : A -> B -> Prop) (l : list A)
    (l' : list B) (x : A) :
  Forall2 R l l' -> In x l -> exists y, In y l' /\ R x y.
Proof.
  induction 1 as [|a b l l' Hab Hrest IH]; intros Hin; [destruct Hin|].
  destruct Hin as [<-|Hin].
  - exists b. split; [left; reflexivity | exact Hab].
  - destruct (IH Hin) as [y [Hy Hxy]]. exists y. split; [right|]; assumption.
Qed.

Lemma Forall2_In_right {A B : Type} (R : A -> B -> Prop) (l : list A)
    (l' : list B) (y : B) :
  Forall2 R l l' -> In y l' -> exists x, In x l /\ R x y.
Proof.
  induction 1 as [|a b l l' Hab Hrest IH]; intros Hin; [destruct Hin|].
  destruct Hin as [<-|Hin].
  - exists a. split; [left; reflexivity | exact Hab].
  - destruct (IH Hin) as [x [Hx Hxy]]. exists x. split; [right|]; assumption.
Qed.

Lemma readFile_depends (order_by_limit_1 : Limit1) (db1 db2 : DB)
    (commitId : Uuid) (p : JsString) :
  commits db1 = commits db2 ->
  files db1 = files db2 ->
  readFile order_by_limit_1 db1 commitId p
  = readFile order_by_limit_1 db2 commitId p.
Proof.
  destruct db1 as [r1 c1 b1 f1 u1], db2 as [r2 c2 b2 f2 u2]. simpl.
  intros -> ->. reflexivity.
Qed.

Lemma find_setHead (branchId head : Uuid) (bs : list Branch) (b : Branch) :
  find (fun x => str_eqb (branch_id x) branchId) bs = Some b ->
  find (fun x => str_eqb (branch_id x) branchId)
    (List.map (setHead branchId head) bs)
  = Some (mkBranch (branch_id b) (branch_repository_id b) (branch_name b)
            (Some head)).
Proof.
  induction bs as [|x bs IH]; simpl; [discriminate|].
  destruct (str_eqb (branch_id x) branchId) eqn:E.
  - intros [= <-]. unfold setHead. rewrite E. simpl. rewrite E.
    reflexivity.
  - unfold setHead at 1. rewrite E, E. exact IH.
Qed.

Section CommitAndRead.

Variable order_by_limit_1 : Limit1.
Hypothesis Hlimit : admissible order_by_limit_1.

(** Every file written into a commit that had no delta before is read
    back from it: a tombstone as absent, a plain file with its text as
    the database encodes it. *)
Lemma written_files_read_back (commitId : Uuid) (inputs : list FileInput)
    (db db' : DB) (entries : list FileRow) :
  history_ok db = true ->
  files_unique db = true ->
  jsFalsy commitId = false ->
  commitExists db commitId = true ->
  (forall f, In f (files db) -> file_commit_id f <> commitId) ->
  writeFiles commitId inputs db = (Ok entries, db') ->
  (forall i, In i inputs -> in_previousPath i = None) ->
  forall input, In input inputs ->
    if orFalse (in_isDeleted input)
    then readFile order_by_limit_1 db' commitId (in_path input) = Ok None
    else orFalse (in_isSymlink input) = false ->
         forall text, in_content input = Some text ->
           existsb (N.eqb 0) text = false
           /\ readFile order_by_limit_1 db' commitId (in_path input)
              = Ok (Some (toWellFormed text)).
Proof.
  intros Hh Hu Hf He Hfresh Hw Hprev input Hin.
  destruct (writeFiles_rows _ _ _ Hw) as [Hall [Hfiles [Hcs Hun]]].
  specialize (Hun Hu).
  assert (Hh' : history_ok db' = true)
    by (unfold history_ok; rewrite Hcs; exact Hh).
  assert (He' : commitExists db' commitId = true)
    by (unfold commitExists; rewrite Hcs; exact He).
  destruct (Forall2_In_left _ Hall Hin) as [row [Hrow Hof]].
  unfold rowOf in Hof.
  destruct (fileRowFor_ok _ _ _ _ Hof) as [Hid [Hp [Hdel [_ Hbody]]]].
  destruct (normalizeFilePath_ok _ Hp) as [Hn _].
  assert (Hrow' : In row (files db'))
    by (rewrite Hfiles; apply in_or_app; right; exact Hrow).
  simpl in Hdel.
  destruct (orFalse (in_isDeleted input)) eqn:D.
  - apply (@own_tombstone_read order_by_limit_1 Hlimit db' commitId
             (in_path input) (path row) row); auto.
  - intros Hsym text Htext.
    destruct (Hbody Hdel) as [body [Eb Hb]]. simpl in Hb.
    rewrite Hsym in Hb. destruct Hb as [_ Hc].
    assert (body = text) by congruence. subst body.
    destruct (storedText_ok _ Hc) as [Hnul Hstored].
    split; [exact Hnul|]. rewrite <- Hstored.
    apply (@own_write_read order_by_limit_1 Hlimit db' commitId
             (in_path input) (path row) row); auto.
    intros g Hg Hgc Hgp. exfalso.
    rewrite Hfiles in Hg. apply in_app_or in Hg. destruct Hg as [Hg|Hg].
    + apply (Hfresh g Hg Hgc).
    + destruct (Forall2_In_right _ Hall Hg) as [i [Hi Hgi]].
      unfold rowOf in Hgi.
      rewrite (fileRowFor_previous _ _ _ _ Hgi) in Hgp; [discriminate|].
      simpl. apply Hprev, Hi.
Qed.

End CommitAndRead.

Lemma fresh_commit_has_no_files (db : DB) (id : Uuid) :
  files_have_commits db = true ->
  commitExists db id = false ->
  forall f, In f (files db) -> file_commit_id f <> id.
Proof.
  intros Hfk Hnew f Hf E. unfold files_have_commits in Hfk.
  rewrite forallb_forall in Hfk. specialize (Hfk f Hf).
  rewrite E in Hfk. congruence.
Qed.

Lemma commitExists_snoc (db db' : DB) (row : Commit) :
  commits db' = commits db ++ [row] ->
  commitExists db' (commit_id row) = true.
Proof.
  intros Hcs. unfold commitExists. rewrite Hcs, existsb_app. simpl.
  rewrite str_eqb_refl. apply orb_true_r.
Qed.

Section Convenience.

Variable order_by_limit_1 : Limit1.
Hypothesis Hlimit : admissible order_by_limit_1.
Variable uuidv7 : nat -> Uuid.

(** X26.  When [commitToBranch] succeeds, it has added exactly one
    commit, whose parent is the head the branch had (none for an empty
    branch) and which has no merged-from commit, and one file delta for
    each file given; the head of the branch, and of no other branch, is
    the new commit, and the branch returned is the branch with that head.
    When no file given carries a previous path, every file given is read
    back from the new commit: a deleted one as absent, a plain one with
    the text given as the database encodes it, every surrogate without
    its partner replaced by U+FFFD, and so with the text given when that
    is well formed; no text written held a NUL.  The message and the
    paths are taken to be text the database stores as it is given. *)
Theorem commitToBranch_effect (branchId : Uuid) (message : JsString)
    (inputs : list FileInput) (db db' : DB) (commit : Commit)
    (updated : option Branch) :
  history_ok db = true ->
  files_unique db = true ->
  files_have_commits db = true ->
  jsFalsy (commit_id commit) = false ->
  storedAsGiven message = true ->
  forallb pathsStoredAsGiven inputs = true ->
  commitToBranch uuidv7 branchId message inputs db
  = (Done (commit, updated), db') ->
  exists branch rows,
    getBranchById db branchId = Some branch
    /\ repositories db' = repositories db
    /\ commits db' = commits db ++ [commit]
    /\ commit_repository_id commit = branch_repository_id branch
    /\ parent_commit_id commit = head_commit_id branch
    /\ merged_from_commit_id commit = None
    /\ commit_message commit = message
    /\ files db' = files db ++ rows
    /\ Forall2 (rowOf (commit_id commit)) inputs rows
    /\ branches db'
       = List.map (setHead branchId (commit_id commit)) (branches db)
    /\ updated
       = Some (mkBranch (branch_id branch) (branch_repository_id branch)
                 (branch_name branch) (Some (commit_id commit)))
    /\ ((forall i, In i inputs -> in_previousPath i = None) ->
        forall input, In input inputs ->
          if orFalse (in_isDeleted input)
          then readFile order_by_limit_1 db' (commit_id commit)
                 (in_path input) = Ok None
          else orFalse (in_isSymlink input) = false ->
               forall text, in_content input = Some text ->
                 existsb (N.eqb 0) text = false
                 /\ readFile order_by_limit_1 db' (commit_id commit)
                      (in_path input) = Ok (Some (toWellFormed text))
                 /\ (isWellFormed text = true ->
                     readFile order_by_limit_1 db' (commit_id commit)
                       (in_path input) = Ok (Some text))).
Proof.
  intros Hh Hu Hfk Hid _ _.
  unfold commitToBranch, script_bind, foundBranch, call.
  destruct (getBranchById db branchId) as [branch|] eqn:Hb; [|discriminate].
  destruct (createCommit uuidv7 (branch_repository_id branch) message _ None
              db) as [[created|e] db1] eqn:Hc; [|discriminate].
  pose proof (createCommit_keeps_history _ _ _ _ _ _ Hh Hc) as Hh1.
  destruct (createCommit_inv _ _ _ _ _ _ Hc)
    as [Hr1 [Hb1 [Hf1 [Erow [Hcs1 [Hnew _]]]]]].
  destruct (writeFiles (commit_id created) inputs db1)
    as [[written|e] db2] eqn:Hw; [|discriminate].
  destruct (writeFiles_frame _ _ _ Hw) as [Hr2 [_ [Hb2 _]]].
  destruct (writeFiles_rows _ _ _ Hw) as [Hall [Hf2 [Hcs2 _]]].
  destruct (updateBranchHead branchId (commit_id created) db2)
    as [[u|e] db3] eqn:Hup; [|discriminate].
  apply updateBranchHead_effect in Hup. subst db3.
  intros [= <- <- <-].
  exists branch, written. simpl.
  repeat split; try congruence; try (rewrite Erow; reflexivity).
  - rewrite Hb2, Hb1. unfold getBranchById, branchById in *.
    apply find_setHead. exact Hb.
  - intros Hprev input Hin.
    assert (Hu1 : files_unique db1 = true)
      by (unfold files_unique; rewrite Hf1; exact Hu).
    assert (Hfresh : forall f, In f (files db1) ->
                               file_commit_id f <> commit_id created).
    { rewrite Hf1. apply fresh_commit_has_no_files; assumption. }
    pose proof (@written_files_read_back order_by_limit_1 Hlimit
                  (commit_id created) inputs db1 db2 written Hh1 Hu1 Hid
                  (@commitExists_snoc db db1 created Hcs1) Hfresh Hw Hprev
                  input Hin)
      as Hread.
    set (db3 := mkDB (repositories db2) (commits db2)
                  (List.map (setHead branchId (commit_id created))
                     (branches db2))
                  (files db2) (uuid_seq db2)).
    rewrite (readFile_depends order_by_limit_1 db3 db2
               (commit_id created) (in_path input) eq_refl eq_refl).
    destruct (orFalse (in_isDeleted input)); [exact Hread|].
    intros Hsym text Htext.
    destruct (Hread Hsym text Htext) as [Hnul Hback].
    repeat split; auto.
    intros Hwf. rewrite Hback, (toWellFormed_fixed _ Hwf). reflexivity.
Qed.

(** X27.  When [initRepository] succeeds, it has added one repository
    with the given, so far unused name, its default branch [main], and
    one commit without parent in that repository, with the given message
    or [Initial commit]; the head of [main] is that commit, and the
    repository and branch returned are the rows as they are afterwards.
    One file delta was added for each file given, and when no file given
    carries a previous path, every file given is read back from the
    commit with the text given as the database encodes it, every
    surrogate without its partner replaced by U+FFFD, and so with the
    text given when that is well formed; no text written held a NUL.
    The deletion and symlink flags of the input are overridden.  The
    name, the message and the paths are taken to be text the database
    stores as it is given. *)
Theorem initRepository_effect (repoName : JsString)
    (inputs : list FileInput) (commitMessage : option JsString)
    (db db' : DB) (repository : option Repository) (branch : option Branch)
    (commit : Commit) :
  history_ok db = true ->
  files_unique db = true ->
  files_have_commits db = true ->
  jsFalsy (commit_id commit) = false ->
  storedAsGiven repoName = true ->
  storedAsGiven (match commitMessage with
                 | Some m => m
                 | None => js "Initial commit"
                 end) = true ->
  forallb pathsStoredAsGiven inputs = true ->
  initRepository uuidv7 repoName inputs commitMessage db
  = (Done (repository, branch, commit), db') ->
  exists repo branchId rows,
    repository = Some repo
    /\ repo_name repo = repoName
    /\ default_branch_id repo = Some branchId
    /\ getRepository db repoName = None
    /\ branch = Some (mkBranch branchId (repo_id repo) (js "main")
                       (Some (commit_id commit)))
    /\ repositories db' = repositories db ++ [repo]
    /\ branches db'
       = List.map (setHead branchId (commit_id commit))
           (branches db ++ [mkBranch branchId (repo_id repo) (js "main") None])
    /\ commits db' = commits db ++ [commit]
    /\ commit_repository_id commit = repo_id repo
    /\ parent_commit_id commit = None
    /\ merged_from_commit_id commit = None
    /\ commit_message commit
       = match commitMessage with
         | Some m => m
         | None => js "Initial commit"
         end
    /\ files db' = files db ++ rows
    /\ length rows = length inputs
    /\ ((forall i, In i inputs -> in_previousPath i = None) ->
        forall input, In input inputs ->
        forall text, in_content input = Some text ->
          existsb (N.eqb 0) text = false
          /\ readFile order_by_limit_1 db' (commit_id commit)
               (in_path input) = Ok (Some (toWellFormed text))
          /\ (isWellFormed text = true ->
              readFile order_by_limit_1 db' (commit_id commit)
                (in_path input) = Ok (Some text))).
Proof.
  intros Hh Hu Hfk Hid _ _ _.
  unfold initRepository, script_bind, call.
  destruct (createRepository uuidv7 repoName db) as [[repo|e] db0] eqn:Hr;
    [|discriminate].
  destruct (createRepository_inv _ _ _ Hr) as [Hc0 [Hf0 [_ Hok]]].
  destruct (Hok repo eq_refl)
    as [branchId [Hname [Hdef [Hfree [Hrs0 [Hbs0 [_ [Hget [_ Hbranch]]]]]]]]].
  unfold foundBranch. rewrite Hdef. cbn [assertNonNull]. rewrite Hbranch.
  cbn [branch_id].
  destruct (createCommit uuidv7 (repo_id repo) _ (Some None) None db0)
    as [[created|e] db1] eqn:Hc; [|discriminate].
  assert (Hh0 : history_ok db0 = true)
    by (unfold history_ok; rewrite Hc0; exact Hh).
  pose proof (createCommit_keeps_history _ _ _ _ _ _ Hh0 Hc) as Hh1.
  destruct (createCommit_inv _ _ _ _ _ _ Hc)
    as [Hr1 [Hb1 [Hf1 [Erow [Hcs1 [Hnew _]]]]]].
  match goal with
  | |- context [writeFiles (commit_id created) ?l db1] =>
      set (given := l);
      destruct (writeFiles (commit_id created) given db1)
        as [[written|e] db2] eqn:Hw; [|discriminate]
  end.
  destruct (writeFiles_frame _ _ _ Hw)
    as [Hr2 [_ [Hb2 [rows [Hf2' [_ Hlen]]]]]].
  destruct (Hlen written eq_refl) as [-> Hlength].
  destruct (writeFiles_rows _ _ _ Hw) as [Hall [Hf2 [Hcs2 _]]].
  destruct (updateBranchHead branchId (commit_id created) db2)
    as [[u|e] db3] eqn:Hup; [|discriminate].
  apply updateBranchHead_effect in Hup. subst db3.
  intros [= <- <- <- <-].
  exists repo, branchId, rows. simpl.
  repeat match goal with |- _ /\ _ => split end;
    try congruence; try (rewrite Erow; reflexivity).
  - unfold getRepositoryById in *. simpl. rewrite Hr2, Hr1. exact Hget.
  - unfold getBranchById, branchById in *. simpl. rewrite Hb2, Hb1.
    exact (@find_setHead _ (commit_id created) _ _ Hbranch).
  - rewrite Hlength. unfold given. apply length_map.
  - intros Hprev input Hin text Htext.
    assert (Hu1 : files_unique db1 = true)
      by (unfold files_unique; rewrite Hf1, Hf0; exact Hu).
    assert (Hnew0 : commitExists db (commit_id created) = false)
      by (unfold commitExists in *; rewrite <- Hc0; exact Hnew).
    assert (Hfresh : forall f, In f (files db1) ->
                               file_commit_id f <> commit_id created).
    { rewrite Hf1, Hf0. apply fresh_commit_has_no_files; assumption. }
    set (input' := mkFileInput (in_path input) (in_content input)
                     (Some false) (Some false) (in_previousPath input)).
    assert (Hin' : In input' given).
    { unfold given. apply in_map_iff. exists input. auto. }
    assert (Hprev' : forall i, In i given -> in_previousPath i = None).
    { intros i Hi. unfold given in Hi. apply in_map_iff in Hi.
      destruct Hi as [i0 [<- Hi0]]. simpl. apply Hprev, Hi0. }
    pose proof (@written_files_read_back order_by_limit_1 Hlimit
                  (commit_id created) given db1 db2 rows Hh1 Hu1 Hid
                  (@commitExists_snoc db0 db1 created Hcs1) Hfresh Hw Hprev'
                  input' Hin')
      as Hread.
    simpl in Hread.
    set (db3 := mkDB (repositories db2) (commits db2)
                  (List.map (setHead branchId (commit_id created))
                     (branches db2))
                  (files db2) (uuid_seq db2)).
    rewrite (readFile_depends order_by_limit_1 db3 db2
               (commit_id created) (in_path input) eq_refl eq_refl).
    destruct (Hread eq_refl text Htext) as [Hnul Hback].
    repeat split; auto.
    intros Hwf. rewrite Hback, (toWellFormed_fixed _ Hwf). reflexivity.
Qed.

End Convenience.

Lemma commitToBranch_effect_witness :
  let db := dbAfter staleBranchHistory in
  let inputs :=
    [mkFileInput (js "docs\\c.txt") (Some (js "see" ++ [56832%N])) None None
       None;
     mkFileInput (js "/a.txt") (Some []) None (Some true) None] in
  let out := commitToBranch seqUuid (js "main") (js "add") inputs db in
  let commit := mkCommit (js "u3") R1 (Some (js "u2")) None (js "add") in
  exists branch rows,
    getBranchById db (js "main") = Some branch
    /\ repositories (snd out) = repositories db
    /\ commits (snd out) = commits db ++ [commit]
    /\ commit_repository_id commit = branch_repository_id branch
    /\ parent_commit_id commit = head_commit_id branch
    /\ merged_from_commit_id commit = None
    /\ commit_message commit = (js "add")
    /\ files (snd out) = files db ++ rows
    /\ Forall2 (rowOf (commit_id commit)) inputs rows
    /\ branches (snd out)
       = List.map (setHead (js "main") (commit_id commit)) (branches db)
    /\ Some (mkBranch (js "main") R1 (js "main") (Some (js "u3")))
       = Some (mkBranch (branch_id branch) (branch_repository_id branch)
                 (branch_name branch) (Some (commit_id commit)))
    /\ ((forall i, In i inputs -> in_previousPath i = None) ->
        forall input, In input inputs ->
          if orFalse (in_isDeleted input)
          then readFile first_least (snd out) (commit_id commit)
                 (in_path input) = Ok None
          else orFalse (in_isSymlink input) = false ->
               forall text, in_content input = Some text ->
                 existsb (N.eqb 0) text = false
                 /\ readFile first_least (snd out) (commit_id commit)
                      (in_path input) = Ok (Some (toWellFormed text))
                 /\ (isWellFormed text = true ->
                     readFile first_least (snd out) (commit_id commit)
                       (in_path input) = Ok (Some text))).
Proof.
  intros db inputs out commit.
  apply (@commitToBranch_effect first_least first_least_admissible seqUuid
           (js "main") (js "add") inputs db (snd out) commit
           (Some (mkBranch (js "main") R1 (js "main") (Some (js "u3")))));
    reflexivity.
Defined.

Lemma initRepository_effect_witness :
  let db := emptyRepository in
  let inputs :=
    [mkFileInput (js "docs\\c.txt") (Some (js "see" ++ [56832%N])) None
       (Some true) None;
     mkFileInput (js "/a.txt") (Some []) (Some true) None None] in
  let out := initRepository seqUuid (js "docs") inputs None db in
  let commit := mkCommit (js "u2") (js "u0") None None
                  (js "Initial commit") in
  exists repo branchId rows,
    Some (mkRepository (js "u0") (js "docs") (Some (js "u1"))) = Some repo
    /\ repo_name repo = js "docs"
    /\ default_branch_id repo = Some branchId
    /\ getRepository db (js "docs") = None
    /\ Some (mkBranch (js "u1") (js "u0") (js "main") (Some (js "u2")))
       = Some (mkBranch branchId (repo_id repo) (js "main")
                 (Some (commit_id commit)))
    /\ repositories (snd out) = repositories db ++ [repo]
    /\ branches (snd out)
       = List.map (setHead branchId (commit_id commit))
           (branches db ++ [mkBranch branchId (repo_id repo) (js "main") None])
    /\ commits (snd out) = commits db ++ [commit]
    /\ commit_repository_id commit = repo_id repo
    /\ parent_commit_id commit = None
    /\ merged_from_commit_id commit = None
    /\ commit_message commit = js "Initial commit"
    /\ files (snd out) = files db ++ rows
    /\ length rows = length inputs
    /\ ((forall i, In i inputs -> in_previousPath i = None) ->
        forall input, In input inputs ->
        forall text, in_content input = Some text ->
          existsb (N.eqb 0) text = false
          /\ readFile first_least (snd out) (commit_id commit)
               (in_path input) = Ok (Some (toWellFormed text))
          /\ (isWellFormed text = true ->
              readFile first_least (snd out) (commit_id commit)
                (in_path input) = Ok (Some text))).
Proof.
  intros db inputs out commit.
  apply (@initRepository_effect first_least first_least_admissible seqUuid
           (js "docs") inputs None db (snd out)
           (Some (mkRepository (js "u0") (js "docs") (Some (js "u1"))))
           (Some (mkBranch (js "u1") (js "u0") (js "main") (Some (js "u2"))))
           commit);
    reflexivity.
Defined.

(* ================================================================= *)
(** * The history of a path *)

Section FileHistory.

Variable db : DB.
Hypothesis Hhistory : history_ok db = true.



End FileHistory.



(* ================================================================= *)
(** * Serving a file *)

(** X29.  Serving what was written: once [writeFile] has stored a plain
    file in a commit (which held no delta moving a file away from that
    path), the loader of the file route answers a request for that commit
    and path with the text that was written, as the database encodes it,
    as the body (every surrogate without its partner replaced by U+FFFD,
    so a well-formed text is served as it was written), with the length
    of the text in code units as the content length, and with the media
    type of the requested path; except that a file whose text is empty is
    reported as not found. *)
Theorem loader_serves_written_file (order_by_limit_1 : Limit1)
    (mediaType : JsString -> JsString) (commitId : Uuid) (p text : JsString)
    (db db' : DB) (row : FileRow) :
  admissible order_by_limit_1 ->
  history_ok db = true ->
  files_unique db = true ->
  jsFalsy commitId = false ->
  writeFile commitId p (Some text) noOptions db = (Ok row, db') ->
  (forall g, In g (files db) -> file_commit_id g = commitId ->
             previous_path g <> Some (path row)) ->
  loader order_by_limit_1 mediaType db' (Some commitId) (Some p)
  = (if jsFalsy text then Failed FileNotFound
     else Done (mkResponse (toWellFormed text) (toString (length text))
                  (js "public, max-age=31536000, immutable") (mediaType p)))
  /\ (isWellFormed text = true -> jsFalsy text = false ->
      loader order_by_limit_1 mediaType db' (Some commitId) (Some p)
      = Done (mkResponse text (toString (length text))
                (js "public, max-age=31536000, immutable") (mediaType p))).
Proof.
  intros Hlimit Hh Hu Hf H Hmoved.
  destruct (written_db_invariants _ _ _ _ _ Hh Hu H)
    as [Hh' [Hu' [He [Hn [Hid [Hfiles Hnew]]]]]].
  destruct (writeFile_inv _ _ _ _ _ H)
    as [[e [? _]]|[row' [Hr [Hrow _]]]]; [discriminate|].
  injection Hr as <-.
  destruct (fileRowFor_ok _ _ _ _ Hrow) as [_ [_ [Hdel [_ Hbody]]]].
  simpl in Hdel. destruct (Hbody Hdel) as [body [Eb [_ Hc]]].
  injection Eb as <-.
  destruct (storedText_ok _ Hc) as [_ Hstored].
  assert (Hread : readFile order_by_limit_1 db' commitId p
                  = Ok (Some (toWellFormed text))).
  { rewrite <- Hstored.
    apply (@own_write_read order_by_limit_1 Hlimit db' commitId p (path row)
             row); auto.
    - rewrite Hfiles. apply in_or_app. right. left. reflexivity.
    - intros g Hg Hgc Hprev. rewrite Hfiles in Hg.
      apply in_app_or in Hg. destruct Hg as [Hg|[<-|[]]]; [|reflexivity].
      exfalso. apply (Hmoved g Hg); congruence. }
  assert (Hp : jsFalsy p = false).
  { destruct p; [|reflexivity]. discriminate Hn. }
  assert (Hserved :
    loader order_by_limit_1 mediaType db' (Some commitId) (Some p)
    = if jsFalsy text then Failed FileNotFound
      else Done (mkResponse (toWellFormed text) (toString (length text))
                   (js "public, max-age=31536000, immutable") (mediaType p))).
  { unfold loader. rewrite Hf, Hp, Hread. simpl.
    rewrite toWellFormed_length.
    destruct text as [|c text]; [reflexivity|].
    pose proof (toWellFormed_length (c :: text)) as L.
    destruct (toWellFormed (c :: text)); [discriminate L | reflexivity]. }
  split; [exact Hserved|].
  intros Hwf Hne. rewrite Hserved, Hne, (toWellFormed_fixed _ Hwf).
  reflexivity.
Qed.

Lemma loader_serves_written_file_witness :
  let db := dbAfter (createCommit seqUuid R1 (js "init") (Some None) None) in
  let text := js "hello world!" in
  let db' := snd (writeFile (js "u0") (js "notes.txt") (Some text)
                    noOptions db) in
  let served :=
    loader first_least (fun _ => js "text/plain") db' (Some (js "u0"))
      (Some (js "notes.txt")) in
  served
  = (if jsFalsy text then Failed FileNotFound
     else Done (mkResponse (toWellFormed text) (toString (length text))
                  (js "public, max-age=31536000, immutable")
                  (js "text/plain")))
  /\ (isWellFormed text = true -> jsFalsy text = false ->
      served
      = Done (mkResponse text (toString (length text))
                (js "public, max-age=31536000, immutable")
                (js "text/plain"))).
Proof.
  intros db text db' served.
  apply (@loader_serves_written_file first_least (fun _ => js "text/plain")
           (js "u0") (js "notes.txt") text db db'
           (mkFileRow (js "u0") (js "/notes.txt") None text false false)
           first_least_admissible);
    try reflexivity.
  intros g Hg. vm_compute in Hg. destruct Hg.
Defined.

(* ================================================================= *)
(** * Statements and their parameters *)

Section SqlBuilderProperties.

Variable JsValue : Type.

Lemma placeholders_app (a b : list Piece) :
  placeholders (a ++ b) = placeholders a + placeholders b.
Proof.
  induction a as [|[s|] a IH]; simpl; [reflexivity | exact IH|].
  rewrite IH. reflexivity.
Qed.

Lemma weave_values (givenStrings : list JsString) :
  forall givenValues : list (Interpolable JsValue),
    snd (weave givenStrings givenValues)
    = flat_map (fun value => snd (pushed value)) givenValues.
Proof.
  induction givenStrings as [|s strings' IH]; intros givenValues.
  - simpl. induction givenValues as [|v rest IHv]; simpl; [reflexivity|].
    rewrite IHv. reflexivity.
  - destruct givenValues as [|v rest]; simpl.
    + apply (IH []).
    + rewrite IH. reflexivity.
Qed.

Lemma weave_placeholders (givenStrings : list JsString) :
  forall givenValues : list (Interpolable JsValue),
    (forall s, In (Nested s) givenValues ->
               placeholders (strings s) = length (values s)) ->
    placeholders (fst (weave givenStrings givenValues))
    = length (snd (weave givenStrings givenValues)).
Proof.
  assert (Hone : forall v : Interpolable JsValue,
            (forall s, v = Nested s ->
                       placeholders (strings s) = length (values s)) ->
            placeholders (fst (pushed v)) = length (snd (pushed v))).
  { intros [s|v] H; simpl; [apply H|]; reflexivity. }
  induction givenStrings as [|s strings' IH]; intros givenValues Hok.
  - simpl. induction givenValues as [|v rest IHv]; simpl; [reflexivity|].
    rewrite placeholders_app, length_app, IHv.
    + rewrite Hone; [reflexivity|]. intros n ->. apply Hok. left; reflexivity.
    + intros n Hn. apply Hok. right. exact Hn.
  - destruct givenValues as [|v rest]; simpl.
    + apply (IH []). intros n [].
    + rewrite placeholders_app, length_app, IH.
      * rewrite Hone; [reflexivity|]. intros n ->. apply Hok.
        left; reflexivity.
      * intros n Hn. apply Hok. right. exact Hn.
Qed.

Lemma weave_alike (givenStrings : list JsString) :
  forall givenValues givenValues' : list (Interpolable JsValue),
    Forall2 (@alike JsValue) givenValues givenValues' ->
    fst (weave givenStrings givenValues)
    = fst (weave givenStrings givenValues').
Proof.
  assert (Hone : forall v v' : Interpolable JsValue,
            alike v v' -> fst (pushed v) = fst (pushed v')).
  { intros [s|v] [s'|v'] H; simpl in *; auto; contradiction. }
  induction givenStrings as [|s strings' IH]; intros vs vs' Hall.
  - simpl. induction Hall as [|v v' rest rest' Hv Hrest IHv]; simpl;
      [reflexivity|].
    rewrite (Hone v v' Hv), IHv. reflexivity.
  - destruct Hall as [|v v' rest rest' Hv Hrest]; simpl; [reflexivity|].
    rewrite (Hone v v' Hv), (IH rest rest' Hrest). reflexivity.
Qed.

(** X30.  A statement built from template strings and values binds the
    values it was given, in order, with those of nested statements in
    their place, and holds as many placeholders as values, provided the
    nested statements do.  The text [compile] produces does not depend on
    the plain values: replacing them by any others (and nested statements
    by statements with the same pieces) yields the same text, so no value
    is ever spliced into the SQL. *)
Theorem newStatement_parameters (strings_ : list JsString)
    (values_ : list (Interpolable JsValue)) (statement : Statement JsValue) :
  newStatement strings_ values_ = Done statement ->
  (forall s, In (Nested s) values_ ->
             placeholders (strings s) = length (values s)) ->
  length strings_ = S (length values_)
  /\ values statement = flat_map (fun value => snd (pushed value)) values_
  /\ placeholders (strings statement) = length (values statement)
  /\ forall values' : list (Interpolable JsValue),
       Forall2 (@alike JsValue) values_ values' ->
       exists statement',
         newStatement strings_ values' = Done statement'
         /\ compile statement' = compile statement.
Proof.
  unfold newStatement.
  destruct (Nat.eqb (length strings_) (S (length values_))) eqn:Hlen;
    [|discriminate].
  simpl. intros [= <-] Hok. simpl.
  apply Nat.eqb_eq in Hlen.
  split; [exact Hlen|].
  split; [apply weave_values|].
  split; [apply weave_placeholders, Hok|].
  intros values' Hall.
  assert (Hlen' : length values' = length values_).
  { clear - Hall. induction Hall; simpl; congruence. }
  rewrite Hlen', Hlen, Nat.eqb_refl. simpl.
  eexists. split; [reflexivity|].
  unfold compile. simpl.
  rewrite (weave_alike strings_ Hall). reflexivity.
Qed.

End SqlBuilderProperties.

Lemma newStatement_parameters_witness :
  let inner :=
    mkStatement [Text (js "id = "); Placeholder; Text []] [js "42"] in
  let statement :=
    mkStatement
      [Text (js "select * from t where "); Text (js "id = "); Placeholder;
       Text []; Text (js " and name = "); Placeholder; Text []]
      [js "42"; js "it's"] in
  let strings_ := [js "select * from t where "; js " and name = "; []] in
  let values_ := [Nested inner; Plain (js "it's")] in
  length strings_ = S (length values_)
  /\ values statement = flat_map (fun value => snd (pushed value)) values_
  /\ placeholders (strings statement) = length (values statement)
  /\ forall values' : list (Interpolable JsString),
       Forall2 (@alike JsString) values_ values' ->
       exists statement',
         newStatement strings_ values' = Done statement'
         /\ compile statement' = compile statement.
Proof.
  intros inner statement strings_ values_.
  apply (@newStatement_parameters JsString strings_ values_ statement).
  - reflexivity.
  - intros s [E|[E|[]]]; [injection E as <-; reflexivity | discriminate E].
Defined.
